(** * OpenFlow East-West DVR agent: flow reconciliation

    A shallow embedding of
    [neutron/plugins/openvswitch/agent/openflow_ew_dvr_agent.py]
    (class [OFEWDVRAgent]) and the properties of its reconciliation
    engine.

    Conventions of the embedding.
    - Python dicts are [gmap]s, Python sets are [gset]s; iterating one of
      them visits [map_to_list] / [elements].  Python leaves the order of
      a set unspecified: what a loop over a set issues is stated up to
      the order of its rounds.
    - A value that is either a string or [None] is an [option string].
    - The agent object and the bridge are threaded through a state and
      exception monad [M].  A bridge call may raise: the state carries the
      number of flow operations the bridge still accepts ([None]: it never
      fails).
    - The answers of the collaborators during one call (RPC results, port
      numbers, clock readings) are collected in an [Env].  Clock readings
      are integers (a fixed resolution of [time.time()]).
    - The router, subnet and port dicts fetched from the plugin are stored
      by reference in [registered_routers]; the only in-place write to
      them, [port['host'] = None], is therefore a write into
      [registered_routers] at the position of the port. *)

From Stdlib Require Import ZArith.
From stdpp Require Import gmap strings list fin_maps pretty.

Local Open Scope string_scope.
Local Open Scope list_scope.
Local Open Scope Z_scope.

(** ** Data model *)

(** A port dict: keys ['mac'], ['ip'], ['host'], ['name']. *)
Record Port := mkPort {
  port_mac : string;
  port_ip : string;
  port_host : option string;
  port_name : string
}.

(** A subnet dict: keys ['cidr'], ['gateway_mac'], ['seg_id'], ['ports']. *)
Record Subnet := mkSubnet {
  subnet_cidr : string;
  subnet_gateway_mac : string;
  subnet_seg_id : Z;
  subnet_ports : gmap string Port
}.

(** A router is a dict subnet_id -> subnet; a topology is a dict
    dvr_id -> router. *)
Abbreviation Router := (gmap string Subnet).
Abbreviation Topology := (gmap string (gmap string Subnet)).

(** An entry of the DVR MAC roster: keys ['host'], ['mac_address']. *)
Record DvrMac := mkDvrMac {
  mac_host : string;
  mac_address : string
}.

(** Keyword arguments of [add_flow] / [delete_flows]. *)
Record FlowArgs := mkFlow {
  f_table : option Z;
  f_priority : option Z;
  f_dl_src : option string;
  f_dl_dst : option string;
  f_proto : option string;
  f_ip_dst : option string;
  f_actions : option string
}.

Inductive FlowOp :=
  | add_flow (kw : FlowArgs)
  | delete_flows (kw : FlowArgs).

Inductive Bridge :=
  | int_br
  | phys_br (name : string).

Global Instance Port_eq_dec : EqDecision Port.
Proof. solve_decision. Defined.
Global Instance Subnet_eq_dec : EqDecision Subnet.
Proof. solve_decision. Defined.
Global Instance FlowArgs_eq_dec : EqDecision FlowArgs.
Proof. solve_decision. Defined.
Global Instance FlowOp_eq_dec : EqDecision FlowOp.
Proof. solve_decision. Defined.
Global Instance Bridge_eq_dec : EqDecision Bridge.
Proof. solve_decision. Defined.

Definition OF_EW_DVR_DST : Z := 1.
Definition OF_EW_DVR_SRC : Z := 2.
(** [neutron.agent.linux.ovs_lib.INVALID_OFPORT] *)
Definition INVALID_OFPORT : Z := -1.

(** The answers of the collaborators during one call of the agent. *)
Record Env := mkEnv {
  (** [int_br.get_port_ofport(name)] *)
  get_port_ofport : string → Z;
  (** [plugin_rpc.get_dvr_mac_address_by_host(context, host)]['mac_address'];
      [None] when the call raises. *)
  get_dvr_mac_address_by_host : option string → option string;
  (** [plugin_rpc.get_dvr_mac_address_list(context)];
      [None] when the call raises. *)
  get_dvr_mac_address_list : option (list DvrMac);
  (** [plugin_rpc.get_openflow_ew_dvrs(context, host)];
      [None] when the call raises. *)
  get_openflow_ew_dvrs : option string → option (gmap string (gmap string Subnet));
  (** [time.time()] at the throttle test and at the end of the sync. *)
  time_at_check : Z;
  time_at_end : Z
}.

(** The agent object together with the bridges it drives. *)
Record St := mkSt {
  host : option string;
  sync_interval : Z;
  int_ofports : string;
  dvr_mac_address : option string;
  registered_dvr_macs : gset string;
  registered_routers : gmap string (gmap string Subnet);
  last_sync : Z;
  (** flow operations accepted by the bridges so far, oldest first *)
  flow_log : list (Bridge * FlowOp);
  (** flow operations the bridges still accept before raising *)
  budget : option nat;
  (** number of calls of [get_openflow_ew_dvrs] so far *)
  fetches : nat
}.

Definition set_dvr_mac_address (v : option string) (st : St) : St :=
  mkSt (host st) (sync_interval st) (int_ofports st) v
       (registered_dvr_macs st) (registered_routers st) (last_sync st)
       (flow_log st) (budget st) (fetches st).
Definition set_registered_dvr_macs (v : gset string) (st : St) : St :=
  mkSt (host st) (sync_interval st) (int_ofports st) (dvr_mac_address st)
       v (registered_routers st) (last_sync st)
       (flow_log st) (budget st) (fetches st).
Definition set_registered_routers (v : gmap string (gmap string Subnet)) (st : St) : St :=
  mkSt (host st) (sync_interval st) (int_ofports st) (dvr_mac_address st)
       (registered_dvr_macs st) v (last_sync st)
       (flow_log st) (budget st) (fetches st).
Definition set_last_sync (v : Z) (st : St) : St :=
  mkSt (host st) (sync_interval st) (int_ofports st) (dvr_mac_address st)
       (registered_dvr_macs st) (registered_routers st) v
       (flow_log st) (budget st) (fetches st).
Definition set_flow_log (v : list (Bridge * FlowOp)) (st : St) : St :=
  mkSt (host st) (sync_interval st) (int_ofports st) (dvr_mac_address st)
       (registered_dvr_macs st) (registered_routers st) (last_sync st)
       v (budget st) (fetches st).
Definition set_budget (v : option nat) (st : St) : St :=
  mkSt (host st) (sync_interval st) (int_ofports st) (dvr_mac_address st)
       (registered_dvr_macs st) (registered_routers st) (last_sync st)
       (flow_log st) v (fetches st).
Definition set_fetches (v : nat) (st : St) : St :=
  mkSt (host st) (sync_interval st) (int_ofports st) (dvr_mac_address st)
       (registered_dvr_macs st) (registered_routers st) (last_sync st)
       (flow_log st) (budget st) v.

(** ** The state and exception monad *)

(** [KeyError]: a dict has no such key; [FlowError]: a bridge call
    raised; [RpcError]: a call to the plugin raised outside a [try]. *)
Inductive Exn := KeyError | FlowError | RpcError.

Inductive Res (A : Type) :=
  | Ok (a : A)
  | Raise (e : Exn).
Arguments Ok {A} a.
Arguments Raise {A} e.

Definition M (A : Type) : Type := St → Res A * St.

Global Instance M_ret : MRet M := λ A a st, (Ok a, st).
Global Instance M_bind : MBind M := λ A B k m st,
  match m st with
  | (Ok a, st') => k a st'
  | (Raise e, st') => (Raise e, st')
  end.
Definition raise {A} (e : Exn) : M A := λ st, (Raise e, st).
Definition get : M St := λ st, (Ok st, st).
Definition modify (f : St → St) : M unit := λ st, (Ok tt, f st).

(** [for x in l: body(x)] *)
Fixpoint forM_ {A} (l : list A) (body : A → M unit) : M unit :=
  match l with
  | [] => mret tt
  | x :: l' => body x;; forM_ l' body
  end.

(** [for x in l: body(x)] where the body updates a local object [acc]. *)
Fixpoint foldM {A B} (body : B → A → M B) (acc : B) (l : list A) : M B :=
  match l with
  | [] => mret acc
  | x :: l' => acc' ← body acc x; foldM body acc' l'
  end.

(** A call of [add_flow] / [delete_flows] on a bridge. *)
Definition emit (br : Bridge) (op : FlowOp) : M unit := λ st,
  match budget st with
  | Some O => (Raise FlowError, st)
  | Some (S n) => (Ok tt, set_budget (Some n) (set_flow_log (flow_log st ++ [(br, op)]) st))
  | None => (Ok tt, set_flow_log (flow_log st ++ [(br, op)]) st)
  end.

(** [d.pop(k)] on a local dict: the value and the remaining dict. *)
Definition pop {V} (k : string) (d : gmap string V) : M (V * gmap string V) :=
  match d !! k with
  | Some v => mret (v, delete k d)
  | None => raise KeyError
  end.

(** Python truthiness of a string-or-None. *)
Definition truthy (o : option string) : bool :=
  match o with
  | Some s => negb (String.eqb s "")
  | None => false
  end.

(** ["%s" % o] *)
Definition py_str (o : option string) : string := default "None" o.

(** ** The agent *)

(** [__init__]: [int_ofports] is the comma-separated list of the port
    numbers of the integration bridge. *)
Definition init (int_br_ofports : gmap string Z) (agent_host : option string)
    (interval : Z) : St :=
  {| host := agent_host;
     sync_interval := interval;
     int_ofports := String.concat "," (pretty <$> (map_to_list int_br_ofports).*2);
     dvr_mac_address := None;
     registered_dvr_macs := ∅;
     registered_routers := ∅;
     last_sync := 0;
     flow_log := [];
     budget := None;
     fetches := 0 |}.

(** [set(subnet['cidr'] for subnet in dvr.values())] *)
Definition cidrs_of (dvr : gmap string Subnet) : gset string :=
  list_to_set (subnet_cidr <$> (map_to_list dvr).*2).

(** [set(subnet['gateway_mac'] for subnet in dvr.values())] *)
Definition gateway_macs_of (dvr : gmap string Subnet) : gset string :=
  list_to_set (subnet_gateway_mac <$> (map_to_list dvr).*2).

(** [port['host'] = None] on the port object stored in the registry under
    router [dvr_id], subnet [subnet_id], port [port_id]. *)
Definition clear_host (p : Port) : Port :=
  mkPort (port_mac p) (port_ip p) None (port_name p).
Definition clear_subnet_port_host (port_id : string) (s : Subnet) : Subnet :=
  mkSubnet (subnet_cidr s) (subnet_gateway_mac s) (subnet_seg_id s)
           (alter clear_host port_id (subnet_ports s)).
Definition clear_port_host (dvr_id subnet_id port_id : string)
    (routers : gmap string (gmap string Subnet)) : gmap string (gmap string Subnet) :=
  alter (alter (clear_subnet_port_host port_id) subnet_id) dvr_id routers.

Definition _port_moved_into_host (self : St) (old_port new_port : Port) : bool :=
  let current_host := port_host new_port in
  let last_host := port_host old_port in
  bool_decide (current_host = host self) && bool_decide (current_host ≠ last_host).

Definition _port_moved_out_of_host (self : St) (old_port new_port : Port) : bool :=
  let current_host := port_host new_port in
  let last_host := port_host old_port in
  bool_decide (last_host = host self) && bool_decide (current_host ≠ last_host).

(** ** Keyword arguments of the flow calls

    Each definition is the keyword list of one [add_flow] or [delete_flows]
    call of the source. *)

(** [_set_src_to_dvr] *)
Definition kw_set_src_to_dvr (self : St) : FlowArgs :=
  let actions := "mod_dl_src:" +:+ py_str (dvr_mac_address self) +:+ ","
                 +:+ int_ofports self in
  {| f_table := Some OF_EW_DVR_SRC; f_priority := Some 1;
     f_dl_src := None; f_dl_dst := None; f_proto := None;
     f_ip_dst := None; f_actions := Some actions |}.

(** [setup_dvr_flows_on_phys_brs] *)
Definition kw_phys_br (self : St) : FlowArgs :=
  {| f_table := None; f_priority := Some 3;
     f_dl_src := dvr_mac_address self; f_dl_dst := None;
     f_proto := None; f_ip_dst := None; f_actions := Some "normal" |}.

(** The two rules for the DVR MAC of another host, and their removal. *)
Definition kw_add_resubmit (mac : string) : FlowArgs :=
  {| f_table := None; f_priority := Some 5;
     f_dl_src := Some mac; f_dl_dst := None; f_proto := None;
     f_ip_dst := None;
     f_actions := Some ("resubmit(," +:+ pretty OF_EW_DVR_SRC +:+ ")") |}.
Definition kw_add_drop (mac : string) : FlowArgs :=
  {| f_table := Some OF_EW_DVR_SRC; f_priority := Some 2;
     f_dl_src := Some mac; f_dl_dst := None; f_proto := None;
     f_ip_dst := None; f_actions := Some "drop" |}.
Definition kw_del_resubmit (oldmac : string) : FlowArgs :=
  {| f_table := None; f_priority := None;
     f_dl_src := Some oldmac; f_dl_dst := None; f_proto := None;
     f_ip_dst := None;
     f_actions := Some ("resubmit(," +:+ pretty OF_EW_DVR_SRC +:+ ")") |}.
Definition kw_del_drop (oldmac : string) : FlowArgs :=
  {| f_table := Some OF_EW_DVR_SRC; f_priority := None;
     f_dl_src := Some oldmac; f_dl_dst := None; f_proto := None;
     f_ip_dst := None; f_actions := Some "drop" |}.

(** [_add_flows_to_other_subnets] / [_del_flows_to_other_subnets] *)
Definition kw_add_other_subnets (gateway_mac cidr : string) : FlowArgs :=
  {| f_table := None; f_priority := Some 2;
     f_dl_src := None; f_dl_dst := Some gateway_mac;
     f_proto := Some "ip"; f_ip_dst := Some cidr;
     f_actions := Some ("resubmit(," +:+ pretty OF_EW_DVR_DST +:+ ")") |}.
Definition kw_del_other_subnets (gateway_mac cidr : string) : FlowArgs :=
  {| f_table := None; f_priority := None;
     f_dl_src := None; f_dl_dst := Some gateway_mac;
     f_proto := Some "ip"; f_ip_dst := Some cidr;
     f_actions := None |}.

(** [_add_flows_to_port] / [_del_flows_to_port] *)
Definition kw_add_to_port (port : Port) (seg_id : Z) (gateway_mac : string) : FlowArgs :=
  let actions := "mod_dl_dst:" +:+ port_mac port +:+ ",mod_vlan_vid:"
                 +:+ pretty seg_id +:+ ",resubmit(,"
                 +:+ pretty OF_EW_DVR_SRC +:+ ")" in
  {| f_table := Some OF_EW_DVR_DST; f_priority := Some 2;
     f_dl_src := None; f_dl_dst := Some gateway_mac;
     f_proto := Some "ip"; f_ip_dst := Some (port_ip port);
     f_actions := Some actions |}.
Definition kw_del_to_port (port : Port) (gateway_mac : string) : FlowArgs :=
  {| f_table := Some OF_EW_DVR_DST; f_priority := None;
     f_dl_src := None; f_dl_dst := Some gateway_mac;
     f_proto := Some "ip"; f_ip_dst := Some (port_ip port);
     f_actions := None |}.

(** [_add_flows_to_hosted_port] / [_del_flows_to_hosted_port] *)
Definition kw_add_hosted_port (port : Port) (gateway_mac : string) (port_ofno : Z) : FlowArgs :=
  let actions := "strip_vlan,mod_dl_src:" +:+ gateway_mac
                 +:+ ",dec_ttl,output:" +:+ pretty port_ofno in
  {| f_table := Some OF_EW_DVR_SRC; f_priority := Some 3;
     f_dl_src := None; f_dl_dst := Some (port_mac port);
     f_proto := Some "ip"; f_ip_dst := Some (port_ip port);
     f_actions := Some actions |}.
Definition kw_del_hosted_port (port : Port) : FlowArgs :=
  {| f_table := Some OF_EW_DVR_SRC; f_priority := None;
     f_dl_src := None; f_dl_dst := Some (port_mac port);
     f_proto := Some "ip"; f_ip_dst := Some (port_ip port);
     f_actions := None |}.

(** [self.registered_routers] is written through this function. *)
Definition update_registered_routers
    (f : gmap string (gmap string Subnet) → gmap string (gmap string Subnet)) : M unit :=
  modify (λ st, set_registered_routers (f (registered_routers st)) st).

Section Agent.
Context (env : Env).

Definition _set_src_to_dvr : M unit :=
  self ← get;
  if truthy (dvr_mac_address self) then
    emit int_br (add_flow (kw_set_src_to_dvr self))
  else mret tt.

Definition _get_dvr_mac_address : M unit :=
  self ← get;
  match get_dvr_mac_address_by_host env (host self) with
  | Some mac => modify (set_dvr_mac_address (Some mac))
  | None => mret tt
  end.

(** The two rules installed for the DVR MAC of another host. *)
Definition add_foreign_mac_flows (mac : string) : M unit :=
  emit int_br (add_flow (kw_add_resubmit mac));;
  emit int_br (add_flow (kw_add_drop mac));;
  modify (λ st, set_registered_dvr_macs ({[mac]} ∪ registered_dvr_macs st) st).

Definition setup_dvr_flows_on_integ_tun_br : M unit :=
  modify (set_dvr_mac_address None);;
  modify (set_registered_dvr_macs ∅);;
  modify (set_last_sync 0);;
  modify (set_registered_routers ∅);;
  _get_dvr_mac_address;;
  _set_src_to_dvr;;
  match get_dvr_mac_address_list env with
  | None => raise RpcError
  | Some dvr_macs =>
      forM_ dvr_macs (λ mac,
        self ← get;
        if bool_decide (Some (mac_address mac) = dvr_mac_address self)
           || bool_decide (Some (mac_host mac) = host self)
        then mret tt
        else add_foreign_mac_flows (mac_address mac));;
      emit int_br (add_flow
        {| f_table := Some OF_EW_DVR_DST; f_priority := Some 1;
           f_dl_src := None; f_dl_dst := None; f_proto := None;
           f_ip_dst := None; f_actions := Some "normal" |})
  end.

Definition setup_dvr_flows_on_phys_brs (phys_brs : gmap string string) : M unit :=
  self ← get;
  if negb (truthy (dvr_mac_address self)) then mret tt
  else
    forM_ (map_to_list phys_brs).*2 (λ br,
      emit (phys_br br) (add_flow (kw_phys_br self))).

(** The loop computing [dvr_host_macs]. *)
Definition dvr_host_macs_of (self : St) (dvr_macs : list DvrMac) : gset string :=
  foldl (λ acc mac,
           if bool_decide (Some (mac_address mac) = dvr_mac_address self)
              || bool_decide (Some (mac_host mac) = host self)
           then acc
           else {[mac_address mac]} ∪ acc)
        ∅ dvr_macs.

Definition del_foreign_mac_flows (oldmac : string) : M unit :=
  emit int_br (delete_flows (kw_del_resubmit oldmac));;
  emit int_br (delete_flows (kw_del_drop oldmac));;
  modify (λ st, set_registered_dvr_macs (registered_dvr_macs st ∖ {[oldmac]}) st).

Definition dvr_mac_address_update (dvr_macs : list DvrMac) : M unit :=
  self ← get;
  if negb (truthy (dvr_mac_address self)) then mret tt
  else
    let dvr_host_macs := dvr_host_macs_of self dvr_macs in
    if bool_decide (dvr_host_macs = registered_dvr_macs self) then mret tt
    else
      let dvr_macs_added := dvr_host_macs ∖ registered_dvr_macs self in
      let dvr_macs_removed := registered_dvr_macs self ∖ dvr_host_macs in
      forM_ (elements dvr_macs_removed) del_foreign_mac_flows;;
      forM_ (elements dvr_macs_added) add_foreign_mac_flows.

Definition _add_flows_to_other_subnets (gateway_mac : string)
    (cidrs : gset string) : M unit :=
  self ← get;
  if negb (truthy (dvr_mac_address self)) then mret tt
  else
    forM_ (elements cidrs) (λ cidr,
      emit int_br (add_flow (kw_add_other_subnets gateway_mac cidr))).

Definition _del_flows_to_other_subnets (gateway_mac : string)
    (cidrs : gset string) : M unit :=
  forM_ (elements cidrs) (λ cidr,
    emit int_br (delete_flows (kw_del_other_subnets gateway_mac cidr))).

Definition _add_flows_to_port (gateway_macs : gset string) (port : Port)
    (seg_id : Z) : M unit :=
  self ← get;
  if negb (truthy (dvr_mac_address self)) then mret tt
  else
    forM_ (elements gateway_macs) (λ gateway_mac,
      emit int_br (add_flow (kw_add_to_port port seg_id gateway_mac))).

Definition _del_flows_to_port (gateway_macs : gset string) (port : Port) : M unit :=
  forM_ (elements gateway_macs) (λ gateway_mac,
    emit int_br (delete_flows (kw_del_to_port port gateway_mac))).

(** [port] is the port object stored in the registry under
    [(dvr_id, subnet_id, port_id)]. *)
Definition _add_flows_to_hosted_port (dvr_id subnet_id port_id : string)
    (port : Port) (gateway_mac : string) : M unit :=
  self ← get;
  if bool_decide (port_host port ≠ host self) then mret tt
  else
    let port_ofno := get_port_ofport env (port_name port) in
    if bool_decide (port_ofno = INVALID_OFPORT) then
      (* Setting port['host'] to None for next sync. *)
      update_registered_routers (clear_port_host dvr_id subnet_id port_id)
    else
      emit int_br (add_flow (kw_add_hosted_port port gateway_mac port_ofno)).

Definition _del_flows_to_hosted_port (port : Port) : M unit :=
  self ← get;
  if bool_decide (port_host port ≠ host self) then mret tt
  else emit int_br (delete_flows (kw_del_hosted_port port)).
End Agent.

Section Reconcile.
Context (env : Env).

(** [dvr_id] names the router object that [subnet] belongs to. *)
Definition _subnet_added (dvr_id subnet_id : string) (subnet : Subnet)
    (cidrs gateway_macs : gset string) : M unit :=
  let gateway_mac := subnet_gateway_mac subnet in
  let other_cidrs := cidrs ∖ {[subnet_cidr subnet]} in
  let other_gateway_macs := gateway_macs ∖ {[gateway_mac]} in
  _add_flows_to_other_subnets gateway_mac other_cidrs;;
  forM_ (map_to_list (subnet_ports subnet)) (λ '(port_id, port),
    _add_flows_to_port other_gateway_macs port (subnet_seg_id subnet);;
    _add_flows_to_hosted_port env dvr_id subnet_id port_id port gateway_mac).

(** The body of the first loop of [_subnet_updated]; [old_ports] is
    [old_subnet['ports']], which the loop pops from. *)
Definition _subnet_updated_port (dvr_id subnet_id : string) (subnet : Subnet)
    (old_gateway_macs gateway_macs : gset string)
    (old_ports : gmap string Port) (item : string * Port)
    : M (gmap string Port) :=
  let '(port_id, port) := item in
  let gateway_mac := subnet_gateway_mac subnet in
  let other_gateway_macs := gateway_macs ∖ {[gateway_mac]} in
  match old_ports !! port_id with
  | None =>
      (* newly added port *)
      _add_flows_to_port other_gateway_macs port (subnet_seg_id subnet);;
      _add_flows_to_hosted_port env dvr_id subnet_id port_id port gateway_mac;;
      mret old_ports
  | Some _ =>
      (* known port *)
      _del_flows_to_port (old_gateway_macs ∖ gateway_macs) port;;
      _add_flows_to_port (gateway_macs ∖ old_gateway_macs) port
                         (subnet_seg_id subnet);;
      '(old_port, old_ports') ← pop port_id old_ports;
      self ← get;
      (if _port_moved_out_of_host self old_port port then
         _del_flows_to_hosted_port old_port
       else if _port_moved_into_host self old_port port then
         _add_flows_to_hosted_port env dvr_id subnet_id port_id port gateway_mac
       else mret tt);;
      mret old_ports'
  end.

Definition _subnet_updated (dvr_id subnet_id : string)
    (subnets : Subnet * Subnet) (cidrs : gset string * gset string)
    (gateway_macs : gset string * gset string) : M unit :=
  let '(old_subnet, subnet) := subnets in
  let '(old_cidrs, cidrs) := cidrs in
  let '(old_gateway_macs, gateway_macs) := gateway_macs in
  let gateway_mac := subnet_gateway_mac subnet in
  let other_gateway_macs := gateway_macs ∖ {[gateway_mac]} in
  (* delete flows to deleted subnets *)
  _del_flows_to_other_subnets gateway_mac (old_cidrs ∖ cidrs);;
  (* add flows to added subnets *)
  _add_flows_to_other_subnets gateway_mac (cidrs ∖ old_cidrs);;
  old_ports ← foldM (_subnet_updated_port dvr_id subnet_id subnet
                                          old_gateway_macs gateway_macs)
                    (subnet_ports old_subnet)
                    (map_to_list (subnet_ports subnet));
  forM_ (map_to_list old_ports).*2 (λ port,
    _del_flows_to_port other_gateway_macs port;;
    _del_flows_to_hosted_port port).

Definition _subnet_deleted (subnet : Subnet)
    (cidrs gateway_macs : gset string) : M unit :=
  let gateway_mac := subnet_gateway_mac subnet in
  let other_cidrs := cidrs ∖ {[subnet_cidr subnet]} in
  let other_gateway_macs := gateway_macs ∖ {[gateway_mac]} in
  _del_flows_to_other_subnets gateway_mac other_cidrs;;
  forM_ (map_to_list (subnet_ports subnet)).*2 (λ port,
    _del_flows_to_port other_gateway_macs port;;
    _del_flows_to_hosted_port port).

(** [self.registered_routers.pop(dvr_id)] *)
Definition pop_registered_router (dvr_id : string) : M (gmap string Subnet) :=
  self ← get;
  match registered_routers self !! dvr_id with
  | Some dvr =>
      update_registered_routers (delete dvr_id);;
      mret dvr
  | None => raise KeyError
  end.

(** [self.registered_routers[dvr_id] = new_dvr] *)
Definition register_router (dvr_id : string) (new_dvr : gmap string Subnet) : M unit :=
  update_registered_routers (insert dvr_id new_dvr).

Definition _dvr_added (dvr_id : string) (new_dvr : gmap string Subnet) : M unit :=
  register_router dvr_id new_dvr;;
  let cidrs := cidrs_of new_dvr in
  let gateway_macs := gateway_macs_of new_dvr in
  forM_ (map_to_list new_dvr) (λ '(subnet_id, subnet),
    _subnet_added dvr_id subnet_id subnet cidrs gateway_macs).

(** The body of the first loop of [_dvr_updated]; [old_dvr] is popped
    from. *)
Definition _dvr_updated_subnet (dvr_id : string)
    (old_cidrs cidrs old_gateway_macs gateway_macs : gset string)
    (old_dvr : gmap string Subnet) (item : string * Subnet)
    : M (gmap string Subnet) :=
  let '(subnet_id, subnet) := item in
  match old_dvr !! subnet_id with
  | None =>
      (* newly added subnet *)
      _subnet_added dvr_id subnet_id subnet cidrs gateway_macs;;
      mret old_dvr
  | Some _ =>
      '(old_subnet, old_dvr') ← pop subnet_id old_dvr;
      _subnet_updated dvr_id subnet_id (old_subnet, subnet)
                      (old_cidrs, cidrs) (old_gateway_macs, gateway_macs);;
      mret old_dvr'
  end.

Definition _dvr_updated (dvr_id : string) (new_dvr : gmap string Subnet) : M unit :=
  old_dvr ← pop_registered_router dvr_id;
  register_router dvr_id new_dvr;;
  let old_cidrs := cidrs_of old_dvr in
  let old_gateway_macs := gateway_macs_of old_dvr in
  let cidrs := cidrs_of new_dvr in
  let gateway_macs := gateway_macs_of new_dvr in
  old_dvr ← foldM (_dvr_updated_subnet dvr_id old_cidrs cidrs
                                       old_gateway_macs gateway_macs)
                  old_dvr (map_to_list new_dvr);
  forM_ (map_to_list old_dvr).*2 (λ subnet,
    _subnet_deleted subnet old_cidrs old_gateway_macs).

Definition _dvr_deleted (dvr_id : string) : M unit :=
  deleted_dvr ← pop_registered_router dvr_id;
  let cidrs := cidrs_of deleted_dvr in
  let gateway_macs := gateway_macs_of deleted_dvr in
  forM_ (map_to_list deleted_dvr).*2 (λ subnet,
    _subnet_deleted subnet cidrs gateway_macs).

(** The loop of [sync_dvr_ports] that sorts the registered routers into
    [(dvrs_to_delete, dvrs_to_update)]. *)
Definition classify_registered (registered sync_dvrs : gmap string (gmap string Subnet))
    : gset string * gset string :=
  foldl (λ '(dvrs_to_delete, dvrs_to_update) dvr_id,
           match sync_dvrs !! dvr_id with
           | None => ({[dvr_id]} ∪ dvrs_to_delete, dvrs_to_update)
           | Some _ => (dvrs_to_delete, {[dvr_id]} ∪ dvrs_to_update)
           end)
        (∅, ∅) (map_to_list registered).*1.

(** The part of [sync_dvr_ports] that follows a successful fetch. *)
Definition reconcile (sync_dvrs : gmap string (gmap string Subnet)) : M unit :=
  self ← get;
  let '(dvrs_to_delete, dvrs_to_update) :=
    classify_registered (registered_routers self) sync_dvrs in
  (* handle deleted dvrs *)
  forM_ (elements dvrs_to_delete) _dvr_deleted;;
  (* router is known, check update *)
  sync_dvrs ← foldM (λ sync_dvrs dvr_id,
                       '(new_dvr, sync_dvrs') ← pop dvr_id sync_dvrs;
                       _dvr_updated dvr_id new_dvr;;
                       mret sync_dvrs')
                    sync_dvrs (elements dvrs_to_update);
  (* Handle newly added dvrs *)
  forM_ (map_to_list sync_dvrs) (λ '(dvr_id, new_dvr), _dvr_added dvr_id new_dvr);;
  modify (set_last_sync (time_at_end env)).

Definition sync_dvr_ports (phy_brs : gmap string string) : M unit :=
  self ← get;
  (if negb (truthy (dvr_mac_address self)) then
     _get_dvr_mac_address env;;
     _set_src_to_dvr;;
     setup_dvr_flows_on_phys_brs phy_brs
   else mret tt);;
  self ← get;
  if bool_decide (time_at_check env - last_sync self < sync_interval self) then
    mret tt
  else
    modify (λ st, set_fetches (S (fetches st)) st);;
    match get_openflow_ew_dvrs env (host self) with
    | None => mret tt
    | Some sync_dvrs => reconcile sync_dvrs
    end.
End Reconcile.

(** ** Traces

    What a call does to the bridges and, through the aliased port
    objects, to the registry is a sequence of events.  The [trace_]
    functions below compute that sequence for each routine of the agent;
    the routines are proved to replay them, whatever the bridges accept. *)

Inductive Event :=
  | EFlow (br : Bridge) (op : FlowOp)
  | EClearHost (dvr_id subnet_id port_id : string).

Global Instance Event_eq_dec : EqDecision Event.
Proof. solve_decision. Defined.

Definition do_event (e : Event) : M unit :=
  match e with
  | EFlow br op => emit br op
  | EClearHost dvr_id subnet_id port_id =>
      update_registered_routers (clear_port_host dvr_id subnet_id port_id)
  end.

Definition replay (evs : list Event) : M unit := forM_ evs do_event.

Definition flow_of (e : Event) : option (Bridge * FlowOp) :=
  match e with
  | EFlow br op => Some (br, op)
  | EClearHost _ _ _ => None
  end.

(** The flow operations of a trace. *)
Definition flows_of (evs : list Event) : list (Bridge * FlowOp) := omap flow_of evs.

Definition is_flow (e : Event) : Prop :=
  match e with EFlow _ _ => True | EClearHost _ _ _ => False end.

Section Traces.
Context (env : Env).
(** [self.host] and the truth value of [self.dvr_mac_address] *)
Context (h : option string) (mac_set : bool).

Definition trace_add_flows_to_other_subnets (gateway_mac : string)
    (cidrs : gset string) : list Event :=
  if negb mac_set then []
  else (λ cidr, EFlow int_br (add_flow (kw_add_other_subnets gateway_mac cidr)))
         <$> elements cidrs.

Definition trace_del_flows_to_other_subnets (gateway_mac : string)
    (cidrs : gset string) : list Event :=
  (λ cidr, EFlow int_br (delete_flows (kw_del_other_subnets gateway_mac cidr)))
    <$> elements cidrs.

Definition trace_add_flows_to_port (gateway_macs : gset string) (port : Port)
    (seg_id : Z) : list Event :=
  if negb mac_set then []
  else (λ gateway_mac, EFlow int_br (add_flow (kw_add_to_port port seg_id gateway_mac)))
         <$> elements gateway_macs.

Definition trace_del_flows_to_port (gateway_macs : gset string) (port : Port)
    : list Event :=
  (λ gateway_mac, EFlow int_br (delete_flows (kw_del_to_port port gateway_mac)))
    <$> elements gateway_macs.

Definition trace_add_flows_to_hosted_port (dvr_id subnet_id port_id : string)
    (port : Port) (gateway_mac : string) : list Event :=
  if bool_decide (port_host port ≠ h) then []
  else
    let port_ofno := get_port_ofport env (port_name port) in
    if bool_decide (port_ofno = INVALID_OFPORT) then
      [EClearHost dvr_id subnet_id port_id]
    else [EFlow int_br (add_flow (kw_add_hosted_port port gateway_mac port_ofno))].

Definition trace_del_flows_to_hosted_port (port : Port) : list Event :=
  if bool_decide (port_host port ≠ h) then []
  else [EFlow int_br (delete_flows (kw_del_hosted_port port))].

Definition trace_port_added (dvr_id subnet_id : string) (subnet : Subnet)
    (other_gateway_macs : gset string) (item : string * Port) : list Event :=
  trace_add_flows_to_port other_gateway_macs item.2 (subnet_seg_id subnet)
  ++ trace_add_flows_to_hosted_port dvr_id subnet_id item.1 item.2
                                    (subnet_gateway_mac subnet).

Definition trace_port_deleted (other_gateway_macs : gset string) (port : Port)
    : list Event :=
  trace_del_flows_to_port other_gateway_macs port
  ++ trace_del_flows_to_hosted_port port.

Definition trace_subnet_added (dvr_id subnet_id : string) (subnet : Subnet)
    (cidrs gateway_macs : gset string) : list Event :=
  let gateway_mac := subnet_gateway_mac subnet in
  let other_cidrs := cidrs ∖ {[subnet_cidr subnet]} in
  let other_gateway_macs := gateway_macs ∖ {[gateway_mac]} in
  trace_add_flows_to_other_subnets gateway_mac other_cidrs
  ++ (map_to_list (subnet_ports subnet)
        ≫= trace_port_added dvr_id subnet_id subnet other_gateway_macs).

(** A port of the new subnet; [old_port] is the port of that id in the
    old subnet, if any. *)
Definition trace_subnet_updated_port (dvr_id subnet_id : string) (subnet : Subnet)
    (old_gateway_macs gateway_macs : gset string)
    (old_port : option Port) (item : string * Port) : list Event :=
  let gateway_mac := subnet_gateway_mac subnet in
  let other_gateway_macs := gateway_macs ∖ {[gateway_mac]} in
  match old_port with
  | None => trace_port_added dvr_id subnet_id subnet other_gateway_macs item
  | Some old_port =>
      trace_del_flows_to_port (old_gateway_macs ∖ gateway_macs) item.2
      ++ trace_add_flows_to_port (gateway_macs ∖ old_gateway_macs) item.2
                                 (subnet_seg_id subnet)
      ++ (if bool_decide (port_host old_port = h)
             && bool_decide (port_host item.2 ≠ port_host old_port)
          then trace_del_flows_to_hosted_port old_port
          else if bool_decide (port_host item.2 = h)
                  && bool_decide (port_host item.2 ≠ port_host old_port)
          then trace_add_flows_to_hosted_port dvr_id subnet_id item.1 item.2
                                              gateway_mac
          else [])
  end.

Definition trace_subnet_updated (dvr_id subnet_id : string)
    (old_subnet subnet : Subnet) (old_cidrs cidrs : gset string)
    (old_gateway_macs gateway_macs : gset string) : list Event :=
  let gateway_mac := subnet_gateway_mac subnet in
  let other_gateway_macs := gateway_macs ∖ {[gateway_mac]} in
  trace_del_flows_to_other_subnets gateway_mac (old_cidrs ∖ cidrs)
  ++ trace_add_flows_to_other_subnets gateway_mac (cidrs ∖ old_cidrs)
  ++ (map_to_list (subnet_ports subnet)
        ≫= λ item, trace_subnet_updated_port dvr_id subnet_id subnet
                     old_gateway_macs gateway_macs
                     (subnet_ports old_subnet !! item.1) item)
  ++ ((map_to_list (subnet_ports old_subnet ∖ subnet_ports subnet)).*2
        ≫= trace_port_deleted other_gateway_macs).

Definition trace_subnet_deleted (subnet : Subnet)
    (cidrs gateway_macs : gset string) : list Event :=
  let gateway_mac := subnet_gateway_mac subnet in
  let other_cidrs := cidrs ∖ {[subnet_cidr subnet]} in
  let other_gateway_macs := gateway_macs ∖ {[gateway_mac]} in
  trace_del_flows_to_other_subnets gateway_mac other_cidrs
  ++ ((map_to_list (subnet_ports subnet)).*2
        ≫= trace_port_deleted other_gateway_macs).

(** The flow part of [_dvr_added], after the router is registered. *)
Definition trace_dvr_added (dvr_id : string) (new_dvr : gmap string Subnet)
    : list Event :=
  map_to_list new_dvr
    ≫= λ item, trace_subnet_added dvr_id item.1 item.2
                 (cidrs_of new_dvr) (gateway_macs_of new_dvr).

(** The flow part of [_dvr_updated], after the new router has replaced
    [old_dvr] in the registry. *)
Definition trace_dvr_updated (dvr_id : string)
    (old_dvr new_dvr : gmap string Subnet) : list Event :=
  (map_to_list new_dvr
     ≫= λ item,
          match old_dvr !! item.1 with
          | None => trace_subnet_added dvr_id item.1 item.2
                      (cidrs_of new_dvr) (gateway_macs_of new_dvr)
          | Some old_subnet =>
              trace_subnet_updated dvr_id item.1 old_subnet item.2
                (cidrs_of old_dvr) (cidrs_of new_dvr)
                (gateway_macs_of old_dvr) (gateway_macs_of new_dvr)
          end)
  ++ ((map_to_list (old_dvr ∖ new_dvr)).*2
        ≫= λ subnet, trace_subnet_deleted subnet
                       (cidrs_of old_dvr) (gateway_macs_of old_dvr)).

(** The flow part of [_dvr_deleted], after the router is removed from
    the registry. *)
Definition trace_dvr_deleted (deleted_dvr : gmap string Subnet) : list Event :=
  (map_to_list deleted_dvr).*2
    ≫= λ subnet, trace_subnet_deleted subnet
                   (cidrs_of deleted_dvr) (gateway_macs_of deleted_dvr).
End Traces.

(** ** Vocabulary of the statements *)

(** The flow operations a call issued: those the log gained. *)
Definition issued (before after : St) : list (Bridge * FlowOp) :=
  drop (length (flow_log before)) (flow_log after).

(** The rules of the categories of the pipeline. *)
Definition is_add (p : FlowArgs → Prop) (x : Bridge * FlowOp) : Prop :=
  match x.2 with
  | add_flow kw => p kw
  | delete_flows _ => False
  end.
Definition is_delete (x : Bridge * FlowOp) : Prop :=
  match x.2 with
  | add_flow _ => False
  | delete_flows _ => True
  end.

(** Table 0, priority 2: traffic to another subnet of the router. *)
Definition other_subnet_rule (kw : FlowArgs) : Prop :=
  f_table kw = None ∧ f_priority kw = Some 2.
(** Table 1, priority 2: resolve the destination port. *)
Definition resolve_rule (kw : FlowArgs) : Prop :=
  f_table kw = Some OF_EW_DVR_DST ∧ f_priority kw = Some 2.
(** Table 2, priority 3: delivery to a hosted port. *)
Definition hosted_delivery_rule (kw : FlowArgs) : Prop :=
  f_table kw = Some OF_EW_DVR_SRC ∧ f_priority kw = Some 3.
(** Table 2, priority 1 on the integration bridge and priority 3 on a
    physical bridge: the rules that carry the DVR MAC of this host. *)
Definition self_mac_rule (x : Bridge * FlowOp) : Prop :=
  match x with
  | (int_br, add_flow kw) =>
      f_table kw = Some OF_EW_DVR_SRC ∧ f_priority kw = Some 1
  | (phys_br _, add_flow kw) =>
      f_table kw = None ∧ f_priority kw = Some 3
  | (_, delete_flows _) => False
  end.

(** What a call that only issues flow operations satisfying [Q] and
    writes the registry and [last_sync] leaves alone. *)
Definition evolves (Q : Bridge * FlowOp → Prop) (st st' : St) : Prop :=
  host st' = host st
  ∧ sync_interval st' = sync_interval st
  ∧ int_ofports st' = int_ofports st
  ∧ dvr_mac_address st' = dvr_mac_address st
  ∧ registered_dvr_macs st' = registered_dvr_macs st
  ∧ fetches st' = fetches st
  ∧ ∃ ops, flow_log st' = flow_log st ++ ops ∧ Forall Q ops.

(** A computation relates every state to the state it leaves. *)
Definition steps {A} (R : relation St) (m : M A) : Prop := ∀ st, R st (m st).2.

(** [evolves], for the calls made by an agent of host [h] whose DVR MAC has
    truth value [ms]. *)
Definition evolves_at (h : option string) (ms : bool)
    (Q : Bridge * FlowOp → Prop) (st st' : St) : Prop :=
  host st = h → truthy (dvr_mac_address st) = ms → evolves Q st st'.

(** What the retry of the DVR MAC at the head of [sync_dvr_ports] leaves
    alone: it only sets the MAC and installs the rules that carry it. *)
Definition retried (st st' : St) : Prop :=
  host st' = host st
  ∧ sync_interval st' = sync_interval st
  ∧ int_ofports st' = int_ofports st
  ∧ registered_dvr_macs st' = registered_dvr_macs st
  ∧ registered_routers st' = registered_routers st
  ∧ last_sync st' = last_sync st
  ∧ fetches st' = fetches st
  ∧ ∃ ops, flow_log st' = flow_log st ++ ops ∧ Forall self_mac_rule ops.

(** A flow operation of the topology diff: a removal, or the installation
    of a rule of one of the three categories. *)
Definition topology_op (x : Bridge * FlowOp) : Prop :=
  is_delete x
  ∨ is_add other_subnet_rule x
  ∨ is_add resolve_rule x
  ∨ is_add hosted_delivery_rule x.

(** A flow operation that does not need the DVR MAC of this host. *)
Definition mac_free_op (x : Bridge * FlowOp) : Prop :=
  is_delete x ∨ is_add hosted_delivery_rule x.

(** The two halves of [sync_dvr_ports]: the retry of the DVR MAC, run
    while the MAC is unset, and the throttled fetch with its diff. *)
Definition retry_dvr_mac (env : Env) (phy_brs : gmap string string) : M unit :=
  _get_dvr_mac_address env;;
  _set_src_to_dvr;;
  setup_dvr_flows_on_phys_brs phy_brs.

Definition throttled (env : Env) (st : St) : bool :=
  bool_decide (time_at_check env - last_sync st < sync_interval st).

Definition count_fetch (st : St) : St := set_fetches (S (fetches st)) st.

Definition fetch_and_reconcile (env : Env) (st : St) : Res unit * St :=
  if throttled env st then (Ok tt, st)
  else match get_openflow_ew_dvrs env (host st) with
       | None => (Ok tt, count_fetch st)
       | Some sync_dvrs => reconcile env sync_dvrs (count_fetch st)
       end.

(** The registry after the writes of a trace. *)
Definition registry_after (evs : list Event)
    (routers : gmap string (gmap string Subnet)) : gmap string (gmap string Subnet) :=
  foldl (λ routers e,
           match e with
           | EFlow _ _ => routers
           | EClearHost dvr_id subnet_id port_id =>
               clear_port_host dvr_id subnet_id port_id routers
           end) routers evs.

(** A router with the host of every port forgotten: two routers with the
    same image differ at most in the hosts of their ports. *)
Definition erase_subnet_hosts (s : Subnet) : Subnet :=
  mkSubnet (subnet_cidr s) (subnet_gateway_mac s) (subnet_seg_id s)
           (clear_host <$> subnet_ports s).
Definition erase_hosts (dvr : gmap string Subnet) : gmap string Subnet :=
  erase_subnet_hosts <$> dvr.

(** No port of the subnet / router / topology that is bound to host [h] has
    an unresolved attachment. *)
Definition port_ready (env : Env) (h : option string) (port : Port) : Prop :=
  port_host port = h → get_port_ofport env (port_name port) ≠ INVALID_OFPORT.
Definition subnet_ready (env : Env) (h : option string) (s : Subnet) : Prop :=
  ∀ port_id port, subnet_ports s !! port_id = Some port → port_ready env h port.
Definition dvr_ready (env : Env) (h : option string) (dvr : gmap string Subnet) : Prop :=
  ∀ subnet_id s, dvr !! subnet_id = Some s → subnet_ready env h s.
Definition topology_ready (env : Env) (h : option string)
    (T : gmap string (gmap string Subnet)) : Prop :=
  ∀ dvr_id dvr, T !! dvr_id = Some dvr → dvr_ready env h dvr.

(** The flow operations of [dvr_mac_address_update] for one MAC. *)
Definition del_foreign_mac_ops (m : string) : list (Bridge * FlowOp) :=
  [(int_br, delete_flows (kw_del_resubmit m)); (int_br, delete_flows (kw_del_drop m))].
Definition add_foreign_mac_ops (m : string) : list (Bridge * FlowOp) :=
  [(int_br, add_flow (kw_add_resubmit m)); (int_br, add_flow (kw_add_drop m))].

(** The keyword arguments of a flow operation. *)
Definition op_args (op : FlowOp) : FlowArgs :=
  match op with
  | add_flow kw => kw
  | delete_flows kw => kw
  end.

(** ** The flow table of the integration bridge *)

(** Modelled from the spec: the flow backend, that is [add_flow] and
    [delete_flows] of the bridge object, whose code is not part of the
    agent.  Section 6 of the specification: [addFlow] is an idempotent
    install, a no-op if an identical rule already exists;
    [deleteFlow(table?, match)] removes the rules that match, a table left
    out meaning table 0.  A rule matches a pattern when they are in the
    same table and the rule agrees with every field the pattern gives. *)
Definition table_of (kw : FlowArgs) : Z := default 0 (f_table kw).

Definition field_matches {A} `{EqDecision A} (pattern actual : option A) : bool :=
  match pattern with
  | None => true
  | Some _ => bool_decide (pattern = actual)
  end.

Definition matches (pattern rule : FlowArgs) : bool :=
  bool_decide (table_of pattern = table_of rule)
  && field_matches (f_priority pattern) (f_priority rule)
  && field_matches (f_dl_src pattern) (f_dl_src rule)
  && field_matches (f_dl_dst pattern) (f_dl_dst rule)
  && field_matches (f_proto pattern) (f_proto rule)
  && field_matches (f_ip_dst pattern) (f_ip_dst rule)
  && field_matches (f_actions pattern) (f_actions rule).

Definition apply_flow_op (rules : list FlowArgs) (op : FlowOp) : list FlowArgs :=
  match op with
  | add_flow kw => if bool_decide (kw ∈ rules) then rules else kw :: rules
  | delete_flows kw => filter (λ rule, matches kw rule = false) rules
  end.

(** The operations of a log that went to the integration bridge. *)
Definition int_br_ops (ops : list (Bridge * FlowOp)) : list FlowOp :=
  omap (λ x, match x.1 with int_br => Some x.2 | phys_br _ => None end) ops.

(** The rules of the integration bridge after the operations [ops]. *)
Definition installed (rules : list FlowArgs) (ops : list (Bridge * FlowOp))
    : list FlowArgs :=
  foldl apply_flow_op rules (int_br_ops ops).

(** The rules of the three categories that the diff maintains. *)
Definition diff_rule (kw : FlowArgs) : Prop :=
  other_subnet_rule kw ∨ resolve_rule kw ∨ hosted_delivery_rule kw.

(** What [_dvr_added] installs for the routers of [T] when it starts from
    an empty registry and an empty table, the bridge accepting the
    calls. *)
Definition installed_by_dvr_added (env : Env) (st : St)
    (T : gmap string (gmap string Subnet)) : list FlowArgs :=
  let empty := set_budget None (set_flow_log [] (set_registered_routers ∅ st)) in
  installed [] (flow_log (forM_ (map_to_list T)
                                (λ '(dvr_id, new_dvr), _dvr_added env dvr_id new_dvr)
                                empty).2).

(** ** Topologies the diff can follow

    The diff goes by ids: it never compares the attributes of a subnet or
    port that keeps its id.  The following conditions on the registered
    topology [R] and the fetched topology [T] say that ids are used
    consistently. *)
Section WellFormed.
Context (R T : gmap string (gmap string Subnet)).

(** [s] is the subnet [subnet_id] of router [dvr_id] in [R] or in [T]. *)
Definition subnet_at (dvr_id subnet_id : string) (s : Subnet) : Prop :=
  (∃ dvr, R !! dvr_id = Some dvr ∧ dvr !! subnet_id = Some s)
  ∨ (∃ dvr, T !! dvr_id = Some dvr ∧ dvr !! subnet_id = Some s).

Definition port_at (dvr_id subnet_id port_id : string) (p : Port) : Prop :=
  ∃ s, subnet_at dvr_id subnet_id s ∧ subnet_ports s !! port_id = Some p.

(** A subnet that stays in its router keeps its CIDR, gateway MAC and
    segmentation id; a port that stays in its subnet keeps its MAC, IP and
    name. *)
Definition attributes_stable : Prop :=
  ∀ dvr_id old_dvr new_dvr subnet_id old_subnet subnet,
    R !! dvr_id = Some old_dvr → T !! dvr_id = Some new_dvr →
    old_dvr !! subnet_id = Some old_subnet → new_dvr !! subnet_id = Some subnet →
    subnet_cidr old_subnet = subnet_cidr subnet
    ∧ subnet_gateway_mac old_subnet = subnet_gateway_mac subnet
    ∧ subnet_seg_id old_subnet = subnet_seg_id subnet
    ∧ ∀ port_id old_port port,
        subnet_ports old_subnet !! port_id = Some old_port →
        subnet_ports subnet !! port_id = Some port →
        port_mac old_port = port_mac port
        ∧ port_ip old_port = port_ip port
        ∧ port_name old_port = port_name port.

(** The three conditions below range over the subnets and ports of [R]
    and of [T] taken together ([subnet_at], [port_at]): an address that is
    used in [R] is not used in [T] under another id.

    A gateway MAC belongs to one subnet id of one router. *)
Definition gateway_macs_distinct : Prop :=
  ∀ d1 s1 sn1 d2 s2 sn2,
    subnet_at d1 s1 sn1 → subnet_at d2 s2 sn2 →
    subnet_gateway_mac sn1 = subnet_gateway_mac sn2 → d1 = d2 ∧ s1 = s2.

(** Within a router an IP address belongs to one port id of one subnet
    id; a MAC and IP address together belong to one port id of one subnet
    id of one router. *)
Definition port_ips_distinct : Prop :=
  ∀ d s1 p1 port1 s2 p2 port2,
    port_at d s1 p1 port1 → port_at d s2 p2 port2 →
    port_ip port1 = port_ip port2 → s1 = s2 ∧ p1 = p2.

Definition port_addresses_distinct : Prop :=
  ∀ d1 s1 p1 port1 d2 s2 p2 port2,
    port_at d1 s1 p1 port1 → port_at d2 s2 p2 port2 →
    port_mac port1 = port_mac port2 → port_ip port1 = port_ip port2 →
    d1 = d2 ∧ s1 = s2 ∧ p1 = p2.

(** A router does not lose a gateway MAC in the sync in which one of its
    kept subnets loses a port. *)
Definition no_port_and_subnet_removed : Prop :=
  ∀ dvr_id old_dvr new_dvr subnet_id old_subnet subnet port_id old_port,
    R !! dvr_id = Some old_dvr → T !! dvr_id = Some new_dvr →
    old_dvr !! subnet_id = Some old_subnet → new_dvr !! subnet_id = Some subnet →
    subnet_ports old_subnet !! port_id = Some old_port →
    subnet_ports subnet !! port_id = None →
    gateway_macs_of old_dvr ⊆ gateway_macs_of new_dvr.
End WellFormed.

(** The rules that a router needs: what [_dvr_added] installs for it. *)
Definition dvr_rule (env : Env) (h : option string) (dvr : gmap string Subnet)
    (rule : FlowArgs) : Prop :=
  ∃ subnet_id subnet,
    dvr !! subnet_id = Some subnet
    ∧ ((∃ cidr, cidr ∈ cidrs_of dvr ∖ {[subnet_cidr subnet]}
                ∧ rule = kw_add_other_subnets (subnet_gateway_mac subnet) cidr)
       ∨ ∃ port_id port,
           subnet_ports subnet !! port_id = Some port
           ∧ ((∃ gateway_mac,
                 gateway_mac ∈ gateway_macs_of dvr ∖ {[subnet_gateway_mac subnet]}
                 ∧ rule = kw_add_to_port port (subnet_seg_id subnet) gateway_mac)
              ∨ (port_host port = h
                 ∧ get_port_ofport env (port_name port) ≠ INVALID_OFPORT
                 ∧ rule = kw_add_hosted_port port (subnet_gateway_mac subnet)
                            (get_port_ofport env (port_name port))))).

Definition topology_rule (env : Env) (h : option string)
    (X : gmap string (gmap string Subnet)) (rule : FlowArgs) : Prop :=
  ∃ dvr_id dvr, X !! dvr_id = Some dvr ∧ dvr_rule env h dvr rule.

(** ** The flow operations of the diff, port by port *)
Section PortOps.
Context (env : Env) (h : option string) (ms : bool).

(** The operations for a port that enters, respectively leaves, the
    topology. *)
Definition port_added_op (subnet : Subnet) (other_gateway_macs : gset string)
    (port : Port) (x : Bridge * FlowOp) : Prop :=
  (ms = true
   ∧ ∃ gateway_mac, gateway_mac ∈ other_gateway_macs
       ∧ x = (int_br, add_flow (kw_add_to_port port (subnet_seg_id subnet) gateway_mac)))
  ∨ (port_host port = h
     ∧ get_port_ofport env (port_name port) ≠ INVALID_OFPORT
     ∧ x = (int_br, add_flow (kw_add_hosted_port port (subnet_gateway_mac subnet)
                                (get_port_ofport env (port_name port))))).

Definition port_deleted_op (other_gateway_macs : gset string)
    (port : Port) (x : Bridge * FlowOp) : Prop :=
  (∃ gateway_mac, gateway_mac ∈ other_gateway_macs
     ∧ x = (int_br, delete_flows (kw_del_to_port port gateway_mac)))
  ∨ (port_host port = h ∧ x = (int_br, delete_flows (kw_del_hosted_port port))).

(** The operations for a port that stays in its subnet. *)
Definition port_kept_op (subnet : Subnet) (old_gateway_macs gateway_macs : gset string)
    (old_port port : Port) (x : Bridge * FlowOp) : Prop :=
  (∃ gateway_mac, gateway_mac ∈ old_gateway_macs ∖ gateway_macs
     ∧ x = (int_br, delete_flows (kw_del_to_port port gateway_mac)))
  ∨ (ms = true
     ∧ ∃ gateway_mac, gateway_mac ∈ gateway_macs ∖ old_gateway_macs
         ∧ x = (int_br, add_flow (kw_add_to_port port (subnet_seg_id subnet) gateway_mac)))
  ∨ (port_host old_port = h ∧ port_host port ≠ port_host old_port
     ∧ x = (int_br, delete_flows (kw_del_hosted_port old_port)))
  ∨ (port_host old_port ≠ h ∧ port_host port = h
     ∧ get_port_ofport env (port_name port) ≠ INVALID_OFPORT
     ∧ x = (int_br, add_flow (kw_add_hosted_port port (subnet_gateway_mac subnet)
                                (get_port_ofport env (port_name port))))).

End PortOps.

(** ** The diff as a whole *)

(** The state after a step that issued [ops] and rewrote the registry. *)
Definition advance (ops : list (Bridge * FlowOp))
    (f : gmap string (gmap string Subnet) → gmap string (gmap string Subnet))
    (st : St) : St :=
  set_registered_routers (f (registered_routers st))
                         (set_flow_log (flow_log st ++ ops) st).

(** The flow operations of [reconcile] for registry [R] and fetched
    topology [T], when no port awaits its attachment. *)
Definition reconcile_ops (env : Env) (h : option string) (ms : bool)
    (R T : gmap string (gmap string Subnet)) : list (Bridge * FlowOp) :=
  (elements (classify_registered R T).1
     ≫= λ d, flows_of (trace_dvr_deleted h (R !!! d)))
  ++ (elements (classify_registered R T).2
        ≫= λ d, flows_of (trace_dvr_updated env h ms d (R !!! d) (T !!! d)))
  ++ (map_to_list (T ∖ R)
        ≫= λ x, flows_of (trace_dvr_added env h ms x.1 x.2)).

(** An operation is sound for a set of wanted rules when it installs a
    wanted rule or removes no wanted rule. *)
Definition op_sound (wanted : FlowArgs → Prop) (x : Bridge * FlowOp) : Prop :=
  match x.2 with
  | add_flow kw => wanted kw
  | delete_flows kw => ∀ kw', wanted kw' → matches kw kw' = false
  end.


(** ** Vocabulary for the rules of the other hosts' DVR MACs *)

(** The fallback rule of table 1 that [setup_dvr_flows_on_integ_tun_br]
    installs last. *)
Definition kw_normal : FlowArgs :=
  {| f_table := Some OF_EW_DVR_DST; f_priority := Some 1;
     f_dl_src := None; f_dl_dst := None; f_proto := None;
     f_ip_dst := None; f_actions := Some "normal" |}.

(** The test by which the loops over the roster skip an entry: it carries
    the DVR MAC of this host, or it is the entry of this host. *)
Definition skipped (self : St) (mac : DvrMac) : bool :=
  bool_decide (Some (mac_address mac) = dvr_mac_address self)
  || bool_decide (Some (mac_host mac) = host self).

(** The MACs of the entries that are not skipped, in the order of the
    roster and as often as they occur. *)
Definition foreign_macs (self : St) (dvr_macs : list DvrMac) : list string :=
  mac_address <$> filter (λ mac, skipped self mac = false) dvr_macs.

(** What a call that maintains the rules of the other hosts' DVR MACs
    leaves alone, and how the registered MACs follow the flow operations
    that the bridge accepted: a MAC enters the registered set only after
    its two rules were installed and leaves it only after the removal of
    both was issued. *)
Definition roster_step (st st' : St) : Prop :=
  host st' = host st
  ∧ sync_interval st' = sync_interval st
  ∧ int_ofports st' = int_ofports st
  ∧ dvr_mac_address st' = dvr_mac_address st
  ∧ registered_routers st' = registered_routers st
  ∧ last_sync st' = last_sync st
  ∧ fetches st' = fetches st
  ∧ ∃ ops, flow_log st' = flow_log st ++ ops
      ∧ Forall (λ x, x.1 = int_br) ops
      ∧ (∀ m, m ∈ registered_dvr_macs st' →
              m ∈ registered_dvr_macs st
              ∨ ((int_br, add_flow (kw_add_resubmit m)) ∈ ops
                 ∧ (int_br, add_flow (kw_add_drop m)) ∈ ops))
      ∧ (∀ m, m ∈ registered_dvr_macs st →
              m ∈ registered_dvr_macs st'
              ∨ ((int_br, delete_flows (kw_del_resubmit m)) ∈ ops
                 ∧ (int_br, delete_flows (kw_del_drop m)) ∈ ops)).

(** A flow operation on the integration bridge. *)
Definition on_int_br (x : Bridge * FlowOp) : Prop := x.1 = int_br.

(** ** Vocabulary for the runs of the diff *)

(** The registry with the host of every port forgotten. *)
Definition erased (R : gmap string (gmap string Subnet)) : gmap string (gmap string Subnet) :=
  erase_hosts <$> R.

(** A result other than a [KeyError]. *)
Definition no_key_error {A} (r : Res A) : Prop :=
  match r with
  | Raise KeyError => False
  | _ => True
  end.

(** The run [r] that started in [st] raised no [KeyError]; it raised an
    error of the bridge only if the bridge was set to fail; and when it
    returned it had rewritten the registry by [F], up to the hosts of the
    ports. *)
Definition tracks (F : gmap string (gmap string Subnet) → gmap string (gmap string Subnet))
    (st : St) (r : Res unit * St) : Prop :=
  match r.1 with
  | Ok _ => erased (registered_routers r.2) = F (erased (registered_routers st))
            ∧ (budget st = None → budget r.2 = None)
  | Raise FlowError => budget st ≠ None
  | Raise KeyError => False
  | Raise RpcError => False
  end.

(** A step that leaves [last_sync] alone. *)
Definition keeps_last_sync (st st' : St) : Prop := last_sync st' = last_sync st.

(** A write of the trace goes to a port of router [dvr_id]. *)
Definition clears_within (dvr_id : string) (e : Event) : Prop :=
  match e with
  | EFlow _ _ => True
  | EClearHost dvr_id' _ _ => dvr_id' = dvr_id
  end.

(** The removal pattern [kw'] names the table and the destination of the
    rule [kw] and nothing else. *)
Definition removes (kw' kw : FlowArgs) : Prop :=
  f_table kw' = f_table kw
  ∧ f_dl_dst kw' = f_dl_dst kw
  ∧ f_proto kw' = f_proto kw
  ∧ f_ip_dst kw' = f_ip_dst kw
  ∧ f_priority kw' = None
  ∧ f_dl_src kw' = None
  ∧ f_actions kw' = None.

(** ** Vocabulary for the recorded topology *)

(** A port bound to host [h] whose attachment is not resolved yet: the
    case in which [_add_flows_to_hosted_port] clears the recorded host
    instead of installing the rule. *)
Definition awaits_attachment (env : Env) (h : option string) (p : Port) : bool :=
  bool_decide (port_host p = h)
  && bool_decide (get_port_ofport env (port_name p) = INVALID_OFPORT).


(** [p'] is the port [p] as the registry may hold it during or after the
    call that registered it: [p] itself, or [p] without its host when it
    awaits its attachment.  Likewise for subnets, routers and topologies:
    same ids, same attributes, ports related in this way. *)
Definition port_recorded (env : Env) (h : option string) (p p' : Port) : Prop :=
  p' = p ∨ (awaits_attachment env h p = true ∧ p' = clear_host p).
Definition subnet_recorded (env : Env) (h : option string) (s s' : Subnet) : Prop :=
  subnet_cidr s' = subnet_cidr s
  ∧ subnet_gateway_mac s' = subnet_gateway_mac s
  ∧ subnet_seg_id s' = subnet_seg_id s
  ∧ ∀ port_id, option_Forall2 (port_recorded env h)
                 (subnet_ports s !! port_id) (subnet_ports s' !! port_id).
Definition dvr_recorded (env : Env) (h : option string)
    (dvr dvr' : gmap string Subnet) : Prop :=
  ∀ subnet_id, option_Forall2 (subnet_recorded env h)
                 (dvr !! subnet_id) (dvr' !! subnet_id).
Definition topology_recorded (env : Env) (h : option string)
    (T R : gmap string (gmap string Subnet)) : Prop :=
  ∀ dvr_id, option_Forall2 (dvr_recorded env h) (T !! dvr_id) (R !! dvr_id).

(** A write of the trace clears the host of a port of router [dvr_id]
    that belongs to [new_dvr] and awaits its attachment. *)
Definition clears_deferred (env : Env) (h : option string) (dvr_id : string)
    (new_dvr : gmap string Subnet) (e : Event) : Prop :=
  match e with
  | EFlow _ _ => True
  | EClearHost dvr_id' subnet_id port_id =>
      dvr_id' = dvr_id
      ∧ ∃ s p, new_dvr !! subnet_id = Some s
               ∧ subnet_ports s !! port_id = Some p
               ∧ awaits_attachment env h p = true
  end.
(** ** The scenario of the specification

    Router [R1] has subnet [S1] (10.0.1.0/24, gateway aa:1) with port [P1]
    bound to this host [H1], and an empty subnet [S2] (10.0.2.0/24,
    gateway aa:2). *)

Module Scenario.
Definition P1 : Port := mkPort "fa:16:3e:00:00:05" "10.0.1.5" (Some "H1") "tap-p1".
Definition S1 : Subnet := mkSubnet "10.0.1.0/24" "aa:1" 101 {[ "P1" := P1 ]}.
Definition S2 : Subnet := mkSubnet "10.0.2.0/24" "aa:2" 102 ∅.
Definition R1 : gmap string Subnet := {[ "S1" := S1; "S2" := S2 ]}.
Definition T : gmap string (gmap string Subnet) := {[ "R1" := R1 ]}.

Definition self_mac : string := "fa:16:3f:00:00:01".

(** The collaborators: the plugin answers [mac] for the DVR MAC of the
    host and [fetch] for its topology, every port is attached to port 7
    of the bridge, a call takes one tick of the clock. *)
Definition env (mac : option string)
    (fetch : option (gmap string (gmap string Subnet))) (now : Z) : Env :=
  {| get_port_ofport := λ _, 7;
     get_dvr_mac_address_by_host := λ _, mac;
     get_dvr_mac_address_list := Some [];
     get_openflow_ew_dvrs := λ _, fetch;
     time_at_check := now;
     time_at_end := now + 1 |}.

(** The same, with the port of [P1] not attached yet. *)
Definition env_not_ready (now : Z) : Env :=
  {| get_port_ofport := λ _, INVALID_OFPORT;
     get_dvr_mac_address_by_host := λ _, Some self_mac;
     get_dvr_mac_address_list := Some [];
     get_openflow_ew_dvrs := λ _, Some T;
     time_at_check := now;
     time_at_end := now + 1 |}.

(** The agent on host [H1] before its first sync, without and with its
    DVR MAC. *)
Definition agent0 : St := init {[ "p" := 1 ]} (Some "H1") 300.
Definition agent : St := set_dvr_mac_address (Some self_mac) agent0.

(** The agent after a first sync at time 1000 that fetched [T]. *)
Definition synced : St := (sync_dvr_ports (env (Some self_mac) (Some T) 1000) ∅ agent).2.

(** The same when the plugin had no DVR MAC for the host. *)
Definition synced_without_mac : St :=
  (sync_dvr_ports (env None (Some T) 1000) ∅ agent0).2.

(** A roster with this host and another one. *)
Definition roster : list DvrMac :=
  [mkDvrMac "H2" "fa:16:3f:00:00:02"; mkDvrMac "H1" self_mac].

(** The sync at time 1000 that fetches [T] and succeeds. *)
Definition env1000 : Env := env (Some self_mac) (Some T) 1000.

(** The topology after the router interface of [S1] was replaced: same
    subnet and port, new gateway MAC. *)
Definition S1_new_gateway : Subnet := mkSubnet "10.0.1.0/24" "aa:9" 101 {[ "P1" := P1 ]}.
Definition T_new_gateway : gmap string (gmap string Subnet) :=
  {[ "R1" := {[ "S1" := S1_new_gateway; "S2" := S2 ]} ]}.

(** The topology after port [P2], bound to another host, entered subnet
    [S2]. *)
Definition P2 : Port := mkPort "fa:16:3e:00:00:06" "10.0.2.6" (Some "H2") "tap-p2".
Definition S2_new_port : Subnet := mkSubnet "10.0.2.0/24" "aa:2" 102 {[ "P2" := P2 ]}.
Definition T_new_port : gmap string (gmap string Subnet) :=
  {[ "R1" := {[ "S1" := S1; "S2" := S2_new_port ]} ]}.

(** The collaborators of a call at time 1000 for which the plugin answers
    [roster] for the DVR MACs of the hosts. *)
Definition env_roster : Env :=
  {| get_port_ofport := λ _, 7;
     get_dvr_mac_address_by_host := λ _, Some self_mac;
     get_dvr_mac_address_list := Some roster;
     get_openflow_ew_dvrs := λ _, Some T;
     time_at_check := 1000;
     time_at_end := 1001 |}.

(** The roster after host [H2] left and host [H3] joined, and the agent
    that registered the MACs of [roster]. *)
Definition roster_changed : list DvrMac :=
  [mkDvrMac "H3" "fa:16:3f:00:00:03"; mkDvrMac "H1" self_mac].
Definition agent_with_roster : St := (dvr_mac_address_update roster agent).2.



(** The collaborators of a call during which the roster RPC raises. *)
Definition env_roster_raises : Env :=
  {| get_port_ofport := λ _, 7;
     get_dvr_mac_address_by_host := λ _, Some self_mac;
     get_dvr_mac_address_list := None;
     get_openflow_ew_dvrs := λ _, Some T;
     time_at_check := 1000;
     time_at_end := 1001 |}.
End Scenario.


(** * Properties *)

(** ** The monad *)

Lemma run_bind {A B} (m : M A) (k : A → M B) (st : St) :
  (m ≫= k) st = match m st with
                | (Ok a, st') => k a st'
                | (Raise e, st') => (Raise e, st')
                end.
Proof. reflexivity. Qed.

Lemma run_ret {A} (a : A) (st : St) : (mret a : M A) st = (Ok a, st).
Proof. reflexivity. Qed.

Lemma run_get_bind {B} (k : St → M B) (st : St) : (get ≫= k) st = k st st.
Proof. reflexivity. Qed.

Lemma run_modify_bind {B} (f : St → St) (k : unit → M B) (st : St) :
  (modify f ≫= k) st = k tt (f st).
Proof. reflexivity. Qed.

Lemma run_bind_assoc {A B C} (m : M A) (k : A → M B) (k' : B → M C) (st : St) :
  ((m ≫= k) ≫= k') st = (m ≫= (λ a, k a ≫= k')) st.
Proof. rewrite !run_bind. destruct (m st) as [[a|e] st']; reflexivity. Qed.

Lemma run_bind_ext {A B} (m m' : M A) (k k' : A → M B) (st : St) :
  m st = m' st → (∀ a st', k a st' = k' a st') → (m ≫= k) st = (m' ≫= k') st.
Proof. intros Hm Hk. rewrite !run_bind, Hm. destruct (m' st) as [[a|e] st']; auto. Qed.

Lemma run_bind_ret {A} (m : M A) (st : St) : (m ≫= mret) st = m st.
Proof. rewrite run_bind. destruct (m st) as [[a|e] st']; reflexivity. Qed.

Lemma forM_app {A} (l1 l2 : list A) (body : A → M unit) (st : St) :
  forM_ (l1 ++ l2) body st = (forM_ l1 body;; forM_ l2 body) st.
Proof.
  revert st. induction l1 as [|x l1 IH]; intros st; simpl.
  - reflexivity.
  - rewrite run_bind_assoc. apply run_bind_ext; [reflexivity|]. intros _ st'. apply IH.
Qed.

Lemma forM_ext {A} (l : list A) (body body' : A → M unit) (st : St) :
  (∀ x st', x ∈ l → body x st' = body' x st') → forM_ l body st = forM_ l body' st.
Proof.
  revert st. induction l as [|x l IH]; intros st Hb; simpl; [reflexivity|].
  apply run_bind_ext.
  - apply Hb. left.
  - intros _ st'. apply IH. intros y st'' Hy. apply Hb. by right.
Qed.

(** ** Replaying traces *)

Lemma replay_nil (st : St) : replay [] st = (Ok tt, st).
Proof. reflexivity. Qed.

Lemma replay_app (evs1 evs2 : list Event) (st : St) :
  replay (evs1 ++ evs2) st = (replay evs1;; replay evs2) st.
Proof. apply forM_app. Qed.

Lemma replay_cons (e : Event) (evs : list Event) (st : St) :
  replay (e :: evs) st = (do_event e;; replay evs) st.
Proof. reflexivity. Qed.

Lemma replay_singleton (e : Event) (st : St) : replay [e] st = do_event e st.
Proof.
  unfold replay; simpl. rewrite run_bind.
  destruct (do_event e st) as [[[]|x] st']; reflexivity.
Qed.

(** Events leave the agent's host and DVR MAC alone. *)
Lemma emit_host br op st : host (emit br op st).2 = host st.
Proof. unfold emit. destruct (budget st) as [[|n]|]; reflexivity. Qed.
Lemma emit_mac br op st : dvr_mac_address (emit br op st).2 = dvr_mac_address st.
Proof. unfold emit. destruct (budget st) as [[|n]|]; reflexivity. Qed.

Lemma do_event_host e st : host (do_event e st).2 = host st.
Proof. destruct e; [apply emit_host | reflexivity]. Qed.
Lemma do_event_mac e st : dvr_mac_address (do_event e st).2 = dvr_mac_address st.
Proof. destruct e; [apply emit_mac | reflexivity]. Qed.

Lemma replay_host evs st : host (replay evs st).2 = host st.
Proof.
  revert st. induction evs as [|e evs IH]; intros st; [reflexivity|].
  rewrite replay_cons, run_bind.
  pose proof (do_event_host e st) as He.
  destruct (do_event e st) as [[[]|x] st']; simpl in *; [by rewrite IH | done].
Qed.
Lemma replay_mac evs st : dvr_mac_address (replay evs st).2 = dvr_mac_address st.
Proof.
  revert st. induction evs as [|e evs IH]; intros st; [reflexivity|].
  rewrite replay_cons, run_bind.
  pose proof (do_event_mac e st) as He.
  destruct (do_event e st) as [[[]|x] st']; simpl in *; [by rewrite IH | done].
Qed.

(** A routine replays a trace that depends on the agent only through its
    host and the truth value of its DVR MAC. *)
Definition replays (m : M unit) (tr : option string → bool → list Event) : Prop :=
  ∀ st, m st = replay (tr (host st) (truthy (dvr_mac_address st))) st.

Lemma replays_bind (m1 m2 : M unit) tr1 tr2 :
  replays m1 tr1 → replays m2 tr2 →
  replays (m1;; m2) (λ h ms, tr1 h ms ++ tr2 h ms).
Proof.
  intros H1 H2 st. rewrite replay_app. rewrite !run_bind, H1.
  pose proof (replay_host (tr1 (host st) (truthy (dvr_mac_address st))) st) as Hh.
  pose proof (replay_mac (tr1 (host st) (truthy (dvr_mac_address st))) st) as Hm.
  destruct (replay _ st) as [[[]|x] st']; simpl in *; [|done].
  rewrite H2, Hh, Hm. done.
Qed.

Lemma replays_forM {A} (l : list A) (body : A → M unit)
    (tr : option string → bool → A → list Event) :
  (∀ x, x ∈ l → replays (body x) (λ h ms, tr h ms x)) →
  replays (forM_ l body) (λ h ms, l ≫= tr h ms).
Proof.
  induction l as [|x l IH]; intros Hb.
  - intros st. reflexivity.
  - intros st. simpl forM_.
    rewrite (replays_bind (body x) (forM_ l body)
                          (λ h ms, tr h ms x) (λ h ms, l ≫= tr h ms)).
    + reflexivity.
    + apply Hb. left.
    + apply IH. intros y Hy. apply Hb. by right.
Qed.

Lemma replays_ext (m : M unit) tr tr' :
  (∀ h ms, tr h ms = tr' h ms) → replays m tr → replays m tr'.
Proof. intros He Hm st. rewrite Hm, He. done. Qed.

Lemma replays_emits {A} (l : list A) (f : A → Bridge * FlowOp) :
  replays (forM_ l (λ x, emit (f x).1 (f x).2))
          (λ _ _, (λ x, EFlow (f x).1 (f x).2) <$> l).
Proof.
  apply (replays_ext _ (λ _ _, l ≫= λ x, [EFlow (f x).1 (f x).2])).
  - intros h ms. induction l as [|x l IH]; [done|]. simpl. by f_equal.
  - apply (replays_forM l _ (λ _ _ x, [EFlow (f x).1 (f x).2])).
    intros x _ st. by rewrite replay_singleton.
Qed.

(** ** The routines replay their traces *)

Lemma replays_ret : replays (mret tt) (λ _ _, []).
Proof. intros st. reflexivity. Qed.

Lemma _add_flows_to_other_subnets_replays gateway_mac cidrs :
  replays (_add_flows_to_other_subnets gateway_mac cidrs)
          (λ _ ms, trace_add_flows_to_other_subnets ms gateway_mac cidrs).
Proof.
  intros st. unfold _add_flows_to_other_subnets, trace_add_flows_to_other_subnets.
  rewrite run_get_bind. destruct (truthy (dvr_mac_address st)); simpl; [|done].
  apply (replays_emits (elements cidrs)
           (λ cidr, (int_br, add_flow (kw_add_other_subnets gateway_mac cidr)))).
Qed.

Lemma _del_flows_to_other_subnets_replays gateway_mac cidrs :
  replays (_del_flows_to_other_subnets gateway_mac cidrs)
          (λ _ _, trace_del_flows_to_other_subnets gateway_mac cidrs).
Proof.
  apply (replays_emits (elements cidrs)
           (λ cidr, (int_br, delete_flows (kw_del_other_subnets gateway_mac cidr)))).
Qed.

Lemma _add_flows_to_port_replays gateway_macs port seg_id :
  replays (_add_flows_to_port gateway_macs port seg_id)
          (λ _ ms, trace_add_flows_to_port ms gateway_macs port seg_id).
Proof.
  intros st. unfold _add_flows_to_port, trace_add_flows_to_port.
  rewrite run_get_bind. destruct (truthy (dvr_mac_address st)); simpl; [|done].
  apply (replays_emits (elements gateway_macs)
           (λ gateway_mac, (int_br, add_flow (kw_add_to_port port seg_id gateway_mac)))).
Qed.

Lemma _del_flows_to_port_replays gateway_macs port :
  replays (_del_flows_to_port gateway_macs port)
          (λ _ _, trace_del_flows_to_port gateway_macs port).
Proof.
  apply (replays_emits (elements gateway_macs)
           (λ gateway_mac, (int_br, delete_flows (kw_del_to_port port gateway_mac)))).
Qed.

Lemma _add_flows_to_hosted_port_replays env dvr_id subnet_id port_id port gateway_mac :
  replays (_add_flows_to_hosted_port env dvr_id subnet_id port_id port gateway_mac)
          (λ h _, trace_add_flows_to_hosted_port env h dvr_id subnet_id port_id
                    port gateway_mac).
Proof.
  intros st. unfold _add_flows_to_hosted_port, trace_add_flows_to_hosted_port.
  rewrite run_get_bind. case_bool_decide; [done|].
  case_bool_decide; by rewrite replay_singleton.
Qed.

Lemma _del_flows_to_hosted_port_replays port :
  replays (_del_flows_to_hosted_port port)
          (λ h _, trace_del_flows_to_hosted_port h port).
Proof.
  intros st. unfold _del_flows_to_hosted_port, trace_del_flows_to_hosted_port.
  rewrite run_get_bind. case_bool_decide; [done|]. by rewrite replay_singleton.
Qed.

Lemma port_added_replays env dvr_id subnet_id subnet other_gateway_macs item :
  replays (_add_flows_to_port other_gateway_macs item.2 (subnet_seg_id subnet);;
           _add_flows_to_hosted_port env dvr_id subnet_id item.1 item.2
                                     (subnet_gateway_mac subnet))
          (λ h ms, trace_port_added env h ms dvr_id subnet_id subnet
                     other_gateway_macs item).
Proof.
  apply (replays_bind _ _ _ _ (_add_flows_to_port_replays _ _ _)
                      (_add_flows_to_hosted_port_replays _ _ _ _ _ _)).
Qed.

Lemma port_deleted_replays other_gateway_macs port :
  replays (_del_flows_to_port other_gateway_macs port;;
           _del_flows_to_hosted_port port)
          (λ h _, trace_port_deleted h other_gateway_macs port).
Proof.
  apply (replays_bind _ _ _ _ (_del_flows_to_port_replays _ _)
                      (_del_flows_to_hosted_port_replays _)).
Qed.

Lemma _subnet_added_replays env dvr_id subnet_id subnet cidrs gateway_macs :
  replays (_subnet_added env dvr_id subnet_id subnet cidrs gateway_macs)
          (λ h ms, trace_subnet_added env h ms dvr_id subnet_id subnet
                     cidrs gateway_macs).
Proof.
  unfold _subnet_added, trace_subnet_added.
  apply (replays_bind _ _ _ _ (_add_flows_to_other_subnets_replays _ _)).
  apply (replays_forM _ _ (λ h ms, trace_port_added env h ms dvr_id subnet_id subnet _)).
  intros [port_id port] _. apply (port_added_replays env dvr_id subnet_id subnet _ (port_id, port)).
Qed.

Lemma _subnet_deleted_replays subnet cidrs gateway_macs :
  replays (_subnet_deleted subnet cidrs gateway_macs)
          (λ h _, trace_subnet_deleted h subnet cidrs gateway_macs).
Proof.
  unfold _subnet_deleted, trace_subnet_deleted.
  apply (replays_bind _ _ _ _ (_del_flows_to_other_subnets_replays _ _)).
  apply (replays_forM _ _ (λ h _, trace_port_deleted h _)).
  intros port _. apply port_deleted_replays.
Qed.

(** *** Loops that pop from a local dict *)

(** A routine replays a trace and returns a value. *)
Definition replays_val {B} (m : M B) (tr : option string → bool → list Event) (v : B) : Prop :=
  ∀ st, m st = (replay (tr (host st) (truthy (dvr_mac_address st)));; mret v) st.

Lemma replays_val_bind {B} (m : M unit) (k : M B) tr1 tr2 v :
  replays m tr1 → replays_val k tr2 v →
  replays_val (m;; k) (λ h ms, tr1 h ms ++ tr2 h ms) v.
Proof.
  intros H1 H2 st. rewrite run_bind, H1.
  rewrite (run_bind (replay (_ ++ _))), replay_app, run_bind.
  pose proof (replay_host (tr1 (host st) (truthy (dvr_mac_address st))) st) as Hh.
  pose proof (replay_mac (tr1 (host st) (truthy (dvr_mac_address st))) st) as Hm.
  destruct (replay _ st) as [[[]|x] st']; simpl in *; [|done].
  rewrite H2, Hh, Hm. rewrite run_bind. done.
Qed.

Lemma replays_val_ret {B} (v : B) : replays_val (mret v) (λ _ _, []) v.
Proof. intros st. reflexivity. Qed.

Lemma replays_then_ret {B} (m : M unit) tr (v : B) :
  replays m tr → replays_val (m;; mret v) tr v.
Proof. intros H st. rewrite !run_bind, H. done. Qed.

(** The trace of a loop whose body updates a local value. *)
Fixpoint fold_trace {A B} (tr : B → A → list Event) (next : B → A → B)
    (acc : B) (l : list A) : list Event :=
  match l with
  | [] => []
  | x :: l' => tr acc x ++ fold_trace tr next (next acc x) l'
  end.

Lemma replays_val_foldM {A B} (body : B → A → M B)
    (tr : option string → bool → B → A → list Event) (next : B → A → B) (l : list A) :
  (∀ acc x, replays_val (body acc x) (λ h ms, tr h ms acc x) (next acc x)) →
  ∀ acc, replays_val (foldM body acc l)
                     (λ h ms, fold_trace (tr h ms) next acc l) (foldl next acc l).
Proof.
  intros Hb. induction l as [|x l IH]; intros acc st; [reflexivity|].
  simpl foldM. simpl fold_trace. simpl foldl.
  rewrite run_bind, Hb.
  rewrite (run_bind (replay (_ ++ _))), replay_app, !run_bind.
  pose proof (replay_host (tr (host st) (truthy (dvr_mac_address st)) acc x) st) as Hh.
  pose proof (replay_mac (tr (host st) (truthy (dvr_mac_address st)) acc x) st) as Hm.
  destruct (replay _ st) as [[[]|e] st']; simpl in *; [|done].
  rewrite IH, Hh, Hm, run_bind. done.
Qed.

(** Popping the keys of [new] from [old] leaves [old ∖ new]. *)
Lemma lookup_foldl_delete {V W} (old : gmap string V) (l : list (string * W)) k :
  foldl (λ acc x, delete x.1 acc) old l !! k
  = if decide (k ∈ l.*1) then None else old !! k.
Proof.
  revert old. induction l as [|[k' w] l IH]; intros old.
  - rewrite decide_False; [done|]. apply not_elem_of_nil.
  - cbn [foldl]. rewrite IH, fmap_cons. cbn [fst].
    destruct (decide (k ∈ l.*1)) as [Hin|Hin].
    + rewrite decide_True; [done|]. by right.
    + destruct (decide (k = k')) as [->|Hne].
      * rewrite decide_True; [|by left]. apply lookup_delete_eq.
      * rewrite decide_False.
        -- by apply lookup_delete_ne.
        -- intros [?|?]%elem_of_cons; done.
Qed.

Lemma foldl_delete_difference {V} (old new : gmap string V) :
  foldl (λ acc x, delete x.1 acc) old (map_to_list new) = old ∖ new.
Proof.
  apply map_eq. intros k. rewrite lookup_foldl_delete, lookup_difference.
  destruct (decide (k ∈ (map_to_list new).*1)) as [H|H].
  - apply list_elem_of_fmap_1 in H. destruct H as ([k' v] & Hk & H). simpl in Hk. subst k'.
    apply elem_of_map_to_list in H. by rewrite H.
  - destruct (new !! k) as [v|] eqn:E; [|done].
    exfalso. apply H. apply list_elem_of_fmap. exists (k, v).
    split; [done|]. by apply elem_of_map_to_list.
Qed.

(** With distinct keys, every step of such a loop sees the entry of the
    initial dict. *)
Lemma fold_trace_delete {V W} (T : option V → string * W → list Event)
    (old : gmap string V) (l : list (string * W)) :
  NoDup l.*1 →
  fold_trace (λ acc x, T (acc !! x.1) x) (λ acc x, delete x.1 acc) old l
  = l ≫= λ x, T (old !! x.1) x.
Proof.
  revert old. induction l as [|[k w] l IH]; intros old Hnd; [done|].
  simpl in Hnd. apply NoDup_cons in Hnd as [Hk Hnd].
  simpl fold_trace. rewrite bind_cons. f_equal.
  rewrite IH by done. apply Forall_bind_ext, Forall_forall.
  intros [k' w'] Hin. simpl. rewrite lookup_delete_ne; [done|].
  intros ->. apply Hk. apply list_elem_of_fmap. by exists (k', w').
Qed.

Lemma replays_bind_val {B} (m : M B) (k : B → M unit) tr1 v tr2 :
  replays_val m tr1 v → replays (k v) tr2 →
  replays (m ≫= k) (λ h ms, tr1 h ms ++ tr2 h ms).
Proof.
  intros H1 H2 st. rewrite run_bind, H1, replay_app, !run_bind.
  pose proof (replay_host (tr1 (host st) (truthy (dvr_mac_address st))) st) as Hh.
  pose proof (replay_mac (tr1 (host st) (truthy (dvr_mac_address st))) st) as Hm.
  destruct (replay _ st) as [[[]|x] st']; simpl in *; [|done].
  rewrite H2, Hh, Hm. done.
Qed.

Lemma replays_val_ext {B} (m : M B) tr tr' (v v' : B) :
  (∀ h ms, tr h ms = tr' h ms) → v = v' → replays_val m tr v → replays_val m tr' v'.
Proof. intros He <- Hm st. rewrite Hm, !run_bind, He. done. Qed.

Lemma hosted_move_replays env dvr_id subnet_id port_id old_port port gateway_mac :
  replays (self ← get;
           if _port_moved_out_of_host self old_port port then
             _del_flows_to_hosted_port old_port
           else if _port_moved_into_host self old_port port then
             _add_flows_to_hosted_port env dvr_id subnet_id port_id port gateway_mac
           else mret tt)
          (λ h _, if bool_decide (port_host old_port = h)
                     && bool_decide (port_host port ≠ port_host old_port)
                  then trace_del_flows_to_hosted_port h old_port
                  else if bool_decide (port_host port = h)
                          && bool_decide (port_host port ≠ port_host old_port)
                  then trace_add_flows_to_hosted_port env h dvr_id subnet_id port_id
                                                      port gateway_mac
                  else []).
Proof.
  intros st. rewrite run_get_bind.
  unfold _port_moved_out_of_host, _port_moved_into_host.
  destruct (_ && _).
  - apply _del_flows_to_hosted_port_replays.
  - destruct (_ && _).
    + apply _add_flows_to_hosted_port_replays.
    + reflexivity.
Qed.

Lemma _subnet_updated_port_replays env dvr_id subnet_id subnet
    old_gateway_macs gateway_macs old_ports item :
  replays_val (_subnet_updated_port env dvr_id subnet_id subnet
                 old_gateway_macs gateway_macs old_ports item)
              (λ h ms, trace_subnet_updated_port env h ms dvr_id subnet_id subnet
                         old_gateway_macs gateway_macs (old_ports !! item.1) item)
              (delete item.1 old_ports).
Proof.
  destruct item as [port_id port].
  unfold _subnet_updated_port, trace_subnet_updated_port. cbn [fst snd].
  destruct (old_ports !! port_id) as [old_port|] eqn:E.
  - apply (replays_val_bind _ _ _ _ _ (_del_flows_to_port_replays _ _)).
    apply (replays_val_bind _ _ _ _ _ (_add_flows_to_port_replays _ _ _)).
    unfold pop. rewrite E.
    intros st. rewrite (run_bind (mret _)), run_ret.
    apply (replays_then_ret _ _ _
             (hosted_move_replays env dvr_id subnet_id port_id old_port port _)).
  - rewrite (delete_id _ _ E).
    intros st. rewrite <- run_bind_assoc.
    apply (replays_then_ret _ _ _
             (port_added_replays env dvr_id subnet_id subnet _ (port_id, port))).
Qed.

Lemma _subnet_updated_replays env dvr_id subnet_id old_subnet subnet
    old_cidrs cidrs old_gateway_macs gateway_macs :
  replays (_subnet_updated env dvr_id subnet_id (old_subnet, subnet)
             (old_cidrs, cidrs) (old_gateway_macs, gateway_macs))
          (λ h ms, trace_subnet_updated env h ms dvr_id subnet_id old_subnet subnet
                     old_cidrs cidrs old_gateway_macs gateway_macs).
Proof.
  unfold _subnet_updated, trace_subnet_updated.
  apply (replays_bind _ _ _ _ (_del_flows_to_other_subnets_replays _ _)).
  apply (replays_bind _ _ _ _ (_add_flows_to_other_subnets_replays _ _)).
  eapply (replays_bind_val _ _
            (λ h ms, map_to_list (subnet_ports subnet)
                       ≫= λ item, trace_subnet_updated_port env h ms dvr_id subnet_id
                                    subnet old_gateway_macs gateway_macs
                                    (subnet_ports old_subnet !! item.1) item)
            (subnet_ports old_subnet ∖ subnet_ports subnet)).
  - eapply replays_val_ext;
      [| |apply (replays_val_foldM _
                   (λ h ms acc x, trace_subnet_updated_port env h ms dvr_id subnet_id
                                    subnet old_gateway_macs gateway_macs
                                    (acc !! x.1) x)
                   (λ acc x, delete x.1 acc))].
    + intros h ms. cbn beta.
      apply (fold_trace_delete
               (λ o x, trace_subnet_updated_port env h ms dvr_id subnet_id subnet
                         old_gateway_macs gateway_macs o x)).
      apply NoDup_fst_map_to_list.
    + apply foldl_delete_difference.
    + intros acc x. apply _subnet_updated_port_replays.
  - apply (replays_forM _ _ (λ h _, trace_port_deleted h _)).
    intros port _. apply port_deleted_replays.
Qed.

Lemma _dvr_updated_subnet_replays env dvr_id old_cidrs cidrs
    old_gateway_macs gateway_macs old_dvr item :
  replays_val (_dvr_updated_subnet env dvr_id old_cidrs cidrs
                 old_gateway_macs gateway_macs old_dvr item)
              (λ h ms,
                 match old_dvr !! item.1 with
                 | None => trace_subnet_added env h ms dvr_id item.1 item.2
                             cidrs gateway_macs
                 | Some old_subnet =>
                     trace_subnet_updated env h ms dvr_id item.1 old_subnet item.2
                       old_cidrs cidrs old_gateway_macs gateway_macs
                 end)
              (delete item.1 old_dvr).
Proof.
  destruct item as [subnet_id subnet]. unfold _dvr_updated_subnet. cbn [fst snd].
  destruct (old_dvr !! subnet_id) as [old_subnet|] eqn:E.
  - unfold pop. rewrite E. intros st. rewrite (run_bind (mret _)), run_ret.
    apply (replays_then_ret _ _ _ (_subnet_updated_replays _ _ _ _ _ _ _ _ _)).
  - rewrite (delete_id _ _ E).
    apply (replays_then_ret _ _ _ (_subnet_added_replays _ _ _ _ _ _)).
Qed.

(** *** Routers *)

Lemma replays_at (m : M unit) tr st h ms :
  replays m tr → host st = h → truthy (dvr_mac_address st) = ms →
  m st = replay (tr h ms) st.
Proof. intros Hm <- <-. apply Hm. Qed.

Lemma _dvr_added_run env dvr_id new_dvr st :
  _dvr_added env dvr_id new_dvr st
  = replay (trace_dvr_added env (host st) (truthy (dvr_mac_address st)) dvr_id new_dvr)
           (set_registered_routers (<[dvr_id := new_dvr]> (registered_routers st)) st).
Proof.
  unfold _dvr_added, register_router, update_registered_routers.
  rewrite run_modify_bind.
  apply (replays_at _ (λ h ms, trace_dvr_added env h ms dvr_id new_dvr)); [|done..].
  apply (replays_forM (map_to_list new_dvr) _
           (λ h ms item, trace_subnet_added env h ms dvr_id item.1 item.2
                           (cidrs_of new_dvr) (gateway_macs_of new_dvr))).
  intros [subnet_id subnet] _. apply _subnet_added_replays.
Qed.

Lemma dvr_updated_flows_replays env dvr_id old_dvr new_dvr :
  replays (old_dvr' ← foldM (_dvr_updated_subnet env dvr_id
                               (cidrs_of old_dvr) (cidrs_of new_dvr)
                               (gateway_macs_of old_dvr) (gateway_macs_of new_dvr))
                            old_dvr (map_to_list new_dvr);
           forM_ (map_to_list old_dvr').*2 (λ subnet,
             _subnet_deleted subnet (cidrs_of old_dvr) (gateway_macs_of old_dvr)))
          (λ h ms, trace_dvr_updated env h ms dvr_id old_dvr new_dvr).
Proof.
  unfold trace_dvr_updated.
  eapply (replays_bind_val _ _
            (λ h ms, map_to_list new_dvr
               ≫= λ item,
                    match old_dvr !! item.1 with
                    | None => trace_subnet_added env h ms dvr_id item.1 item.2
                                (cidrs_of new_dvr) (gateway_macs_of new_dvr)
                    | Some old_subnet =>
                        trace_subnet_updated env h ms dvr_id item.1 old_subnet item.2
                          (cidrs_of old_dvr) (cidrs_of new_dvr)
                          (gateway_macs_of old_dvr) (gateway_macs_of new_dvr)
                    end)
            (old_dvr ∖ new_dvr)).
  - eapply replays_val_ext;
      [| |apply (replays_val_foldM _
                   (λ h ms acc (x : string * Subnet),
                      match acc !! x.1 with
                      | None => trace_subnet_added env h ms dvr_id x.1 x.2
                                  (cidrs_of new_dvr) (gateway_macs_of new_dvr)
                      | Some old_subnet =>
                          trace_subnet_updated env h ms dvr_id x.1 old_subnet x.2
                            (cidrs_of old_dvr) (cidrs_of new_dvr)
                            (gateway_macs_of old_dvr) (gateway_macs_of new_dvr)
                      end)
                   (λ acc x, delete x.1 acc))].
    + intros h ms. cbn beta.
      apply (fold_trace_delete
               (λ o (x : string * Subnet),
                  match o with
                  | None => trace_subnet_added env h ms dvr_id x.1 x.2
                              (cidrs_of new_dvr) (gateway_macs_of new_dvr)
                  | Some old_subnet =>
                      trace_subnet_updated env h ms dvr_id x.1 old_subnet x.2
                        (cidrs_of old_dvr) (cidrs_of new_dvr)
                        (gateway_macs_of old_dvr) (gateway_macs_of new_dvr)
                  end)).
      apply NoDup_fst_map_to_list.
    + apply foldl_delete_difference.
    + intros acc x. apply _dvr_updated_subnet_replays.
  - apply (replays_forM _ _ (λ h _ subnet, trace_subnet_deleted h subnet _ _)).
    intros subnet _. apply _subnet_deleted_replays.
Qed.

Lemma _dvr_updated_run env dvr_id new_dvr old_dvr st :
  registered_routers st !! dvr_id = Some old_dvr →
  _dvr_updated env dvr_id new_dvr st
  = replay (trace_dvr_updated env (host st) (truthy (dvr_mac_address st))
                              dvr_id old_dvr new_dvr)
           (set_registered_routers (<[dvr_id := new_dvr]> (registered_routers st)) st).
Proof.
  intros Hreg. unfold _dvr_updated, pop_registered_router.
  rewrite run_bind, run_get_bind, Hreg.
  unfold register_router, update_registered_routers.
  rewrite run_modify_bind, run_ret, run_modify_bind. cbn [registered_routers set_registered_routers].
  rewrite insert_delete_eq.
  apply (replays_at _ (λ h ms, trace_dvr_updated env h ms dvr_id old_dvr new_dvr));
    [|done..].
  apply (dvr_updated_flows_replays env dvr_id old_dvr new_dvr).
Qed.

Lemma _dvr_updated_unregistered env dvr_id new_dvr st :
  registered_routers st !! dvr_id = None →
  _dvr_updated env dvr_id new_dvr st = (Raise KeyError, st).
Proof.
  intros Hreg. unfold _dvr_updated, pop_registered_router.
  rewrite run_bind, run_get_bind, Hreg. reflexivity.
Qed.

Lemma _dvr_deleted_run dvr_id deleted_dvr st :
  registered_routers st !! dvr_id = Some deleted_dvr →
  _dvr_deleted dvr_id st
  = replay (trace_dvr_deleted (host st) deleted_dvr)
           (set_registered_routers (delete dvr_id (registered_routers st)) st).
Proof.
  intros Hreg. unfold _dvr_deleted, pop_registered_router.
  rewrite run_bind, run_get_bind, Hreg.
  unfold update_registered_routers. rewrite run_modify_bind, run_ret.
  apply (replays_at _ (λ h _, trace_dvr_deleted h deleted_dvr) _ _
                    (truthy (dvr_mac_address st))); [|done..].
  apply (replays_forM _ _ (λ h _ subnet, trace_subnet_deleted h subnet _ _)).
  intros subnet _. apply _subnet_deleted_replays.
Qed.

(** ** A router that did not change *)

Lemma bind_nil_const {A B} (l : list A) (f : A → list B) :
  (∀ x, x ∈ l → f x = []) → l ≫= f = [].
Proof.
  induction l as [|x l IH]; intros Hf; [done|].
  rewrite bind_cons, (Hf x) by left. apply IH. intros y Hy. apply Hf. by right.
Qed.

Lemma trace_del_flows_to_other_subnets_empty gateway_mac :
  trace_del_flows_to_other_subnets gateway_mac ∅ = [].
Proof. unfold trace_del_flows_to_other_subnets. by rewrite elements_empty. Qed.

Lemma trace_add_flows_to_other_subnets_empty ms gateway_mac :
  trace_add_flows_to_other_subnets ms gateway_mac ∅ = [].
Proof.
  unfold trace_add_flows_to_other_subnets. rewrite elements_empty. by destruct ms.
Qed.

Lemma trace_del_flows_to_port_empty port : trace_del_flows_to_port ∅ port = [].
Proof. unfold trace_del_flows_to_port. by rewrite elements_empty. Qed.

Lemma trace_add_flows_to_port_empty ms port seg_id :
  trace_add_flows_to_port ms ∅ port seg_id = [].
Proof. unfold trace_add_flows_to_port. rewrite elements_empty. by destruct ms. Qed.

Lemma trace_subnet_updated_same env h ms dvr_id subnet_id subnet cidrs gateway_macs :
  trace_subnet_updated env h ms dvr_id subnet_id subnet subnet
                       cidrs cidrs gateway_macs gateway_macs = [].
Proof.
  unfold trace_subnet_updated.
  rewrite !difference_diag_L, map_difference_diag, map_to_list_empty.
  rewrite trace_del_flows_to_other_subnets_empty, trace_add_flows_to_other_subnets_empty.
  rewrite bind_nil_const; [done|].
  intros [port_id port] Hin. apply elem_of_map_to_list in Hin.
  unfold trace_subnet_updated_port. cbn [fst snd]. rewrite Hin.
  rewrite !difference_diag_L, trace_del_flows_to_port_empty,
    trace_add_flows_to_port_empty.
  rewrite (bool_decide_eq_false_2 (port_host port ≠ port_host port)) by auto.
  by rewrite !andb_false_r.
Qed.

Lemma trace_dvr_updated_same env h ms dvr_id dvr :
  trace_dvr_updated env h ms dvr_id dvr dvr = [].
Proof.
  unfold trace_dvr_updated. rewrite map_difference_diag, map_to_list_empty.
  rewrite bind_nil_const; [done|].
  intros [subnet_id subnet] Hin. apply elem_of_map_to_list in Hin.
  cbn [fst snd]. rewrite Hin. apply trace_subnet_updated_same.
Qed.

Lemma set_registered_routers_id st :
  set_registered_routers (registered_routers st) st = st.
Proof. by destruct st. Qed.

(** Whatever the bridges accept, updating a router with the value it is
    registered with does nothing. *)
Lemma _dvr_updated_same env dvr_id dvr st :
  registered_routers st !! dvr_id = Some dvr →
  _dvr_updated env dvr_id dvr st = (Ok tt, st).
Proof.
  intros Hreg. rewrite (_dvr_updated_run env dvr_id dvr dvr st Hreg).
  rewrite trace_dvr_updated_same, replay_nil, insert_id by done.
  by rewrite set_registered_routers_id.
Qed.

(** ** The diff of the router ids *)

Lemma classify_registered_foldl (sync_dvrs : gmap string (gmap string Subnet))
    (l : list string) (D U : gset string) (d : string) :
  let r := foldl (λ '(dvrs_to_delete, dvrs_to_update) dvr_id,
                    match sync_dvrs !! dvr_id with
                    | None => ({[dvr_id]} ∪ dvrs_to_delete, dvrs_to_update)
                    | Some _ => (dvrs_to_delete, {[dvr_id]} ∪ dvrs_to_update)
                    end) (D, U) l in
  (d ∈ r.1 ↔ d ∈ D ∨ (d ∈ l ∧ sync_dvrs !! d = None))
  ∧ (d ∈ r.2 ↔ d ∈ U ∨ (d ∈ l ∧ is_Some (sync_dvrs !! d))).
Proof.
  revert D U. induction l as [|x l IH]; intros D U; cbn [foldl].
  - cbn. split; split; try tauto; intros [?|[H _]]; try done; by apply elem_of_nil in H.
  - destruct (sync_dvrs !! x) as [r|] eqn:E.
    + destruct (IH D ({[x]} ∪ U)) as [IH1 IH2]. cbn zeta in *. split.
      * rewrite IH1. rewrite elem_of_cons. split; [|intros [?|[[->|?] ?]]; try tauto; congruence].
        intros [?|[? ?]]; tauto.
      * rewrite IH2. rewrite elem_of_cons, elem_of_union, elem_of_singleton.
        split; [intros [[->|?]|[? ?]]; eauto|].
        intros [?|[[->|?] ?]]; eauto.
    + destruct (IH ({[x]} ∪ D) U) as [IH1 IH2]. cbn zeta in *. split.
      * rewrite IH1. rewrite elem_of_cons, elem_of_union, elem_of_singleton.
        split; [intros [[->|?]|[? ?]]; eauto|].
        intros [?|[[->|?] ?]]; eauto.
      * rewrite IH2. rewrite elem_of_cons. split; [intros [?|[? ?]]; tauto|].
        intros [?|[[->|?] [r Hr]]]; eauto. congruence.
Qed.

Lemma elem_of_map_keys {V} (m : gmap string V) d :
  d ∈ (map_to_list m).*1 ↔ is_Some (m !! d).
Proof.
  rewrite list_elem_of_fmap. split.
  - intros ([k v] & -> & H). apply elem_of_map_to_list in H. eauto.
  - intros [v Hv]. exists (d, v). split; [done|]. by apply elem_of_map_to_list.
Qed.

Lemma elem_of_dvrs_to_delete registered sync_dvrs d :
  d ∈ (classify_registered registered sync_dvrs).1
  ↔ is_Some (registered !! d) ∧ sync_dvrs !! d = None.
Proof.
  unfold classify_registered.
  destruct (classify_registered_foldl sync_dvrs (map_to_list registered).*1 ∅ ∅ d) as [H _].
  cbn zeta in H. rewrite H, elem_of_map_keys, elem_of_empty. tauto.
Qed.

Lemma elem_of_dvrs_to_update registered sync_dvrs d :
  d ∈ (classify_registered registered sync_dvrs).2
  ↔ is_Some (registered !! d) ∧ is_Some (sync_dvrs !! d).
Proof.
  unfold classify_registered.
  destruct (classify_registered_foldl sync_dvrs (map_to_list registered).*1 ∅ ∅ d) as [_ H].
  cbn zeta in H. rewrite H, elem_of_map_keys, elem_of_empty. tauto.
Qed.

Lemma lookup_foldl_delete_keys {V} (m : gmap string V) (l : list string) k :
  foldl (λ acc d, delete d acc) m l !! k
  = if decide (k ∈ l) then None else m !! k.
Proof.
  revert m. induction l as [|k' l IH]; intros m.
  - rewrite decide_False; [done|]. apply not_elem_of_nil.
  - cbn [foldl]. rewrite IH.
    destruct (decide (k ∈ l)) as [Hin|Hin].
    + rewrite decide_True; [done|]. by right.
    + destruct (decide (k = k')) as [->|Hne].
      * rewrite decide_True; [|by left]. apply lookup_delete_eq.
      * rewrite decide_False.
        -- by apply lookup_delete_ne.
        -- intros [?|?]%elem_of_cons; done.
Qed.

(** ** Reconciling against a registry that is part of the topology *)

Lemma update_loop_same env (l : list string)
    (acc : gmap string (gmap string Subnet)) st :
  NoDup l →
  (∀ d, d ∈ l → ∃ r, registered_routers st !! d = Some r ∧ acc !! d = Some r) →
  foldM (λ sync_dvrs dvr_id,
           '(new_dvr, sync_dvrs') ← pop dvr_id sync_dvrs;
           _dvr_updated env dvr_id new_dvr;;
           mret sync_dvrs') acc l st
  = (Ok (foldl (λ a d, delete d a) acc l), st).
Proof.
  revert acc. induction l as [|d l IH]; intros acc Hnd Hl; [reflexivity|].
  apply NoDup_cons in Hnd as [Hd Hnd].
  destruct (Hl d) as (r & Hr & Ha); [left|].
  cbn [foldM foldl]. rewrite run_bind. unfold pop at 1. rewrite Ha.
  rewrite (run_bind (mret _)), run_ret, run_bind, (_dvr_updated_same env d r st Hr), run_ret.
  apply IH; [done|]. intros d' Hd'.
  destruct (Hl d') as (r' & Hr' & Ha'); [by right|].
  exists r'. split; [done|]. rewrite lookup_delete_ne; [done|]. by intros ->.
Qed.

Lemma foldl_delete_dom {V} (m reg : gmap string V) :
  foldl (λ a d, delete d a) m (elements (dom reg)) = m ∖ reg.
Proof.
  apply map_eq. intros k.
  rewrite lookup_foldl_delete_keys, lookup_difference.
  destruct (decide (k ∈ elements (dom reg))) as [H|H].
  - apply elem_of_elements, elem_of_dom in H as [v ->]. done.
  - destruct (reg !! k) as [v|] eqn:E; [|done].
    exfalso. apply H, elem_of_elements, elem_of_dom. eauto.
Qed.

(** If every registered router is registered with its value in the
    fetched topology, the diff only adds the routers that are not
    registered; this holds whatever the bridges accept. *)
Lemma reconcile_registered_subseteq env (T : gmap string (gmap string Subnet)) st :
  registered_routers st ⊆ T →
  reconcile env T st
  = (forM_ (map_to_list (T ∖ registered_routers st))
           (λ '(dvr_id, new_dvr), _dvr_added env dvr_id new_dvr);;
     modify (set_last_sync (time_at_end env))) st.
Proof.
  intros Hsub. unfold reconcile. rewrite run_get_bind.
  destruct (classify_registered (registered_routers st) T) as [del upd] eqn:E.
  assert (del = ∅) as Hdel.
  { apply set_eq. intros d.
    change del with (del, upd).1. rewrite <- E, elem_of_dvrs_to_delete, elem_of_empty.
    split; [|done]. intros [[r Hr] Hn].
    apply (lookup_weaken _ _ _ _ Hr) in Hsub. congruence. }
  assert (upd = dom (registered_routers st)) as Hupd.
  { apply set_eq. intros d.
    change upd with (del, upd).2. rewrite <- E, elem_of_dvrs_to_update, elem_of_dom.
    split; [tauto|]. intros [r Hr]. split; [eauto|].
    apply (lookup_weaken _ _ _ _ Hr) in Hsub. eauto. }
  subst del upd. rewrite elements_empty. cbn [forM_]. rewrite (run_bind (mret tt)), run_ret.
  rewrite run_bind, update_loop_same.
  - by rewrite foldl_delete_dom.
  - apply NoDup_elements.
  - intros d Hd. apply elem_of_elements, elem_of_dom in Hd as [r Hr].
    exists r. split; [done|]. by apply (lookup_weaken _ _ _ _ Hr).
Qed.

(** In particular, reconciling the registered topology changes nothing but
    [last_sync]. *)
Lemma reconcile_same env st :
  reconcile env (registered_routers st) st
  = (Ok tt, set_last_sync (time_at_end env) st).
Proof.
  rewrite reconcile_registered_subseteq by done.
  rewrite map_difference_diag, map_to_list_empty. reflexivity.
Qed.

(** ** Invariants of computations *)

Section Steps.
Context (R : relation St) `{!PreOrder R}.

Lemma steps_ret {A} (a : A) : steps R (mret a).
Proof. intros st. reflexivity. Qed.

Lemma steps_raise {A} e : steps R (raise e : M A).
Proof. intros st. reflexivity. Qed.

Lemma steps_bind {A B} (m : M A) (k : A → M B) :
  steps R m → (∀ a, steps R (k a)) → steps R (m ≫= k).
Proof.
  intros Hm Hk st. rewrite run_bind. specialize (Hm st).
  destruct (m st) as [[a|e] st1]; simpl in *; [|done].
  etrans; [exact Hm|apply Hk].
Qed.

Lemma steps_get_bind {B} (k : St → M B) :
  (∀ st, R st (k st st).2) → steps R (get ≫= k).
Proof. intros Hk st. apply Hk. Qed.

Lemma steps_forM {A} (l : list A) (body : A → M unit) :
  (∀ x, x ∈ l → steps R (body x)) → steps R (forM_ l body).
Proof.
  induction l as [|x l IH]; intros Hb; [apply steps_ret|].
  apply steps_bind; [apply Hb; left|]. intros _. apply IH.
  intros y Hy. apply Hb. by right.
Qed.

Lemma steps_foldM {A B} (body : B → A → M B) (l : list A) acc :
  (∀ acc x, x ∈ l → steps R (body acc x)) → steps R (foldM body acc l).
Proof.
  revert acc. induction l as [|x l IH]; intros acc Hb; [apply steps_ret|].
  apply steps_bind; [apply Hb; left|]. intros acc'. apply IH.
  intros acc'' y Hy. apply Hb. by right.
Qed.

Lemma steps_pop {V} k (d : gmap string V) : steps R (pop k d).
Proof. unfold pop. destruct (d !! k); [apply steps_ret|apply steps_raise]. Qed.
End Steps.

Global Instance evolves_preorder Q : PreOrder (evolves Q).
Proof.
  split.
  - intros st. repeat split. exists []. by rewrite app_nil_r.
  - intros a b c (?&?&?&?&?&?&ops1&Hl1&Hq1) (?&?&?&?&?&?&ops2&Hl2&Hq2).
    repeat split; try congruence.
    exists (ops1 ++ ops2). split; [|by apply Forall_app].
    by rewrite Hl2, Hl1, app_assoc.
Qed.

Lemma evolves_weaken (Q Q' : Bridge * FlowOp → Prop) st st' :
  (∀ x, Q x → Q' x) → evolves Q st st' → evolves Q' st st'.
Proof.
  intros HQ (?&?&?&?&?&?&ops&Hl&H). repeat split; try done.
  exists ops. split; [done|]. eapply Forall_impl; eauto.
Qed.

Lemma evolves_issued Q st st' :
  evolves Q st st' →
  flow_log st' = flow_log st ++ issued st st' ∧ Forall Q (issued st st').
Proof.
  intros (_&_&_&_&_&_&ops&Hl&H). unfold issued.
  rewrite Hl, drop_app_length. done.
Qed.

Lemma emit_evolves (Q : Bridge * FlowOp → Prop) br op :
  Q (br, op) → steps (evolves Q) (emit br op).
Proof.
  intros HQ st. unfold emit.
  destruct (budget st) as [[|n]|]; cbn; [reflexivity| |];
    (repeat split; exists [(br, op)]; split; [done|by constructor]).
Qed.

Lemma update_registered_routers_evolves Q f :
  steps (evolves Q) (update_registered_routers f).
Proof. intros st. repeat split. exists []. cbn. by rewrite app_nil_r. Qed.

Lemma set_last_sync_evolves Q t : steps (evolves Q) (modify (set_last_sync t)).
Proof. intros st. repeat split. exists []. cbn. by rewrite app_nil_r. Qed.

(** A trace whose flow operations satisfy [Q]. *)
Definition trace_ok (Q : Bridge * FlowOp → Prop) (evs : list Event) : Prop :=
  Forall (λ e, match e with EFlow br op => Q (br, op) | EClearHost _ _ _ => True end) evs.

Lemma replay_evolves Q evs : trace_ok Q evs → steps (evolves Q) (replay evs).
Proof.
  intros Hok. apply steps_forM; [apply _|].
  intros e He. eapply Forall_forall in Hok; [|exact He].
  destruct e; [by apply emit_evolves | apply update_registered_routers_evolves].
Qed.

Lemma trace_ok_app Q evs1 evs2 :
  trace_ok Q evs1 → trace_ok Q evs2 → trace_ok Q (evs1 ++ evs2).
Proof. intros. by apply Forall_app. Qed.

Lemma trace_ok_bind {A} Q (l : list A) (f : A → list Event) :
  (∀ x, x ∈ l → trace_ok Q (f x)) → trace_ok Q (l ≫= f).
Proof. intros H. apply Forall_bind, Forall_forall. intros x Hx. by apply H. Qed.

Lemma trace_ok_fmap {A} (Q : Bridge * FlowOp → Prop) (l : list A) (f : A → Bridge * FlowOp) :
  (∀ x, Q (f x)) → trace_ok Q ((λ x, EFlow (f x).1 (f x).2) <$> l).
Proof.
  intros H. apply Forall_fmap, Forall_forall. intros x _. cbn.
  specialize (H x). by destruct (f x).
Qed.

Lemma trace_ok_nil Q : trace_ok Q [].
Proof. constructor. Qed.

(** ** The flow operations of the diff *)

Section TraceOk.
Context (Q : Bridge * FlowOp → Prop) (ms : bool).
Hypothesis Q_delete : ∀ x, is_delete x → Q x.
Hypothesis Q_hosted : ∀ br kw, hosted_delivery_rule kw → Q (br, add_flow kw).
Hypothesis Q_guarded : ms = true → ∀ br kw,
  other_subnet_rule kw ∨ resolve_rule kw → Q (br, add_flow kw).

Lemma trace_add_flows_to_other_subnets_ok gateway_mac cidrs :
  trace_ok Q (trace_add_flows_to_other_subnets ms gateway_mac cidrs).
Proof.
  unfold trace_add_flows_to_other_subnets.
  destruct ms eqn:E; cbn [negb]; [|apply trace_ok_nil].
  apply (trace_ok_fmap Q _ (λ cidr, (int_br, add_flow _))).
  intros cidr. apply Q_guarded; [done|]. by left.
Qed.

Lemma trace_del_flows_to_other_subnets_ok gateway_mac cidrs :
  trace_ok Q (trace_del_flows_to_other_subnets gateway_mac cidrs).
Proof.
  apply (trace_ok_fmap Q _ (λ cidr, (int_br, delete_flows _))).
  intros cidr. by apply Q_delete.
Qed.

Lemma trace_add_flows_to_port_ok gateway_macs port seg_id :
  trace_ok Q (trace_add_flows_to_port ms gateway_macs port seg_id).
Proof.
  unfold trace_add_flows_to_port.
  destruct ms eqn:E; cbn [negb]; [|apply trace_ok_nil].
  apply (trace_ok_fmap Q _ (λ gateway_mac, (int_br, add_flow _))).
  intros gateway_mac. apply Q_guarded; [done|]. by right.
Qed.

Lemma trace_del_flows_to_port_ok gateway_macs port :
  trace_ok Q (trace_del_flows_to_port gateway_macs port).
Proof.
  apply (trace_ok_fmap Q _ (λ gateway_mac, (int_br, delete_flows _))).
  intros gateway_mac. by apply Q_delete.
Qed.

Lemma trace_add_flows_to_hosted_port_ok env h dvr_id subnet_id port_id port gateway_mac :
  trace_ok Q (trace_add_flows_to_hosted_port env h dvr_id subnet_id port_id
                                             port gateway_mac).
Proof.
  unfold trace_add_flows_to_hosted_port.
  repeat case_bool_decide; repeat constructor.
  by apply Q_hosted.
Qed.

Lemma trace_del_flows_to_hosted_port_ok h port :
  trace_ok Q (trace_del_flows_to_hosted_port h port).
Proof.
  unfold trace_del_flows_to_hosted_port.
  case_bool_decide; repeat constructor. by apply Q_delete.
Qed.

Lemma trace_port_added_ok env h dvr_id subnet_id subnet other_gateway_macs item :
  trace_ok Q (trace_port_added env h ms dvr_id subnet_id subnet
                               other_gateway_macs item).
Proof.
  apply trace_ok_app;
    [apply trace_add_flows_to_port_ok | apply trace_add_flows_to_hosted_port_ok].
Qed.

Lemma trace_port_deleted_ok h other_gateway_macs port :
  trace_ok Q (trace_port_deleted h other_gateway_macs port).
Proof.
  apply trace_ok_app;
    [apply trace_del_flows_to_port_ok | apply trace_del_flows_to_hosted_port_ok].
Qed.

Lemma trace_subnet_added_ok env h dvr_id subnet_id subnet cidrs gateway_macs :
  trace_ok Q (trace_subnet_added env h ms dvr_id subnet_id subnet cidrs gateway_macs).
Proof.
  apply trace_ok_app; [apply trace_add_flows_to_other_subnets_ok|].
  apply trace_ok_bind. intros item _. apply trace_port_added_ok.
Qed.

Lemma trace_subnet_deleted_ok h subnet cidrs gateway_macs :
  trace_ok Q (trace_subnet_deleted h subnet cidrs gateway_macs).
Proof.
  apply trace_ok_app; [apply trace_del_flows_to_other_subnets_ok|].
  apply trace_ok_bind. intros port _. apply trace_port_deleted_ok.
Qed.

Lemma trace_subnet_updated_port_ok env h dvr_id subnet_id subnet
    old_gateway_macs gateway_macs old_port item :
  trace_ok Q (trace_subnet_updated_port env h ms dvr_id subnet_id subnet
                old_gateway_macs gateway_macs old_port item).
Proof.
  unfold trace_subnet_updated_port.
  destruct old_port as [old_port|]; [|apply trace_port_added_ok].
  apply trace_ok_app; [apply trace_del_flows_to_port_ok|].
  apply trace_ok_app; [apply trace_add_flows_to_port_ok|].
  destruct (_ && _); [apply trace_del_flows_to_hosted_port_ok|].
  destruct (_ && _); [apply trace_add_flows_to_hosted_port_ok|apply trace_ok_nil].
Qed.

Lemma trace_subnet_updated_ok env h dvr_id subnet_id old_subnet subnet
    old_cidrs cidrs old_gateway_macs gateway_macs :
  trace_ok Q (trace_subnet_updated env h ms dvr_id subnet_id old_subnet subnet
                old_cidrs cidrs old_gateway_macs gateway_macs).
Proof.
  apply trace_ok_app; [apply trace_del_flows_to_other_subnets_ok|].
  apply trace_ok_app; [apply trace_add_flows_to_other_subnets_ok|].
  apply trace_ok_app.
  - apply trace_ok_bind. intros item _. apply trace_subnet_updated_port_ok.
  - apply trace_ok_bind. intros port _. apply trace_port_deleted_ok.
Qed.

Lemma trace_dvr_added_ok env h dvr_id new_dvr :
  trace_ok Q (trace_dvr_added env h ms dvr_id new_dvr).
Proof. apply trace_ok_bind. intros item _. apply trace_subnet_added_ok. Qed.

Lemma trace_dvr_deleted_ok h deleted_dvr :
  trace_ok Q (trace_dvr_deleted h deleted_dvr).
Proof. apply trace_ok_bind. intros item _. apply trace_subnet_deleted_ok. Qed.

Lemma trace_dvr_updated_ok env h dvr_id old_dvr new_dvr :
  trace_ok Q (trace_dvr_updated env h ms dvr_id old_dvr new_dvr).
Proof.
  apply trace_ok_app.
  - apply trace_ok_bind. intros item _.
    destruct (old_dvr !! item.1);
      [apply trace_subnet_updated_ok | apply trace_subnet_added_ok].
  - apply trace_ok_bind. intros subnet _. apply trace_subnet_deleted_ok.
Qed.

Global Instance evolves_at_preorder h : PreOrder (evolves_at h ms Q).
Proof.
  split.
  - intros st _ _. reflexivity.
  - intros a b c Hab Hbc Hh Hm. specialize (Hab Hh Hm).
    etrans; [exact Hab|]. destruct Hab as (Hh' & _ & _ & Hm' & _).
    apply Hbc; congruence.
Qed.

Lemma set_registered_routers_evolves v st :
  evolves Q st (set_registered_routers v st).
Proof. repeat split. exists []. cbn. by rewrite app_nil_r. Qed.

Lemma _dvr_added_steps env h dvr_id new_dvr :
  steps (evolves_at h ms Q) (_dvr_added env dvr_id new_dvr).
Proof.
  intros st Hh Hm. rewrite _dvr_added_run, Hh, Hm.
  etrans; [apply set_registered_routers_evolves|].
  apply replay_evolves, trace_dvr_added_ok.
Qed.

Lemma _dvr_updated_steps env h dvr_id new_dvr :
  steps (evolves_at h ms Q) (_dvr_updated env dvr_id new_dvr).
Proof.
  intros st Hh Hm.
  destruct (registered_routers st !! dvr_id) as [old_dvr|] eqn:E.
  - rewrite (_dvr_updated_run _ _ _ _ _ E), Hh, Hm.
    etrans; [apply set_registered_routers_evolves|].
    apply replay_evolves, trace_dvr_updated_ok.
  - rewrite (_dvr_updated_unregistered _ _ _ _ E). reflexivity.
Qed.

Lemma _dvr_deleted_steps h dvr_id :
  steps (evolves_at h ms Q) (_dvr_deleted dvr_id).
Proof.
  intros st Hh Hm.
  destruct (registered_routers st !! dvr_id) as [old_dvr|] eqn:E.
  - rewrite (_dvr_deleted_run _ _ _ E), Hh.
    etrans; [apply set_registered_routers_evolves|].
    apply replay_evolves, trace_dvr_deleted_ok.
  - unfold _dvr_deleted, pop_registered_router.
    rewrite run_bind, run_get_bind, E. reflexivity.
Qed.

Lemma reconcile_steps env h sync_dvrs :
  steps (evolves_at h ms Q) (reconcile env sync_dvrs).
Proof.
  unfold reconcile. apply steps_get_bind. intros st.
  destruct (classify_registered (registered_routers st) sync_dvrs) as [del upd].
  apply steps_bind; [apply _| |].
  { apply steps_forM; [apply _|]. intros d _. apply _dvr_deleted_steps. }
  intros _. apply steps_bind; [apply _| |].
  { apply steps_foldM; [apply _|]. intros acc d _.
    apply steps_bind; [apply _|apply steps_pop; apply _|].
    intros [new_dvr acc']. apply steps_bind; [apply _|apply _dvr_updated_steps|].
    intros _. apply steps_ret; apply _. }
  intros acc. apply steps_bind; [apply _| |].
  { apply steps_forM; [apply _|]. intros [d new_dvr] _. apply _dvr_added_steps. }
  intros _ st' _ _. apply set_last_sync_evolves.
Qed.

Lemma reconcile_evolves_ms env sync_dvrs st :
  truthy (dvr_mac_address st) = ms →
  evolves Q st (reconcile env sync_dvrs st).2.
Proof. intros H. exact (reconcile_steps env (host st) sync_dvrs st eq_refl H). Qed.
End TraceOk.

(** ** The sync entry point *)

Lemma sync_dvr_ports_run env phy_brs st :
  sync_dvr_ports env phy_brs st
  = if truthy (dvr_mac_address st) then fetch_and_reconcile env st
    else match retry_dvr_mac env phy_brs st with
         | (Ok _, st1) => fetch_and_reconcile env st1
         | (Raise e, st1) => (Raise e, st1)
         end.
Proof.
  unfold sync_dvr_ports. rewrite run_get_bind, run_bind.
  destruct (truthy (dvr_mac_address st)); cbn [negb].
  - rewrite run_ret, run_get_bind. unfold fetch_and_reconcile, throttled.
    case_bool_decide; [done|]. rewrite run_modify_bind.
    by destruct (get_openflow_ew_dvrs env (host st)).
  - fold (retry_dvr_mac env phy_brs).
    destruct (retry_dvr_mac env phy_brs st) as [[[]|e] st1]; [|done].
    rewrite run_get_bind. unfold fetch_and_reconcile, throttled.
    case_bool_decide; [done|]. rewrite run_modify_bind.
    by destruct (get_openflow_ew_dvrs env (host st1)).
Qed.

Global Instance retried_preorder : PreOrder retried.
Proof.
  split.
  - intros st. repeat split. exists []. by rewrite app_nil_r.
  - intros a b c (?&?&?&?&?&?&?&ops1&Hl1&Hq1) (?&?&?&?&?&?&?&ops2&Hl2&Hq2).
    repeat split; try congruence.
    exists (ops1 ++ ops2). split; [|by apply Forall_app].
    by rewrite Hl2, Hl1, app_assoc.
Qed.

Lemma emit_retried br op : self_mac_rule (br, op) → steps retried (emit br op).
Proof.
  intros HQ st. unfold emit.
  destruct (budget st) as [[|n]|]; cbn; [reflexivity| |];
    (repeat split; exists [(br, op)]; split; [done|by constructor]).
Qed.

Lemma retry_dvr_mac_retried env phy_brs : steps retried (retry_dvr_mac env phy_brs).
Proof.
  unfold retry_dvr_mac. apply steps_bind; [apply _| |].
  { unfold _get_dvr_mac_address. apply steps_get_bind. intros st.
    destruct (get_dvr_mac_address_by_host env (host st)); [|reflexivity].
    repeat split. exists []. cbn. by rewrite app_nil_r. }
  intros _. apply steps_bind; [apply _| |].
  { unfold _set_src_to_dvr. apply steps_get_bind. intros st.
    destruct (truthy (dvr_mac_address st)); [|reflexivity].
    by apply emit_retried. }
  intros _. unfold setup_dvr_flows_on_phys_brs. apply steps_get_bind. intros st.
  destruct (negb _); [reflexivity|].
  apply steps_forM; [apply _|]. intros br _. by apply emit_retried.
Qed.

(** If the plugin still has no DVR MAC for this host, the retry installs
    nothing. *)
Lemma retry_dvr_mac_unset env phy_brs st :
  truthy (dvr_mac_address st) = false →
  truthy (get_dvr_mac_address_by_host env (host st)) = false →
  ∃ mac, truthy mac = false
         ∧ retry_dvr_mac env phy_brs st = (Ok tt, set_dvr_mac_address mac st).
Proof.
  intros Hst Hrpc. unfold retry_dvr_mac, _get_dvr_mac_address.
  rewrite run_bind, run_get_bind.
  destruct (get_dvr_mac_address_by_host env (host st)) as [mac|] eqn:E.
  - exists (Some mac). split; [done|].
    unfold modify. unfold _set_src_to_dvr, setup_dvr_flows_on_phys_brs.
    rewrite run_bind, run_get_bind. cbn [dvr_mac_address set_dvr_mac_address].
    rewrite Hrpc. rewrite run_ret, run_get_bind.
    cbn [dvr_mac_address set_dvr_mac_address]. rewrite Hrpc. reflexivity.
  - exists (dvr_mac_address st). split; [done|].
    rewrite run_ret. unfold _set_src_to_dvr, setup_dvr_flows_on_phys_brs.
    rewrite run_bind, run_get_bind, Hst, run_ret, run_get_bind, Hst.
    by destruct st.
Qed.

Lemma issued_refl st : issued st st = [].
Proof. unfold issued. apply drop_all. Qed.

Lemma issued_app st st' ops :
  flow_log st' = flow_log st ++ ops → issued st st' = ops.
Proof. intros H. unfold issued. by rewrite H, drop_app_length. Qed.

Lemma retried_issued st st' :
  retried st st' →
  flow_log st' = flow_log st ++ issued st st' ∧ Forall self_mac_rule (issued st st').
Proof.
  intros (_&_&_&_&_&_&_&ops&Hl&H). by rewrite (issued_app _ _ _ Hl).
Qed.

(** The fetch and the diff never touch the host, the interval, the DVR
    MACs or the count of fetches other than by the fetch itself. *)
Lemma reconcile_evolves env T st :
  evolves topology_op st (reconcile env T st).2.
Proof.
  apply (reconcile_evolves_ms topology_op (truthy (dvr_mac_address st))); try done.
  - intros x Hx. by left.
  - intros br kw Hkw. right; right; right. done.
  - intros _ br kw [Hkw|Hkw]; [right; left|right; right; left]; done.
Qed.

Lemma reconcile_ok_last_sync env T st st' :
  reconcile env T st = (Ok tt, st') → last_sync st' = time_at_end env.
Proof.
  unfold reconcile. rewrite run_get_bind.
  destruct (classify_registered (registered_routers st) T) as [del upd].
  rewrite run_bind. destruct (forM_ _ _ st) as [[[]|e] st1]; [|done].
  rewrite run_bind. destruct (foldM _ _ _ st1) as [[acc|e] st2]; [|done].
  rewrite run_bind. destruct (forM_ _ _ st2) as [[[]|e] st3]; [|done].
  intros [= <-]. reflexivity.
Qed.

Lemma fetch_and_reconcile_same env st :
  get_openflow_ew_dvrs env (host st) = Some (registered_routers st) →
  registered_routers (fetch_and_reconcile env st).2 = registered_routers st
  ∧ flow_log (fetch_and_reconcile env st).2 = flow_log st.
Proof.
  intros Hfetch. unfold fetch_and_reconcile.
  destruct (throttled env st); [done|]. rewrite Hfetch.
  pose proof (reconcile_same env (count_fetch st)) as H.
  cbn [count_fetch registered_routers set_fetches] in H. unfold count_fetch in *.
  by rewrite H.
Qed.

Lemma fetch_and_reconcile_failed env st :
  get_openflow_ew_dvrs env (host st) = None →
  fetch_and_reconcile env st
  = (Ok tt, if throttled env st then st else count_fetch st).
Proof.
  intros Hfetch. unfold fetch_and_reconcile.
  destruct (throttled env st); [done|]. by rewrite Hfetch.
Qed.

(** C1, as the code has it.  When [registered_routers] already is the
    fetched topology [T], a call of [sync_dvr_ports] issues no flow
    operation of the diff and leaves the registry as it is.  The only
    flow operations it can issue are the rules carrying the DVR MAC of
    this host, installed by the retry that runs while that MAC is unset;
    with the MAC set the call issues nothing at all.  This holds whatever
    the bridges accept. *)
Theorem sync_dvr_ports_idempotent env phy_brs st T :
  registered_routers st = T →
  get_openflow_ew_dvrs env (host st) = Some T →
  let st' := (sync_dvr_ports env phy_brs st).2 in
  registered_routers st' = T
  ∧ flow_log st' = flow_log st ++ issued st st'
  ∧ Forall self_mac_rule (issued st st')
  ∧ (truthy (dvr_mac_address st) = true → issued st st' = []).
Proof.
  intros Hreg Hfetch. cbn zeta. rewrite sync_dvr_ports_run.
  destruct (truthy (dvr_mac_address st)) eqn:Hmac.
  - rewrite <- Hreg in Hfetch.
    destruct (fetch_and_reconcile_same env st Hfetch) as [Hr Hl].
    rewrite Hr. unfold issued. rewrite Hl, drop_all, app_nil_r. done.
  - pose proof (retry_dvr_mac_retried env phy_brs st) as Hretry.
    destruct (retry_dvr_mac env phy_brs st) as [[[]|e] st1]; cbn [snd] in *.
    + assert (retried st1 (fetch_and_reconcile env st1).2
              ∨ (registered_routers (fetch_and_reconcile env st1).2 = registered_routers st1
                 ∧ flow_log (fetch_and_reconcile env st1).2 = flow_log st1)) as [H|[Hr Hl]].
      { right. apply fetch_and_reconcile_same.
        destruct Hretry as (Hh&_&_&_&Hr&_). rewrite Hh, Hr. congruence. }
      * pose proof (transitivity Hretry H) as Hall.
        destruct (retried_issued _ _ Hall) as [Hl Hq].
        destruct Hall as (_&_&_&_&Hr&_). repeat split; try done. congruence.
      * destruct (retried_issued _ _ Hretry) as [Hl1 Hq].
        destruct Hretry as (_&_&_&_&Hr1&_).
        assert (issued st (fetch_and_reconcile env st1).2 = issued st st1) as ->.
        { unfold issued. by rewrite Hl. }
        repeat split; try done; congruence.
    + destruct (retried_issued _ _ Hretry) as [Hl1 Hq].
      destruct Hretry as (_&_&_&_&Hr1&_). repeat split; try done. congruence.
Qed.

(** C5, as the code has it.  When [get_openflow_ew_dvrs] raises,
    [sync_dvr_ports] leaves [registered_routers], [registered_dvr_macs]
    and [last_sync] unchanged and issues no flow operation of the diff.
    The only flow operations it can issue are the rules carrying the DVR
    MAC of this host, installed by the retry that precedes the fetch
    while that MAC is unset; with the MAC set the call issues nothing. *)
Theorem sync_dvr_ports_fetch_failure env phy_brs st :
  get_openflow_ew_dvrs env (host st) = None →
  let st' := (sync_dvr_ports env phy_brs st).2 in
  registered_routers st' = registered_routers st
  ∧ registered_dvr_macs st' = registered_dvr_macs st
  ∧ last_sync st' = last_sync st
  ∧ flow_log st' = flow_log st ++ issued st st'
  ∧ Forall self_mac_rule (issued st st')
  ∧ (truthy (dvr_mac_address st) = true → issued st st' = []).
Proof.
  intros Hfetch. cbn zeta. rewrite sync_dvr_ports_run.
  destruct (truthy (dvr_mac_address st)) eqn:Hmac.
  - rewrite (fetch_and_reconcile_failed _ _ Hfetch). cbn [snd].
    assert (issued st (if throttled env st then st else count_fetch st) = []) as ->.
    { destruct (throttled env st); exact (issued_refl st). }
    rewrite app_nil_r. destruct (throttled env st); done.
  - pose proof (retry_dvr_mac_retried env phy_brs st) as Hretry.
    destruct (retry_dvr_mac env phy_brs st) as [[[]|e] st1]; cbn [snd] in *.
    + destruct (retried_issued _ _ Hretry) as [Hl1 Hq].
      destruct Hretry as (Hh&_&_&Hm&Hr&Hs&_).
      rewrite fetch_and_reconcile_failed by congruence. cbn [snd].
      assert (issued st (if throttled env st1 then st1 else count_fetch st1)
              = issued st st1) as ->.
      { by destruct (throttled env st1). }
      destruct (throttled env st1); done.
    + destruct (retried_issued _ _ Hretry) as [Hl1 Hq].
      destruct Hretry as (_&_&_&Hm&Hr&Hs&_). done.
Qed.

(** C3, as the code has it.  While the DVR MAC of this host is unset, and
    the retry does not obtain one, [sync_dvr_ports] issues no flow
    operation that needs that MAC: every flow operation it issues is a
    removal or the installation of a hosted-delivery rule (table 2,
    priority 3).  No rule carrying the MAC, no other-subnet rule and no
    resolve rule is installed.  The topology is diffed all the same. *)
Theorem sync_dvr_ports_mac_unset env phy_brs st :
  truthy (dvr_mac_address st) = false →
  truthy (get_dvr_mac_address_by_host env (host st)) = false →
  let st' := (sync_dvr_ports env phy_brs st).2 in
  flow_log st' = flow_log st ++ issued st st'
  ∧ Forall mac_free_op (issued st st').
Proof.
  intros Hmac Hrpc. cbn zeta. rewrite sync_dvr_ports_run, Hmac.
  destruct (retry_dvr_mac_unset env phy_brs st Hmac Hrpc) as (mac & Hm & ->).
  set (st1 := set_dvr_mac_address mac st).
  unfold fetch_and_reconcile. destruct (throttled env st1).
  { cbn [snd]. by rewrite (issued_refl st : issued st st1 = []), app_nil_r. }
  destruct (get_openflow_ew_dvrs env (host st1)) as [T|].
  - assert (evolves mac_free_op (count_fetch st1)
                    (reconcile env T (count_fetch st1)).2) as Hev.
    { apply (reconcile_evolves_ms mac_free_op false); try done.
      + intros x Hx. by left.
      + intros br kw Hkw. by right. }
    apply evolves_issued in Hev. exact Hev.
  - cbn [snd]. by rewrite (issued_refl st : issued st (count_fetch st1) = []), app_nil_r.
Qed.

(** *** Throttling *)

Lemma fetch_and_reconcile_throttled env st :
  throttled env st = true → fetch_and_reconcile env st = (Ok tt, st).
Proof. intros H. unfold fetch_and_reconcile. by rewrite H. Qed.

Lemma fetch_and_reconcile_fetched env st st' :
  fetch_and_reconcile env st = (Ok tt, st') →
  fetches st' ≠ fetches st →
  is_Some (get_openflow_ew_dvrs env (host st)) →
  sync_interval st ≤ time_at_check env - last_sync st
  ∧ last_sync st' = time_at_end env
  ∧ sync_interval st' = sync_interval st.
Proof.
  unfold fetch_and_reconcile, throttled. intros Hrun Hf [T HT].
  case_bool_decide as Hth; [by injection Hrun as <-|].
  rewrite HT in Hrun. split; [lia|]. split.
  - by apply (reconcile_ok_last_sync _ _ _ _ Hrun).
  - pose proof (reconcile_evolves env T (count_fetch st)) as (_&Hi&_).
    rewrite Hrun in Hi. exact Hi.
Qed.

Lemma sync_dvr_ports_throttled env phy_brs st :
  time_at_check env - last_sync st < sync_interval st →
  fetches (sync_dvr_ports env phy_brs st).2 = fetches st.
Proof.
  intros Hlt. rewrite sync_dvr_ports_run.
  destruct (truthy (dvr_mac_address st)).
  - rewrite fetch_and_reconcile_throttled; [done|].
    unfold throttled. by apply bool_decide_eq_true_2.
  - pose proof (retry_dvr_mac_retried env phy_brs st) as Hretry.
    destruct (retry_dvr_mac env phy_brs st) as [[[]|e] st1]; cbn [snd] in *;
      destruct Hretry as (_&Hi&_&_&_&Hs&Hf&_); [|done].
    rewrite fetch_and_reconcile_throttled; [done|].
    unfold throttled. apply bool_decide_eq_true_2. by rewrite Hs, Hi.
Qed.

(** C6, as the code has it.  A topology fetch is attempted only if at
    least [sync_interval] has elapsed since [last_sync], and [last_sync]
    is written only at the end of a sync whose fetch and diff completed.
    So, of two calls within [sync_interval] of each other, if the first
    fetched the topology and completed, the second attempts no fetch.
    (The clock does not run backwards during the first call; the bridges
    may change what they accept between the calls.) *)
Theorem sync_dvr_ports_throttle env1 env2 phy_brs1 phy_brs2 st b :
  let r1 := sync_dvr_ports env1 phy_brs1 st in
  r1.1 = Ok tt →
  fetches r1.2 ≠ fetches st →
  is_Some (get_openflow_ew_dvrs env1 (host st)) →
  time_at_check env1 ≤ time_at_end env1 →
  time_at_check env2 - time_at_check env1 < sync_interval st →
  sync_interval st ≤ time_at_check env1 - last_sync st
  ∧ fetches (sync_dvr_ports env2 phy_brs2 (set_budget b r1.2)).2 = fetches r1.2.
Proof.
  cbn zeta. intros Hok Hf Hfetch Hclock Hnear.
  assert (sync_interval st ≤ time_at_check env1 - last_sync st
          ∧ last_sync (sync_dvr_ports env1 phy_brs1 st).2 = time_at_end env1
          ∧ sync_interval (sync_dvr_ports env1 phy_brs1 st).2 = sync_interval st)
    as (Hel & Hls & Hi).
  { rewrite sync_dvr_ports_run in *.
    destruct (truthy (dvr_mac_address st)).
    - destruct (fetch_and_reconcile env1 st) as [[[]|e] st'] eqn:E; [|done].
      by apply (fetch_and_reconcile_fetched _ _ _ E).
    - pose proof (retry_dvr_mac_retried env1 phy_brs1 st) as Hretry.
      destruct (retry_dvr_mac env1 phy_brs1 st) as [[[]|e] st1]; [|done].
      destruct Hretry as (Hh&Hi&_&_&_&Hs&Hfs&_). cbn [snd] in *.
      destruct (fetch_and_reconcile env1 st1) as [[[]|e] st'] eqn:E; [|done].
      rewrite <- Hs, <- Hi.
      apply (fetch_and_reconcile_fetched _ _ _ E); [by rewrite Hfs | by rewrite Hh]. }
  split; [done|].
  apply (sync_dvr_ports_throttled env2 phy_brs2 (set_budget b _)).
  cbn [last_sync sync_interval set_budget]. rewrite Hls, Hi. lia.
Qed.

(** *** The statements on the scenario *)

Lemma sync_dvr_ports_idempotent_witness :
  issued Scenario.synced
         (sync_dvr_ports (Scenario.env (Some Scenario.self_mac) (Some Scenario.T) 2000)
                         ∅ Scenario.synced).2 = [].
Proof.
  refine (proj2 (proj2 (proj2
    (sync_dvr_ports_idempotent
       (Scenario.env (Some Scenario.self_mac) (Some Scenario.T) 2000) ∅
       Scenario.synced Scenario.T _ _))) _); by vm_compute.
Defined.

(** C1 as stated fails: after a sync that reconciled [T] while the plugin
    had no DVR MAC for the host, [registered_routers] is [T]; the next
    sync fetches the same [T], obtains the MAC and installs the rule that
    carries it. *)
Lemma sync_dvr_ports_idempotent_counterexample :
  let st := Scenario.synced_without_mac in
  let env := Scenario.env (Some Scenario.self_mac) (Some Scenario.T) 2000 in
  registered_routers st = Scenario.T
  ∧ get_openflow_ew_dvrs env (host st) = Some Scenario.T
  ∧ issued st (sync_dvr_ports env ∅ st).2
    = [(int_br, add_flow (kw_set_src_to_dvr (set_dvr_mac_address (Some Scenario.self_mac) st)))].
Proof. by vm_compute. Qed.

Lemma sync_dvr_ports_fetch_failure_witness :
  let st := Scenario.synced in
  let st' := (sync_dvr_ports (Scenario.env (Some Scenario.self_mac) None 2000) ∅ st).2 in
  registered_routers st' = registered_routers st
  ∧ last_sync st' = last_sync st
  ∧ issued st st' = [].
Proof.
  cbn zeta.
  destruct (sync_dvr_ports_fetch_failure
              (Scenario.env (Some Scenario.self_mac) None 2000) ∅ Scenario.synced)
    as (Hr & _ & Hs & _ & _ & Hi); [by vm_compute|].
  split; [exact Hr|]. split; [exact Hs|]. apply Hi. by vm_compute.
Defined.

(** C5 as stated fails: on an agent whose DVR MAC is unset, a sync whose
    topology fetch raises still obtains the MAC and installs the rule that
    carries it. *)
Lemma sync_dvr_ports_fetch_failure_counterexample :
  let st := Scenario.agent0 in
  let env := Scenario.env (Some Scenario.self_mac) None 1000 in
  get_openflow_ew_dvrs env (host st) = None
  ∧ issued st (sync_dvr_ports env ∅ st).2
    = [(int_br, add_flow (kw_set_src_to_dvr (set_dvr_mac_address (Some Scenario.self_mac) st)))].
Proof. by vm_compute. Qed.

Lemma sync_dvr_ports_mac_unset_witness :
  let st := Scenario.agent0 in
  let st' := (sync_dvr_ports (Scenario.env None (Some Scenario.T) 1000) ∅ st).2 in
  flow_log st' = flow_log st ++ issued st st' ∧ Forall mac_free_op (issued st st').
Proof.
  apply (sync_dvr_ports_mac_unset (Scenario.env None (Some Scenario.T) 1000) ∅
                                  Scenario.agent0); by vm_compute.
Defined.

(** C3 as stated fails: with the DVR MAC unset and the plugin having none,
    a sync still diffs the fetched topology: it registers router [R1] and
    installs the hosted-delivery rule of port [P1]. *)
Lemma sync_dvr_ports_mac_unset_counterexample :
  let st := Scenario.agent0 in
  let env := Scenario.env None (Some Scenario.T) 1000 in
  let st' := (sync_dvr_ports env ∅ st).2 in
  dvr_mac_address st = None
  ∧ dvr_mac_address st' = None
  ∧ registered_routers st = ∅
  ∧ registered_routers st' = Scenario.T
  ∧ issued st st'
    = [(int_br, add_flow (kw_add_hosted_port Scenario.P1 "aa:1" 7))].
Proof. by vm_compute. Qed.

Lemma sync_dvr_ports_throttle_witness :
  let r1 := sync_dvr_ports (Scenario.env (Some Scenario.self_mac) (Some Scenario.T) 1000)
                           ∅ Scenario.agent in
  300 ≤ 1000 - 0
  ∧ fetches (sync_dvr_ports (Scenario.env (Some Scenario.self_mac) (Some Scenario.T) 1200)
                            ∅ (set_budget None r1.2)).2 = fetches r1.2.
Proof.
  apply (sync_dvr_ports_throttle
           (Scenario.env (Some Scenario.self_mac) (Some Scenario.T) 1000)
           (Scenario.env (Some Scenario.self_mac) (Some Scenario.T) 1200)
           ∅ ∅ Scenario.agent None).
  - by vm_compute.
  - vm_compute. discriminate.
  - by eexists.
  - vm_compute. discriminate.
  - by vm_compute.
Defined.

(** C6 as stated fails: two syncs one second apart both fetch the
    topology when the first fetch raises, and also when the first fetch
    succeeds but a bridge call raises during the diff; neither writes
    [last_sync]. *)
Lemma sync_dvr_ports_throttle_counterexample :
  let fetch_fails := Scenario.env (Some Scenario.self_mac) None 1000 in
  let fetch_ok := Scenario.env (Some Scenario.self_mac) (Some Scenario.T) 1000 in
  let next := Scenario.env (Some Scenario.self_mac) (Some Scenario.T) 1001 in
  let st := Scenario.agent in
  let a1 := sync_dvr_ports fetch_fails ∅ st in
  let a2 := sync_dvr_ports next ∅ a1.2 in
  let b1 := sync_dvr_ports fetch_ok ∅ (set_budget (Some 0%nat) st) in
  let b2 := sync_dvr_ports next ∅ (set_budget None b1.2) in
  time_at_check next - time_at_check fetch_fails < sync_interval st
  ∧ (a1.1 = Ok tt ∧ fetches a1.2 = 1%nat ∧ fetches a2.2 = 2%nat)
  ∧ (b1.1 = Raise FlowError ∧ fetches b1.2 = 1%nat ∧ fetches b2.2 = 2%nat).
Proof. by vm_compute. Qed.

(** ** The DVR MACs of the other hosts *)

Lemma emit_healthy br op st :
  budget st = None →
  emit br op st = (Ok tt, set_flow_log (flow_log st ++ [(br, op)]) st).
Proof. intros H. unfold emit. by rewrite H. Qed.

Lemma del_foreign_mac_flows_healthy m st :
  budget st = None →
  del_foreign_mac_flows m st
  = (Ok tt, set_registered_dvr_macs (registered_dvr_macs st ∖ {[m]})
              (set_flow_log (flow_log st ++ del_foreign_mac_ops m) st)).
Proof.
  intros Hb. unfold del_foreign_mac_flows.
  rewrite run_bind, emit_healthy by done. cbv beta iota.
  rewrite run_bind, emit_healthy by done. cbv beta iota.
  unfold modify. cbn. by rewrite <- app_assoc.
Qed.

Lemma add_foreign_mac_flows_healthy m st :
  budget st = None →
  add_foreign_mac_flows m st
  = (Ok tt, set_registered_dvr_macs ({[m]} ∪ registered_dvr_macs st)
              (set_flow_log (flow_log st ++ add_foreign_mac_ops m) st)).
Proof.
  intros Hb. unfold add_foreign_mac_flows.
  rewrite run_bind, emit_healthy by done. cbv beta iota.
  rewrite run_bind, emit_healthy by done. cbv beta iota.
  unfold modify. cbn. by rewrite <- app_assoc.
Qed.

Lemma del_foreign_mac_loop (l : list string) st :
  budget st = None →
  ∃ st', forM_ l del_foreign_mac_flows st = (Ok tt, st')
         ∧ budget st' = None
         ∧ flow_log st' = flow_log st ++ (l ≫= del_foreign_mac_ops)
         ∧ registered_dvr_macs st' = registered_dvr_macs st ∖ list_to_set l.
Proof.
  revert st. induction l as [|m l IH]; intros st Hb.
  - exists st. cbn. rewrite app_nil_r. repeat split; try done.
    apply set_eq. intros x. rewrite elem_of_difference, elem_of_empty. tauto.
  - cbn [forM_]. rewrite run_bind, del_foreign_mac_flows_healthy by done.
    cbv beta iota.
    match goal with |- ∃ st', forM_ l _ ?s = _ ∧ _ => destruct (IH s) as (st' & Hrun & Hb' & Hl & Hr) end;
      [done|].
    exists st'. split; [done|]. split; [done|]. split.
    + rewrite Hl. cbn. by rewrite <- !app_assoc.
    + rewrite Hr. cbn. apply set_eq. intros x.
      rewrite !elem_of_difference, elem_of_union, elem_of_singleton. tauto.
Qed.

Lemma add_foreign_mac_loop (l : list string) st :
  budget st = None →
  ∃ st', forM_ l add_foreign_mac_flows st = (Ok tt, st')
         ∧ budget st' = None
         ∧ flow_log st' = flow_log st ++ (l ≫= add_foreign_mac_ops)
         ∧ registered_dvr_macs st' = list_to_set l ∪ registered_dvr_macs st.
Proof.
  revert st. induction l as [|m l IH]; intros st Hb.
  - exists st. cbn. rewrite app_nil_r. repeat split; try done.
    apply set_eq. intros x. rewrite elem_of_union, elem_of_empty. tauto.
  - cbn [forM_]. rewrite run_bind, add_foreign_mac_flows_healthy by done.
    cbv beta iota.
    match goal with |- ∃ st', forM_ l _ ?s = _ ∧ _ => destruct (IH s) as (st' & Hrun & Hb' & Hl & Hr) end;
      [done|].
    exists st'. split; [done|]. split; [done|]. split.
    + rewrite Hl. cbn. by rewrite <- !app_assoc.
    + rewrite Hr. cbn. apply set_eq. intros x.
      rewrite !elem_of_union, elem_of_singleton. tauto.
Qed.

Lemma elem_of_dvr_host_macs_of st (dvr_macs : list DvrMac) m :
  m ∈ dvr_host_macs_of st dvr_macs
  ↔ ∃ e, e ∈ dvr_macs ∧ mac_address e = m
         ∧ Some (mac_host e) ≠ host st
         ∧ Some (mac_address e) ≠ dvr_mac_address st.
Proof.
  unfold dvr_host_macs_of.
  assert (∀ acc : gset string,
            m ∈ foldl (λ acc mac,
                         if bool_decide (Some (mac_address mac) = dvr_mac_address st)
                            || bool_decide (Some (mac_host mac) = host st)
                         then acc else {[mac_address mac]} ∪ acc) acc dvr_macs
            ↔ m ∈ acc ∨ ∃ e, e ∈ dvr_macs ∧ mac_address e = m
                              ∧ Some (mac_host e) ≠ host st
                              ∧ Some (mac_address e) ≠ dvr_mac_address st) as H.
  { induction dvr_macs as [|e l IH]; intros acc; cbn [foldl].
    - split; [tauto|]. intros [?|(e & He & _)]; [done|]. by apply elem_of_nil in He.
    - rewrite IH. repeat case_bool_decide; cbn [orb].
      + split; [intros [?|(e' & He' & ?)]; [tauto|right; exists e'; split; [by right|done]]|].
        intros [?|(e' & [->|He']%elem_of_cons & ? & ? & ?)]; [tauto|done|].
        right. by exists e'.
      + split; [intros [?|(e' & He' & ?)]; [tauto|right; exists e'; split; [by right|done]]|].
        intros [?|(e' & [->|He']%elem_of_cons & ? & ? & ?)]; [tauto|done|].
        right. by exists e'.
      + split; [intros [?|(e' & He' & ?)]; [tauto|right; exists e'; split; [by right|done]]|].
        intros [?|(e' & [->|He']%elem_of_cons & ? & ? & ?)]; [tauto|done|].
        right. by exists e'.
      + rewrite elem_of_union, elem_of_singleton. split.
        * intros [[->|?]|(e' & He' & ?)]; [|tauto|right; exists e'; split; [by right|done]].
          right. exists e. split; [by left|done].
        * intros [?|(e' & [->|He']%elem_of_cons & <- & ? & ?)]; [tauto|tauto|].
          right. by exists e'. }
  rewrite H, elem_of_empty. tauto.
Qed.

(** C4.  With the DVR MAC of this host set and bridges that accept the
    calls, [dvr_mac_address_update] computes the desired set, the MACs of
    the roster entries of other hosts that differ from the own MAC.  It
    first visits the registered MACs that are not desired, each once, and
    issues for each the removal of its resubmit rule (a [delete_flows]
    that names the source MAC and the action and no table: the rule is in
    table 0) and of its table-2 drop rule; it then visits the desired MACs
    that are not registered, each once, and issues for each the
    installation of the table-0 priority-5 resubmit rule and of the
    table-2 priority-2 drop rule.  It issues nothing else, and nothing at
    all when the desired set is the registered one.  Afterwards the
    registered set is the desired set.  The keyword arguments of the four
    calls are written out. *)
Theorem dvr_mac_address_update_correct (dvr_macs : list DvrMac) st :
  truthy (dvr_mac_address st) = true →
  budget st = None →
  let desired := dvr_host_macs_of st dvr_macs in
  let r := dvr_mac_address_update dvr_macs st in
  (∀ m, m ∈ desired
        ↔ ∃ e, e ∈ dvr_macs ∧ mac_address e = m
               ∧ Some (mac_host e) ≠ host st
               ∧ Some (mac_address e) ≠ dvr_mac_address st)
  ∧ r.1 = Ok tt
  ∧ registered_dvr_macs r.2 = desired
  ∧ (∃ removed added,
       removed ≡ₚ elements (registered_dvr_macs st ∖ desired)
       ∧ added ≡ₚ elements (desired ∖ registered_dvr_macs st)
       ∧ issued st r.2
         = (removed ≫= λ m,
              [(int_br, delete_flows
                  {| f_table := None; f_priority := None;
                     f_dl_src := Some m; f_dl_dst := None; f_proto := None;
                     f_ip_dst := None; f_actions := Some "resubmit(,2)" |});
               (int_br, delete_flows
                  {| f_table := Some 2; f_priority := None;
                     f_dl_src := Some m; f_dl_dst := None; f_proto := None;
                     f_ip_dst := None; f_actions := Some "drop" |})])
           ++ (added ≫= λ m,
                 [(int_br, add_flow
                     {| f_table := None; f_priority := Some 5;
                        f_dl_src := Some m; f_dl_dst := None; f_proto := None;
                        f_ip_dst := None; f_actions := Some "resubmit(,2)" |});
                  (int_br, add_flow
                     {| f_table := Some 2; f_priority := Some 2;
                        f_dl_src := Some m; f_dl_dst := None; f_proto := None;
                        f_ip_dst := None; f_actions := Some "drop" |})]))
  ∧ (desired = registered_dvr_macs st → issued st r.2 = []).
Proof.
  intros Hmac Hb. cbn zeta.
  split; [apply elem_of_dvr_host_macs_of|].
  set (desired := dvr_host_macs_of st dvr_macs).
  assert (dvr_mac_address_update dvr_macs st
          = if bool_decide (desired = registered_dvr_macs st) then (Ok tt, st)
            else (forM_ (elements (registered_dvr_macs st ∖ desired)) del_foreign_mac_flows;;
                  forM_ (elements (desired ∖ registered_dvr_macs st)) add_foreign_mac_flows) st)
    as ->.
  { unfold dvr_mac_address_update. rewrite run_get_bind, Hmac. cbn [negb].
    fold desired. by case_bool_decide. }
  case_bool_decide as Heq.
  - cbn [fst snd]. rewrite issued_refl, Heq, !difference_diag_L, elements_empty.
    split; [done|]. split; [done|]. split; [|done].
    by exists [], [].
  - rewrite run_bind.
    destruct (del_foreign_mac_loop (elements (registered_dvr_macs st ∖ desired)) st Hb)
      as (st1 & -> & Hb1 & Hl1 & Hr1).
    destruct (add_foreign_mac_loop (elements (desired ∖ registered_dvr_macs st)) st1 Hb1)
      as (st2 & -> & Hb2 & Hl2 & Hr2).
    cbn [fst snd]. split; [done|]. split; [|split; [|done]].
    + rewrite Hr2, Hr1, !list_to_set_elements_L. apply set_eq. intros x.
      rewrite elem_of_union, !elem_of_difference.
      destruct (decide (x ∈ desired)); destruct (decide (x ∈ registered_dvr_macs st)); tauto.
    + exists (elements (registered_dvr_macs st ∖ desired)),
        (elements (desired ∖ registered_dvr_macs st)).
      split; [done|]. split; [done|].
      apply issued_app. rewrite Hl2, Hl1, <- app_assoc. reflexivity.
Qed.

(** ** What a replay leaves behind *)

Lemma flows_of_app evs1 evs2 : flows_of (evs1 ++ evs2) = flows_of evs1 ++ flows_of evs2.
Proof. apply omap_app. Qed.

Lemma flows_of_bind {A} (l : list A) (f : A → list Event) :
  flows_of (l ≫= f) = l ≫= (λ x, flows_of (f x)).
Proof.
  induction l as [|x l IH]; [done|].
  rewrite !bind_cons, flows_of_app. by rewrite IH.
Qed.

Lemma flows_of_fmap {A} (l : list A) (f : A → Bridge * FlowOp) :
  flows_of ((λ x, EFlow (f x).1 (f x).2) <$> l) = f <$> l.
Proof.
  induction l as [|x l IH]; [done|]. cbn. unfold flows_of in IH. rewrite IH.
  by destruct (f x).
Qed.

Lemma registry_after_app evs1 evs2 R :
  registry_after (evs1 ++ evs2) R = registry_after evs2 (registry_after evs1 R).
Proof. apply foldl_app. Qed.

(** With bridges that accept every call, a replay completes. *)
Lemma replay_healthy evs st :
  budget st = None →
  replay evs st
  = (Ok tt, set_registered_routers (registry_after evs (registered_routers st))
              (set_flow_log (flow_log st ++ flows_of evs) st)).
Proof.
  revert st. induction evs as [|e evs IH]; intros st Hb.
  - cbn. rewrite app_nil_r. by destruct st.
  - rewrite replay_cons, run_bind. destruct e as [br op|d s p].
    + cbn [do_event]. rewrite emit_healthy by done. cbv beta iota.
      rewrite IH by done. cbn. by rewrite <- app_assoc.
    + cbn [do_event]. unfold update_registered_routers, modify. cbv beta iota.
      rewrite IH by done. reflexivity.
Qed.

(** Whatever the bridges accept, a replay performs the events of a prefix
    of the trace. *)
Lemma replay_prefix evs st :
  ∃ n, registered_routers (replay evs st).2
       = registry_after (take n evs) (registered_routers st)
       ∧ flow_log (replay evs st).2 = flow_log st ++ flows_of (take n evs).
Proof.
  revert st. induction evs as [|e evs IH]; intros st.
  - exists 0%nat. cbn. by rewrite app_nil_r.
  - rewrite replay_cons, run_bind.
    destruct (do_event e st) as [[[]|x] st1] eqn:E.
    + destruct (IH st1) as (n & Hr & Hl). exists (S n). cbn [take].
      destruct e as [br op|d s p]; cbn [do_event] in E.
      * unfold emit in E.
        destruct (budget st) as [[|k]|]; simplify_eq; cbn in *;
          by rewrite Hr, Hl, <- app_assoc.
      * unfold update_registered_routers, modify in E. simplify_eq. cbn in *.
        by rewrite Hr, Hl.
    + exists 0%nat. cbn [take snd]. cbn.
      destruct e as [br op|d s p]; cbn [do_event] in E.
      * unfold emit in E. destruct (budget st) as [[|k]|]; simplify_eq.
        by rewrite app_nil_r.
      * unfold update_registered_routers, modify in E. simplify_eq.
Qed.

(** Clearing the host of ports does not change a router otherwise. *)
Lemma clear_host_idemp p : clear_host (clear_host p) = clear_host p.
Proof. done. Qed.

Lemma erase_clear_subnet_port_host port_id s :
  erase_subnet_hosts (clear_subnet_port_host port_id s) = erase_subnet_hosts s.
Proof.
  unfold erase_subnet_hosts, clear_subnet_port_host. cbn. f_equal.
  apply map_eq. intros k. rewrite !lookup_fmap, lookup_alter.
  case_decide as Hk; [|done]. subst. by destruct (subnet_ports s !! k).
Qed.

Lemma erase_clear_port_host d s p (R : gmap string (gmap string Subnet)) k :
  erase_hosts <$> clear_port_host d s p R !! k = erase_hosts <$> R !! k.
Proof.
  unfold clear_port_host. rewrite lookup_alter.
  case_decide as Hk; [|done]. subst.
  destruct (R !! k) as [dvr|]; [|done]. cbn. f_equal.
  unfold erase_hosts. apply map_eq. intros k'.
  rewrite !lookup_fmap, lookup_alter. case_decide as Hk'; [|done]. subst.
  destruct (dvr !! k') as [sn|]; [|done]. cbn. f_equal.
  apply erase_clear_subnet_port_host.
Qed.

Lemma erase_registry_after evs (R : gmap string (gmap string Subnet)) k :
  erase_hosts <$> registry_after evs R !! k = erase_hosts <$> R !! k.
Proof.
  revert R. induction evs as [|e evs IH]; intros R; [done|].
  change (registry_after (e :: evs) R)
    with (registry_after evs (registry_after [e] R)).
  rewrite IH. destruct e as [br op|d s p]; [done|]. apply erase_clear_port_host.
Qed.

(** A trace without writes to the registry. *)
Lemma registry_after_flows evs R : Forall is_flow evs → registry_after evs R = R.
Proof.
  revert R. induction evs as [|e evs IH]; intros R Hf; [done|].
  apply Forall_cons in Hf as [He Hf]. destruct e; [|done]. cbn. by apply IH.
Qed.

(** ** Registration comes first *)

Lemma is_flow_fmap {A} (l : list A) (f : A → Event) :
  (∀ x, is_flow (f x)) → Forall is_flow (f <$> l).
Proof. intros H. apply Forall_fmap, Forall_forall. intros x _. apply H. Qed.

Lemma trace_add_flows_to_other_subnets_flows ms gateway_mac cidrs :
  Forall is_flow (trace_add_flows_to_other_subnets ms gateway_mac cidrs).
Proof.
  unfold trace_add_flows_to_other_subnets. destruct (negb ms); [constructor|].
  by apply is_flow_fmap.
Qed.

Lemma trace_del_flows_to_other_subnets_flows gateway_mac cidrs :
  Forall is_flow (trace_del_flows_to_other_subnets gateway_mac cidrs).
Proof. by apply is_flow_fmap. Qed.

Lemma trace_add_flows_to_port_flows ms gateway_macs port seg_id :
  Forall is_flow (trace_add_flows_to_port ms gateway_macs port seg_id).
Proof.
  unfold trace_add_flows_to_port. destruct (negb ms); [constructor|].
  by apply is_flow_fmap.
Qed.

Lemma trace_del_flows_to_port_flows gateway_macs port :
  Forall is_flow (trace_del_flows_to_port gateway_macs port).
Proof. by apply is_flow_fmap. Qed.

Lemma trace_del_flows_to_hosted_port_flows h port :
  Forall is_flow (trace_del_flows_to_hosted_port h port).
Proof. unfold trace_del_flows_to_hosted_port. case_bool_decide; repeat constructor. Qed.

Lemma trace_port_deleted_flows h other_gateway_macs port :
  Forall is_flow (trace_port_deleted h other_gateway_macs port).
Proof.
  apply Forall_app. split;
    [apply trace_del_flows_to_port_flows | apply trace_del_flows_to_hosted_port_flows].
Qed.

Lemma trace_subnet_deleted_flows h subnet cidrs gateway_macs :
  Forall is_flow (trace_subnet_deleted h subnet cidrs gateway_macs).
Proof.
  apply Forall_app. split; [apply trace_del_flows_to_other_subnets_flows|].
  apply Forall_bind, Forall_forall. intros port _. apply trace_port_deleted_flows.
Qed.

Section Ready.
Context (env : Env) (h : option string) (ms : bool).

Lemma trace_add_flows_to_hosted_port_flows dvr_id subnet_id port_id port gateway_mac :
  port_ready env h port →
  Forall is_flow (trace_add_flows_to_hosted_port env h dvr_id subnet_id port_id
                                                 port gateway_mac).
Proof.
  intros Hready. unfold trace_add_flows_to_hosted_port.
  case_bool_decide as Hh; [constructor|].
  case_bool_decide as Hof; [|repeat constructor].
  exfalso. apply Hready; [|done]. by destruct (decide (port_host port = h)).
Qed.

Lemma trace_port_added_flows dvr_id subnet_id subnet other_gateway_macs item :
  port_ready env h item.2 →
  Forall is_flow (trace_port_added env h ms dvr_id subnet_id subnet
                                   other_gateway_macs item).
Proof.
  intros Hready. apply Forall_app. split;
    [apply trace_add_flows_to_port_flows | by apply trace_add_flows_to_hosted_port_flows].
Qed.

Lemma trace_subnet_added_flows dvr_id subnet_id subnet cidrs gateway_macs :
  subnet_ready env h subnet →
  Forall is_flow (trace_subnet_added env h ms dvr_id subnet_id subnet
                                     cidrs gateway_macs).
Proof.
  intros Hready. apply Forall_app. split; [apply trace_add_flows_to_other_subnets_flows|].
  apply Forall_bind, Forall_forall. intros [port_id port] Hin.
  apply trace_port_added_flows. apply (Hready port_id). by apply elem_of_map_to_list.
Qed.

Lemma trace_subnet_updated_flows dvr_id subnet_id old_subnet subnet
    old_cidrs cidrs old_gateway_macs gateway_macs :
  subnet_ready env h subnet →
  Forall is_flow (trace_subnet_updated env h ms dvr_id subnet_id old_subnet subnet
                    old_cidrs cidrs old_gateway_macs gateway_macs).
Proof.
  intros Hready. unfold trace_subnet_updated.
  apply Forall_app. split; [apply trace_del_flows_to_other_subnets_flows|].
  apply Forall_app. split; [apply trace_add_flows_to_other_subnets_flows|].
  apply Forall_app. split.
  - apply Forall_bind, Forall_forall. intros [port_id port] Hin.
    apply elem_of_map_to_list in Hin. specialize (Hready _ _ Hin).
    unfold compose. cbn beta. unfold trace_subnet_updated_port. cbn [fst snd].
    destruct (subnet_ports old_subnet !! port_id) as [old_port|];
      [|by apply (trace_port_added_flows _ _ _ _ (port_id, port))].
    apply Forall_app. split; [apply trace_del_flows_to_port_flows|].
    apply Forall_app. split; [apply trace_add_flows_to_port_flows|].
    destruct (_ && _); [apply trace_del_flows_to_hosted_port_flows|].
    destruct (_ && _); [by apply trace_add_flows_to_hosted_port_flows|constructor].
  - apply Forall_bind, Forall_forall. intros port _. apply trace_port_deleted_flows.
Qed.

Lemma trace_dvr_added_flows dvr_id new_dvr :
  dvr_ready env h new_dvr →
  Forall is_flow (trace_dvr_added env h ms dvr_id new_dvr).
Proof.
  intros Hready. apply Forall_bind, Forall_forall. intros [subnet_id subnet] Hin.
  apply trace_subnet_added_flows. apply (Hready subnet_id).
  by apply elem_of_map_to_list.
Qed.

Lemma trace_dvr_updated_flows dvr_id old_dvr new_dvr :
  dvr_ready env h new_dvr →
  Forall is_flow (trace_dvr_updated env h ms dvr_id old_dvr new_dvr).
Proof.
  intros Hready. apply Forall_app. split.
  - apply Forall_bind, Forall_forall. intros [subnet_id subnet] Hin.
    apply elem_of_map_to_list in Hin. specialize (Hready _ _ Hin).
    unfold compose. cbn beta. cbn [fst snd].
    destruct (old_dvr !! subnet_id);
      [by apply trace_subnet_updated_flows | by apply trace_subnet_added_flows].
  - apply Forall_bind, Forall_forall. intros subnet _. apply trace_subnet_deleted_flows.
Qed.
End Ready.

Lemma replay_registered evs (R : gmap string (gmap string Subnet)) st dvr_id dvr :
  R !! dvr_id = Some dvr →
  let st' := (replay evs (set_registered_routers R st)).2 in
  erase_hosts <$> registered_routers st' !! dvr_id = Some (erase_hosts dvr)
  ∧ (Forall is_flow evs → registered_routers st' = R).
Proof.
  intros HR. cbn zeta.
  destruct (replay_prefix evs (set_registered_routers R st)) as (n & Hr & _).
  rewrite Hr. cbn [registered_routers set_registered_routers]. split.
  - by rewrite erase_registry_after, HR.
  - intros Hf. apply registry_after_flows. by apply Forall_take.
Qed.

(** ** After a bridge failure *)

Lemma _dvr_added_registry_ready env dvr_id new_dvr st :
  dvr_ready env (host st) new_dvr →
  registered_routers (_dvr_added env dvr_id new_dvr st).2
  = <[dvr_id := new_dvr]> (registered_routers st).
Proof.
  intros Hready. rewrite _dvr_added_run.
  apply (replay_registered _ _ st dvr_id new_dvr (lookup_insert_eq _ _ _)).
  by apply trace_dvr_added_flows.
Qed.

Lemma _dvr_added_host env dvr_id new_dvr st :
  host (_dvr_added env dvr_id new_dvr st).2 = host st.
Proof.
  rewrite _dvr_added_run. exact (replay_host _ (set_registered_routers _ st)).
Qed.

Lemma add_loop_subseteq env (T : gmap string (gmap string Subnet))
    (l : list (string * gmap string Subnet)) st :
  topology_ready env (host st) T →
  (∀ d r, (d, r) ∈ l → T !! d = Some r) →
  registered_routers st ⊆ T →
  registered_routers
    (forM_ l (λ '(dvr_id, new_dvr), _dvr_added env dvr_id new_dvr) st).2 ⊆ T.
Proof.
  revert st. induction l as [|[d r] l IH]; intros st Hready Hl Hsub; [done|].
  cbn [forM_]. rewrite run_bind.
  assert (T !! d = Some r) as Hd by (apply Hl; left).
  pose proof (_dvr_added_registry_ready env d r st (Hready _ _ Hd)) as Hreg.
  pose proof (_dvr_added_host env d r st) as Hh.
  assert (<[d:=r]> (registered_routers st) ⊆ T) as Hsub'.
  { apply insert_subseteq_l; done. }
  destruct (_dvr_added env d r st) as [[[]|e] st1]; cbn [snd] in *.
  - apply IH; [by rewrite Hh| |by rewrite Hreg].
    intros d' r' Hin. apply Hl. by right.
  - by rewrite Hreg.
Qed.

Lemma dvr_mac_address_update_correct_witness :
  let st := Scenario.agent_with_roster in
  let r := dvr_mac_address_update Scenario.roster_changed st in
  registered_dvr_macs st = {[ "fa:16:3f:00:00:02" ]}
  ∧ r.1 = Ok tt
  ∧ registered_dvr_macs r.2 = {[ "fa:16:3f:00:00:03" ]}
  ∧ issued st r.2
    = [(int_br, delete_flows (kw_del_resubmit "fa:16:3f:00:00:02"));
       (int_br, delete_flows (kw_del_drop "fa:16:3f:00:00:02"));
       (int_br, add_flow (kw_add_resubmit "fa:16:3f:00:00:03"));
       (int_br, add_flow (kw_add_drop "fa:16:3f:00:00:03"))].
Proof.
  cbn zeta.
  destruct (dvr_mac_address_update_correct Scenario.roster_changed
              Scenario.agent_with_roster)
    as (_ & Hok & Hreg & (removed & added & Hrem & Hadd & Hissued) & _);
    [by vm_compute..|].
  split; [by vm_compute|]. split; [exact Hok|].
  split; [rewrite Hreg; by vm_compute|].
  rewrite Hissued.
  assert (removed = ["fa:16:3f:00:00:02"]) as ->.
  { apply Permutation_singleton_r. rewrite Hrem. by vm_compute. }
  assert (added = ["fa:16:3f:00:00:03"]) as ->.
  { apply Permutation_singleton_r. rewrite Hadd. by vm_compute. }
  reflexivity.
Defined.


(** ** Readiness deferral *)

Lemma elem_of_flows_of_emits {A} (l : list A) (g : A → FlowOp) br x :
  x ∈ flows_of ((λ y, EFlow br (g y)) <$> l) ↔ ∃ y, y ∈ l ∧ x = (br, g y).
Proof.
  induction l as [|y l IH].
  - split; [by intros ?%elem_of_nil | by intros (? & ?%elem_of_nil & _)].
  - change (x ∈ (br, g y) :: flows_of ((λ y, EFlow br (g y)) <$> l)
            ↔ ∃ y0, y0 ∈ y :: l ∧ x = (br, g y0)).
    rewrite elem_of_cons, IH. split.
    + intros [->|(z & Hz & ->)]; [exists y; split; [left|done] | exists z; split; [by right|done]].
    + intros (z & [->|Hz]%elem_of_cons & ->); [by left | right; by exists z].
Qed.

Lemma elem_of_flows_of_set (X : gset string) (g : string → FlowOp) br x :
  x ∈ flows_of ((λ y, EFlow br (g y)) <$> elements X) ↔ ∃ y, y ∈ X ∧ x = (br, g y).
Proof.
  rewrite elem_of_flows_of_emits. split.
  - intros (y & Hy%elem_of_elements & ->). by exists y.
  - intros (y & Hy & ->). exists y. by rewrite elem_of_elements.
Qed.

Lemma elem_of_flows_of_bind {A} (l : list A) (f : A → list Event) x :
  x ∈ flows_of (l ≫= f) ↔ ∃ y, y ∈ l ∧ x ∈ flows_of (f y).
Proof.
  rewrite flows_of_bind, list_elem_of_bind. split.
  - intros (y & ? & ?). by exists y.
  - intros (y & ? & ?). by exists y.
Qed.

Lemma elem_of_flows_of_app evs1 evs2 x :
  x ∈ flows_of (evs1 ++ evs2) ↔ x ∈ flows_of evs1 ∨ x ∈ flows_of evs2.
Proof. by rewrite flows_of_app, elem_of_app. Qed.

Lemma elem_of_flows_of_add_to_other_subnets ms gateway_mac cidrs x :
  x ∈ flows_of (trace_add_flows_to_other_subnets ms gateway_mac cidrs)
  ↔ ms = true ∧ ∃ cidr, cidr ∈ cidrs
                        ∧ x = (int_br, add_flow (kw_add_other_subnets gateway_mac cidr)).
Proof.
  unfold trace_add_flows_to_other_subnets. destruct ms; cbn [negb].
  - etrans; [apply (elem_of_flows_of_set cidrs
                      (λ cidr, add_flow (kw_add_other_subnets gateway_mac cidr)))|].
    split; [by intros ? | by intros [_ ?]].
  - split; [by intros ?%elem_of_nil | by intros [? _]].
Qed.

Lemma elem_of_flows_of_add_to_port ms gateway_macs port seg_id x :
  x ∈ flows_of (trace_add_flows_to_port ms gateway_macs port seg_id)
  ↔ ms = true ∧ ∃ gateway_mac, gateway_mac ∈ gateway_macs
                               ∧ x = (int_br, add_flow (kw_add_to_port port seg_id gateway_mac)).
Proof.
  unfold trace_add_flows_to_port. destruct ms; cbn [negb].
  - etrans; [apply (elem_of_flows_of_set gateway_macs
                      (λ gateway_mac, add_flow (kw_add_to_port port seg_id gateway_mac)))|].
    split; [by intros ? | by intros [_ ?]].
  - split; [by intros ?%elem_of_nil | by intros [? _]].
Qed.

Lemma elem_of_flows_of_del_to_other_subnets gateway_mac cidrs x :
  x ∈ flows_of (trace_del_flows_to_other_subnets gateway_mac cidrs)
  ↔ ∃ cidr, cidr ∈ cidrs
            ∧ x = (int_br, delete_flows (kw_del_other_subnets gateway_mac cidr)).
Proof.
  apply (elem_of_flows_of_set cidrs
           (λ cidr, delete_flows (kw_del_other_subnets gateway_mac cidr))).
Qed.

Lemma elem_of_flows_of_del_to_port gateway_macs port x :
  x ∈ flows_of (trace_del_flows_to_port gateway_macs port)
  ↔ ∃ gateway_mac, gateway_mac ∈ gateway_macs
                   ∧ x = (int_br, delete_flows (kw_del_to_port port gateway_mac)).
Proof.
  apply (elem_of_flows_of_set gateway_macs
           (λ gateway_mac, delete_flows (kw_del_to_port port gateway_mac))).
Qed.

Lemma elem_of_flows_of_add_to_hosted_port env h dvr_id subnet_id port_id port gateway_mac x :
  x ∈ flows_of (trace_add_flows_to_hosted_port env h dvr_id subnet_id port_id
                                               port gateway_mac)
  ↔ port_host port = h
    ∧ get_port_ofport env (port_name port) ≠ INVALID_OFPORT
    ∧ x = (int_br, add_flow (kw_add_hosted_port port gateway_mac
                                                (get_port_ofport env (port_name port)))).
Proof.
  unfold trace_add_flows_to_hosted_port.
  case_bool_decide as Hh.
  { split; [by intros ?%elem_of_nil | by intros [? _]]. }
  case_bool_decide as Hof; cbn.
  - split; [by intros ?%elem_of_nil | by intros (_ & ? & _)].
  - rewrite list_elem_of_singleton. split; [by intros -> | by intros (_ & _ & ->)].
Qed.

Lemma elem_of_flows_of_del_hosted_port h port x :
  x ∈ flows_of (trace_del_flows_to_hosted_port h port)
  ↔ port_host port = h ∧ x = (int_br, delete_flows (kw_del_hosted_port port)).
Proof.
  unfold trace_del_flows_to_hosted_port.
  case_bool_decide as Hh; cbn.
  - split; [by intros ?%elem_of_nil | by intros [? _]].
  - rewrite list_elem_of_singleton.
    split; [by intros -> | by intros (_ & ->)].
Qed.


Lemma lookup_clear_port_host dvr_id subnet_id port_id
    (R : gmap string (gmap string Subnet)) dvr subnet port :
  R !! dvr_id = Some dvr →
  dvr !! subnet_id = Some subnet →
  subnet_ports subnet !! port_id = Some port →
  ∃ dvr' subnet',
    clear_port_host dvr_id subnet_id port_id R !! dvr_id = Some dvr'
    ∧ dvr' !! subnet_id = Some subnet'
    ∧ subnet_ports subnet' !! port_id = Some (clear_host port).
Proof.
  intros HR Hd Hs. unfold clear_port_host.
  exists (alter (clear_subnet_port_host port_id) subnet_id dvr),
         (clear_subnet_port_host port_id subnet).
  split; [by rewrite lookup_alter_eq, HR|].
  split; [by rewrite lookup_alter_eq, Hd|].
  unfold clear_subnet_port_host. cbn. by rewrite lookup_alter_eq, Hs.
Qed.

(** ** A port that stays in its subnet *)

Lemma flows_of_emits {A} (l : list A) (g : A → FlowOp) br :
  flows_of ((λ y, EFlow br (g y)) <$> l) = (λ y, (br, g y)) <$> l.
Proof. induction l as [|y l IH]; [done|]. cbn. f_equal. exact IH. Qed.

Lemma difference_other_gateway_macs (A B : gset string) g :
  g ∈ A → g ∈ B → A ∖ B = (A ∖ {[g]}) ∖ (B ∖ {[g]}).
Proof.
  intros HA HB. apply set_eq. intros x.
  rewrite !elem_of_difference, elem_of_singleton.
  split.
  - intros [Hx Hn]. split; [split; [done|by intros ->]|]. by intros [? _].
  - intros [[Hx Hne] Hn]. split; [done|]. intros HxB. apply Hn. done.
Qed.

(** What [_subnet_updated] issues for a port present in the old and the
    new version of a subnet (self MAC set, bridges accepting the calls):
    the removal of the table-1 resolve flows of the port for the MACs of
    [old_gateway_macs ∖ gateway_macs], their installation for the MACs of
    [gateway_macs ∖ old_gateway_macs], and then at most the table-2 flow
    of a port that changed host. *)
Lemma _subnet_updated_port_known env dvr_id subnet_id subnet
    old_gateway_macs gateway_macs old_ports port_id port old_port st :
  budget st = None →
  truthy (dvr_mac_address st) = true →
  old_ports !! port_id = Some old_port →
  let r := _subnet_updated_port env dvr_id subnet_id subnet
             old_gateway_macs gateway_macs old_ports (port_id, port) st in
  r.1 = Ok (delete port_id old_ports)
  ∧ ∃ hosted,
      issued st r.2
      = ((λ g, (int_br, delete_flows (kw_del_to_port port g)))
           <$> elements (old_gateway_macs ∖ gateway_macs))
        ++ ((λ g, (int_br, add_flow (kw_add_to_port port (subnet_seg_id subnet) g)))
              <$> elements (gateway_macs ∖ old_gateway_macs))
        ++ hosted
      ∧ Forall (λ x, f_table (op_args x.2) = Some OF_EW_DVR_SRC) hosted.
Proof.
  intros Hb Hmac Hold. cbn zeta.
  rewrite (_subnet_updated_port_replays env dvr_id subnet_id subnet
             old_gateway_macs gateway_macs old_ports (port_id, port) st).
  rewrite run_bind, replay_healthy by done. cbv beta iota. cbn [fst snd].
  rewrite Hold, Hmac. unfold trace_subnet_updated_port. cbn [fst snd].
  set (hosted := if bool_decide (port_host old_port = host st)
                    && bool_decide (port_host port ≠ port_host old_port)
                 then trace_del_flows_to_hosted_port (host st) old_port
                 else if bool_decide (port_host port = host st)
                         && bool_decide (port_host port ≠ port_host old_port)
                 then trace_add_flows_to_hosted_port env (host st) dvr_id subnet_id
                        port_id port (subnet_gateway_mac subnet)
                 else []).
  assert (Forall (λ x, f_table (op_args x.2) = Some OF_EW_DVR_SRC) (flows_of hosted))
    as Hhosted.
  { apply Forall_forall. intros x Hx. subst hosted.
    destruct (_ && _).
    - by apply elem_of_flows_of_del_hosted_port in Hx as [_ ->].
    - destruct (_ && _); [|by apply elem_of_nil in Hx].
      by apply elem_of_flows_of_add_to_hosted_port in Hx as (_ & _ & ->). }
  erewrite issued_app; [|reflexivity].
  rewrite !flows_of_app. unfold trace_del_flows_to_port, trace_add_flows_to_port.
  cbn [negb].
  rewrite (flows_of_emits _ (λ g, delete_flows (kw_del_to_port port g))),
    (flows_of_emits _ (λ g, add_flow (kw_add_to_port port (subnet_seg_id subnet) g))).
  split; [done|]. by exists (flows_of hosted).
Qed.

(** C8, for a subnet whose gateway MAC is one of the gateway MACs of the
    router before and after the update, as it is when the subnet kept its
    gateway MAC.  For a port present in the old and the new version of the
    subnet (self MAC set, bridges accepting the calls), the
    other-gateway-MACs set of the port is the set of the router's gateway
    MACs without that of the port's own subnet, as [_subnet_added]
    computes it.  [_subnet_updated] issues for the port, in table 1,
    exactly the removals of the resolve flows for the MACs that left that
    set followed by the installations for the MACs that entered it; what
    else it issues for the port is in table 2; and no table-1 flow keyed
    on the gateway MAC of the port's own subnet is added. *)
Theorem subnet_updated_known_port env dvr_id subnet_id subnet
    old_gateway_macs gateway_macs old_ports port_id port old_port st :
  budget st = None →
  truthy (dvr_mac_address st) = true →
  old_ports !! port_id = Some old_port →
  subnet_gateway_mac subnet ∈ old_gateway_macs →
  subnet_gateway_mac subnet ∈ gateway_macs →
  let gateway_mac := subnet_gateway_mac subnet in
  let old_other := old_gateway_macs ∖ {[gateway_mac]} in
  let new_other := gateway_macs ∖ {[gateway_mac]} in
  let r := _subnet_updated_port env dvr_id subnet_id subnet
             old_gateway_macs gateway_macs old_ports (port_id, port) st in
  r.1 = Ok (delete port_id old_ports)
  ∧ old_gateway_macs ∖ gateway_macs = old_other ∖ new_other
  ∧ gateway_macs ∖ old_gateway_macs = new_other ∖ old_other
  ∧ (∃ hosted,
       issued st r.2
       = ((λ g, (int_br, delete_flows (kw_del_to_port port g)))
            <$> elements (old_other ∖ new_other))
         ++ ((λ g, (int_br, add_flow (kw_add_to_port port (subnet_seg_id subnet) g)))
               <$> elements (new_other ∖ old_other))
         ++ hosted
       ∧ Forall (λ x, f_table (op_args x.2) = Some OF_EW_DVR_SRC) hosted)
  ∧ (∀ x, x ∈ issued st r.2 →
          is_add (λ kw, f_table kw = Some OF_EW_DVR_DST
                        ∧ f_dl_dst kw = Some gateway_mac) x → False).
Proof.
  intros Hb Hmac Hold Hgo Hgn. cbn zeta.
  set (gateway_mac := subnet_gateway_mac subnet).
  pose proof (difference_other_gateway_macs _ _ _ Hgo Hgn) as Hdel.
  pose proof (difference_other_gateway_macs _ _ _ Hgn Hgo) as Hadd.
  fold gateway_mac in Hdel, Hadd.
  destruct (_subnet_updated_port_known env dvr_id subnet_id subnet
              old_gateway_macs gateway_macs old_ports port_id port old_port st
              Hb Hmac Hold) as (Hok & hosted & Hissued & Hhosted).
  rewrite Hissued, Hdel, Hadd.
  split; [done|]. split; [done|]. split; [done|]. split.
  { by exists hosted. }
  intros x Hx Hown.
  apply elem_of_app in Hx as [Hx|Hx].
  { apply list_elem_of_fmap in Hx as (g & -> & _). done. }
  apply elem_of_app in Hx as [Hx|Hx].
  - apply list_elem_of_fmap in Hx as (g & -> & Hg%elem_of_elements).
    destruct Hown as [_ Hd]. cbn in Hd. injection Hd as ->.
    apply elem_of_difference in Hg as [Hg _].
    apply elem_of_difference in Hg as [_ Hg]. apply Hg. by apply elem_of_singleton.
  - eapply Forall_forall in Hhosted; [|exact Hx].
    unfold is_add in Hown. destruct x as [br [kw|kw]]; cbn in *; [|done].
    destruct Hown as [Ht _]. rewrite Ht in Hhosted. done.
Qed.

Lemma subnet_updated_known_port_witness :
  let r := _subnet_updated_port Scenario.env1000 "R1" "S1" Scenario.S1
             {[ "aa:1"; "aa:2" ]} {[ "aa:1" ]} {[ "P1" := Scenario.P1 ]}
             ("P1", Scenario.P1) Scenario.synced in
  r.1 = Ok (delete "P1" {[ "P1" := Scenario.P1 ]}).
Proof.
  cbn zeta.
  refine (proj1 (subnet_updated_known_port Scenario.env1000 "R1" "S1" Scenario.S1
                   {[ "aa:1"; "aa:2" ]} {[ "aa:1" ]} {[ "P1" := Scenario.P1 ]}
                   "P1" Scenario.P1 Scenario.P1 Scenario.synced _ _ _ _ _)).
  - by vm_compute.
  - by vm_compute.
  - by vm_compute.
  - apply elem_of_union. left. by apply elem_of_singleton.
  - by apply elem_of_singleton.
Defined.

(** C8 as stated fails.  On the scenario the router interface of subnet
    [S1] is replaced, so the gateway MAC of [S1] changes from aa:1 to aa:9
    while port [P1] stays in [S1].  The other-gateway-MACs set of [P1] is
    {aa:2} before and after, yet the sync removes the table-1 flow of [P1]
    keyed on aa:1 and installs one keyed on aa:9, the gateway MAC of the
    port's own subnet. *)
Lemma subnet_updated_known_port_counterexample :
  let st := Scenario.synced in
  let env := Scenario.env (Some Scenario.self_mac) (Some Scenario.T_new_gateway) 2000 in
  registered_routers st = Scenario.T
  ∧ subnet_ports Scenario.S1 !! "P1" = Some Scenario.P1
  ∧ subnet_ports Scenario.S1_new_gateway !! "P1" = Some Scenario.P1
  ∧ gateway_macs_of Scenario.R1 ∖ {[ subnet_gateway_mac Scenario.S1 ]} = {[ "aa:2" ]}
  ∧ gateway_macs_of {[ "S1" := Scenario.S1_new_gateway; "S2" := Scenario.S2 ]}
      ∖ {[ subnet_gateway_mac Scenario.S1_new_gateway ]} = {[ "aa:2" ]}
  ∧ issued st (sync_dvr_ports env ∅ st).2
    = [(int_br, delete_flows (kw_del_to_port Scenario.P1 "aa:1"));
       (int_br, add_flow (kw_add_to_port Scenario.P1 101 "aa:9"))].
Proof. by vm_compute. Qed.

(** ** Completeness of the diff *)

(** *** The flow table *)

Lemma elem_of_apply_flow_op rules op rule :
  rule ∈ apply_flow_op rules op
  ↔ match op with
    | add_flow kw => rule = kw ∨ rule ∈ rules
    | delete_flows kw => rule ∈ rules ∧ matches kw rule = false
    end.
Proof.
  destruct op as [kw|kw]; cbn.
  - case_bool_decide as Hin.
    + split; [by right|]. by intros [->|?].
    + by rewrite elem_of_cons.
  - by rewrite list_elem_of_filter, (comm and).
Qed.

(** A rule of the table was there before or was installed. *)
Lemma elem_of_foldl_apply_inv ops rules rule :
  rule ∈ foldl apply_flow_op rules ops → rule ∈ rules ∨ add_flow rule ∈ ops.
Proof.
  revert rules. induction ops as [|op ops IH]; intros rules Hin; [by left|].
  cbn [foldl] in Hin. apply IH in Hin as [Hin|Hin]; [|right; by right].
  apply elem_of_apply_flow_op in Hin. destruct op as [kw|kw].
  - destruct Hin as [->|?]; [right; left|by left].
  - left. tauto.
Qed.

(** A rule that is never installed and is still there was not matched by
    a removal. *)
Lemma elem_of_foldl_apply_not_deleted ops rules rule :
  rule ∈ foldl apply_flow_op rules ops →
  add_flow rule ∉ ops →
  ∀ kw, delete_flows kw ∈ ops → matches kw rule = false.
Proof.
  revert rules. induction ops as [|op ops IH]; intros rules Hin Hadd kw Hdel.
  { by apply elem_of_nil in Hdel. }
  cbn [foldl] in Hin.
  assert (add_flow rule ∉ ops) as Hadd' by (intros ?; apply Hadd; by right).
  apply elem_of_cons in Hdel as [<-|Hdel]; [|by apply (IH _ Hin Hadd')].
  apply elem_of_foldl_apply_inv in Hin as [Hin|Hin]; [|done].
  apply elem_of_apply_flow_op in Hin. tauto.
Qed.

(** A rule that was there or is installed, and that no removal matches,
    is in the table. *)
Lemma elem_of_foldl_apply ops rules rule :
  rule ∈ rules ∨ add_flow rule ∈ ops →
  (∀ kw, delete_flows kw ∈ ops → matches kw rule = false) →
  rule ∈ foldl apply_flow_op rules ops.
Proof.
  revert rules. induction ops as [|op ops IH]; intros rules Hin Hdel.
  { destruct Hin as [?|Hin]; [done|by apply elem_of_nil in Hin]. }
  cbn [foldl]. apply IH; [|intros kw Hkw; apply Hdel; by right].
  destruct Hin as [Hin|[<-|Hin]%elem_of_cons]; [| |by right].
  - left. apply elem_of_apply_flow_op. destruct op as [kw|kw]; [by right|].
    split; [done|]. apply Hdel. left.
  - left. apply elem_of_apply_flow_op. by left.
Qed.

Lemma elem_of_int_br_ops ops op : op ∈ int_br_ops ops ↔ (int_br, op) ∈ ops.
Proof.
  unfold int_br_ops. rewrite list_elem_of_omap. split.
  - intros ([br op'] & Hin & Heq). destruct br; cbn in Heq; [|done].
    by injection Heq as ->.
  - intros Hin. by exists (int_br, op).
Qed.

(** The table after a sequence of operations, when the installs are
    wanted rules, the removals match no wanted rule, every wanted rule was
    there or is installed and every rule that was there is wanted or
    matched by a removal. *)
Lemma installed_converges (wanted : FlowArgs → Prop) rules ops rule :
  (∀ kw, (int_br, add_flow kw) ∈ ops → wanted kw) →
  (∀ kw kw', (int_br, delete_flows kw) ∈ ops → wanted kw' → matches kw kw' = false) →
  (wanted rule → rule ∈ rules ∨ (int_br, add_flow rule) ∈ ops) →
  (rule ∈ rules →
   wanted rule ∨ ∃ kw, (int_br, delete_flows kw) ∈ ops ∧ matches kw rule = true) →
  rule ∈ installed rules ops ↔ wanted rule.
Proof.
  intros Hadd Hdel Hwanted Hstale. unfold installed. split.
  - intros Hin.
    destruct (decide (add_flow rule ∈ int_br_ops ops)) as [Hadded|Hnoadd].
    { by apply Hadd, elem_of_int_br_ops. }
    pose proof (elem_of_foldl_apply_inv _ _ _ Hin) as [Hold|?]; [|done].
    destruct (Hstale Hold) as [?|(kw & Hkw & Hm)]; [done|].
    apply elem_of_int_br_ops in Hkw.
    rewrite (elem_of_foldl_apply_not_deleted _ _ _ Hin Hnoadd kw Hkw) in Hm. done.
  - intros Hw. apply elem_of_foldl_apply.
    + destruct (Hwanted Hw) as [?|?]; [by left|right]. by apply elem_of_int_br_ops.
    + intros kw Hkw%elem_of_int_br_ops. by apply (Hdel kw).
Qed.

(** *** The flow operations of the traces *)

Lemma elem_of_map_values {V} (m : gmap string V) v :
  v ∈ (map_to_list m).*2 ↔ ∃ k, m !! k = Some v.
Proof.
  rewrite list_elem_of_fmap. split.
  - intros ([k v'] & -> & H). apply elem_of_map_to_list in H. by exists k.
  - intros [k Hk]. exists (k, v). split; [done|]. by apply elem_of_map_to_list.
Qed.

Lemma elem_of_flows_of_bind_map {V} (m : gmap string V)
    (f : string * V → list Event) x :
  x ∈ flows_of (map_to_list m ≫= f)
  ↔ ∃ k v, m !! k = Some v ∧ x ∈ flows_of (f (k, v)).
Proof.
  rewrite elem_of_flows_of_bind. split.
  - intros ([k v] & Hin%elem_of_map_to_list & Hx). by exists k, v.
  - intros (k & v & Hin & Hx). exists (k, v). by rewrite elem_of_map_to_list.
Qed.

Lemma elem_of_flows_of_bind_values {V} (m : gmap string V)
    (f : V → list Event) x :
  x ∈ flows_of ((map_to_list m).*2 ≫= f)
  ↔ ∃ k v, m !! k = Some v ∧ x ∈ flows_of (f v).
Proof.
  rewrite elem_of_flows_of_bind. split.
  - intros (v & [k Hk]%elem_of_map_values & Hx). by exists k, v.
  - intros (k & v & Hin & Hx). exists v. rewrite elem_of_map_values. eauto.
Qed.

Lemma or_iff_both (A B C D : Prop) : (A ↔ B) → (C ↔ D) → (A ∨ C ↔ B ∨ D).
Proof. tauto. Qed.

Section TraceFlows.
Context (env : Env) (h : option string) (ms : bool).

Lemma elem_of_flows_of_port_added dvr_id subnet_id subnet other_gateway_macs item x :
  x ∈ flows_of (trace_port_added env h ms dvr_id subnet_id subnet
                                 other_gateway_macs item)
  ↔ port_added_op env h ms subnet other_gateway_macs item.2 x.
Proof.
  unfold trace_port_added, port_added_op.
  by rewrite elem_of_flows_of_app, elem_of_flows_of_add_to_port,
    elem_of_flows_of_add_to_hosted_port.
Qed.

Lemma elem_of_flows_of_port_deleted other_gateway_macs port x :
  x ∈ flows_of (trace_port_deleted h other_gateway_macs port)
  ↔ port_deleted_op h other_gateway_macs port x.
Proof.
  unfold trace_port_deleted, port_deleted_op.
  by rewrite elem_of_flows_of_app, elem_of_flows_of_del_to_port,
    elem_of_flows_of_del_hosted_port.
Qed.

Lemma elem_of_flows_of_subnet_added dvr_id subnet_id subnet cidrs gateway_macs x :
  x ∈ flows_of (trace_subnet_added env h ms dvr_id subnet_id subnet cidrs gateway_macs)
  ↔ (ms = true
     ∧ ∃ cidr, cidr ∈ cidrs ∖ {[subnet_cidr subnet]}
         ∧ x = (int_br, add_flow (kw_add_other_subnets (subnet_gateway_mac subnet) cidr)))
    ∨ ∃ port_id port,
        subnet_ports subnet !! port_id = Some port
        ∧ port_added_op env h ms subnet (gateway_macs ∖ {[subnet_gateway_mac subnet]}) port x.
Proof.
  unfold trace_subnet_added.
  rewrite elem_of_flows_of_app, elem_of_flows_of_add_to_other_subnets,
    elem_of_flows_of_bind_map.
  by setoid_rewrite elem_of_flows_of_port_added.
Qed.

Lemma elem_of_flows_of_subnet_deleted subnet cidrs gateway_macs x :
  x ∈ flows_of (trace_subnet_deleted h subnet cidrs gateway_macs)
  ↔ (∃ cidr, cidr ∈ cidrs ∖ {[subnet_cidr subnet]}
       ∧ x = (int_br, delete_flows (kw_del_other_subnets (subnet_gateway_mac subnet) cidr)))
    ∨ ∃ port_id port,
        subnet_ports subnet !! port_id = Some port
        ∧ port_deleted_op h (gateway_macs ∖ {[subnet_gateway_mac subnet]}) port x.
Proof.
  unfold trace_subnet_deleted.
  rewrite elem_of_flows_of_app, elem_of_flows_of_del_to_other_subnets,
    elem_of_flows_of_bind_values.
  by setoid_rewrite elem_of_flows_of_port_deleted.
Qed.

Lemma elem_of_flows_of_subnet_updated_port dvr_id subnet_id subnet
    old_gateway_macs gateway_macs old_port item x :
  x ∈ flows_of (trace_subnet_updated_port env h ms dvr_id subnet_id subnet
                  old_gateway_macs gateway_macs old_port item)
  ↔ match old_port with
    | None => port_added_op env h ms subnet (gateway_macs ∖ {[subnet_gateway_mac subnet]})
                            item.2 x
    | Some old_port => port_kept_op env h ms subnet old_gateway_macs gateway_macs
                                    old_port item.2 x
    end.
Proof.
  unfold trace_subnet_updated_port. destruct old_port as [old_port|];
    [|apply elem_of_flows_of_port_added].
  unfold port_kept_op.
  rewrite !elem_of_flows_of_app, elem_of_flows_of_del_to_port,
    elem_of_flows_of_add_to_port.
  do 2 apply or_iff_compat_l.
  destruct (decide (port_host old_port = h)) as [Hold|Hold];
    destruct (decide (port_host item.2 = port_host old_port)) as [Hsame|Hdiff].
  - rewrite bool_decide_eq_true_2, (bool_decide_eq_false_2 (_ ≠ _)) by auto.
    cbn [andb]. rewrite andb_false_r.
    split; [by intros ?%elem_of_nil|]. intros [(_ & ? & _)|(? & _)]; done.
  - rewrite bool_decide_eq_true_2, (bool_decide_eq_true_2 (_ ≠ _)) by auto.
    cbn [andb]. rewrite elem_of_flows_of_del_hosted_port.
    split; [intros [_ ->]; by left|]. intros [(_ & _ & ->)|(? & _)]; done.
  - rewrite (bool_decide_eq_false_2 (port_host old_port = h)),
      (bool_decide_eq_false_2 (_ ≠ _)) by auto.
    cbn [andb]. rewrite andb_false_r.
    split; [by intros ?%elem_of_nil|].
    intros [(? & _)|(_ & Hh & _)]; [done|]. congruence.
  - rewrite (bool_decide_eq_false_2 (port_host old_port = h)),
      (bool_decide_eq_true_2 (_ ≠ _)) by auto.
    cbn [andb]. rewrite andb_true_r.
    case_bool_decide as Hnew.
    + rewrite elem_of_flows_of_add_to_hosted_port.
      split; [intros (_ & ? & ->); by right|]. intros [(? & _)|(_ & _ & ? & ->)]; done.
    + split; [by intros ?%elem_of_nil|]. intros [(? & _)|(_ & ? & _)]; done.
Qed.

Lemma elem_of_flows_of_subnet_updated dvr_id subnet_id old_subnet subnet
    old_cidrs cidrs old_gateway_macs gateway_macs x :
  x ∈ flows_of (trace_subnet_updated env h ms dvr_id subnet_id old_subnet subnet
                  old_cidrs cidrs old_gateway_macs gateway_macs)
  ↔ (∃ cidr, cidr ∈ old_cidrs ∖ cidrs
       ∧ x = (int_br, delete_flows (kw_del_other_subnets (subnet_gateway_mac subnet) cidr)))
    ∨ (ms = true
       ∧ ∃ cidr, cidr ∈ cidrs ∖ old_cidrs
           ∧ x = (int_br, add_flow (kw_add_other_subnets (subnet_gateway_mac subnet) cidr)))
    ∨ (∃ port_id port,
         subnet_ports subnet !! port_id = Some port
         ∧ match subnet_ports old_subnet !! port_id with
           | None => port_added_op env h ms subnet
                       (gateway_macs ∖ {[subnet_gateway_mac subnet]}) port x
           | Some old_port => port_kept_op env h ms subnet old_gateway_macs gateway_macs
                                           old_port port x
           end)
    ∨ (∃ port_id old_port,
         subnet_ports old_subnet !! port_id = Some old_port
         ∧ subnet_ports subnet !! port_id = None
         ∧ port_deleted_op h (gateway_macs ∖ {[subnet_gateway_mac subnet]}) old_port x).
Proof.
  unfold trace_subnet_updated.
  rewrite !elem_of_flows_of_app, elem_of_flows_of_del_to_other_subnets,
    elem_of_flows_of_add_to_other_subnets, elem_of_flows_of_bind_map,
    elem_of_flows_of_bind_values.
  do 2 apply or_iff_compat_l. apply or_iff_both.
  - by setoid_rewrite elem_of_flows_of_subnet_updated_port.
  - setoid_rewrite elem_of_flows_of_port_deleted.
    setoid_rewrite lookup_difference_Some.
    split; [intros (k & v & [? ?] & ?)|intros (k & v & ? & ? & ?)]; by exists k, v.
Qed.

Lemma elem_of_flows_of_dvr_added dvr_id new_dvr x :
  x ∈ flows_of (trace_dvr_added env h ms dvr_id new_dvr)
  ↔ ∃ subnet_id subnet,
      new_dvr !! subnet_id = Some subnet
      ∧ x ∈ flows_of (trace_subnet_added env h ms dvr_id subnet_id subnet
                        (cidrs_of new_dvr) (gateway_macs_of new_dvr)).
Proof. unfold trace_dvr_added. by rewrite elem_of_flows_of_bind_map. Qed.

Lemma elem_of_flows_of_dvr_deleted deleted_dvr x :
  x ∈ flows_of (trace_dvr_deleted h deleted_dvr)
  ↔ ∃ subnet_id subnet,
      deleted_dvr !! subnet_id = Some subnet
      ∧ x ∈ flows_of (trace_subnet_deleted h subnet (cidrs_of deleted_dvr)
                        (gateway_macs_of deleted_dvr)).
Proof. unfold trace_dvr_deleted. by rewrite elem_of_flows_of_bind_values. Qed.

Lemma elem_of_flows_of_dvr_updated dvr_id old_dvr new_dvr x :
  x ∈ flows_of (trace_dvr_updated env h ms dvr_id old_dvr new_dvr)
  ↔ (∃ subnet_id subnet,
       new_dvr !! subnet_id = Some subnet
       ∧ x ∈ flows_of
               match old_dvr !! subnet_id with
               | None => trace_subnet_added env h ms dvr_id subnet_id subnet
                           (cidrs_of new_dvr) (gateway_macs_of new_dvr)
               | Some old_subnet =>
                   trace_subnet_updated env h ms dvr_id subnet_id old_subnet subnet
                     (cidrs_of old_dvr) (cidrs_of new_dvr)
                     (gateway_macs_of old_dvr) (gateway_macs_of new_dvr)
               end)
    ∨ (∃ subnet_id old_subnet,
         old_dvr !! subnet_id = Some old_subnet
         ∧ new_dvr !! subnet_id = None
         ∧ x ∈ flows_of (trace_subnet_deleted h old_subnet (cidrs_of old_dvr)
                           (gateway_macs_of old_dvr))).
Proof.
  unfold trace_dvr_updated.
  rewrite elem_of_flows_of_app, elem_of_flows_of_bind_map, elem_of_flows_of_bind_values.
  apply or_iff_compat_l. setoid_rewrite lookup_difference_Some.
  split; [intros (k & v & [? ?] & ?)|intros (k & v & ? & ? & ?)]; by exists k, v.
Qed.
End TraceFlows.

(** *** The run of the diff *)

Lemma replay_healthy_flows evs st :
  budget st = None → Forall is_flow evs →
  replay evs st = (Ok tt, set_flow_log (flow_log st ++ flows_of evs) st).
Proof.
  intros Hb Hf. rewrite replay_healthy, registry_after_flows by done.
  by destruct st.
Qed.

Lemma trace_dvr_deleted_flows h deleted_dvr :
  Forall is_flow (trace_dvr_deleted h deleted_dvr).
Proof.
  apply Forall_bind, Forall_forall. intros subnet _. apply trace_subnet_deleted_flows.
Qed.

Lemma _dvr_deleted_healthy dvr_id old_dvr st :
  budget st = None →
  registered_routers st !! dvr_id = Some old_dvr →
  _dvr_deleted dvr_id st
  = (Ok tt, advance (flows_of (trace_dvr_deleted (host st) old_dvr)) (delete dvr_id) st).
Proof.
  intros Hb Hreg. rewrite (_dvr_deleted_run _ _ _ Hreg).
  rewrite replay_healthy_flows by (done || apply trace_dvr_deleted_flows).
  reflexivity.
Qed.

Lemma _dvr_updated_healthy env dvr_id old_dvr new_dvr st :
  budget st = None →
  dvr_ready env (host st) new_dvr →
  registered_routers st !! dvr_id = Some old_dvr →
  _dvr_updated env dvr_id new_dvr st
  = (Ok tt, advance (flows_of (trace_dvr_updated env (host st)
                                 (truthy (dvr_mac_address st)) dvr_id old_dvr new_dvr))
                    (insert dvr_id new_dvr) st).
Proof.
  intros Hb Hready Hreg. rewrite (_dvr_updated_run _ _ _ _ _ Hreg).
  rewrite replay_healthy_flows by (done || by apply trace_dvr_updated_flows).
  reflexivity.
Qed.

Lemma _dvr_added_healthy env dvr_id new_dvr st :
  budget st = None →
  dvr_ready env (host st) new_dvr →
  _dvr_added env dvr_id new_dvr st
  = (Ok tt, advance (flows_of (trace_dvr_added env (host st)
                                 (truthy (dvr_mac_address st)) dvr_id new_dvr))
                    (insert dvr_id new_dvr) st).
Proof.
  intros Hb Hready. rewrite _dvr_added_run.
  rewrite replay_healthy_flows by (done || by apply trace_dvr_added_flows).
  reflexivity.
Qed.

Lemma advance_advance ops1 f1 ops2 f2 st :
  advance ops2 f2 (advance ops1 f1 st) = advance (ops1 ++ ops2) (f2 ∘ f1) st.
Proof. unfold advance. destruct st. cbn. by rewrite app_assoc. Qed.

Lemma advance_id st : advance [] id st = st.
Proof. unfold advance. destruct st. cbn. by rewrite app_nil_r. Qed.

(** A loop whose steps issue operations and rewrite the registry, each
    step relying on a property of the registry that the other steps
    preserve. *)
Lemma forM_advance {A} (h : option string) (ms : bool) (body : A → M unit)
    (ops : A → list (Bridge * FlowOp))
    (upd : A → gmap string (gmap string Subnet) → gmap string (gmap string Subnet))
    (P : A → gmap string (gmap string Subnet) → Prop) (l : list A) :
  (∀ x st, x ∈ l → budget st = None → host st = h →
           truthy (dvr_mac_address st) = ms → P x (registered_routers st) →
           body x st = (Ok tt, advance (ops x) (upd x) st)) →
  (∀ x y R, x ∈ l → y ∈ l → x ≠ y → P y R → P y (upd x R)) →
  NoDup l →
  ∀ st, budget st = None → host st = h → truthy (dvr_mac_address st) = ms →
        (∀ x, x ∈ l → P x (registered_routers st)) →
        forM_ l body st
        = (Ok tt, advance (l ≫= ops) (λ R, foldl (λ R x, upd x R) R l) st).
Proof.
  intros Hbody Hpres. induction l as [|x l IH]; intros Hnd st Hb Hh Hm HP.
  - cbn. by rewrite advance_id.
  - apply NoDup_cons in Hnd as [Hx Hnd]. cbn [forM_].
    rewrite run_bind, Hbody; [|by left|done..|apply HP; by left]. cbv beta iota.
    rewrite IH; try done.
    + rewrite advance_advance. reflexivity.
    + intros y st' Hy. apply Hbody. by right.
    + intros y z R Hy Hz. apply Hpres; by right.
    + intros y Hy. cbn. apply Hpres; [by left|by right|by intros ->|].
      apply HP. by right.
Qed.

(** The loop over the routers to update pops their new value from the
    fetched dict. *)
Lemma update_loop_pops env (T : gmap string (gmap string Subnet)) (l : list string)
    (acc : gmap string (gmap string Subnet)) st :
  NoDup l →
  (∀ d, d ∈ l → is_Some (T !! d) ∧ acc !! d = T !! d) →
  foldM (λ sync_dvrs dvr_id,
           '(new_dvr, sync_dvrs') ← pop dvr_id sync_dvrs;
           _dvr_updated env dvr_id new_dvr;;
           mret sync_dvrs') acc l st
  = (forM_ l (λ d, _dvr_updated env d (T !!! d));;
     mret (foldl (λ a d, delete d a) acc l)) st.
Proof.
  revert acc st. induction l as [|d l IH]; intros acc st Hnd Hl; [reflexivity|].
  apply NoDup_cons in Hnd as [Hd Hnd].
  destruct (Hl d) as ([new HT] & Ha); [left|].
  cbn [foldM forM_ foldl]. rewrite run_bind. unfold pop at 1. rewrite Ha, HT.
  rewrite (run_bind (mret _)), run_ret, run_bind.
  rewrite (lookup_total_correct _ _ _ HT).
  rewrite (run_bind (_ ≫= _)), (run_bind (_dvr_updated env d new)).
  destruct (_dvr_updated env d new st) as [[[]|e] st1]; [|done].
  rewrite run_ret. rewrite IH; [by rewrite run_bind|done|].
  intros d' Hd'. destruct (Hl d') as [? ?]; [by right|].
  split; [done|]. rewrite lookup_delete_ne; [done|]. by intros ->.
Qed.

Lemma lookup_foldl_insert_keys {V} (f : string → V) (m : gmap string V)
    (l : list string) k :
  foldl (λ acc d, <[d := f d]> acc) m l !! k
  = if decide (k ∈ l) then Some (f k) else m !! k.
Proof.
  revert m. induction l as [|k' l IH]; intros m.
  - rewrite decide_False; [done|]. apply not_elem_of_nil.
  - cbn [foldl]. rewrite IH.
    destruct (decide (k ∈ l)) as [Hin|Hin].
    + rewrite decide_True; [done|]. by right.
    + destruct (decide (k = k')) as [->|Hne].
      * rewrite decide_True; [|by left]. apply lookup_insert_eq.
      * rewrite decide_False.
        -- by apply lookup_insert_ne.
        -- intros [?|?]%elem_of_cons; done.
Qed.

Lemma lookup_foldl_insert_items {V} (m : gmap string V) (l : list (string * V)) k :
  NoDup l.*1 →
  foldl (λ acc x, <[x.1 := x.2]> acc) m l !! k
  = match list_find (λ x, x.1 = k) l with
    | Some (_, x) => Some x.2
    | None => m !! k
    end.
Proof.
  revert m. induction l as [|[k' v] l IH]; intros m Hnd; [done|].
  apply NoDup_cons in Hnd as [Hk Hnd]. cbn [foldl fst snd].
  rewrite IH by done. cbn [list_find]. cbn [fst].
  destruct (decide (k' = k)) as [->|Hne].
  - destruct (list_find (λ x, x.1 = k) l) as [[i x]|] eqn:E.
    + apply list_find_Some in E as (Hi & Hx & _). exfalso. apply Hk.
      apply list_elem_of_fmap. exists x. split; [done|]. by eapply list_elem_of_lookup_2.
    + cbn. apply lookup_insert_eq.
  - destruct (list_find (λ x, x.1 = k) l) as [[i x]|] eqn:E; cbn; [done|].
    by apply lookup_insert_ne.
Qed.

Lemma lookup_foldl_insert_map {V} (m M' : gmap string V) k :
  foldl (λ acc x, <[x.1 := x.2]> acc) m (map_to_list M') !! k
  = match M' !! k with Some v => Some v | None => m !! k end.
Proof.
  rewrite lookup_foldl_insert_items by apply NoDup_fst_map_to_list.
  destruct (list_find _ _) as [[i [k' v]]|] eqn:E.
  - apply list_find_Some in E as (Hi & Hx & _). cbn in Hx. subst k'.
    apply list_elem_of_lookup_2, elem_of_map_to_list in Hi. by rewrite Hi.
  - destruct (M' !! k) as [v|] eqn:Hk; [|done]. exfalso.
    apply list_find_None in E. eapply Forall_forall in E.
    2:{ apply elem_of_map_to_list. exact Hk. }
    by apply E.
Qed.

Lemma advance_ext ops f g st :
  f (registered_routers st) = g (registered_routers st) →
  advance ops f st = advance ops g st.
Proof. intros H. unfold advance. by rewrite H. Qed.

Lemma foldl_delete_updated (R T : gmap string (gmap string Subnet)) :
  foldl (λ a d, delete d a) T (elements (classify_registered R T).2) = T ∖ R.
Proof.
  apply map_eq. intros k.
  rewrite lookup_foldl_delete_keys, lookup_difference.
  destruct (decide (k ∈ elements (classify_registered R T).2)) as [H|H].
  - apply elem_of_elements, elem_of_dvrs_to_update in H as [[r ->] _]. done.
  - destruct (R !! k) as [r|] eqn:ER; [|done].
    destruct (T !! k) as [t|] eqn:ET; [|done].
    exfalso. apply H, elem_of_elements, elem_of_dvrs_to_update. eauto.
Qed.

(** The registry after the three loops of the diff is the fetched
    topology. *)
Lemma registry_after_reconcile (R T : gmap string (gmap string Subnet)) :
  foldl (λ acc x, <[x.1 := x.2]> acc)
        (foldl (λ acc d, <[d := T !!! d]> acc)
               (foldl (λ acc d, delete d acc) R (elements (classify_registered R T).1))
               (elements (classify_registered R T).2))
        (map_to_list (T ∖ R))
  = T.
Proof.
  apply map_eq. intros k.
  rewrite lookup_foldl_insert_map, lookup_difference,
    lookup_foldl_insert_keys, lookup_foldl_delete_keys.
  destruct (R !! k) as [r|] eqn:ER; destruct (T !! k) as [t|] eqn:ET.
  - rewrite decide_True; [by rewrite (lookup_total_correct _ _ _ ET)|].
    apply elem_of_elements, elem_of_dvrs_to_update. eauto.
  - rewrite decide_False.
    2:{ intros [_ [? ?]]%elem_of_elements%elem_of_dvrs_to_update. congruence. }
    rewrite decide_True; [done|].
    apply elem_of_elements, elem_of_dvrs_to_delete. eauto.
  - done.
  - rewrite decide_False.
    2:{ intros [[? ?] _]%elem_of_elements%elem_of_dvrs_to_update. congruence. }
    rewrite decide_False; [done|].
    intros [[? ?] _]%elem_of_elements%elem_of_dvrs_to_delete. congruence.
Qed.

(** With bridges that accept the calls and no port awaiting its
    attachment, the diff completes, issues [reconcile_ops] and leaves the
    fetched topology in the registry. *)
Lemma reconcile_healthy env (T : gmap string (gmap string Subnet)) st :
  budget st = None →
  topology_ready env (host st) T →
  reconcile env T st
  = (Ok tt, set_last_sync (time_at_end env)
              (advance (reconcile_ops env (host st) (truthy (dvr_mac_address st))
                                      (registered_routers st) T)
                       (λ _, T) st)).
Proof.
  intros Hb Hready.
  set (R := registered_routers st). set (h := host st).
  set (ms := truthy (dvr_mac_address st)).
  unfold reconcile. rewrite run_get_bind. fold R.
  pose proof (elem_of_dvrs_to_delete R T) as Hdel.
  pose proof (elem_of_dvrs_to_update R T) as Hupd.
  pose proof (foldl_delete_updated R T) as Hrest.
  pose proof (registry_after_reconcile R T) as Hfinal.
  unfold reconcile_ops.
  destruct (classify_registered R T) as [del upd]. cbn [fst snd] in *.
  (* the deleted routers *)
  rewrite run_bind.
  rewrite (forM_advance h ms _dvr_deleted
             (λ d, flows_of (trace_dvr_deleted h (R !!! d)))
             (λ d, delete d) (λ d R', R' !! d = R !! d) (elements del)); try done.
  2:{ intros d st' Hd Hb' Hh' _ HP.
      apply elem_of_elements, Hdel in Hd as [[old Hold] _].
      rewrite (lookup_total_correct _ _ _ Hold), <- Hh'.
      apply _dvr_deleted_healthy; [done|]. by rewrite HP. }
  2:{ intros x y R' _ _ Hne HP. by rewrite lookup_delete_ne. }
  2:{ apply NoDup_elements. }
  cbv beta iota.
  (* the updated routers *)
  rewrite run_bind, (update_loop_pops env T).
  2:{ apply NoDup_elements. }
  2:{ intros d Hd%elem_of_elements%Hupd. tauto. }
  rewrite run_bind.
  rewrite (forM_advance h ms (λ d, _dvr_updated env d (T !!! d))
             (λ d, flows_of (trace_dvr_updated env h ms d (R !!! d) (T !!! d)))
             (λ d, insert d (T !!! d)) (λ d R', R' !! d = R !! d) (elements upd));
    try done.
  2:{ intros d st' Hd Hb' Hh' Hm' HP.
      apply elem_of_elements, Hupd in Hd as [[old Hold] [new Hnew]].
      rewrite (lookup_total_correct _ _ _ Hold), (lookup_total_correct _ _ _ Hnew).
      rewrite <- Hh', <- Hm'.
      apply _dvr_updated_healthy; [done| |by rewrite HP].
      rewrite Hh'. by apply (Hready d). }
  2:{ intros x y R' _ _ Hne HP. by rewrite lookup_insert_ne. }
  2:{ apply NoDup_elements. }
  2:{ intros d Hd%elem_of_elements%Hupd. cbn.
      rewrite lookup_foldl_delete_keys, decide_False; [done|].
      intros [_ Hn]%elem_of_elements%Hdel. destruct Hd as [_ [? ?]]. congruence. }
  cbv beta iota. rewrite run_ret, Hrest.
  (* the added routers *)
  rewrite run_bind.
  rewrite (forM_advance h ms (λ '(dvr_id, new_dvr), _dvr_added env dvr_id new_dvr)
             (λ x, flows_of (trace_dvr_added env h ms x.1 x.2))
             (λ x, insert x.1 x.2) (λ _ _, True) (map_to_list (T ∖ R))); try done.
  2:{ intros [d new] st' Hd Hb' Hh' Hm' _. cbn [fst snd].
      apply elem_of_map_to_list, lookup_difference_Some in Hd as [Hd _].
      rewrite <- Hh', <- Hm'. apply _dvr_added_healthy; [done|].
      rewrite Hh'. by apply (Hready d). }
  2:{ apply NoDup_map_to_list. }
  cbv beta iota. unfold modify. rewrite !advance_advance. f_equal. f_equal.
  rewrite <- ?app_assoc. apply advance_ext. cbn. fold R. exact Hfinal.
Qed.

Lemma elem_of_reconcile_ops env h ms (R T : gmap string (gmap string Subnet)) x :
  x ∈ reconcile_ops env h ms R T
  ↔ (∃ d old_dvr, R !! d = Some old_dvr ∧ T !! d = None
        ∧ x ∈ flows_of (trace_dvr_deleted h old_dvr))
    ∨ (∃ d old_dvr new_dvr, R !! d = Some old_dvr ∧ T !! d = Some new_dvr
          ∧ x ∈ flows_of (trace_dvr_updated env h ms d old_dvr new_dvr))
    ∨ (∃ d new_dvr, R !! d = None ∧ T !! d = Some new_dvr
          ∧ x ∈ flows_of (trace_dvr_added env h ms d new_dvr)).
Proof.
  unfold reconcile_ops. rewrite !elem_of_app, !list_elem_of_bind.
  apply or_iff_both; [|apply or_iff_both].
  - split.
    + intros (d & Hx & [[old Hold] Hn]%elem_of_elements%elem_of_dvrs_to_delete).
      rewrite (lookup_total_correct _ _ _ Hold) in Hx. by exists d, old.
    + intros (d & old & Hold & Hn & Hx). exists d.
      rewrite (lookup_total_correct _ _ _ Hold). split; [done|].
      apply elem_of_elements, elem_of_dvrs_to_delete. eauto.
  - split.
    + intros (d & Hx & [[old Hold] [new Hnew]]%elem_of_elements%elem_of_dvrs_to_update).
      rewrite (lookup_total_correct _ _ _ Hold), (lookup_total_correct _ _ _ Hnew) in Hx.
      by exists d, old, new.
    + intros (d & old & new & Hold & Hnew & Hx). exists d.
      rewrite (lookup_total_correct _ _ _ Hold), (lookup_total_correct _ _ _ Hnew).
      split; [done|]. apply elem_of_elements, elem_of_dvrs_to_update. eauto.
  - split.
    + intros ([d new] & Hx & [? ?]%elem_of_map_to_list%lookup_difference_Some).
      by exists d, new.
    + intros (d & new & Hold & Hnew & Hx). exists (d, new). split; [done|].
      by apply elem_of_map_to_list, lookup_difference_Some.
Qed.

(** *** The rules a topology needs *)

Lemma elem_of_gateway_macs_of (dvr : gmap string Subnet) g :
  g ∈ gateway_macs_of dvr
  ↔ ∃ subnet_id s, dvr !! subnet_id = Some s ∧ subnet_gateway_mac s = g.
Proof.
  unfold gateway_macs_of. rewrite elem_of_list_to_set, list_elem_of_fmap. split.
  - intros (s & -> & [k Hk]%elem_of_map_values). by exists k, s.
  - intros (k & s & Hk & <-). exists s. split; [done|].
    apply elem_of_map_values. by exists k.
Qed.

Lemma elem_of_cidrs_of (dvr : gmap string Subnet) c :
  c ∈ cidrs_of dvr
  ↔ ∃ subnet_id s, dvr !! subnet_id = Some s ∧ subnet_cidr s = c.
Proof.
  unfold cidrs_of. rewrite elem_of_list_to_set, list_elem_of_fmap. split.
  - intros (s & -> & [k Hk]%elem_of_map_values). by exists k, s.
  - intros (k & s & Hk & <-). exists s. split; [done|].
    apply elem_of_map_values. by exists k.
Qed.

Lemma dvr_rule_iff env h dvr_id dvr rule :
  (int_br, add_flow rule) ∈ flows_of (trace_dvr_added env h true dvr_id dvr)
  ↔ dvr_rule env h dvr rule.
Proof.
  rewrite elem_of_flows_of_dvr_added. unfold dvr_rule.
  split.
  - intros (sid & s & Hs & Hx). exists sid, s. split; [done|].
    apply elem_of_flows_of_subnet_added in Hx as [(_ & c & Hc & Hx)|(pid & p & Hp & Hx)].
    + left. exists c. split; [done|]. by injection Hx.
    + right. exists pid, p. split; [done|].
      destruct Hx as [(_ & g & Hg & Hx)|(Hh & Hof & Hx)].
      * left. exists g. split; [done|]. by injection Hx.
      * right. split; [done|]. split; [done|]. by injection Hx.
  - intros (sid & s & Hs & Hx). exists sid, s. split; [done|].
    apply elem_of_flows_of_subnet_added.
    destruct Hx as [(c & Hc & ->)|(pid & p & Hp & Hx)].
    + left. split; [done|]. by exists c.
    + right. exists pid, p. split; [done|].
      destruct Hx as [(g & Hg & ->)|(Hh & Hof & ->)].
      * left. split; [done|]. by exists g.
      * right. done.
Qed.

Lemma dvr_rule_diff_rule env h dvr rule : dvr_rule env h dvr rule → diff_rule rule.
Proof.
  intros (sid & s & _ & [(c & _ & ->)|(pid & p & _ & [(g & _ & ->)|(_ & _ & ->)])]).
  - by left.
  - right. by left.
  - right. by right.
Qed.

(** The rules of [installed_by_dvr_added] are the rules the routers of the
    topology need. *)
Lemma elem_of_installed_by_dvr_added env st (T : gmap string (gmap string Subnet)) rule :
  truthy (dvr_mac_address st) = true →
  topology_ready env (host st) T →
  rule ∈ installed_by_dvr_added env st T ↔ topology_rule env (host st) T rule.
Proof.
  intros Hmac Hready. unfold installed_by_dvr_added.
  set (empty := set_budget None (set_flow_log [] (set_registered_routers ∅ st))).
  rewrite (forM_advance (host st) true
             (λ '(dvr_id, new_dvr), _dvr_added env dvr_id new_dvr)
             (λ x, flows_of (trace_dvr_added env (host st) true x.1 x.2))
             (λ x, insert x.1 x.2) (λ _ _, True) (map_to_list T)); try done.
  2:{ intros [d new] st' Hd Hb' Hh' Hm' _. cbn [fst snd].
      apply elem_of_map_to_list in Hd.
      rewrite <- Hh', <- Hm'. apply _dvr_added_healthy; [done|].
      rewrite Hh'. by apply (Hready d). }
  2:{ apply NoDup_map_to_list. }
  cbn [snd advance flow_log set_registered_routers set_flow_log empty set_budget app].
  set (ops := map_to_list T ≫= _).
  assert (∀ kw, (int_br, delete_flows kw) ∉ ops) as Hnodel.
  { intros kw Hin. subst ops.
    apply list_elem_of_bind in Hin as ([d dvr] & Hin & _).
    apply elem_of_flows_of_dvr_added in Hin as (sid & s & _ & Hin).
    apply elem_of_flows_of_subnet_added in Hin
      as [(_ & c & _ & Hx)|(pid & p & _ & [(_ & g & _ & Hx)|(_ & _ & Hx)])]; done. }
  assert (∀ kw, (int_br, add_flow kw) ∈ ops ↔ topology_rule env (host st) T kw) as Hadd.
  { intros kw. subst ops. rewrite list_elem_of_bind. unfold topology_rule. split.
    - intros ([d dvr] & Hin & HT%elem_of_map_to_list).
      exists d, dvr. split; [done|]. by apply (dvr_rule_iff env (host st) d).
    - intros (d & dvr & HT & Hrule). exists (d, dvr).
      split; [by apply (dvr_rule_iff env (host st) d)|by apply elem_of_map_to_list]. }
  rewrite <- Hadd. unfold installed. split.
  - intros [Hin|Hin]%elem_of_foldl_apply_inv; [by apply elem_of_nil in Hin|].
    by apply elem_of_int_br_ops.
  - intros Hin. apply elem_of_foldl_apply.
    + right. by apply elem_of_int_br_ops.
    + intros kw Hkw%elem_of_int_br_ops. by apply Hnodel in Hkw.
Qed.

(** *** Matching *)

Lemma matches_other_subnets g c g' c' :
  matches (kw_del_other_subnets g c) (kw_add_other_subnets g' c') = true
  ↔ g = g' ∧ c = c'.
Proof.
  unfold matches. cbn. rewrite !andb_true_iff, !bool_decide_eq_true.
  split; [intros [[[[[[_ _] _] [= ->]] _] [= ->]] _]|intros [-> ->]]; done.
Qed.

Lemma matches_to_port p g q seg g' :
  matches (kw_del_to_port p g) (kw_add_to_port q seg g') = true
  ↔ g = g' ∧ port_ip p = port_ip q.
Proof.
  unfold matches. cbn. rewrite !andb_true_iff, !bool_decide_eq_true.
  split; [intros [[[[[[_ _] _] [= ->]] _] [= ->]] _]|intros [-> ->]]; done.
Qed.

Lemma matches_hosted_port p q gw ofno :
  matches (kw_del_hosted_port p) (kw_add_hosted_port q gw ofno) = true
  ↔ port_mac p = port_mac q ∧ port_ip p = port_ip q.
Proof.
  unfold matches. cbn. rewrite !andb_true_iff, !bool_decide_eq_true.
  split; [intros [[[[[[_ _] _] [= ->]] _] [= ->]] _]|intros [-> ->]]; done.
Qed.

(** ** The operations of the diff and the rules the topology needs *)

Lemma kw_add_to_port_ext p q seg seg' g :
  port_mac p = port_mac q → port_ip p = port_ip q → seg = seg' →
  kw_add_to_port p seg g = kw_add_to_port q seg' g.
Proof. intros Hm Hi ->. unfold kw_add_to_port. by rewrite Hm, Hi. Qed.

Lemma kw_add_hosted_port_ext p q gw gw' ofno ofno' :
  port_mac p = port_mac q → port_ip p = port_ip q → gw = gw' → ofno = ofno' →
  kw_add_hosted_port p gw ofno = kw_add_hosted_port q gw' ofno'.
Proof. intros Hm Hi -> ->. unfold kw_add_hosted_port. by rewrite Hm, Hi. Qed.

Section Completeness.
Context (env : Env) (h : option string).
Context (R T : gmap string (gmap string Subnet)).
Hypothesis Hstable : attributes_stable R T.
Hypothesis Hgw : gateway_macs_distinct R T.
Hypothesis Hip : port_ips_distinct R T.
Hypothesis Haddr : port_addresses_distinct R T.
Hypothesis Hslip : no_port_and_subnet_removed R T.

Lemma subnet_at_R d old sid s :
  R !! d = Some old → old !! sid = Some s → subnet_at R T d sid s.
Proof. intros. left. by exists old. Qed.

Lemma subnet_at_T d new sid s :
  T !! d = Some new → new !! sid = Some s → subnet_at R T d sid s.
Proof. intros. right. by exists new. Qed.

Lemma gateway_mac_router d1 dvr1 d2 dvr2 g :
  (R !! d1 = Some dvr1 ∨ T !! d1 = Some dvr1) →
  (R !! d2 = Some dvr2 ∨ T !! d2 = Some dvr2) →
  g ∈ gateway_macs_of dvr1 → g ∈ gateway_macs_of dvr2 → d1 = d2.
Proof.
  intros H1 H2 (s1 & sn1 & Hs1 & Hg1)%elem_of_gateway_macs_of
    (s2 & sn2 & Hs2 & Hg2)%elem_of_gateway_macs_of.
  apply (Hgw d1 s1 sn1 d2 s2 sn2); [| |congruence].
  - destruct H1; [by eapply subnet_at_R|by eapply subnet_at_T].
  - destruct H2; [by eapply subnet_at_R|by eapply subnet_at_T].
Qed.

(** Removals that match no wanted rule. *)
Lemma no_match_other g c :
  (∀ d dvr sid s, T !! d = Some dvr → dvr !! sid = Some s →
                  subnet_gateway_mac s = g →
                  c ∈ cidrs_of dvr ∖ {[subnet_cidr s]} → False) →
  ∀ kw', topology_rule env h T kw' →
    matches (kw_del_other_subnets g c) kw' = false.
Proof.
  intros Hc kw' (d & dvr & HT & sid & s & Hs & Hform).
  destruct Hform as [(c' & Hc' & ->)|(pid & p & Hp & [(g' & Hg' & ->)|(_ & _ & ->)])];
    [|reflexivity..].
  apply not_true_is_false. intros [-> ->]%matches_other_subnets. by eapply Hc.
Qed.

Lemma no_match_to_port p g :
  (∀ d dvr sid s pid q, T !! d = Some dvr → dvr !! sid = Some s →
                        subnet_ports s !! pid = Some q →
                        port_ip p = port_ip q →
                        g ∈ gateway_macs_of dvr ∖ {[subnet_gateway_mac s]} → False) →
  ∀ kw', (topology_rule env h T) kw' → matches (kw_del_to_port p g) kw' = false.
Proof.
  intros Hc kw' (d & dvr & HT & sid & s & Hs & Hform).
  destruct Hform as [(c' & Hc' & ->)|(pid & q & Hq & [(g' & Hg' & ->)|(_ & _ & ->)])];
    [reflexivity| |reflexivity].
  apply not_true_is_false. intros [-> Hi]%matches_to_port. by eapply Hc.
Qed.

Lemma no_match_hosted p :
  (∀ d dvr sid s pid q, T !! d = Some dvr → dvr !! sid = Some s →
                        subnet_ports s !! pid = Some q →
                        port_mac p = port_mac q → port_ip p = port_ip q →
                        port_host q = h → False) →
  ∀ kw', (topology_rule env h T) kw' → matches (kw_del_hosted_port p) kw' = false.
Proof.
  intros Hc kw' (d & dvr & HT & sid & s & Hs & Hform).
  destruct Hform as [(c' & Hc' & ->)|(pid & q & Hq & [(g' & Hg' & ->)|(Hh & _ & ->)])];
    [reflexivity..|].
  apply not_true_is_false. intros [Hm Hi]%matches_hosted_port. by eapply Hc.
Qed.

(** The removals for a subnet that is in [R] and not in [T]. *)
Lemma subnet_deleted_sound d old sid os x :
  R !! d = Some old → old !! sid = Some os →
  (∀ new s, T !! d = Some new → new !! sid = Some s → False) →
  x ∈ flows_of (trace_subnet_deleted h os (cidrs_of old) (gateway_macs_of old)) →
  op_sound (topology_rule env h T) x.
Proof.
  intros HR Hos Hgone Hx.
  apply elem_of_flows_of_subnet_deleted in Hx
    as [(c & Hc & ->)|(pid & p & Hp & [(g & Hg & ->)|(Hh & ->)])]; cbn.
  - apply no_match_other. intros d' dvr' sid' s' HT' Hs' Hg' _.
    destruct (Hgw d' sid' s' d sid os) as [-> ->];
      [by eapply subnet_at_T|by eapply subnet_at_R|done|].
    by eapply Hgone.
  - apply no_match_to_port. intros d' dvr' sid' s' pid' q HT' Hs' Hq Hi Hg'.
    apply elem_of_difference in Hg as [Hg _]. apply elem_of_difference in Hg' as [Hg' _].
    assert (d = d') as <-.
    { eapply (gateway_mac_router d old d' dvr' g); eauto. }
    destruct (Hip d sid pid p sid' pid' q) as [<- <-]; [| |done|].
    + exists os. split; [by eapply subnet_at_R|done].
    + exists s'. split; [by eapply subnet_at_T|done].
    + by eapply Hgone.
  - apply no_match_hosted. intros d' dvr' sid' s' pid' q HT' Hs' Hq Hm Hi _.
    destruct (Haddr d sid pid p d' sid' pid' q) as (<- & <- & <-); [| |done..|].
    + exists os. split; [by eapply subnet_at_R|done].
    + exists s'. split; [by eapply subnet_at_T|done].
    + by eapply Hgone.
Qed.

(** The installs for a subnet that is in [T]. *)
Lemma subnet_added_sound d new sid s x :
  T !! d = Some new → new !! sid = Some s →
  x ∈ flows_of (trace_subnet_added env h true d sid s (cidrs_of new)
                                   (gateway_macs_of new)) →
  op_sound (topology_rule env h T) x.
Proof.
  intros HT Hs Hx.
  assert ((int_br, x.2) = x ∧ ∃ kw, x.2 = add_flow kw) as [Hbr [kw Hkw]].
  { apply elem_of_flows_of_subnet_added in Hx
      as [(_ & c & _ & ->)|(pid & p & _ & [(_ & g & _ & ->)|(_ & _ & ->)])]; eauto. }
  unfold op_sound. rewrite Hkw. exists d, new. split; [done|].
  apply (dvr_rule_iff env h d). apply elem_of_flows_of_dvr_added.
  exists sid, s. split; [done|]. by rewrite <- Hkw, Hbr.
Qed.

(** The operations for a subnet that stays in its router. *)
Lemma subnet_updated_sound d old new sid os s x :
  R !! d = Some old → T !! d = Some new →
  old !! sid = Some os → new !! sid = Some s →
  x ∈ flows_of (trace_subnet_updated env h true d sid os s
                  (cidrs_of old) (cidrs_of new)
                  (gateway_macs_of old) (gateway_macs_of new)) →
  op_sound (topology_rule env h T) x.
Proof.
  intros HR HT Hos Hs Hx.
  destruct (Hstable d old new sid os s HR HT Hos Hs) as (Hcidr & Hgws & Hseg & Hports).
  assert (subnet_cidr s ∈ cidrs_of old) as Hcidr_old.
  { apply elem_of_cidrs_of. by exists sid, os. }
  assert (subnet_gateway_mac s ∈ gateway_macs_of old) as Hgw_old.
  { apply elem_of_gateway_macs_of. by exists sid, os. }
  assert (∀ kw, dvr_rule env h new kw → (topology_rule env h T) kw) as Hwanted.
  { intros kw Hkw. by exists d, new. }
  apply elem_of_flows_of_subnet_updated in Hx
    as [(c & Hc & ->)|[(_ & c & Hc & ->)|[(pid & p & Hp & Hx)|(pid & op & Hop & Hp & Hx)]]].
  - (* other-subnet rules of CIDRs that left the router *)
    cbn. apply no_match_other. intros d' dvr' sid' s' HT' Hs' Hg' Hc'.
    destruct (Hgw d' sid' s' d sid s) as [-> ->];
      [by eapply subnet_at_T|by eapply subnet_at_T|done|].
    assert (dvr' = new) as -> by congruence.
    apply elem_of_difference in Hc as [_ Hc]. apply elem_of_difference in Hc' as [Hc' _].
    done.
  - (* other-subnet rules of CIDRs that entered the router *)
    cbn. apply Hwanted. exists sid, s. split; [done|]. left. exists c. split; [|done].
    apply elem_of_difference in Hc as [Hc Hn].
    apply elem_of_difference. split; [done|]. intros ->%elem_of_singleton. done.
  - destruct (subnet_ports os !! pid) as [op|] eqn:Hop.
    + (* a port that stays *)
      destruct (Hports pid op p Hop Hp) as (Hmac & Hipeq & Hname).
      destruct Hx as [(g & Hg & ->)|[(_ & g & Hg & ->)|[(Hh & Hne & ->)|(Hne & Hh & Hof & ->)]]];
        cbn.
      * apply no_match_to_port. intros d' dvr' sid' s' pid' q HT' Hs' Hq Hi Hg'.
        apply elem_of_difference in Hg as [Hg Hn].
        apply elem_of_difference in Hg' as [Hg' _].
        assert (d = d') as <-.
        { eapply (gateway_mac_router d old d' dvr' g); eauto. }
        assert (dvr' = new) as -> by congruence. done.
      * apply Hwanted. exists sid, s. split; [done|]. right. exists pid, p.
        split; [done|]. left. exists g. split; [|done].
        apply elem_of_difference in Hg as [Hg Hn].
        apply elem_of_difference. split; [done|]. intros ->%elem_of_singleton. done.
      * apply no_match_hosted. intros d' dvr' sid' s' pid' q HT' Hs' Hq Hm Hi Hhq.
        destruct (Haddr d sid pid op d' sid' pid' q) as (<- & <- & <-); [| |done..|].
        -- exists os. split; [by eapply subnet_at_R|done].
        -- exists s'. split; [by eapply subnet_at_T|done].
        -- assert (dvr' = new) as -> by congruence.
           assert (s' = s) as -> by congruence.
           assert (q = p) as -> by congruence. congruence.
      * apply Hwanted. exists sid, s. split; [done|]. right. exists pid, p.
        split; [done|]. by right.
    + (* a port that enters the subnet *)
      apply (subnet_added_sound d new sid s); [done..|].
      apply elem_of_flows_of_subnet_added. right. by exists pid, p.
  - (* a port that leaves the subnet *)
    destruct Hx as [(g & Hg & ->)|(Hh & ->)]; cbn.
    + apply no_match_to_port. intros d' dvr' sid' s' pid' q HT' Hs' Hq Hi Hg'.
      apply elem_of_difference in Hg as [Hg _].
      apply elem_of_difference in Hg' as [Hg' _].
      assert (d = d') as <-.
      { eapply (gateway_mac_router d new d' dvr' g); eauto. }
      assert (dvr' = new) as -> by congruence.
      destruct (Hip d sid pid op sid' pid' q) as [<- <-]; [| |done|].
      * exists os. split; [by eapply subnet_at_R|done].
      * exists s'. split; [by eapply subnet_at_T|done].
      * assert (s' = s) as -> by congruence. congruence.
    + apply no_match_hosted. intros d' dvr' sid' s' pid' q HT' Hs' Hq Hm Hi Hhq.
      destruct (Haddr d sid pid op d' sid' pid' q) as (<- & <- & <-); [| |done..|].
      * exists os. split; [by eapply subnet_at_R|done].
      * exists s'. split; [by eapply subnet_at_T|done].
      * assert (dvr' = new) as -> by congruence.
        assert (s' = s) as -> by congruence. congruence.
Qed.

(** Every operation of the diff is sound. *)
Lemma reconcile_ops_sound x :
  x ∈ reconcile_ops env h true R T → op_sound (topology_rule env h T) x.
Proof.
  intros [(d & old & HR & HT & Hx)|[(d & old & new & HR & HT & Hx)|(d & new & HR & HT & Hx)]]
    %elem_of_reconcile_ops.
  - apply elem_of_flows_of_dvr_deleted in Hx as (sid & os & Hos & Hx).
    apply (subnet_deleted_sound d old sid os); try done. intros new s. congruence.
  - apply elem_of_flows_of_dvr_updated in Hx
      as [(sid & s & Hs & Hx)|(sid & os & Hos & Hs & Hx)].
    + destruct (old !! sid) as [os|] eqn:Hos.
      * by apply (subnet_updated_sound d old new sid os s).
      * by apply (subnet_added_sound d new sid s).
    + apply (subnet_deleted_sound d old sid os); try done. intros new' s. congruence.
  - apply elem_of_flows_of_dvr_added in Hx as (sid & s & Hs & Hx).
    by apply (subnet_added_sound d new sid s).
Qed.

(** Every wanted rule was needed by the registered topology or is
    installed. *)
Lemma wanted_there_or_installed rule :
  topology_rule env h T rule →
  topology_rule env h R rule
  ∨ (int_br, add_flow rule) ∈ reconcile_ops env h true R T.
Proof.
  intros (d & new & HT & sid & s & Hs & Hform).
  assert (∀ x, x ∈ flows_of (trace_subnet_added env h true d sid s (cidrs_of new)
                               (gateway_macs_of new)) →
               R !! d = None ∨ (∃ old, R !! d = Some old ∧ old !! sid = None) →
               x ∈ (reconcile_ops env h true R T)) as Hadded.
  { intros x Hx Hnew. apply elem_of_reconcile_ops.
    destruct Hnew as [HR|(old & HR & Hos)].
    - right; right. exists d, new. split; [done|]. split; [done|].
      apply elem_of_flows_of_dvr_added. by exists sid, s.
    - right; left. exists d, old, new. split; [done|]. split; [done|].
      apply elem_of_flows_of_dvr_updated. left. exists sid, s. split; [done|].
      by rewrite Hos. }
  assert ((int_br, add_flow rule)
          ∈ flows_of (trace_subnet_added env h true d sid s (cidrs_of new)
                        (gateway_macs_of new))) as Hfull.
  { apply elem_of_flows_of_subnet_added.
    destruct Hform as [(c & Hc & ->)|(pid & p & Hp & [(g & Hg & ->)|(Hh & Hof & ->)])].
    - left. split; [done|]. by exists c.
    - right. exists pid, p. split; [done|]. left. split; [done|]. by exists g.
    - right. exists pid, p. split; [done|]. by right. }
  destruct (R !! d) as [old|] eqn:HR; [|right; apply Hadded; auto].
  destruct (old !! sid) as [os|] eqn:Hos; [|right; apply Hadded; eauto].
  clear Hadded Hfull.
  destruct (Hstable d old new sid os s HR HT Hos Hs) as (Hcidr & Hgws & Hseg & Hports).
  assert (∀ x, x ∈ flows_of (trace_subnet_updated env h true d sid os s
                               (cidrs_of old) (cidrs_of new)
                               (gateway_macs_of old) (gateway_macs_of new)) →
               x ∈ (reconcile_ops env h true R T)) as Hupdated.
  { intros x Hx. apply elem_of_reconcile_ops. right; left.
    exists d, old, new. split; [done|]. split; [done|].
    apply elem_of_flows_of_dvr_updated. left. exists sid, s. split; [done|].
    by rewrite Hos. }
  assert (∀ kw, dvr_rule env h old kw → topology_rule env h R kw) as Hthere.
  { intros kw Hkw. by exists d, old. }
  destruct Hform as [(c & Hc & ->)|(pid & p & Hp & Hform)].
  - (* an other-subnet rule *)
    apply elem_of_difference in Hc as [Hc Hn].
    destruct (decide (c ∈ cidrs_of old)) as [Hold|Hold].
    + left. apply Hthere. exists sid, os. split; [done|]. left. exists c.
      rewrite Hcidr, Hgws. split; [|done]. by apply elem_of_difference.
    + right. apply Hupdated, elem_of_flows_of_subnet_updated. right; left.
      split; [done|]. exists c. split; [|done]. by apply elem_of_difference.
  - destruct (subnet_ports os !! pid) as [op|] eqn:Hop.
    2:{ (* the rules of a port that enters the subnet *)
        right. apply Hupdated, elem_of_flows_of_subnet_updated. right; right; left.
        exists pid, p. split; [done|]. rewrite Hop.
        destruct Hform as [(g & Hg & ->)|(Hh & Hof & ->)].
        - left. split; [done|]. by exists g.
        - by right. }
    destruct (Hports pid op p Hop Hp) as (Hmac & Hipeq & Hname).
    destruct Hform as [(g & Hg & ->)|(Hh & Hof & ->)].
    + (* a resolve rule of a port that stays *)
      apply elem_of_difference in Hg as [Hg Hn].
      destruct (decide (g ∈ gateway_macs_of old)) as [Hold|Hold].
      * left. apply Hthere. exists sid, os. split; [done|]. right. exists pid, op.
        split; [done|]. left. exists g. split.
        -- rewrite Hgws. by apply elem_of_difference.
        -- by apply kw_add_to_port_ext.
      * right. apply Hupdated, elem_of_flows_of_subnet_updated. right; right; left.
        exists pid, p. split; [done|]. rewrite Hop. right; left.
        split; [done|]. exists g. split; [|done]. by apply elem_of_difference.
    + (* the hosted-delivery rule of a port that stays *)
      destruct (decide (port_host op = h)) as [Hold|Hold].
      * left. apply Hthere. exists sid, os. split; [done|]. right. exists pid, op.
        split; [done|]. right. split; [done|]. rewrite Hname. split; [done|].
        by apply kw_add_hosted_port_ext.
      * right. apply Hupdated, elem_of_flows_of_subnet_updated. right; right; left.
        exists pid, p. split; [done|]. rewrite Hop. right; right; right. done.
Qed.

(** Every rule needed by the registered topology is wanted or matched by
    a removal. *)
Lemma there_wanted_or_removed rule :
  topology_rule env h R rule →
  topology_rule env h T rule
  ∨ ∃ kw, (int_br, delete_flows kw) ∈ reconcile_ops env h true R T
          ∧ matches kw rule = true.
Proof.
  intros (d & old & HR & sid & os & Hos & Hform).
  assert (∃ kw, (int_br, delete_flows kw)
                ∈ flows_of (trace_subnet_deleted h os (cidrs_of old)
                              (gateway_macs_of old))
                ∧ matches kw rule = true) as (kwd & Hfull & Hmatch).
  { destruct Hform as [(c & Hc & ->)|(pid & p & Hp & [(g & Hg & ->)|(Hh & Hof & ->)])].
    - exists (kw_del_other_subnets (subnet_gateway_mac os) c). split.
      + apply elem_of_flows_of_subnet_deleted. left. by exists c.
      + by apply matches_other_subnets.
    - exists (kw_del_to_port p g). split.
      + apply elem_of_flows_of_subnet_deleted. right. exists pid, p. split; [done|].
        left. by exists g.
      + by apply matches_to_port.
    - exists (kw_del_hosted_port p). split.
      + apply elem_of_flows_of_subnet_deleted. right. exists pid, p. split; [done|].
        by right.
      + by apply matches_hosted_port. }
  destruct (T !! d) as [new|] eqn:HT.
  2:{ right. exists kwd. split; [|done]. apply elem_of_reconcile_ops. left.
      exists d, old. split; [done|]. split; [done|].
      apply elem_of_flows_of_dvr_deleted. by exists sid, os. }
  destruct (new !! sid) as [s|] eqn:Hs.
  2:{ right. exists kwd. split; [|done]. apply elem_of_reconcile_ops. right; left.
      exists d, old, new. split; [done|]. split; [done|].
      apply elem_of_flows_of_dvr_updated. right. by exists sid, os. }
  clear kwd Hfull Hmatch.
  destruct (Hstable d old new sid os s HR HT Hos Hs) as (Hcidr & Hgws & Hseg & Hports).
  assert (∀ x, x ∈ flows_of (trace_subnet_updated env h true d sid os s
                               (cidrs_of old) (cidrs_of new)
                               (gateway_macs_of old) (gateway_macs_of new)) →
               x ∈ (reconcile_ops env h true R T)) as Hupdated.
  { intros x Hx. apply elem_of_reconcile_ops. right; left.
    exists d, old, new. split; [done|]. split; [done|].
    apply elem_of_flows_of_dvr_updated. left. exists sid, s. split; [done|].
    by rewrite Hos. }
  assert (∀ kw, dvr_rule env h new kw → (topology_rule env h T) kw) as Hwanted.
  { intros kw Hkw. by exists d, new. }
  destruct Hform as [(c & Hc & ->)|(pid & op & Hop & Hform)].
  - (* an other-subnet rule *)
    apply elem_of_difference in Hc as [Hc Hn].
    destruct (decide (c ∈ cidrs_of new)) as [Hnew|Hnew].
    + left. apply Hwanted. exists sid, s. split; [done|]. left. exists c.
      rewrite <- Hcidr, <- Hgws. split; [|done]. by apply elem_of_difference.
    + right. exists (kw_del_other_subnets (subnet_gateway_mac s) c). split.
      * apply Hupdated, elem_of_flows_of_subnet_updated. left.
        exists c. split; [|done]. by apply elem_of_difference.
      * rewrite Hgws. by apply matches_other_subnets.
  - destruct (subnet_ports s !! pid) as [p|] eqn:Hp.
    2:{ (* the rules of a port that leaves the subnet *)
        right.
        assert (∀ x, port_deleted_op h
                       (gateway_macs_of new ∖ {[subnet_gateway_mac s]}) op x →
                     x ∈ (reconcile_ops env h true R T)) as Hremoved.
        { intros x Hx. apply Hupdated, elem_of_flows_of_subnet_updated.
          right; right; right. by exists pid, op. }
        destruct Hform as [(g & Hg & ->)|(Hh & Hof & ->)].
        - exists (kw_del_to_port op g). split; [|by apply matches_to_port].
          apply Hremoved. left. exists g. split; [|done].
          apply elem_of_difference in Hg as [Hg Hn]. rewrite <- Hgws.
          apply elem_of_difference. split; [|done].
          by apply (Hslip d old new sid os s pid op).
        - exists (kw_del_hosted_port op). split; [|by apply matches_hosted_port].
          apply Hremoved. by right. }
    destruct (Hports pid op p Hop Hp) as (Hmac & Hipeq & Hname).
    assert (∀ x, port_kept_op env h true s (gateway_macs_of old) (gateway_macs_of new)
                              op p x → x ∈ (reconcile_ops env h true R T)) as Hkept.
    { intros x Hx. apply Hupdated, elem_of_flows_of_subnet_updated.
      right; right; left. exists pid, p. split; [done|]. by rewrite Hop. }
    destruct Hform as [(g & Hg & ->)|(Hh & Hof & ->)].
    + (* a resolve rule of a port that stays *)
      apply elem_of_difference in Hg as [Hg Hn].
      destruct (decide (g ∈ gateway_macs_of new)) as [Hnew|Hnew].
      * left. apply Hwanted. exists sid, s. split; [done|]. right. exists pid, p.
        split; [done|]. left. exists g. split.
        -- rewrite <- Hgws. by apply elem_of_difference.
        -- by apply kw_add_to_port_ext.
      * right. exists (kw_del_to_port p g). split.
        -- apply Hkept. left. exists g. split; [|done]. by apply elem_of_difference.
        -- by apply matches_to_port.
    + (* the hosted-delivery rule of a port that stays *)
      destruct (decide (port_host p = h)) as [Hnew|Hnew].
      * left. apply Hwanted. exists sid, s. split; [done|]. right. exists pid, p.
        split; [done|]. right. split; [done|]. rewrite <- Hname. split; [done|].
        by apply kw_add_hosted_port_ext.
      * right. exists (kw_del_hosted_port op). split; [|by apply matches_hosted_port].
        apply Hkept. right; right; left. split; [done|]. split; [congruence|done].
Qed.

(** The table after the operations of the diff. *)
Lemma reconcile_ops_converge rules rule :
  (rule ∈ rules ↔ topology_rule env h R rule) →
  rule ∈ installed rules (reconcile_ops env h true R T) ↔ topology_rule env h T rule.
Proof.
  intros Hrules. apply installed_converges.
  - intros kw Hin. exact (reconcile_ops_sound _ Hin).
  - intros kw kw' Hin. exact (reconcile_ops_sound _ Hin kw').
  - intros [?|?]%wanted_there_or_installed; [left; by apply Hrules|by right].
  - intros Hin%Hrules. by apply there_wanted_or_removed.
Qed.
End Completeness.

(** C9 (amended).  Completeness of the incremental diff when ids and
    addresses are used consistently.  Let the bridge accept every call,
    the self MAC be set and the attachments of the hosted ports of the
    registered and of the fetched topology be ready.  Let the subnets and
    ports that keep their id keep their attributes.  Let, over the
    registered and the fetched topology taken together, a gateway MAC
    belong to one subnet id of one router, an IP address belong within a
    router to one port id of one subnet id, and a MAC and IP address
    together belong to one port id of one subnet id of one router: an
    address of the registered topology is not used in the fetched one
    under another id.  Let no port leave a kept subnet in a diff in which
    its router loses a gateway MAC.  If the other-subnet, resolve and
    hosted-delivery rules of the table are the ones [_dvr_added] installs
    for the registered routers from an empty state, then [reconcile]
    returns, registers [T], and afterwards these rules of the table are
    exactly the ones [_dvr_added] installs for the routers of [T] from an
    empty state. *)
Theorem reconcile_complete env (T : gmap string (gmap string Subnet)) st
    (rules : list FlowArgs) :
  budget st = None →
  truthy (dvr_mac_address st) = true →
  topology_ready env (host st) (registered_routers st) →
  topology_ready env (host st) T →
  attributes_stable (registered_routers st) T →
  gateway_macs_distinct (registered_routers st) T →
  port_ips_distinct (registered_routers st) T →
  port_addresses_distinct (registered_routers st) T →
  no_port_and_subnet_removed (registered_routers st) T →
  (∀ rule, diff_rule rule →
     rule ∈ rules ↔ rule ∈ installed_by_dvr_added env st (registered_routers st)) →
  (reconcile env T st).1 = Ok tt
  ∧ registered_routers (reconcile env T st).2 = T
  ∧ ∀ rule, diff_rule rule →
      rule ∈ installed rules (issued st (reconcile env T st).2)
      ↔ rule ∈ installed_by_dvr_added env st T.
Proof.
  intros Hb Hmac HreadyR HreadyT Hstable Hgw Hip Haddr Hslip Hrules.
  rewrite (reconcile_healthy env T st Hb HreadyT), Hmac. cbn [fst snd].
  split; [done|]. split; [done|].
  intros rule Hrule.
  assert (issued st (set_last_sync (time_at_end env)
                       (advance (reconcile_ops env (host st) true
                                               (registered_routers st) T)
                                (λ _, T) st))
          = reconcile_ops env (host st) true (registered_routers st) T) as ->.
  { unfold issued, advance. cbn. by rewrite drop_app_length. }
  rewrite (elem_of_installed_by_dvr_added env st T rule Hmac HreadyT).
  apply reconcile_ops_converge; try done.
  rewrite (Hrules rule Hrule).
  by apply elem_of_installed_by_dvr_added.
Qed.

(** Lookups in the maps of the scenario, case by case. *)
Ltac scenario_lookups :=
  repeat first
    [ progress unfold subnet_at, port_at, Scenario.T, Scenario.R1, Scenario.S1,
        Scenario.S2, Scenario.T_new_port, Scenario.S2_new_port,
        Scenario.T_new_gateway, Scenario.S1_new_gateway in *
    | progress cbn [subnet_ports subnet_cidr subnet_gateway_mac subnet_seg_id] in *
    | match goal with
      | H : _ ∧ _ |- _ => destruct H
      | H : _ ∨ _ |- _ => destruct H
      | H : ∃ _, _ |- _ => destruct H
      | H : ∅ !! _ = Some _ |- _ => by rewrite lookup_empty in H
      | H : {[ _ := _ ]} !! _ = Some _ |- _ => apply lookup_singleton_Some in H
      | H : <[ _ := _ ]> _ !! _ = Some _ |- _ => apply lookup_insert_Some in H
      end
    | progress subst ].

Lemma reconcile_complete_witness :
  let st := Scenario.synced in
  let env := Scenario.env (Some Scenario.self_mac) (Some Scenario.T_new_port) 2000 in
  let after := (reconcile env Scenario.T_new_port st).2 in
  (reconcile env Scenario.T_new_port st).1 = Ok tt
  ∧ registered_routers after = Scenario.T_new_port
  ∧ ∀ rule, diff_rule rule →
      rule ∈ installed (installed [] (flow_log st)) (issued st after)
      ↔ rule ∈ installed_by_dvr_added env st Scenario.T_new_port.
Proof.
  cbn zeta.
  assert (registered_routers Scenario.synced = Scenario.T) as HR by by vm_compute.
  refine (reconcile_complete
            (Scenario.env (Some Scenario.self_mac) (Some Scenario.T_new_port) 2000)
            Scenario.T_new_port Scenario.synced
            (installed [] (flow_log Scenario.synced)) _ _ _ _ _ _ _ _ _ _);
    rewrite ?HR; clear HR.
  - by vm_compute.
  - by vm_compute.
  - intros d dvr _ sid s _ pid p _ _. vm_compute. discriminate.
  - intros d dvr _ sid s _ pid p _ _. vm_compute. discriminate.
  - intros d old new sid os s H1 H2 H3 H4. scenario_lookups; try discriminate.
    all: split; [done|]; split; [done|]; split; [done|].
    all: intros pid op p H5 H6; scenario_lookups; try discriminate; done.
  - intros d1 s1 sn1 d2 s2 sn2 H1 H2 H3. scenario_lookups; try discriminate; done.
  - intros d s1 p1 port1 s2 p2 port2 H1 H2 H3. scenario_lookups; try discriminate; done.
  - intros d1 s1 p1 port1 d2 s2 p2 port2 H1 H2 H3 H4.
    scenario_lookups; try discriminate; done.
  - intros d old new sid os s pid op H1 H2 H3 H4 H5 H6. scenario_lookups.
    all: apply (bool_decide_unpack _); by vm_compute.
  - intros rule _.
    by replace (installed [] (flow_log Scenario.synced))
      with (installed_by_dvr_added
              (Scenario.env (Some Scenario.self_mac) (Some Scenario.T_new_port) 2000)
              Scenario.synced Scenario.T) by by vm_compute.
Defined.

(** C9 as stated fails.  On the scenario the router interface of subnet
    [S1] is replaced, so the gateway MAC of [S1] changes from aa:1 to aa:9
    while the subnet and its port keep their ids.  The bridge accepts
    every call, the self MAC is set and the attachment of [P1] is ready;
    the table before the sync is the one the first sync installed from an
    empty state.  After [reconcile] the other-subnet rule keyed on the new
    gateway MAC, which [_dvr_added] installs for the new topology from an
    empty state, is missing, and the one keyed on the old gateway MAC,
    which [_dvr_added] does not install, is still there. *)
Lemma reconcile_complete_counterexample :
  let st := Scenario.synced in
  let env := Scenario.env (Some Scenario.self_mac) (Some Scenario.T_new_gateway) 2000 in
  let r := reconcile env Scenario.T_new_gateway st in
  let table := installed (installed [] (flow_log st)) (issued st r.2) in
  let wanted := installed_by_dvr_added env st Scenario.T_new_gateway in
  let new_rule := kw_add_other_subnets "aa:9" "10.0.2.0/24" in
  let old_rule := kw_add_other_subnets "aa:1" "10.0.2.0/24" in
  budget st = None
  ∧ truthy (dvr_mac_address st) = true
  ∧ topology_ready env (host st) Scenario.T_new_gateway
  ∧ installed [] (flow_log st) = installed_by_dvr_added env st (registered_routers st)
  ∧ r.1 = Ok tt
  ∧ registered_routers r.2 = Scenario.T_new_gateway
  ∧ other_subnet_rule new_rule ∧ new_rule ∈ wanted ∧ (new_rule ∉ table)
  ∧ other_subnet_rule old_rule ∧ (old_rule ∉ wanted) ∧ old_rule ∈ table.
Proof.
  cbn zeta. split; [by vm_compute|]. split; [by vm_compute|].
  split. { intros d dvr _ sid s _ pid p _ _. vm_compute. discriminate. }
  split; [by vm_compute|]. split; [by vm_compute|]. split; [by vm_compute|].
  split; [by vm_compute|].
  split; [apply (bool_decide_unpack _); by vm_compute|].
  split; [apply (bool_decide_unpack _); by vm_compute|].
  split; [by vm_compute|].
  split; apply (bool_decide_unpack _); by vm_compute.
Qed.

(** ** More on the DVR MACs of the other hosts *)

Lemma foreign_macs_ext st st' (dvr_macs : list DvrMac) :
  host st' = host st → dvr_mac_address st' = dvr_mac_address st →
  foreign_macs st' dvr_macs = foreign_macs st dvr_macs.
Proof. intros Hh Hm. unfold foreign_macs, skipped. by rewrite Hh, Hm. Qed.

Lemma foreign_macs_cons st e (l : list DvrMac) :
  foreign_macs st (e :: l)
  = if skipped st e then foreign_macs st l else mac_address e :: foreign_macs st l.
Proof.
  unfold foreign_macs. rewrite filter_cons.
  destruct (skipped st e) eqn:E.
  - by rewrite decide_False by done.
  - by rewrite decide_True by done.
Qed.

Lemma dvr_host_macs_of_foreign_macs st (dvr_macs : list DvrMac) :
  dvr_host_macs_of st dvr_macs = list_to_set (foreign_macs st dvr_macs).
Proof.
  apply set_eq. intros m.
  rewrite elem_of_dvr_host_macs_of, elem_of_list_to_set.
  unfold foreign_macs. rewrite list_elem_of_fmap. split.
  - intros (e & He & <- & Hh & Hm). exists e. split; [done|].
    apply list_elem_of_filter. split; [|done]. unfold skipped.
    by rewrite !bool_decide_eq_false_2.
  - intros (e & -> & [Hs He]%list_elem_of_filter). exists e.
    unfold skipped in Hs. apply orb_false_iff in Hs as [H1 H2].
    apply bool_decide_eq_false in H1, H2. done.
Qed.

(** The loop of [setup_dvr_flows_on_integ_tun_br] over the roster. *)
Lemma setup_roster_loop (l : list DvrMac) st :
  budget st = None →
  forM_ l (λ mac,
    self ← get;
    if bool_decide (Some (mac_address mac) = dvr_mac_address self)
       || bool_decide (Some (mac_host mac) = host self)
    then mret tt
    else add_foreign_mac_flows (mac_address mac)) st
  = (Ok tt, set_registered_dvr_macs
              (list_to_set (foreign_macs st l) ∪ registered_dvr_macs st)
              (set_flow_log (flow_log st ++ (foreign_macs st l ≫= add_foreign_mac_ops))
                            st)).
Proof.
  revert st. induction l as [|e l IH]; intros st Hb.
  - cbn. rewrite app_nil_r, (left_id_L ∅ (∪)). by destruct st.
  - cbn [forM_]. rewrite run_bind, run_get_bind, foreign_macs_cons.
    fold (skipped st e). destruct (skipped st e) eqn:E.
    + rewrite run_ret. by apply IH.
    + rewrite add_foreign_mac_flows_healthy by done. cbv beta iota.
      rewrite IH by done.
      rewrite (foreign_macs_ext st) by done.
      unfold set_registered_dvr_macs, set_flow_log. cbn. f_equal. f_equal.
      * apply set_eq. intros x.
        rewrite !elem_of_union, ?elem_of_singleton, ?elem_of_list_to_set.
        tauto.
      * by rewrite <- !app_assoc.
Qed.

Lemma kw_set_src_to_dvr_ext st st' :
  dvr_mac_address st' = dvr_mac_address st → int_ofports st' = int_ofports st →
  kw_set_src_to_dvr st' = kw_set_src_to_dvr st.
Proof. intros Hm Hp. unfold kw_set_src_to_dvr. by rewrite Hm, Hp. Qed.

(** [setup_dvr_flows_on_integ_tun_br] up to the call for the roster,
    with bridges that accept the calls. *)
Lemma setup_dvr_flows_on_integ_tun_br_head env st :
  budget st = None →
  ∃ st', budget st' = None
    ∧ host st' = host st
    ∧ sync_interval st' = sync_interval st
    ∧ int_ofports st' = int_ofports st
    ∧ dvr_mac_address st' = get_dvr_mac_address_by_host env (host st)
    ∧ registered_routers st' = ∅
    ∧ last_sync st' = 0
    ∧ registered_dvr_macs st' = ∅
    ∧ flow_log st'
      = flow_log st
        ++ (if truthy (dvr_mac_address st')
            then [(int_br, add_flow (kw_set_src_to_dvr st'))] else [])
    ∧ setup_dvr_flows_on_integ_tun_br env st
      = match get_dvr_mac_address_list env with
        | None => (Raise RpcError, st')
        | Some dvr_macs =>
            (forM_ dvr_macs (λ mac,
               self ← get;
               if bool_decide (Some (mac_address mac) = dvr_mac_address self)
                  || bool_decide (Some (mac_host mac) = host self)
               then mret tt
               else add_foreign_mac_flows (mac_address mac));;
             emit int_br (add_flow kw_normal)) st'
        end.
Proof.
  intros Hb. unfold setup_dvr_flows_on_integ_tun_br.
  rewrite !run_modify_bind.
  set (st0 := set_registered_routers ∅ (set_last_sync 0
                (set_registered_dvr_macs ∅ (set_dvr_mac_address None st)))).
  set (st1 := set_dvr_mac_address (get_dvr_mac_address_by_host env (host st)) st0).
  assert (_get_dvr_mac_address env st0 = (Ok tt, st1)) as Hget.
  { unfold _get_dvr_mac_address. rewrite run_get_bind. subst st1. cbn [host st0].
    replace (host st0) with (host st) by done.
    by destruct (get_dvr_mac_address_by_host env (host st)). }
  rewrite run_bind, Hget. cbv beta iota.
  set (ops1 := if truthy (dvr_mac_address st1)
               then [(int_br, add_flow (kw_set_src_to_dvr st1))] else []).
  set (st2 := set_flow_log (flow_log st1 ++ ops1) st1).
  assert (_set_src_to_dvr st1 = (Ok tt, st2)) as Hsrc.
  { unfold _set_src_to_dvr. rewrite run_get_bind. subst st2 ops1.
    destruct (truthy (dvr_mac_address st1)).
    - by rewrite emit_healthy.
    - rewrite run_ret, app_nil_r. by destruct st. }
  rewrite run_bind, Hsrc. cbv beta iota.
  exists st2.
  split; [done|]. split; [done|]. split; [done|]. split; [done|].
  split; [done|]. split; [done|]. split; [done|]. split; [done|].
  split; [done|]. by destruct (get_dvr_mac_address_list env).
Qed.

(** [setup_dvr_flows_on_integ_tun_br] with bridges that accept the
    calls, when the plugin answers the call for the roster. *)
Lemma setup_dvr_flows_on_integ_tun_br_healthy env st roster :
  budget st = None →
  get_dvr_mac_address_list env = Some roster →
  ∃ st', setup_dvr_flows_on_integ_tun_br env st = (Ok tt, st')
    ∧ budget st' = None
    ∧ host st' = host st
    ∧ sync_interval st' = sync_interval st
    ∧ int_ofports st' = int_ofports st
    ∧ dvr_mac_address st' = get_dvr_mac_address_by_host env (host st)
    ∧ registered_routers st' = ∅
    ∧ last_sync st' = 0
    ∧ registered_dvr_macs st' = list_to_set (foreign_macs st' roster)
    ∧ flow_log st'
      = flow_log st
        ++ (if truthy (dvr_mac_address st')
            then [(int_br, add_flow (kw_set_src_to_dvr st'))] else [])
        ++ (foreign_macs st' roster ≫= add_foreign_mac_ops)
        ++ [(int_br, add_flow kw_normal)].
Proof.
  intros Hb Hroster.
  destruct (setup_dvr_flows_on_integ_tun_br_head env st Hb)
    as (st2 & Hb2 & Hh & Hi & Hp & Hm & Hr & Hl & Hreg & Hlog & ->).
  rewrite Hroster, run_bind, setup_roster_loop by done. cbv beta iota.
  rewrite emit_healthy by done.
  eexists. split; [reflexivity|].
  split; [done|]. split; [done|]. split; [done|]. split; [done|].
  split; [done|]. split; [done|]. split; [done|].
  change (foreign_macs (set_flow_log ?a (set_registered_dvr_macs ?b (set_flow_log ?c st2)))
                       roster)
    with (foreign_macs st2 roster).
  split.
  - cbn. by rewrite Hreg, (right_id_L ∅ (∪)).
  - cbn. rewrite Hlog. cbn. by rewrite <- !app_assoc.
Qed.

(** *** The registered MACs follow the accepted flow operations *)

Global Instance roster_step_preorder : PreOrder roster_step.
Proof.
  split.
  - intros st. repeat split. exists []. rewrite app_nil_r.
    split; [done|]. split; [constructor|]. split; intros m Hm; by left.
  - intros a b c (?&?&?&?&?&?&?&ops1&Hl1&Hi1&Ha1&Hd1)
                 (?&?&?&?&?&?&?&ops2&Hl2&Hi2&Ha2&Hd2).
    repeat split; try congruence.
    exists (ops1 ++ ops2). split; [by rewrite Hl2, Hl1, app_assoc|].
    split; [by apply Forall_app|]. split.
    + intros m Hm. destruct (Ha2 m Hm) as [Hb|[? ?]].
      * destruct (Ha1 m Hb) as [?|[? ?]]; [by left|].
        right. split; apply elem_of_app; by left.
      * right. split; apply elem_of_app; by right.
    + intros m Hm. destruct (Hd1 m Hm) as [Hb|[? ?]].
      * destruct (Hd2 m Hb) as [?|[? ?]]; [by left|].
        right. split; apply elem_of_app; by right.
      * right. split; apply elem_of_app; by left.
Qed.

Lemma roster_step_log st ops b :
  Forall (λ x, x.1 = int_br) ops →
  roster_step st (set_budget b (set_flow_log (flow_log st ++ ops) st)).
Proof.
  intros Hops. repeat split. exists ops.
  split; [done|]. split; [done|]. split; intros m Hm; by left.
Qed.

Lemma roster_step_del st m b :
  roster_step st (set_registered_dvr_macs (registered_dvr_macs st ∖ {[m]})
                    (set_budget b (set_flow_log (flow_log st ++ del_foreign_mac_ops m) st))).
Proof.
  repeat split. exists (del_foreign_mac_ops m).
  split; [done|]. split; [by repeat constructor|]. split.
  - intros m' Hm. left. cbn in Hm. by apply elem_of_difference in Hm as [? _].
  - intros m' Hm. destruct (decide (m' = m)) as [->|Hne].
    + right. unfold del_foreign_mac_ops. split; [by left|]. right. by left.
    + left. cbn. apply elem_of_difference. split; [done|].
      by rewrite elem_of_singleton.
Qed.

Lemma roster_step_add st m b :
  roster_step st (set_registered_dvr_macs ({[m]} ∪ registered_dvr_macs st)
                    (set_budget b (set_flow_log (flow_log st ++ add_foreign_mac_ops m) st))).
Proof.
  repeat split. exists (add_foreign_mac_ops m).
  split; [done|]. split; [by repeat constructor|]. split.
  - intros m' Hm. cbn in Hm. apply elem_of_union in Hm as [->%elem_of_singleton|?].
    + right. unfold add_foreign_mac_ops. split; [by left|]. right. by left.
    + by left.
  - intros m' Hm. left. cbn. apply elem_of_union. by right.
Qed.

Lemma del_foreign_mac_flows_step m : steps roster_step (del_foreign_mac_flows m).
Proof.
  intros st. unfold del_foreign_mac_flows. rewrite !run_bind. unfold emit at 1.
  destruct (budget st) as [[|k]|] eqn:E; [reflexivity| |].
  - rewrite run_bind. unfold emit. cbn [budget set_budget set_flow_log]. destruct k as [|k].
    + cbn [snd]. apply (roster_step_log st [_] (Some 0%nat)). by repeat constructor.
    + cbn [snd modify].
      replace (set_registered_dvr_macs _ _) with
        (set_registered_dvr_macs (registered_dvr_macs st ∖ {[m]})
           (set_budget (Some k) (set_flow_log (flow_log st ++ del_foreign_mac_ops m) st)));
        [apply roster_step_del|].
      unfold set_registered_dvr_macs, set_budget, set_flow_log. cbn.
      by rewrite <- app_assoc.
  - rewrite run_bind. unfold emit. cbn [budget set_budget set_flow_log]. rewrite E.
    cbn [snd modify].
    replace (set_registered_dvr_macs _ _) with
      (set_registered_dvr_macs (registered_dvr_macs st ∖ {[m]})
         (set_budget None (set_flow_log (flow_log st ++ del_foreign_mac_ops m) st)));
      [apply roster_step_del|].
    unfold set_registered_dvr_macs, set_budget, set_flow_log. cbn.
    by rewrite <- app_assoc, E.
Qed.

Lemma add_foreign_mac_flows_step m : steps roster_step (add_foreign_mac_flows m).
Proof.
  intros st. unfold add_foreign_mac_flows. rewrite !run_bind. unfold emit at 1.
  destruct (budget st) as [[|k]|] eqn:E; [reflexivity| |].
  - rewrite run_bind. unfold emit. cbn [budget set_budget set_flow_log]. destruct k as [|k].
    + cbn [snd]. apply (roster_step_log st [_] (Some 0%nat)). by repeat constructor.
    + cbn [snd modify].
      replace (set_registered_dvr_macs _ _) with
        (set_registered_dvr_macs ({[m]} ∪ registered_dvr_macs st)
           (set_budget (Some k) (set_flow_log (flow_log st ++ add_foreign_mac_ops m) st)));
        [apply roster_step_add|].
      unfold set_registered_dvr_macs, set_budget, set_flow_log. cbn.
      by rewrite <- app_assoc.
  - rewrite run_bind. unfold emit. cbn [budget set_budget set_flow_log]. rewrite E.
    cbn [snd modify].
    replace (set_registered_dvr_macs _ _) with
      (set_registered_dvr_macs ({[m]} ∪ registered_dvr_macs st)
         (set_budget None (set_flow_log (flow_log st ++ add_foreign_mac_ops m) st)));
      [apply roster_step_add|].
    unfold set_registered_dvr_macs, set_budget, set_flow_log. cbn.
    by rewrite <- app_assoc, E.
Qed.

Lemma dvr_mac_address_update_step dvr_macs :
  steps roster_step (dvr_mac_address_update dvr_macs).
Proof.
  unfold dvr_mac_address_update. apply steps_get_bind. intros st.
  destruct (negb _); [reflexivity|]. case_bool_decide; [reflexivity|].
  apply steps_bind; [apply _| |].
  - apply steps_forM; [apply _|]. intros m _. apply del_foreign_mac_flows_step.
  - intros _. apply steps_forM; [apply _|]. intros m _. apply add_foreign_mac_flows_step.
Qed.

Lemma dvr_host_macs_of_ext st st' (dvr_macs : list DvrMac) :
  host st' = host st → dvr_mac_address st' = dvr_mac_address st →
  dvr_host_macs_of st' dvr_macs = dvr_host_macs_of st dvr_macs.
Proof.
  intros Hh Hm. by rewrite !dvr_host_macs_of_foreign_macs, (foreign_macs_ext st).
Qed.

(** [dvr_mac_address_update] with bridges that accept the calls. *)
Lemma dvr_mac_address_update_healthy (dvr_macs : list DvrMac) st :
  budget st = None →
  ∃ st', dvr_mac_address_update dvr_macs st = (Ok tt, st')
    ∧ budget st' = None
    ∧ (truthy (dvr_mac_address st) = true →
       registered_dvr_macs st' = dvr_host_macs_of st dvr_macs).
Proof.
  intros Hb. unfold dvr_mac_address_update. rewrite run_get_bind.
  destruct (truthy (dvr_mac_address st)); cbn [negb].
  2:{ exists st. by rewrite run_ret. }
  set (desired := dvr_host_macs_of st dvr_macs).
  case_bool_decide as Heq.
  { exists st. rewrite run_ret. split; [done|]. split; [done|]. by intros _. }
  rewrite run_bind.
  destruct (del_foreign_mac_loop (elements (registered_dvr_macs st ∖ desired)) st Hb)
    as (st1 & -> & Hb1 & Hl1 & Hr1).
  destruct (add_foreign_mac_loop (elements (desired ∖ registered_dvr_macs st)) st1 Hb1)
    as (st2 & -> & Hb2 & Hl2 & Hr2).
  exists st2. split; [done|]. split; [done|]. intros _.
  rewrite Hr2, Hr1, !list_to_set_elements_L. apply set_eq. intros x.
  rewrite elem_of_union, !elem_of_difference.
  destruct (decide (x ∈ desired)); destruct (decide (x ∈ registered_dvr_macs st)); tauto.
Qed.

(** A call of [dvr_mac_address_update] that finds the registered MACs up
    to date. *)
Lemma dvr_mac_address_update_up_to_date (dvr_macs : list DvrMac) st :
  (truthy (dvr_mac_address st) = true →
   registered_dvr_macs st = dvr_host_macs_of st dvr_macs) →
  dvr_mac_address_update dvr_macs st = (Ok tt, st).
Proof.
  intros Hreg. unfold dvr_mac_address_update. rewrite run_get_bind.
  destruct (truthy (dvr_mac_address st)); cbn [negb]; [|done].
  by rewrite bool_decide_eq_true_2 by (symmetry; by apply Hreg).
Qed.

(** X1.  [setup_dvr_flows_on_integ_tun_br] with bridges that accept the
    calls, whatever the agent held before.  The DVR MAC of the host is the
    answer of the plugin, unset when the plugin raises; the registry of
    routers is empty and [last_sync] is 0; the rule carrying the own MAC
    is installed first, when that MAC is set.  Then the roster is asked
    for, outside any [try].  When the plugin answers, the call returns;
    the registered MACs are those of the roster entries of other hosts
    that differ from the own MAC; the resubmit and the drop rule of each
    roster entry that is not skipped are installed in the order of the
    roster, and last the fallback rule of table 1.  When the call for the
    roster raises, the error leaves the routine: no MAC is registered and
    nothing but the rule of the own MAC was installed, so the fallback
    rule is missing. *)
Theorem setup_dvr_flows_on_integ_tun_br_fresh env st :
  budget st = None →
  let r := setup_dvr_flows_on_integ_tun_br env st in
  let self_mac_ops :=
    if truthy (dvr_mac_address r.2)
    then [(int_br, add_flow (kw_set_src_to_dvr r.2))] else [] in
  dvr_mac_address r.2 = get_dvr_mac_address_by_host env (host st)
  ∧ registered_routers r.2 = ∅
  ∧ last_sync r.2 = 0
  ∧ match get_dvr_mac_address_list env with
    | Some roster =>
        r.1 = Ok tt
        ∧ (∀ m, m ∈ registered_dvr_macs r.2
                ↔ ∃ e, e ∈ roster ∧ mac_address e = m
                       ∧ Some (mac_host e) ≠ host st
                       ∧ Some (mac_address e) ≠ dvr_mac_address r.2)
        ∧ issued st r.2
          = self_mac_ops
            ++ (foreign_macs r.2 roster ≫= add_foreign_mac_ops)
            ++ [(int_br, add_flow kw_normal)]
    | None =>
        r.1 = Raise RpcError
        ∧ registered_dvr_macs r.2 = ∅
        ∧ issued st r.2 = self_mac_ops
    end.
Proof.
  intros Hb. cbn zeta.
  destruct (get_dvr_mac_address_list env) as [roster|] eqn:Hroster.
  - destruct (setup_dvr_flows_on_integ_tun_br_healthy env st roster Hb Hroster)
      as (st' & -> & Hb' & Hh & Hi & Hp & Hm & Hr & Hl & Hreg & Hlog).
    cbn [fst snd]. split; [done|]. split; [done|]. split; [done|]. split; [done|].
    split.
    + intros m. rewrite Hreg, <- dvr_host_macs_of_foreign_macs, elem_of_dvr_host_macs_of.
      by rewrite Hh.
    + by apply issued_app.
  - destruct (setup_dvr_flows_on_integ_tun_br_head env st Hb)
      as (st' & Hb' & Hh & Hi & Hp & Hm & Hr & Hl & Hreg & Hlog & ->).
    rewrite Hroster. cbn [fst snd].
    split; [done|]. split; [done|]. split; [done|]. split; [done|].
    split; [done|]. by apply issued_app.
Qed.

Lemma setup_dvr_flows_on_integ_tun_br_fresh_witness :
  let r := setup_dvr_flows_on_integ_tun_br Scenario.env_roster Scenario.synced in
  let r' := setup_dvr_flows_on_integ_tun_br Scenario.env_roster_raises Scenario.synced in
  (r.1 = Ok tt
   ∧ dvr_mac_address r.2 = Some Scenario.self_mac
   ∧ registered_routers r.2 = ∅
   ∧ registered_dvr_macs r.2 = {[ "fa:16:3f:00:00:02" ]}
   ∧ issued Scenario.synced r.2
     = [(int_br, add_flow (kw_set_src_to_dvr r.2));
        (int_br, add_flow (kw_add_resubmit "fa:16:3f:00:00:02"));
        (int_br, add_flow (kw_add_drop "fa:16:3f:00:00:02"));
        (int_br, add_flow kw_normal)])
  ∧ (r'.1 = Raise RpcError
     ∧ registered_dvr_macs r'.2 = ∅
     ∧ issued Scenario.synced r'.2 = [(int_br, add_flow (kw_set_src_to_dvr r'.2))]).
Proof.
  cbn zeta. split.
  - destruct (setup_dvr_flows_on_integ_tun_br_fresh Scenario.env_roster Scenario.synced)
      as (H1 & H2 & _ & H4 & _ & H6); [by vm_compute|].
    split; [exact H4|]. split; [exact H1|]. split; [exact H2|].
    split; [by vm_compute|]. rewrite H6. by vm_compute.
  - destruct (setup_dvr_flows_on_integ_tun_br_fresh Scenario.env_roster_raises
                Scenario.synced) as (_ & _ & _ & H4 & H5 & H6); [by vm_compute|].
    split; [exact H4|]. split; [exact H5|]. rewrite H6. by vm_compute.
Defined.

(** X2.  After a [setup_dvr_flows_on_integ_tun_br] that obtained the
    roster, a call of [dvr_mac_address_update] with the roster that the
    setup read changes nothing and issues no flow operation (bridges that
    accept the calls). *)
Theorem dvr_mac_address_update_after_setup env st roster :
  budget st = None →
  get_dvr_mac_address_list env = Some roster →
  let st1 := (setup_dvr_flows_on_integ_tun_br env st).2 in
  dvr_mac_address_update roster st1 = (Ok tt, st1).
Proof.
  intros Hb Hroster. cbn zeta.
  destruct (setup_dvr_flows_on_integ_tun_br_healthy env st roster Hb Hroster)
    as (st' & -> & Hb' & Hh & Hi & Hp & Hm & Hr & Hl & Hreg & Hlog).
  cbn [snd]. apply dvr_mac_address_update_up_to_date. intros _.
  by rewrite dvr_host_macs_of_foreign_macs.
Qed.

Lemma dvr_mac_address_update_after_setup_witness :
  let st1 := (setup_dvr_flows_on_integ_tun_br Scenario.env_roster Scenario.synced).2 in
  dvr_mac_address_update Scenario.roster st1 = (Ok tt, st1).
Proof.
  exact (dvr_mac_address_update_after_setup Scenario.env_roster Scenario.synced
           Scenario.roster eq_refl eq_refl).
Defined.

(** X3.  [dvr_mac_address_update] is idempotent: with bridges that accept
    the calls, a second call with the same roster changes nothing and
    issues no flow operation, whether or not the DVR MAC of this host is
    set. *)
Theorem dvr_mac_address_update_idempotent (dvr_macs : list DvrMac) st :
  budget st = None →
  let st1 := (dvr_mac_address_update dvr_macs st).2 in
  (dvr_mac_address_update dvr_macs st).1 = Ok tt
  ∧ dvr_mac_address_update dvr_macs st1 = (Ok tt, st1).
Proof.
  intros Hb. cbn zeta.
  pose proof (dvr_mac_address_update_step dvr_macs st) as (Hh & _ & _ & Hm & _).
  destruct (dvr_mac_address_update_healthy dvr_macs st Hb) as (st' & Hrun & Hb' & Hreg).
  rewrite Hrun in *. cbn [fst snd] in *. split; [done|].
  apply dvr_mac_address_update_up_to_date. rewrite Hm. intros Ht.
  by rewrite (dvr_host_macs_of_ext st), Hreg.
Qed.

Lemma dvr_mac_address_update_idempotent_witness :
  let st1 := (dvr_mac_address_update Scenario.roster Scenario.synced).2 in
  (dvr_mac_address_update Scenario.roster Scenario.synced).1 = Ok tt
  ∧ dvr_mac_address_update Scenario.roster st1 = (Ok tt, st1).
Proof.
  exact (dvr_mac_address_update_idempotent Scenario.roster Scenario.synced eq_refl).
Defined.

(** X4.  Whatever the bridges accept, so also when a bridge call raises
    in the middle, [dvr_mac_address_update] keeps the registered MACs in
    step with the flow operations that were accepted: a MAC that entered
    the registered set had both of its rules installed, a MAC that left it
    had the removal of both issued.  The call touches the integration
    bridge only and leaves the DVR MAC of this host, the registry of
    routers and [last_sync] as they were. *)
Theorem dvr_mac_address_update_follows_flows (dvr_macs : list DvrMac) st :
  let st' := (dvr_mac_address_update dvr_macs st).2 in
  dvr_mac_address st' = dvr_mac_address st
  ∧ registered_routers st' = registered_routers st
  ∧ last_sync st' = last_sync st
  ∧ flow_log st' = flow_log st ++ issued st st'
  ∧ Forall (λ x, x.1 = int_br) (issued st st')
  ∧ (∀ m, m ∈ registered_dvr_macs st' →
          m ∈ registered_dvr_macs st
          ∨ ((int_br, add_flow (kw_add_resubmit m)) ∈ issued st st'
             ∧ (int_br, add_flow (kw_add_drop m)) ∈ issued st st'))
  ∧ (∀ m, m ∈ registered_dvr_macs st →
          m ∈ registered_dvr_macs st'
          ∨ ((int_br, delete_flows (kw_del_resubmit m)) ∈ issued st st'
             ∧ (int_br, delete_flows (kw_del_drop m)) ∈ issued st st')).
Proof.
  cbn zeta.
  destruct (dvr_mac_address_update_step dvr_macs st)
    as (_ & _ & _ & Hm & Hr & Hl & _ & ops & Hlog & Hint & Hadd & Hdel).
  rewrite (issued_app _ _ _ Hlog). done.
Qed.

(** X5.  With bridges that accept the calls, [dvr_mac_address_update]
    depends on the roster only through the set of its entries: for two
    rosters with the same entries, in whatever order and however often
    repeated, both calls return, leave the same registered MACs and issue
    the same flow operations up to their order. *)
Theorem dvr_mac_address_update_roster_set (l l' : list DvrMac) st :
  budget st = None →
  (∀ e, e ∈ l ↔ e ∈ l') →
  let r := dvr_mac_address_update l st in
  let r' := dvr_mac_address_update l' st in
  r.1 = Ok tt
  ∧ r'.1 = Ok tt
  ∧ registered_dvr_macs r.2 = registered_dvr_macs r'.2
  ∧ issued st r.2 ≡ₚ issued st r'.2.
Proof.
  intros Hb Hl. cbn zeta.
  assert (dvr_host_macs_of st l = dvr_host_macs_of st l') as Heq.
  { apply set_eq. intros m. rewrite !elem_of_dvr_host_macs_of.
    split; intros (e & He & ?); exists e; (split; [by apply Hl|done]). }
  assert (dvr_mac_address_update l st = dvr_mac_address_update l' st) as Hrun.
  { unfold dvr_mac_address_update. rewrite !run_get_bind. by rewrite Heq. }
  rewrite <- Hrun.
  destruct (dvr_mac_address_update_healthy l st Hb) as (st' & -> & _).
  done.
Qed.

Lemma dvr_mac_address_update_roster_set_witness :
  let r := dvr_mac_address_update Scenario.roster_changed Scenario.agent_with_roster in
  let r' := dvr_mac_address_update
              (reverse Scenario.roster_changed ++ Scenario.roster_changed)
              Scenario.agent_with_roster in
  r.1 = Ok tt
  ∧ r'.1 = Ok tt
  ∧ registered_dvr_macs r.2 = registered_dvr_macs r'.2
  ∧ issued Scenario.agent_with_roster r.2 ≡ₚ issued Scenario.agent_with_roster r'.2.
Proof.
  apply dvr_mac_address_update_roster_set; [by vm_compute|]. intros e.
  unfold Scenario.roster_changed. cbn.
  rewrite !elem_of_cons, elem_of_nil. tauto.
Defined.

Lemma emit_roster_step op : steps roster_step (emit int_br op).
Proof.
  intros st. unfold emit. destruct (budget st) as [[|k]|] eqn:E; [reflexivity| |].
  - apply (roster_step_log st [_] (Some k)). by repeat constructor.
  - repeat split. exists [(int_br, op)].
    split; [done|]. split; [by repeat constructor|]. split; intros m Hm; by left.
Qed.

(** X6.  Whatever the bridges accept, so also when a bridge call raises
    in the middle, [setup_dvr_flows_on_integ_tun_br] leaves an empty
    registry of routers and [last_sync] at 0, touches the integration
    bridge only, and registers a MAC of another host only after both of
    its rules were installed. *)
Theorem setup_dvr_flows_on_integ_tun_br_follows_flows env st :
  let st' := (setup_dvr_flows_on_integ_tun_br env st).2 in
  registered_routers st' = ∅
  ∧ last_sync st' = 0
  ∧ dvr_mac_address st' = get_dvr_mac_address_by_host env (host st)
  ∧ flow_log st' = flow_log st ++ issued st st'
  ∧ Forall (λ x, x.1 = int_br) (issued st st')
  ∧ (∀ m, m ∈ registered_dvr_macs st' →
          (int_br, add_flow (kw_add_resubmit m)) ∈ issued st st'
          ∧ (int_br, add_flow (kw_add_drop m)) ∈ issued st st').
Proof.
  cbn zeta. unfold setup_dvr_flows_on_integ_tun_br.
  rewrite !run_modify_bind.
  set (st0 := set_registered_routers ∅ (set_last_sync 0
                (set_registered_dvr_macs ∅ (set_dvr_mac_address None st)))).
  set (st1 := set_dvr_mac_address (get_dvr_mac_address_by_host env (host st)) st0).
  assert (_get_dvr_mac_address env st0 = (Ok tt, st1)) as Hget.
  { unfold _get_dvr_mac_address. rewrite run_get_bind. subst st1.
    replace (host st0) with (host st) by done.
    by destruct (get_dvr_mac_address_by_host env (host st)). }
  rewrite run_bind, Hget. cbv beta iota.
  match goal with |- context [(?m st1).2] => set (rest := m) end.
  assert (steps roster_step rest) as Hrest.
  { subst rest. apply steps_bind; [apply _| |].
    { unfold _set_src_to_dvr. apply steps_get_bind. intros s.
      destruct (truthy _); [apply emit_roster_step|reflexivity]. }
    intros _. destruct (get_dvr_mac_address_list env) as [dvr_macs|];
      [|apply steps_raise; apply _].
    apply steps_bind; [apply _| |].
    { apply steps_forM; [apply _|]. intros e _. apply steps_get_bind. intros s.
      destruct (_ || _); [reflexivity|apply add_foreign_mac_flows_step]. }
    intros _. apply emit_roster_step. }
  destruct (Hrest st1) as (_ & _ & _ & Hm & Hr & Hl & _ & ops & Hlog & Hint & Hadd & _).
  assert (flow_log (rest st1).2 = flow_log st ++ ops) as Hlog' by exact Hlog.
  rewrite (issued_app _ _ _ Hlog').
  split; [by rewrite Hr|]. split; [by rewrite Hl|]. split; [by rewrite Hm|].
  split; [done|]. split; [done|].
  intros m Hin. destruct (Hadd m Hin) as [Hno|?]; [|done].
  cbn in Hno. by apply elem_of_empty in Hno.
Qed.

(** ** The bridge that the diff writes to *)

Ltac trace_forall :=
  unfold trace_ok;
  repeat first
    [ apply Forall_nil_2
    | apply Forall_app; split
    | apply Forall_cons; split
    | apply Forall_bind, Forall_forall; intros ? _; unfold compose; cbn beta
    | apply Forall_fmap, Forall_forall; intros ? _; unfold compose; cbn beta
    | reflexivity
    | exact I
    | match goal with
      | |- Forall _ (if ?b then _ else _) => destruct b
      | |- Forall _ (match ?o with Some _ => _ | None => _ end) => destruct o
      end ].

Lemma trace_dvr_added_int_br env h ms dvr_id new_dvr :
  trace_ok on_int_br (trace_dvr_added env h ms dvr_id new_dvr).
Proof.
  unfold trace_dvr_added, trace_subnet_added, trace_port_added,
    trace_add_flows_to_other_subnets, trace_add_flows_to_port,
    trace_add_flows_to_hosted_port.
  trace_forall.
Qed.

Lemma trace_dvr_deleted_int_br h deleted_dvr :
  trace_ok on_int_br (trace_dvr_deleted h deleted_dvr).
Proof.
  unfold trace_dvr_deleted, trace_subnet_deleted, trace_port_deleted,
    trace_del_flows_to_other_subnets, trace_del_flows_to_port,
    trace_del_flows_to_hosted_port.
  trace_forall.
Qed.

Lemma trace_dvr_updated_int_br env h ms dvr_id old_dvr new_dvr :
  trace_ok on_int_br (trace_dvr_updated env h ms dvr_id old_dvr new_dvr).
Proof.
  unfold trace_dvr_updated, trace_subnet_updated, trace_subnet_updated_port,
    trace_subnet_added, trace_subnet_deleted, trace_port_added, trace_port_deleted,
    trace_add_flows_to_other_subnets, trace_del_flows_to_other_subnets,
    trace_add_flows_to_port, trace_del_flows_to_port,
    trace_add_flows_to_hosted_port, trace_del_flows_to_hosted_port.
  trace_forall.
Qed.

(** ** The diff raises no [KeyError] and mirrors the fetched topology *)

Lemma erased_clear_port_host d s p (R : gmap string (gmap string Subnet)) :
  erased (clear_port_host d s p R) = erased R.
Proof.
  apply map_eq. intros k. unfold erased. rewrite !lookup_fmap.
  apply erase_clear_port_host.
Qed.

Lemma tracks_bind (m k : M unit) F1 F2 st :
  tracks F1 st (m st) →
  (∀ st1, m st = (Ok tt, st1) → tracks F2 st1 (k st1)) →
  tracks (F2 ∘ F1) st ((m;; k) st).
Proof.
  intros Hm Hk. rewrite run_bind. unfold tracks in *.
  destruct (m st) as [[[]|[]] st1]; cbn [fst snd] in *; [|done..].
  destruct Hm as [Hr Hb]. specialize (Hk st1 eq_refl).
  destruct (k st1) as [[[]|[]] st2]; cbn [fst snd] in *; [|done| |done].
  - destruct Hk as [Hr2 Hb2]. split; [by rewrite Hr2, Hr|]. auto.
  - intros Hn. by apply Hk, Hb.
Qed.

Lemma tracks_ext F G st r :
  F (erased (registered_routers st)) = G (erased (registered_routers st)) →
  tracks F st r → tracks G st r.
Proof.
  intros Heq. unfold tracks. destruct r as [[[]|[]] st1]; cbn [fst snd]; [|done..].
  by rewrite Heq.
Qed.

Lemma tracks_ret st : tracks id st (Ok tt, st).
Proof. by split. Qed.

Lemma emit_tracks br op st : tracks id st (emit br op st).
Proof.
  unfold emit, tracks. by destruct (budget st) as [[|k]|] eqn:E.
Qed.

Lemma do_event_tracks e st : tracks id st (do_event e st).
Proof.
  destruct e as [br op|d s p]; [apply emit_tracks|].
  split; [|done]. cbn. apply erased_clear_port_host.
Qed.

Lemma replay_tracks evs st : tracks id st (replay evs st).
Proof.
  revert st. induction evs as [|e evs IH]; intros st; [apply tracks_ret|].
  apply (tracks_bind (do_event e) (replay evs) id id); [apply do_event_tracks|].
  intros st1 _. apply IH.
Qed.

Lemma replay_tracks_from evs X st :
  tracks (λ _, erased X) st (replay evs (set_registered_routers X st)).
Proof.
  pose proof (replay_tracks evs (set_registered_routers X st)) as H.
  unfold tracks in *. by destruct (replay evs _) as [[[]|[]] st1].
Qed.

Lemma _dvr_added_tracks env dvr_id new_dvr st :
  tracks (insert dvr_id (erase_hosts new_dvr)) st (_dvr_added env dvr_id new_dvr st).
Proof.
  rewrite _dvr_added_run. eapply tracks_ext; [|apply replay_tracks_from].
  unfold erased. by rewrite fmap_insert.
Qed.

Lemma _dvr_updated_tracks env dvr_id new_dvr st :
  is_Some (registered_routers st !! dvr_id) →
  tracks (insert dvr_id (erase_hosts new_dvr)) st (_dvr_updated env dvr_id new_dvr st).
Proof.
  intros [old Hold]. rewrite (_dvr_updated_run _ _ _ _ _ Hold).
  eapply tracks_ext; [|apply replay_tracks_from].
  unfold erased. by rewrite fmap_insert.
Qed.

Lemma _dvr_deleted_tracks dvr_id st :
  is_Some (registered_routers st !! dvr_id) →
  tracks (delete dvr_id) st (_dvr_deleted dvr_id st).
Proof.
  intros [old Hold]. rewrite (_dvr_deleted_run _ _ _ Hold).
  eapply tracks_ext; [|apply replay_tracks_from].
  unfold erased. by rewrite fmap_delete.
Qed.

Lemma is_Some_erased (R : gmap string (gmap string Subnet)) d :
  is_Some (erased R !! d) ↔ is_Some (R !! d).
Proof. unfold erased. by rewrite lookup_fmap, fmap_is_Some. Qed.

Lemma delete_loop_tracks (l : list string) st :
  NoDup l →
  (∀ d, d ∈ l → is_Some (registered_routers st !! d)) →
  tracks (λ R, foldl (λ acc d, delete d acc) R l) st (forM_ l _dvr_deleted st).
Proof.
  revert st. induction l as [|d l IH]; intros st Hnd Hl; [apply tracks_ret|].
  apply NoDup_cons in Hnd as [Hd Hnd]. cbn [forM_ foldl].
  apply (tracks_bind (_dvr_deleted d) (forM_ l _dvr_deleted) (delete d)
           (λ R, foldl (λ acc d, delete d acc) R l)).
  { apply _dvr_deleted_tracks, Hl. by left. }
  intros st1 Hrun. apply IH; [done|]. intros d' Hd'.
  pose proof (_dvr_deleted_tracks d st (Hl d (list_elem_of_here _ _))) as Ht.
  rewrite Hrun in Ht. destruct Ht as [Ht _]. cbn [snd] in Ht.
  apply is_Some_erased. rewrite Ht, lookup_delete_ne by (by intros ->).
  apply is_Some_erased, Hl. by right.
Qed.

Lemma update_loop_tracks env (T : gmap string (gmap string Subnet)) (l : list string) st :
  (∀ d, d ∈ l → is_Some (registered_routers st !! d)) →
  tracks (λ R, foldl (λ acc d, <[d := erase_hosts (T !!! d)]> acc) R l) st
         (forM_ l (λ d, _dvr_updated env d (T !!! d)) st).
Proof.
  revert st. induction l as [|d l IH]; intros st Hl; [apply tracks_ret|].
  cbn [forM_ foldl].
  apply (tracks_bind (_dvr_updated env d (T !!! d))
           (forM_ l (λ d, _dvr_updated env d (T !!! d)))
           (insert d (erase_hosts (T !!! d)))
           (λ R, foldl (λ acc d, <[d := erase_hosts (T !!! d)]> acc) R l)).
  { apply _dvr_updated_tracks, Hl. by left. }
  intros st1 Hrun. apply IH. intros d' Hd'.
  pose proof (_dvr_updated_tracks env d (T !!! d) st (Hl d (list_elem_of_here _ _))) as Ht.
  rewrite Hrun in Ht. destruct Ht as [Ht _]. cbn [snd] in Ht.
  apply is_Some_erased. rewrite Ht.
  destruct (decide (d' = d)) as [->|Hne].
  - by rewrite lookup_insert_eq.
  - rewrite lookup_insert_ne by done. apply is_Some_erased, Hl. by right.
Qed.

Lemma add_loop_tracks env (l : list (string * gmap string Subnet)) st :
  tracks (λ R, foldl (λ acc x, <[x.1 := erase_hosts x.2]> acc) R l) st
         (forM_ l (λ '(dvr_id, new_dvr), _dvr_added env dvr_id new_dvr) st).
Proof.
  revert st. induction l as [|[d new] l IH]; intros st; [apply tracks_ret|].
  cbn [forM_ foldl fst snd].
  apply (tracks_bind (_dvr_added env d new)
           (forM_ l (λ '(dvr_id, new_dvr), _dvr_added env dvr_id new_dvr))
           (insert d (erase_hosts new))
           (λ R, foldl (λ acc x, <[x.1 := erase_hosts x.2]> acc) R l)).
  { apply _dvr_added_tracks. }
  intros st1 _. apply IH.
Qed.

(** The three loops of [reconcile]. *)
Lemma reconcile_loops env (T : gmap string (gmap string Subnet)) st :
  reconcile env T st
  = (forM_ (elements (classify_registered (registered_routers st) T).1) _dvr_deleted;;
     forM_ (elements (classify_registered (registered_routers st) T).2)
           (λ d, _dvr_updated env d (T !!! d));;
     forM_ (map_to_list (T ∖ registered_routers st))
           (λ '(dvr_id, new_dvr), _dvr_added env dvr_id new_dvr);;
     modify (set_last_sync (time_at_end env))) st.
Proof.
  unfold reconcile. rewrite run_get_bind.
  pose proof (elem_of_dvrs_to_update (registered_routers st) T) as Hupd.
  pose proof (foldl_delete_updated (registered_routers st) T) as Hrest.
  destruct (classify_registered (registered_routers st) T) as [del upd].
  cbn [fst snd] in *.
  rewrite !(run_bind (forM_ (elements del) _dvr_deleted)).
  destruct (forM_ (elements del) _dvr_deleted st) as [[[]|e] st1]; [|done].
  rewrite run_bind, (update_loop_pops env T).
  2:{ apply NoDup_elements. }
  2:{ intros d Hd%elem_of_elements%Hupd. tauto. }
  rewrite !(run_bind (forM_ (elements upd) _)).
  destruct (forM_ (elements upd) _ st1) as [[[]|e] st2]; [|done].
  by rewrite run_ret, Hrest.
Qed.

Lemma lookup_foldl_insert_items_with {V W} (g : W → V) (m : gmap string V)
    (l : list (string * W)) k :
  NoDup l.*1 →
  foldl (λ acc x, <[x.1 := g x.2]> acc) m l !! k
  = match list_find (λ x, x.1 = k) l with
    | Some (_, x) => Some (g x.2)
    | None => m !! k
    end.
Proof.
  revert m. induction l as [|[k' v] l IH]; intros m Hnd; [done|].
  apply NoDup_cons in Hnd as [Hk Hnd]. cbn [foldl fst snd].
  rewrite IH by done. cbn [list_find]. cbn [fst].
  destruct (decide (k' = k)) as [->|Hne].
  - destruct (list_find (λ x, x.1 = k) l) as [[i x]|] eqn:E.
    + apply list_find_Some in E as (Hi & Hx & _). exfalso. apply Hk.
      apply list_elem_of_fmap. exists x. split; [done|]. by eapply list_elem_of_lookup_2.
    + cbn. apply lookup_insert_eq.
  - destruct (list_find (λ x, x.1 = k) l) as [[i x]|] eqn:E; cbn; [done|].
    by apply lookup_insert_ne.
Qed.

Lemma lookup_foldl_insert_map_with {V W} (g : W → V) (m : gmap string V)
    (M' : gmap string W) k :
  foldl (λ acc x, <[x.1 := g x.2]> acc) m (map_to_list M') !! k
  = match M' !! k with Some v => Some (g v) | None => m !! k end.
Proof.
  rewrite lookup_foldl_insert_items_with by apply NoDup_fst_map_to_list.
  destruct (list_find _ _) as [[i [k' v]]|] eqn:E.
  - apply list_find_Some in E as (Hi & Hx & _). cbn in Hx. subst k'.
    apply list_elem_of_lookup_2, elem_of_map_to_list in Hi. by rewrite Hi.
  - destruct (M' !! k) as [v|] eqn:Hk; [|done]. exfalso.
    apply list_find_None in E. eapply Forall_forall in E.
    2:{ apply elem_of_map_to_list. exact Hk. }
    by apply E.
Qed.

(** The registry after the three loops, up to hosts. *)
Lemma erased_after_reconcile (R T : gmap string (gmap string Subnet)) :
  foldl (λ acc x, <[x.1 := erase_hosts x.2]> acc)
        (foldl (λ acc d, <[d := erase_hosts (T !!! d)]> acc)
               (foldl (λ acc d, delete d acc) (erased R)
                      (elements (classify_registered R T).1))
               (elements (classify_registered R T).2))
        (map_to_list (T ∖ R))
  = erased T.
Proof.
  apply map_eq. intros k.
  rewrite lookup_foldl_insert_map_with, lookup_difference,
    lookup_foldl_insert_keys, lookup_foldl_delete_keys.
  unfold erased. rewrite !lookup_fmap.
  destruct (R !! k) as [r|] eqn:ER; destruct (T !! k) as [t|] eqn:ET; cbn.
  - rewrite decide_True; [by rewrite (lookup_total_correct _ _ _ ET)|].
    apply elem_of_elements, elem_of_dvrs_to_update. eauto.
  - rewrite decide_False.
    2:{ intros [_ [? ?]]%elem_of_elements%elem_of_dvrs_to_update. congruence. }
    rewrite decide_True; [done|].
    apply elem_of_elements, elem_of_dvrs_to_delete. eauto.
  - done.
  - rewrite decide_False.
    2:{ intros [[? ?] _]%elem_of_elements%elem_of_dvrs_to_update. congruence. }
    rewrite decide_False; [done|].
    intros [[? ?] _]%elem_of_elements%elem_of_dvrs_to_delete. congruence.
Qed.

Lemma reconcile_tracks env (T : gmap string (gmap string Subnet)) st :
  tracks (λ _, erased T) st (reconcile env T st).
Proof.
  rewrite reconcile_loops.
  set (R := registered_routers st).
  pose proof (elem_of_dvrs_to_delete R T) as Hdel.
  pose proof (elem_of_dvrs_to_update R T) as Hupd.
  set (Fdel := λ X : gmap string (gmap string Subnet),
         foldl (λ acc d, delete d acc) X (elements (classify_registered R T).1)).
  set (Fupd := λ X : gmap string (gmap string Subnet),
         foldl (λ acc d, <[d := erase_hosts (T !!! d)]> acc) X
               (elements (classify_registered R T).2)).
  set (Fadd := λ X : gmap string (gmap string Subnet),
         foldl (λ acc x, <[x.1 := erase_hosts x.2]> acc) X (map_to_list (T ∖ R))).
  apply (tracks_ext (((id ∘ Fadd) ∘ Fupd) ∘ Fdel) (λ _, erased T));
    [exact (erased_after_reconcile R T)|].
  change (tracks (((id ∘ Fadd) ∘ Fupd) ∘ Fdel) st
            ((forM_ (elements (classify_registered R T).1) _dvr_deleted;;
              (forM_ (elements (classify_registered R T).2)
                     (λ d, _dvr_updated env d (T !!! d));;
               (forM_ (map_to_list (T ∖ R))
                      (λ '(dvr_id, new_dvr), _dvr_added env dvr_id new_dvr);;
                modify (set_last_sync (time_at_end env))))) st)).
  apply tracks_bind.
  { apply delete_loop_tracks; [apply NoDup_elements|].
    intros d Hd%elem_of_elements%Hdel. tauto. }
  intros st1 Hrun1. apply tracks_bind.
  { apply update_loop_tracks. intros d Hd%elem_of_elements%Hupd.
    pose proof (delete_loop_tracks (elements (classify_registered R T).1) st
                  (NoDup_elements _)) as Ht.
    rewrite Hrun1 in Ht. destruct Ht as [Ht _].
    { intros d' Hd'%elem_of_elements%Hdel. tauto. }
    cbn [snd] in Ht. apply is_Some_erased.
    rewrite Ht, lookup_foldl_delete_keys, decide_False.
    - apply is_Some_erased. tauto.
    - intros [_ Hn]%elem_of_elements%Hdel. destruct Hd as [_ [? ?]]. congruence. }
  intros st2 _. apply tracks_bind; [apply add_loop_tracks|].
  intros st3 _. by split.
Qed.

Lemma tracks_no_key_error F st r :
  tracks F st r →
  no_key_error r.1 ∧ (budget st = None → r.1 = Ok tt ∧ budget r.2 = None).
Proof.
  unfold tracks. destruct r as [[[]|[]] st1]; cbn [fst snd]; [|done..].
  intros [_ Hb]. split; [done|]. auto.
Qed.

Lemma phys_brs_loop_tracks (l : list string) kw st :
  tracks id st (forM_ l (λ br, emit (phys_br br) (add_flow kw)) st).
Proof.
  revert st. induction l as [|br l IH]; intros st; [apply tracks_ret|].
  apply (tracks_bind (emit (phys_br br) (add_flow kw))
           (forM_ l (λ br, emit (phys_br br) (add_flow kw))) id id);
    [apply emit_tracks|].
  intros st1 _. apply IH.
Qed.

Lemma retry_dvr_mac_tracks env phy_brs st :
  tracks id st (retry_dvr_mac env phy_brs st).
Proof.
  unfold retry_dvr_mac.
  apply (tracks_bind (_get_dvr_mac_address env)
           (_set_src_to_dvr;; setup_dvr_flows_on_phys_brs phy_brs) id id).
  { unfold _get_dvr_mac_address. rewrite run_get_bind.
    destruct (get_dvr_mac_address_by_host env (host st)); by split. }
  intros st1 _.
  apply (tracks_bind _set_src_to_dvr (setup_dvr_flows_on_phys_brs phy_brs) id id).
  { unfold _set_src_to_dvr. rewrite run_get_bind.
    destruct (truthy _); [apply emit_tracks|apply tracks_ret]. }
  intros st2 _. unfold setup_dvr_flows_on_phys_brs. rewrite run_get_bind.
  destruct (negb _); [apply tracks_ret|apply phys_brs_loop_tracks].
Qed.

Lemma fetch_and_reconcile_tracks env st :
  ∃ F, tracks F st (fetch_and_reconcile env st).
Proof.
  unfold fetch_and_reconcile. destruct (throttled env st).
  { exists id. apply tracks_ret. }
  destruct (get_openflow_ew_dvrs env (host st)) as [T|].
  - exists (λ _, erased T). exact (reconcile_tracks env T (count_fetch st)).
  - exists id. by split.
Qed.

Lemma sync_dvr_ports_tracks env phy_brs st :
  ∃ F, tracks F st (sync_dvr_ports env phy_brs st).
Proof.
  rewrite sync_dvr_ports_run.
  destruct (truthy (dvr_mac_address st)); [apply fetch_and_reconcile_tracks|].
  pose proof (retry_dvr_mac_tracks env phy_brs st) as Hretry.
  destruct (retry_dvr_mac env phy_brs st) as [[[]|e] st1] eqn:E.
  - destruct (fetch_and_reconcile_tracks env st1) as [F HF].
    exists (F ∘ id).
    pose proof (tracks_bind (retry_dvr_mac env phy_brs)
                  (fetch_and_reconcile env) id F st) as Hb.
    rewrite run_bind, E in Hb. apply Hb; [exact Hretry|].
    by intros ? [= <-].
  - exists id. exact Hretry.
Qed.

(** X7.  [sync_dvr_ports] never raises a [KeyError]: every [pop] of the
    diff finds its key, whatever the registered and the fetched topology
    are and whatever the bridges accept.  The only error a sync can end
    with is the one a bridge call raises; with bridges that accept the
    calls it returns. *)
Theorem sync_dvr_ports_no_key_error env phy_brs st :
  let r := sync_dvr_ports env phy_brs st in
  no_key_error r.1
  ∧ (budget st = None → r.1 = Ok tt ∧ budget r.2 = None).
Proof.
  cbn zeta. destruct (sync_dvr_ports_tracks env phy_brs st) as [F HF].
  by eapply tracks_no_key_error.
Qed.

(** ** More on the sync entry point *)

Section DiffSteps.
Context (Q : Bridge * FlowOp → Prop).
Hypothesis Q_added : ∀ env h ms d new, trace_ok Q (trace_dvr_added env h ms d new).
Hypothesis Q_updated :
  ∀ env h ms d old new, trace_ok Q (trace_dvr_updated env h ms d old new).
Hypothesis Q_deleted : ∀ h old, trace_ok Q (trace_dvr_deleted h old).

Lemma set_registered_routers_evolves_any v st :
  evolves Q st (set_registered_routers v st).
Proof. repeat split. exists []. cbn. by rewrite app_nil_r. Qed.

Lemma _dvr_added_evolves env dvr_id new_dvr :
  steps (evolves Q) (_dvr_added env dvr_id new_dvr).
Proof.
  intros st. rewrite _dvr_added_run.
  etrans; [apply set_registered_routers_evolves_any|].
  apply replay_evolves, Q_added.
Qed.

Lemma _dvr_updated_evolves env dvr_id new_dvr :
  steps (evolves Q) (_dvr_updated env dvr_id new_dvr).
Proof.
  intros st. destruct (registered_routers st !! dvr_id) as [old_dvr|] eqn:E.
  - rewrite (_dvr_updated_run _ _ _ _ _ E).
    etrans; [apply set_registered_routers_evolves_any|].
    apply replay_evolves, Q_updated.
  - rewrite (_dvr_updated_unregistered _ _ _ _ E). reflexivity.
Qed.

Lemma _dvr_deleted_evolves dvr_id : steps (evolves Q) (_dvr_deleted dvr_id).
Proof.
  intros st. destruct (registered_routers st !! dvr_id) as [old_dvr|] eqn:E.
  - rewrite (_dvr_deleted_run _ _ _ E).
    etrans; [apply set_registered_routers_evolves_any|].
    apply replay_evolves, Q_deleted.
  - unfold _dvr_deleted, pop_registered_router.
    rewrite run_bind, run_get_bind, E. reflexivity.
Qed.

Lemma diff_loops_evolves env (T : gmap string (gmap string Subnet))
    (l1 l2 : list string) (l3 : list (string * gmap string Subnet)) :
  steps (evolves Q)
    (forM_ l1 _dvr_deleted;;
     forM_ l2 (λ d, _dvr_updated env d (T !!! d));;
     forM_ l3 (λ '(dvr_id, new_dvr), _dvr_added env dvr_id new_dvr);;
     modify (set_last_sync (time_at_end env))).
Proof.
  apply steps_bind; [apply _| |].
  { apply steps_forM; [apply _|]. intros d _. apply _dvr_deleted_evolves. }
  intros _. apply steps_bind; [apply _| |].
  { apply steps_forM; [apply _|]. intros d _. apply _dvr_updated_evolves. }
  intros _. apply steps_bind; [apply _| |].
  { apply steps_forM; [apply _|]. intros [d new] _. apply _dvr_added_evolves. }
  intros _. apply set_last_sync_evolves.
Qed.

Lemma reconcile_evolves_traces env T st : evolves Q st (reconcile env T st).2.
Proof. rewrite reconcile_loops. apply diff_loops_evolves. Qed.

Lemma fetch_and_reconcile_evolves_traces env st :
  let st' := (fetch_and_reconcile env st).2 in
  dvr_mac_address st' = dvr_mac_address st
  ∧ registered_dvr_macs st' = registered_dvr_macs st
  ∧ flow_log st' = flow_log st ++ issued st st'
  ∧ Forall Q (issued st st').
Proof.
  cbn zeta. unfold fetch_and_reconcile. destruct (throttled env st).
  { cbn [snd]. by rewrite issued_refl, app_nil_r. }
  destruct (get_openflow_ew_dvrs env (host st)) as [T|].
  - destruct (reconcile_evolves_traces env T (count_fetch st))
      as (_ & _ & _ & Hm & Hr & _ & ops & Hlog & Hops).
    change (flow_log (count_fetch st)) with (flow_log st) in Hlog.
    by rewrite (issued_app _ _ _ Hlog).
  - cbn [snd]. unfold issued. cbn. by rewrite drop_all, app_nil_r.
Qed.
End DiffSteps.

(** X9.  Once the DVR MAC of this host is set, [sync_dvr_ports] writes to
    the integration bridge only, so the physical bridges passed to it are
    not touched, and it changes neither that MAC nor the registered MACs of
    the other hosts, whatever the bridges accept. *)
Theorem sync_dvr_ports_int_br_only env phy_brs st :
  truthy (dvr_mac_address st) = true →
  let st' := (sync_dvr_ports env phy_brs st).2 in
  dvr_mac_address st' = dvr_mac_address st
  ∧ registered_dvr_macs st' = registered_dvr_macs st
  ∧ flow_log st' = flow_log st ++ issued st st'
  ∧ Forall on_int_br (issued st st').
Proof.
  intros Hmac. cbn zeta. rewrite sync_dvr_ports_run, Hmac.
  apply (fetch_and_reconcile_evolves_traces on_int_br).
  - apply trace_dvr_added_int_br.
  - apply trace_dvr_updated_int_br.
  - apply trace_dvr_deleted_int_br.
Qed.

Lemma sync_dvr_ports_int_br_only_witness :
  let st := Scenario.synced in
  let st' := (sync_dvr_ports
                (Scenario.env (Some Scenario.self_mac) (Some Scenario.T_new_port) 2000)
                {[ "physnet1" := "br-eth1" ]} st).2 in
  issued st st' ≠ []
  ∧ dvr_mac_address st' = dvr_mac_address st
  ∧ registered_dvr_macs st' = registered_dvr_macs st
  ∧ flow_log st' = flow_log st ++ issued st st'
  ∧ Forall on_int_br (issued st st').
Proof.
  cbn zeta. split; [vm_compute; discriminate|].
  apply sync_dvr_ports_int_br_only. by vm_compute.
Defined.

Lemma phys_brs_loop_healthy (l : list string) kw st :
  budget st = None →
  forM_ l (λ br, emit (phys_br br) (add_flow kw)) st
  = (Ok tt, set_flow_log (flow_log st ++ ((λ br, (phys_br br, add_flow kw)) <$> l)) st).
Proof.
  revert st. induction l as [|br l IH]; intros st Hb.
  - cbn. rewrite app_nil_r. by destruct st.
  - cbn [forM_]. rewrite run_bind, emit_healthy by done. cbv beta iota.
    rewrite IH by done. cbn. by rewrite <- app_assoc.
Qed.

(** The retry at the head of [sync_dvr_ports] when the plugin knows the
    DVR MAC of the host. *)
Lemma retry_dvr_mac_obtained env phy_brs st mac :
  budget st = None →
  get_dvr_mac_address_by_host env (host st) = Some mac →
  truthy (Some mac) = true →
  let st1 := set_dvr_mac_address (Some mac) st in
  retry_dvr_mac env phy_brs st
  = (Ok tt, set_flow_log
              (flow_log st
               ++ (int_br, add_flow (kw_set_src_to_dvr st1))
                  :: ((λ br, (phys_br br, add_flow (kw_phys_br st1)))
                        <$> (map_to_list phy_brs).*2)) st1).
Proof.
  intros Hb Hrpc Hmac. cbn zeta. unfold retry_dvr_mac, _get_dvr_mac_address.
  rewrite run_bind, run_get_bind, Hrpc. unfold modify. cbv beta iota.
  unfold _set_src_to_dvr. rewrite run_bind, run_get_bind.
  cbn [dvr_mac_address set_dvr_mac_address]. rewrite Hmac.
  rewrite emit_healthy by done. cbv beta iota.
  unfold setup_dvr_flows_on_phys_brs. rewrite run_get_bind.
  cbn [dvr_mac_address set_dvr_mac_address set_flow_log]. rewrite Hmac. cbn [negb].
  rewrite phys_brs_loop_healthy by done. cbn. by rewrite <- app_assoc.
Qed.

(** X10.  The retry of the DVR MAC is not throttled.  While the MAC is
    unset, every call of [sync_dvr_ports] asks the plugin for it; when
    the plugin answers (bridges that accept the calls), the call records
    the MAC and installs first the rule of table 2 that rewrites the
    source to it, then the priority-3 rule on each physical bridge, before
    any operation of the diff, and also when the fetch itself is
    throttled. *)
Theorem sync_dvr_ports_obtains_mac env phy_brs st mac :
  truthy (dvr_mac_address st) = false →
  get_dvr_mac_address_by_host env (host st) = Some mac →
  truthy (Some mac) = true →
  budget st = None →
  let st' := (sync_dvr_ports env phy_brs st).2 in
  dvr_mac_address st' = Some mac
  ∧ ∃ rest,
      issued st st'
      = (int_br, add_flow (kw_set_src_to_dvr st'))
        :: ((λ br, (phys_br br, add_flow (kw_phys_br st'))) <$> (map_to_list phy_brs).*2)
        ++ rest
      ∧ Forall topology_op rest
      ∧ (time_at_check env - last_sync st < sync_interval st → rest = []).
Proof.
  intros Hunset Hrpc Hmac Hb. cbn zeta.
  rewrite sync_dvr_ports_run, Hunset.
  rewrite (retry_dvr_mac_obtained env phy_brs st mac Hb Hrpc Hmac). cbv zeta.
  set (st1 := set_dvr_mac_address (Some mac) st).
  set (prologue := (int_br, add_flow (kw_set_src_to_dvr st1))
                   :: ((λ br, (phys_br br, add_flow (kw_phys_br st1)))
                         <$> (map_to_list phy_brs).*2)).
  set (st2 := set_flow_log (flow_log st ++ prologue) st1).
  assert (∃ rest, dvr_mac_address (fetch_and_reconcile env st2).2 = Some mac
                  ∧ int_ofports (fetch_and_reconcile env st2).2 = int_ofports st
                  ∧ flow_log (fetch_and_reconcile env st2).2 = flow_log st2 ++ rest
                  ∧ Forall topology_op rest
                  ∧ (throttled env st2 = true → rest = []))
    as (rest & Hm & Hp & Hlog & Hrest & Hthr).
  { unfold fetch_and_reconcile. destruct (throttled env st2).
    { exists []. by rewrite app_nil_r. }
    destruct (get_openflow_ew_dvrs env (host st2)) as [T|].
    - destruct (reconcile_evolves env T (count_fetch st2))
        as (_ & _ & Hp & Hm & _ & _ & ops & Hlog & Hops).
      exists ops. by rewrite Hm, Hp.
    - exists []. by rewrite app_nil_r. }
  split; [done|]. exists rest.
  rewrite (kw_set_src_to_dvr_ext st1) by (by rewrite ?Hm, ?Hp).
  replace (kw_phys_br (fetch_and_reconcile env st2).2) with (kw_phys_br st1)
    by (unfold kw_phys_br; by rewrite Hm).
  split; [|split; [done|]].
  - apply issued_app. rewrite Hlog. subst st2. cbn [flow_log set_flow_log].
    by rewrite <- app_assoc.
  - intros Hlt. apply Hthr. unfold throttled. by apply bool_decide_eq_true_2.
Qed.

Lemma sync_dvr_ports_obtains_mac_witness :
  let st := Scenario.synced_without_mac in
  let st' := (sync_dvr_ports (Scenario.env (Some Scenario.self_mac) (Some Scenario.T) 1100)
                             {[ "physnet1" := "br-eth1" ]} st).2 in
  dvr_mac_address st' = Some Scenario.self_mac
  ∧ ∃ rest,
      issued st st'
      = (int_br, add_flow (kw_set_src_to_dvr st'))
        :: ((λ br, (phys_br br, add_flow (kw_phys_br st')))
              <$> (map_to_list ({[ "physnet1" := "br-eth1" ]} : gmap string string)).*2)
        ++ rest
      ∧ Forall topology_op rest
      ∧ (1100 - last_sync st < sync_interval st → rest = []).
Proof.
  cbn zeta.
  apply (sync_dvr_ports_obtains_mac
           (Scenario.env (Some Scenario.self_mac) (Some Scenario.T) 1100)
           {[ "physnet1" := "br-eth1" ]} Scenario.synced_without_mac Scenario.self_mac).
  - by vm_compute.
  - reflexivity.
  - by vm_compute.
  - by vm_compute.
Defined.

(** *** When the topology is fetched *)

(** X11.  The topology is fetched whenever it is due.  If at least
    [sync_interval] has elapsed since [last_sync], a call of
    [sync_dvr_ports] asks the plugin for the topology exactly once,
    provided the call gets that far: the DVR MAC is set already, or the
    bridges accept the calls of the retry. *)
Theorem sync_dvr_ports_fetches_when_due env phy_brs st :
  sync_interval st ≤ time_at_check env - last_sync st →
  truthy (dvr_mac_address st) = true ∨ budget st = None →
  fetches (sync_dvr_ports env phy_brs st).2 = S (fetches st).
Proof.
  intros Hdue Hcase.
  assert (∀ st1, last_sync st1 = last_sync st → sync_interval st1 = sync_interval st →
            fetches st1 = fetches st →
            fetches (fetch_and_reconcile env st1).2 = S (fetches st)) as Hmain.
  { intros st1 Hl Hi Hf. unfold fetch_and_reconcile, throttled.
    rewrite bool_decide_eq_false_2 by (rewrite Hl, Hi; lia).
    destruct (get_openflow_ew_dvrs env (host st1)) as [T|].
    - destruct (reconcile_evolves env T (count_fetch st1)) as (_&_&_&_&_&Hfe&_).
      rewrite Hfe. cbn. by rewrite Hf.
    - cbn. by rewrite Hf. }
  rewrite sync_dvr_ports_run.
  destruct (truthy (dvr_mac_address st)) eqn:Hmac; [by apply Hmain|].
  destruct Hcase as [?|Hb]; [done|].
  pose proof (retry_dvr_mac_retried env phy_brs st) as (_ & Hi & _ & _ & _ & Hl & Hf & _).
  pose proof (retry_dvr_mac_tracks env phy_brs st) as Ht.
  apply tracks_no_key_error in Ht as [_ Hok]. destruct (Hok Hb) as [Hok' _].
  destruct (retry_dvr_mac env phy_brs st) as [[[]|e] st1]; [|done].
  by apply Hmain.
Qed.

Lemma sync_dvr_ports_fetches_when_due_witness :
  fetches (sync_dvr_ports (Scenario.env (Some Scenario.self_mac) (Some Scenario.T) 1301)
                          ∅ Scenario.synced).2
  = S (fetches Scenario.synced).
Proof.
  apply sync_dvr_ports_fetches_when_due.
  - vm_compute. discriminate.
  - left. by vm_compute.
Defined.

Global Instance keeps_last_sync_preorder : PreOrder keeps_last_sync.
Proof. split; [by intros st|]. intros a b c Hab Hbc. unfold keeps_last_sync in *. congruence. Qed.

Lemma replay_keeps_last_sync evs : steps keeps_last_sync (replay evs).
Proof.
  apply steps_forM; [apply _|]. intros e _ st. destruct e as [br op|d s p]; [|done].
  unfold do_event, emit. by destruct (budget st) as [[|k]|].
Qed.

Lemma _dvr_added_keeps_last_sync env dvr_id new_dvr :
  steps keeps_last_sync (_dvr_added env dvr_id new_dvr).
Proof.
  intros st. rewrite _dvr_added_run.
  exact (replay_keeps_last_sync _ (set_registered_routers _ st)).
Qed.

Lemma _dvr_updated_keeps_last_sync env dvr_id new_dvr :
  steps keeps_last_sync (_dvr_updated env dvr_id new_dvr).
Proof.
  intros st. destruct (registered_routers st !! dvr_id) as [old_dvr|] eqn:E.
  - rewrite (_dvr_updated_run _ _ _ _ _ E).
    exact (replay_keeps_last_sync _ (set_registered_routers _ st)).
  - by rewrite (_dvr_updated_unregistered _ _ _ _ E).
Qed.

Lemma _dvr_deleted_keeps_last_sync dvr_id : steps keeps_last_sync (_dvr_deleted dvr_id).
Proof.
  intros st. destruct (registered_routers st !! dvr_id) as [old_dvr|] eqn:E.
  - rewrite (_dvr_deleted_run _ _ _ E).
    exact (replay_keeps_last_sync _ (set_registered_routers _ st)).
  - unfold _dvr_deleted, pop_registered_router.
    by rewrite run_bind, run_get_bind, E.
Qed.

(** [last_sync] after the three loops of the diff: written when they
    completed, untouched when one of them raised. *)
Lemma diff_loops_last_sync env (T : gmap string (gmap string Subnet))
    (l1 l2 : list string) (l3 : list (string * gmap string Subnet)) st :
  let r := (forM_ l1 _dvr_deleted;;
            forM_ l2 (λ d, _dvr_updated env d (T !!! d));;
            forM_ l3 (λ '(dvr_id, new_dvr), _dvr_added env dvr_id new_dvr);;
            modify (set_last_sync (time_at_end env))) st in
  match r.1 with
  | Ok _ => last_sync r.2 = time_at_end env
  | Raise _ => last_sync r.2 = last_sync st
  end.
Proof.
  cbn zeta.
  assert (steps keeps_last_sync (forM_ l1 _dvr_deleted)) as H1.
  { apply steps_forM; [apply _|]. intros d _. apply _dvr_deleted_keeps_last_sync. }
  assert (steps keeps_last_sync (forM_ l2 (λ d, _dvr_updated env d (T !!! d)))) as H2.
  { apply steps_forM; [apply _|]. intros d _. apply _dvr_updated_keeps_last_sync. }
  assert (steps keeps_last_sync
            (forM_ l3 (λ '(dvr_id, new_dvr), _dvr_added env dvr_id new_dvr))) as H3.
  { apply steps_forM; [apply _|]. intros [d new] _. apply _dvr_added_keeps_last_sync. }
  rewrite run_bind. specialize (H1 st). unfold keeps_last_sync in *.
  destruct (forM_ l1 _dvr_deleted st) as [[[]|e] st1]; [|exact H1].
  rewrite run_bind. specialize (H2 st1).
  destruct (forM_ l2 _ st1) as [[[]|e] st2]; cbn [fst snd] in *; [|congruence].
  rewrite run_bind. specialize (H3 st2).
  destruct (forM_ l3 _ st2) as [[[]|e] st3]; cbn [fst snd] in *; [done|congruence].
Qed.

Lemma reconcile_last_sync env (T : gmap string (gmap string Subnet)) st :
  match (reconcile env T st).1 with
  | Ok _ => last_sync (reconcile env T st).2 = time_at_end env
  | Raise _ => last_sync (reconcile env T st).2 = last_sync st
  end.
Proof. rewrite reconcile_loops. apply diff_loops_last_sync. Qed.

(** X12.  [last_sync] is written only at the end of a sync that fetched
    the topology and completed the diff.  A call of [sync_dvr_ports] that
    is throttled, whose fetch raises or in which a bridge call raises
    leaves [last_sync] as it was, so it does not delay the next
    attempt. *)
Theorem sync_dvr_ports_last_sync env phy_brs st :
  let r := sync_dvr_ports env phy_brs st in
  last_sync r.2 = last_sync st
  ∨ (last_sync r.2 = time_at_end env
     ∧ r.1 = Ok tt
     ∧ fetches r.2 = S (fetches st)
     ∧ is_Some (get_openflow_ew_dvrs env (host st))).
Proof.
  cbn zeta.
  assert (∀ st1, last_sync st1 = last_sync st → host st1 = host st →
            fetches st1 = fetches st →
            let r := fetch_and_reconcile env st1 in
            last_sync r.2 = last_sync st
            ∨ (last_sync r.2 = time_at_end env ∧ r.1 = Ok tt
               ∧ fetches r.2 = S (fetches st)
               ∧ is_Some (get_openflow_ew_dvrs env (host st)))) as Hmain.
  { intros st1 Hl Hh Hf. cbn zeta. unfold fetch_and_reconcile.
    destruct (throttled env st1); [by left|].
    rewrite Hh. destruct (get_openflow_ew_dvrs env (host st)) as [T|]; [|by left].
    pose proof (reconcile_last_sync env T (count_fetch st1)) as Hls.
    destruct (reconcile_evolves env T (count_fetch st1)) as (_&_&_&_&_&Hfe&_).
    destruct (reconcile env T (count_fetch st1)) as [[[]|e] st2].
    - right. cbn [fst snd] in *. split; [done|]. split; [done|].
      split; [|by eexists]. rewrite Hfe. cbn. by rewrite Hf.
    - left. cbn [fst snd] in *. by rewrite Hls. }
  rewrite sync_dvr_ports_run.
  destruct (truthy (dvr_mac_address st)); [by apply Hmain|].
  pose proof (retry_dvr_mac_retried env phy_brs st) as (Hh & _ & _ & _ & _ & Hl & Hf & _).
  destruct (retry_dvr_mac env phy_brs st) as [[[]|e] st1]; [|by left].
  by apply Hmain.
Qed.

(** ** A router that is added and then deleted *)

Lemma trace_ok_flows_of Q evs : trace_ok Q evs → Forall Q (flows_of evs).
Proof.
  induction 1 as [|e evs He _ IH]; [constructor|].
  destruct e as [br op|d s p]; [by constructor|done].
Qed.

Lemma trace_dvr_deleted_removals h deleted_dvr :
  trace_ok is_delete (trace_dvr_deleted h deleted_dvr).
Proof.
  unfold trace_dvr_deleted, trace_subnet_deleted, trace_port_deleted,
    trace_del_flows_to_other_subnets, trace_del_flows_to_port,
    trace_del_flows_to_hosted_port.
  trace_forall.
Qed.

Lemma trace_dvr_added_installs env h ms dvr_id new_dvr :
  trace_ok (is_add (λ _, True)) (trace_dvr_added env h ms dvr_id new_dvr).
Proof.
  unfold trace_dvr_added, trace_subnet_added, trace_port_added,
    trace_add_flows_to_other_subnets, trace_add_flows_to_port,
    trace_add_flows_to_hosted_port.
  trace_forall.
Qed.

Lemma trace_dvr_added_clears_within env h ms dvr_id new_dvr :
  Forall (clears_within dvr_id) (trace_dvr_added env h ms dvr_id new_dvr).
Proof.
  unfold trace_dvr_added, trace_subnet_added, trace_port_added,
    trace_add_flows_to_other_subnets, trace_add_flows_to_port,
    trace_add_flows_to_hosted_port.
  trace_forall.
Qed.

Lemma registry_after_other evs (X : gmap string (gmap string Subnet)) dvr_id k :
  Forall (clears_within dvr_id) evs → k ≠ dvr_id →
  registry_after evs X !! k = X !! k.
Proof.
  intros Hevs Hk. revert X. induction Hevs as [|e evs He _ IH]; intros X; [done|].
  change (registry_after (e :: evs) X) with (registry_after evs (registry_after [e] X)).
  rewrite IH. destruct e as [br op|d s p]; [done|]. cbn in *. subst d.
  unfold clear_port_host. by rewrite lookup_alter_ne.
Qed.

(** A port in the registry after one write and after the writes of a
    trace. *)
Lemma lookup_clear_port_host_any d2 s2 p2 (X : gmap string (gmap string Subnet))
    d sid pid dvr s p :
  X !! d = Some dvr → dvr !! sid = Some s → subnet_ports s !! pid = Some p →
  ∃ dvr1 s1 p1,
    clear_port_host d2 s2 p2 X !! d = Some dvr1
    ∧ dvr1 !! sid = Some s1
    ∧ subnet_ports s1 !! pid = Some p1
    ∧ (EClearHost d2 s2 p2 ≠ EClearHost d sid pid → p1 = p).
Proof.
  intros Hd Hs Hp. unfold clear_port_host.
  destruct (decide (d2 = d)) as [->|Hnd].
  2:{ exists dvr, s, p. rewrite lookup_alter_ne by done. done. }
  rewrite lookup_alter_eq, Hd. cbn.
  destruct (decide (s2 = sid)) as [->|Hns].
  2:{ exists (alter (clear_subnet_port_host p2) s2 dvr), s, p.
      rewrite lookup_alter_ne by done. done. }
  destruct (decide (p2 = pid)) as [->|Hnp].
  - exists (alter (clear_subnet_port_host pid) sid dvr), (clear_subnet_port_host pid s),
      (clear_host p).
    split; [done|]. split; [by rewrite lookup_alter_eq, Hs|].
    split; [cbn; by rewrite lookup_alter_eq, Hp|]. done.
  - exists (alter (clear_subnet_port_host p2) sid dvr), (clear_subnet_port_host p2 s), p.
    split; [done|]. split; [by rewrite lookup_alter_eq, Hs|].
    split; [cbn; by rewrite lookup_alter_ne|]. done.
Qed.

Lemma registry_after_port evs (X : gmap string (gmap string Subnet)) d sid pid dvr s p :
  X !! d = Some dvr → dvr !! sid = Some s → subnet_ports s !! pid = Some p →
  ∃ dvr' s' p',
    registry_after evs X !! d = Some dvr'
    ∧ dvr' !! sid = Some s'
    ∧ subnet_ports s' !! pid = Some p'
    ∧ (EClearHost d sid pid ∉ evs → p' = p).
Proof.
  revert X dvr s p. induction evs as [|e evs IH]; intros X dvr s p Hd Hs Hp.
  { exists dvr, s, p. done. }
  change (registry_after (e :: evs) X) with (registry_after evs (registry_after [e] X)).
  destruct e as [br op|d2 s2 p2].
  - destruct (IH X dvr s p Hd Hs Hp) as (dvr' & s' & p' & ? & ? & ? & Hsame).
    exists dvr', s', p'. split; [done|]. split; [done|]. split; [done|].
    intros Hn. apply Hsame. intros Hin. apply Hn. by right.
  - destruct (lookup_clear_port_host_any d2 s2 p2 X d sid pid dvr s p Hd Hs Hp)
      as (dvr1 & s1 & p1 & Hd1 & Hs1 & Hp1 & Hsame1).
    destruct (IH _ dvr1 s1 p1 Hd1 Hs1 Hp1) as (dvr' & s' & p' & ? & ? & ? & Hsame).
    exists dvr', s', p'. split; [done|]. split; [done|]. split; [done|].
    intros Hn. rewrite Hsame, Hsame1; [done| |].
    + intros Heq. apply Hn. rewrite Heq. by left.
    + intros Hin. apply Hn. by right.
Qed.

(** The ports whose host [_dvr_added] clears. *)
Lemma elem_of_clears_of_dvr_added env h ms dvr_id new_dvr d sid pid :
  EClearHost d sid pid ∈ trace_dvr_added env h ms dvr_id new_dvr →
  ∃ s p, new_dvr !! sid = Some s ∧ subnet_ports s !! pid = Some p
         ∧ get_port_ofport env (port_name p) = INVALID_OFPORT.
Proof.
  unfold trace_dvr_added. intros ([sid' s] & Hin & Hs%elem_of_map_to_list)%list_elem_of_bind.
  cbn [fst snd] in Hin. unfold trace_subnet_added in Hin.
  apply elem_of_app in Hin as [Hin|Hin].
  { unfold trace_add_flows_to_other_subnets in Hin.
    destruct (negb ms); [by apply elem_of_nil in Hin|].
    by apply list_elem_of_fmap in Hin as (? & ? & _). }
  apply list_elem_of_bind in Hin as ([pid' p] & Hin & Hp%elem_of_map_to_list).
  unfold trace_port_added in Hin. cbn [fst snd] in Hin.
  apply elem_of_app in Hin as [Hin|Hin].
  { unfold trace_add_flows_to_port in Hin.
    destruct (negb ms); [by apply elem_of_nil in Hin|].
    by apply list_elem_of_fmap in Hin as (? & ? & _). }
  unfold trace_add_flows_to_hosted_port in Hin.
  case_bool_decide; [by apply elem_of_nil in Hin|].
  case_bool_decide as Hof.
  - apply list_elem_of_singleton in Hin. injection Hin as -> -> ->. by exists s, p.
  - by apply list_elem_of_singleton in Hin.
Qed.

Lemma erase_hosts_lookup (X Y : gmap string Subnet) sid s :
  erase_hosts Y = erase_hosts X → X !! sid = Some s →
  ∃ s', Y !! sid = Some s'
        ∧ subnet_cidr s' = subnet_cidr s
        ∧ subnet_gateway_mac s' = subnet_gateway_mac s
        ∧ subnet_seg_id s' = subnet_seg_id s
        ∧ clear_host <$> subnet_ports s' = clear_host <$> subnet_ports s.
Proof.
  intros Heq Hs. apply (f_equal (λ m, m !! sid)) in Heq.
  unfold erase_hosts in Heq. rewrite !lookup_fmap, Hs in Heq.
  destruct (Y !! sid) as [s'|]; [|done]. exists s'. split; [done|].
  cbn in Heq. injection Heq as ? ? ? ?. done.
Qed.

Lemma clear_hosts_lookup (P P' : gmap string Port) pid p :
  clear_host <$> P' = clear_host <$> P → P !! pid = Some p →
  ∃ p', P' !! pid = Some p'
        ∧ port_mac p' = port_mac p ∧ port_ip p' = port_ip p
        ∧ port_name p' = port_name p.
Proof.
  intros Heq Hp. apply (f_equal (λ m, m !! pid)) in Heq.
  rewrite !lookup_fmap, Hp in Heq.
  destruct (P' !! pid) as [p'|]; [|done]. exists p'. split; [done|].
  cbn in Heq. injection Heq as ? ? ?. done.
Qed.

Lemma erase_hosts_sets (X Y : gmap string Subnet) :
  erase_hosts Y = erase_hosts X →
  cidrs_of Y = cidrs_of X ∧ gateway_macs_of Y = gateway_macs_of X.
Proof.
  intros Heq. split; apply set_eq; intros x.
  - rewrite !elem_of_cidrs_of. split; intros (sid & s & Hs & <-).
    + destruct (erase_hosts_lookup Y X sid s (eq_sym Heq) Hs) as (s' & ? & ? & _).
      by exists sid, s'.
    + destruct (erase_hosts_lookup X Y sid s Heq Hs) as (s' & ? & ? & _).
      by exists sid, s'.
  - rewrite !elem_of_gateway_macs_of. split; intros (sid & s & Hs & <-).
    + destruct (erase_hosts_lookup Y X sid s (eq_sym Heq) Hs) as (s' & ? & ? & ? & _).
      by exists sid, s'.
    + destruct (erase_hosts_lookup X Y sid s Heq Hs) as (s' & ? & ? & ? & _).
      by exists sid, s'.
Qed.

(** X13.  A router that is added and then deleted leaves nothing behind.
    With bridges that accept the calls and a router id that was not
    registered, [_dvr_added] followed by [_dvr_deleted] returns and
    restores the registry; [_dvr_added] only installs rules,
    [_dvr_deleted] only issues removals, and for every rule that
    [_dvr_added] installed [_dvr_deleted] issues a removal that names the
    table and the destination (dl_dst, proto, ip_dst) of that rule and
    nothing else.  This holds also when ports of the router await their
    attachment. *)
Theorem dvr_added_then_deleted env dvr_id new_dvr st :
  budget st = None →
  registered_routers st !! dvr_id = None →
  let a := _dvr_added env dvr_id new_dvr st in
  let d := _dvr_deleted dvr_id a.2 in
  a.1 = Ok tt
  ∧ d.1 = Ok tt
  ∧ registered_routers d.2 = registered_routers st
  ∧ Forall (is_add (λ _, True)) (issued st a.2)
  ∧ Forall is_delete (issued a.2 d.2)
  ∧ ∀ kw, (int_br, add_flow kw) ∈ issued st a.2 →
          ∃ kw', (int_br, delete_flows kw') ∈ issued a.2 d.2 ∧ removes kw' kw.
Proof.
  intros Hb Hnone. cbn zeta.
  set (R := registered_routers st). set (h := host st).
  set (ms := truthy (dvr_mac_address st)).
  set (tr := trace_dvr_added env h ms dvr_id new_dvr).
  rewrite _dvr_added_run, replay_healthy by done.
  cbn [fst snd registered_routers set_registered_routers flow_log set_flow_log].
  fold R h ms tr.
  set (X := registry_after tr (<[dvr_id := new_dvr]> R)).
  set (sta := set_registered_routers X _).
  assert (∃ new', X !! dvr_id = Some new' ∧ erase_hosts new' = erase_hosts new_dvr)
    as (new' & HX & Herase).
  { pose proof (erase_registry_after tr (<[dvr_id := new_dvr]> R) dvr_id) as He.
    fold X in He. rewrite lookup_insert_eq in He.
    destruct (X !! dvr_id) as [new'|]; [|done]. exists new'. split; [done|].
    by injection He. }
  rewrite (_dvr_deleted_healthy dvr_id new' sta) by done.
  cbn [fst snd]. split; [done|]. split; [done|]. split.
  { cbn. apply map_eq. intros k. destruct (decide (k = dvr_id)) as [->|Hne].
    - by rewrite lookup_delete_eq.
    - rewrite lookup_delete_ne by done. subst X.
      rewrite (registry_after_other _ _ dvr_id) by
        (done || apply trace_dvr_added_clears_within).
      by rewrite lookup_insert_ne. }
  assert (issued st sta = flows_of tr) as ->.
  { apply issued_app. done. }
  assert (issued sta (advance (flows_of (trace_dvr_deleted (host sta) new'))
                              (delete dvr_id) sta)
          = flows_of (trace_dvr_deleted h new')) as ->.
  { apply issued_app. done. }
  split; [apply trace_ok_flows_of, trace_dvr_added_installs|].
  split; [apply trace_ok_flows_of, trace_dvr_deleted_removals|].
  destruct (erase_hosts_sets new_dvr new' Herase) as [Hcidrs Hgws].
  intros kw (sid & s & Hs & Hin)%elem_of_flows_of_dvr_added.
  destruct (erase_hosts_lookup new_dvr new' sid s Herase Hs)
    as (s' & Hs' & Hc & Hg & Hseg & Hports).
  assert (∀ x, x ∈ flows_of (trace_subnet_deleted h s' (cidrs_of new')
                               (gateway_macs_of new')) →
               x ∈ flows_of (trace_dvr_deleted h new')) as Hdel.
  { intros x Hx. apply elem_of_flows_of_dvr_deleted. by exists sid, s'. }
  apply elem_of_flows_of_subnet_added in Hin
    as [(_ & c & Hcin & [= ->])|(pid & p & Hp & Hop)].
  - exists (kw_del_other_subnets (subnet_gateway_mac s') c). split.
    + apply Hdel, elem_of_flows_of_subnet_deleted. left. exists c.
      by rewrite Hcidrs, Hc.
    + unfold removes. cbn. by rewrite Hg.
  - destruct (clear_hosts_lookup _ _ pid p Hports Hp) as (p' & Hp' & Hm & Hi & Hn).
    destruct Hop as [(_ & g & Hgin & [= ->])|(Hh & Hready & [= ->])].
    + exists (kw_del_to_port p' g). split.
      * apply Hdel, elem_of_flows_of_subnet_deleted. right. exists pid, p'.
        split; [done|]. left. exists g. by rewrite Hgws, Hg.
      * unfold removes. cbn. by rewrite Hi.
    + exists (kw_del_hosted_port p'). split.
      * apply Hdel, elem_of_flows_of_subnet_deleted. right. exists pid, p'.
        split; [done|]. right. split; [|done].
        destruct (registry_after_port tr (<[dvr_id := new_dvr]> R) dvr_id sid pid
                    new_dvr s p) as (dvr2 & s2 & p2 & Hd2 & Hs2 & Hp2 & Hsame);
          [apply lookup_insert_eq|done|done|].
        fold X in Hd2. rewrite HX in Hd2. injection Hd2 as <-.
        rewrite Hs' in Hs2. injection Hs2 as <-.
        rewrite Hp' in Hp2. injection Hp2 as <-.
        rewrite Hsame; [done|].
        intros (s3 & p3 & Hs3 & Hp3 & Hinv)%elem_of_clears_of_dvr_added.
        rewrite Hs in Hs3. injection Hs3 as <-.
        rewrite Hp in Hp3. injection Hp3 as <-. done.
      * unfold removes. cbn. by rewrite Hm, Hi.
Qed.

Lemma dvr_added_then_deleted_witness :
  let st := Scenario.agent in
  let a := _dvr_added (Scenario.env_not_ready 1000) "R1" Scenario.R1 st in
  let d := _dvr_deleted "R1" a.2 in
  a.1 = Ok tt
  ∧ d.1 = Ok tt
  ∧ registered_routers d.2 = registered_routers st
  ∧ Forall (is_add (λ _, True)) (issued st a.2)
  ∧ Forall is_delete (issued a.2 d.2)
  ∧ ∀ kw, (int_br, add_flow kw) ∈ issued st a.2 →
          ∃ kw', (int_br, delete_flows kw') ∈ issued a.2 d.2 ∧ removes kw' kw.
Proof.
  apply (dvr_added_then_deleted (Scenario.env_not_ready 1000) "R1" Scenario.R1
           Scenario.agent); reflexivity.
Defined.

(** ** Edge cases of the helpers *)

(** X14.  [_dvr_updated] and [_dvr_deleted] pop the router from the
    registry first: for an id that is not registered they raise a
    [KeyError] before anything is changed, so no flow operation is issued
    and, for [_dvr_updated], the new router is not registered. *)
Theorem unregistered_router_raises env dvr_id new_dvr st :
  registered_routers st !! dvr_id = None →
  _dvr_updated env dvr_id new_dvr st = (Raise KeyError, st)
  ∧ _dvr_deleted dvr_id st = (Raise KeyError, st).
Proof.
  intros Hnone. split; [by apply _dvr_updated_unregistered|].
  unfold _dvr_deleted, pop_registered_router.
  by rewrite run_bind, run_get_bind, Hnone.
Qed.

Lemma unregistered_router_raises_witness :
  _dvr_updated Scenario.env1000 "R2" Scenario.R1 Scenario.synced
  = (Raise KeyError, Scenario.synced)
  ∧ _dvr_deleted "R2" Scenario.synced = (Raise KeyError, Scenario.synced).
Proof.
  apply unregistered_router_raises. by vm_compute.
Defined.

(** X15.  A port moved into the host when its new host is the host of
    the agent and its old host is not; it moved out of the host when its
    old host is the host of the agent and its new host is not.  The two
    tests never hold together, and neither holds for a port whose host
    did not change. *)
Theorem port_moved_exclusive self old_port new_port :
  (_port_moved_into_host self old_port new_port = true
   ↔ port_host new_port = host self ∧ port_host old_port ≠ host self)
  ∧ (_port_moved_out_of_host self old_port new_port = true
     ↔ port_host old_port = host self ∧ port_host new_port ≠ host self)
  ∧ _port_moved_into_host self old_port new_port
    && _port_moved_out_of_host self old_port new_port = false
  ∧ (port_host new_port = port_host old_port →
     _port_moved_into_host self old_port new_port = false
     ∧ _port_moved_out_of_host self old_port new_port = false).
Proof.
  unfold _port_moved_into_host, _port_moved_out_of_host. cbn zeta.
  repeat case_bool_decide; cbn; repeat split; try done; try congruence;
    intros [? ?]; congruence.
Qed.

(** X16.  What [_dvr_added] installs, whatever the bridges accept.  Every
    flow operation it issues installs a rule on the integration bridge
    for a subnet of the new router: an other-subnet rule that pairs the
    gateway MAC of the subnet with the CIDR of a subnet of the router
    whose CIDR is another one; a resolve rule for a port of the subnet
    keyed on the gateway MAC of a subnet of the router whose gateway MAC
    is another one; or the hosted-delivery rule of a port of the subnet
    that is bound to this host and attached.  So no rule sends the
    traffic for a subnet's own CIDR to table 1, and a router with a single
    subnet gets hosted-delivery rules only. *)
Theorem dvr_added_rules env dvr_id new_dvr st x :
  x ∈ issued st (_dvr_added env dvr_id new_dvr st).2 →
  ∃ subnet_id subnet,
    new_dvr !! subnet_id = Some subnet
    ∧ ((∃ subnet_id' subnet',
          new_dvr !! subnet_id' = Some subnet'
          ∧ subnet_cidr subnet' ≠ subnet_cidr subnet
          ∧ x = (int_br, add_flow (kw_add_other_subnets (subnet_gateway_mac subnet)
                                                         (subnet_cidr subnet'))))
       ∨ ∃ port_id port,
           subnet_ports subnet !! port_id = Some port
           ∧ ((∃ subnet_id' subnet',
                 new_dvr !! subnet_id' = Some subnet'
                 ∧ subnet_gateway_mac subnet' ≠ subnet_gateway_mac subnet
                 ∧ x = (int_br, add_flow (kw_add_to_port port (subnet_seg_id subnet)
                                            (subnet_gateway_mac subnet'))))
              ∨ (port_host port = host st
                 ∧ get_port_ofport env (port_name port) ≠ INVALID_OFPORT
                 ∧ x = (int_br,
                        add_flow (kw_add_hosted_port port (subnet_gateway_mac subnet)
                                    (get_port_ofport env (port_name port))))))).
Proof.
  rewrite _dvr_added_run.
  set (tr := trace_dvr_added _ _ _ _ _).
  destruct (replay_prefix tr (set_registered_routers
                                (<[dvr_id := new_dvr]> (registered_routers st)) st))
    as (n & _ & Hlog).
  cbn [flow_log set_registered_routers] in Hlog.
  rewrite (issued_app _ _ _ Hlog). intros Hin.
  assert (x ∈ flows_of tr) as Hx.
  { unfold flows_of in *. apply list_elem_of_omap in Hin as (e & He & Hf).
    apply list_elem_of_omap. exists e. split; [|done].
    by eapply subseteq_take. }
  apply elem_of_flows_of_dvr_added in Hx as (sid & s & Hs & Hx).
  exists sid, s. split; [done|].
  apply elem_of_flows_of_subnet_added in Hx
    as [(_ & c & [Hc Hne]%elem_of_difference & ->)|(pid & p & Hp & Hop)].
  - left. apply elem_of_cidrs_of in Hc as (sid' & s' & Hs' & <-).
    exists sid', s'. split; [done|]. split; [|done].
    intros Heq. apply Hne. by apply elem_of_singleton.
  - right. exists pid, p. split; [done|].
    destruct Hop as [(_ & g & [Hg Hne]%elem_of_difference & ->)|?]; [|by right].
    left. apply elem_of_gateway_macs_of in Hg as (sid' & s' & Hs' & <-).
    exists sid', s'. split; [done|]. split; [|done].
    intros Heq. apply Hne. by apply elem_of_singleton.
Qed.

Lemma dvr_added_rules_witness :
  let x := (int_br, add_flow (kw_add_other_subnets "aa:1" "10.0.2.0/24")) in
  x ∈ issued Scenario.agent (_dvr_added Scenario.env1000 "R1" Scenario.R1 Scenario.agent).2
  ∧ ∃ subnet_id subnet,
    Scenario.R1 !! subnet_id = Some subnet
    ∧ ((∃ subnet_id' subnet',
          Scenario.R1 !! subnet_id' = Some subnet'
          ∧ subnet_cidr subnet' ≠ subnet_cidr subnet
          ∧ x = (int_br, add_flow (kw_add_other_subnets (subnet_gateway_mac subnet)
                                                         (subnet_cidr subnet'))))
       ∨ ∃ port_id port,
           subnet_ports subnet !! port_id = Some port
           ∧ ((∃ subnet_id' subnet',
                 Scenario.R1 !! subnet_id' = Some subnet'
                 ∧ subnet_gateway_mac subnet' ≠ subnet_gateway_mac subnet
                 ∧ x = (int_br, add_flow (kw_add_to_port port (subnet_seg_id subnet)
                                            (subnet_gateway_mac subnet'))))
              ∨ (port_host port = host Scenario.agent
                 ∧ get_port_ofport Scenario.env1000 (port_name port) ≠ INVALID_OFPORT
                 ∧ x = (int_br,
                        add_flow (kw_add_hosted_port port (subnet_gateway_mac subnet)
                                    (get_port_ofport Scenario.env1000 (port_name port))))))).
Proof.
  cbn zeta.
  assert ((int_br, add_flow (kw_add_other_subnets "aa:1" "10.0.2.0/24"))
          ∈ issued Scenario.agent
              (_dvr_added Scenario.env1000 "R1" Scenario.R1 Scenario.agent).2) as Hin.
  { apply (bool_decide_unpack _). by vm_compute. }
  split; [exact Hin|].
  exact (dvr_added_rules Scenario.env1000 "R1" Scenario.R1 Scenario.agent _ Hin).
Defined.

(** ** The three handlers of the diff agree *)

Lemma replay_flows_set_registered_routers evs X st :
  Forall is_flow evs →
  replay evs (set_registered_routers X st)
  = ((replay evs st).1, set_registered_routers X (replay evs st).2).
Proof.
  intros Hf. revert st. induction Hf as [|e evs He _ IH]; intros st; [done|].
  destruct e as [br op|]; [|done].
  rewrite !replay_cons, !run_bind. unfold do_event, emit.
  cbn [budget set_registered_routers].
  destruct (budget st) as [[|k]|]; [done| |].
  - exact (IH (set_budget (Some k) (set_flow_log (flow_log st ++ [(br, op)]) st))).
  - exact (IH (set_flow_log (flow_log st ++ [(br, op)]) st)).
Qed.

Lemma trace_dvr_updated_from_empty env h ms dvr_id new_dvr :
  trace_dvr_updated env h ms dvr_id ∅ new_dvr = trace_dvr_added env h ms dvr_id new_dvr.
Proof.
  unfold trace_dvr_updated, trace_dvr_added.
  rewrite map_empty_difference.
  rewrite map_to_list_empty. cbn. rewrite app_nil_r.
  apply list_bind_ext; [|done]. intros item. by rewrite lookup_empty.
Qed.

Lemma trace_dvr_updated_to_empty env h ms dvr_id old_dvr :
  trace_dvr_updated env h ms dvr_id old_dvr ∅ = trace_dvr_deleted h old_dvr.
Proof.
  unfold trace_dvr_updated, trace_dvr_deleted.
  by rewrite map_to_list_empty, map_difference_empty.
Qed.

(** X17.  The handlers agree on the degenerate updates, whatever the
    bridges accept.  Updating a router that is registered without subnets
    is adding it: [_dvr_updated] then does exactly what [_dvr_added]
    does.  Updating a registered router to one without subnets issues
    exactly the flow operations of [_dvr_deleted], with the same outcome;
    the only difference is that the router stays registered, without
    subnets. *)
Theorem dvr_updated_degenerate env dvr_id old_dvr st :
  registered_routers st !! dvr_id = Some old_dvr →
  (old_dvr = ∅ →
   ∀ new_dvr, _dvr_updated env dvr_id new_dvr st = _dvr_added env dvr_id new_dvr st)
  ∧ (let r := _dvr_deleted dvr_id st in
     _dvr_updated env dvr_id ∅ st
     = (r.1, set_registered_routers (<[dvr_id := ∅]> (registered_routers r.2)) r.2)).
Proof.
  intros Hreg. split.
  - intros -> new_dvr.
    by rewrite (_dvr_updated_run _ _ _ _ _ Hreg), _dvr_added_run,
      trace_dvr_updated_from_empty.
  - cbn zeta.
    rewrite (_dvr_updated_run _ _ _ _ _ Hreg), (_dvr_deleted_run _ _ _ Hreg),
      trace_dvr_updated_to_empty.
    rewrite !replay_flows_set_registered_routers by apply trace_dvr_deleted_flows.
    cbn [fst snd registered_routers set_registered_routers].
    rewrite insert_delete_eq. by destruct (replay _ st) as [? []].
Qed.

Lemma dvr_updated_degenerate_witness :
  let st := Scenario.synced in
  let r := _dvr_deleted "R1" st in
  issued st r.2 ≠ []
  ∧ _dvr_updated Scenario.env1000 "R1" ∅ st
    = (r.1, set_registered_routers (<["R1" := ∅]> (registered_routers r.2)) r.2).
Proof.
  cbn zeta. split; [vm_compute; discriminate|].
  apply (dvr_updated_degenerate Scenario.env1000 "R1" Scenario.R1 Scenario.synced).
  by vm_compute.
Defined.

(** ** A port that changes *)

Lemma cidrs_of_insert_same (dvr : gmap string Subnet) sid s s' :
  dvr !! sid = Some s → subnet_cidr s' = subnet_cidr s →
  cidrs_of (<[sid := s']> dvr) = cidrs_of dvr.
Proof.
  intros Hs Hc. apply set_eq. intros c. rewrite !elem_of_cidrs_of. split.
  - intros (k & s2 & Hk & <-). destruct (decide (k = sid)) as [->|Hne].
    + rewrite lookup_insert_eq in Hk. injection Hk as <-. by exists sid, s.
    + rewrite lookup_insert_ne in Hk by done. by exists k, s2.
  - intros (k & s2 & Hk & <-). destruct (decide (k = sid)) as [->|Hne].
    + exists sid, s'. rewrite lookup_insert_eq. split; [done|]. congruence.
    + exists k, s2. by rewrite lookup_insert_ne.
Qed.

Lemma gateway_macs_of_insert_same (dvr : gmap string Subnet) sid s s' :
  dvr !! sid = Some s → subnet_gateway_mac s' = subnet_gateway_mac s →
  gateway_macs_of (<[sid := s']> dvr) = gateway_macs_of dvr.
Proof.
  intros Hs Hc. apply set_eq. intros c. rewrite !elem_of_gateway_macs_of. split.
  - intros (k & s2 & Hk & <-). destruct (decide (k = sid)) as [->|Hne].
    + rewrite lookup_insert_eq in Hk. injection Hk as <-. by exists sid, s.
    + rewrite lookup_insert_ne in Hk by done. by exists k, s2.
  - intros (k & s2 & Hk & <-). destruct (decide (k = sid)) as [->|Hne].
    + exists sid, s'. rewrite lookup_insert_eq. split; [done|]. congruence.
    + exists k, s2. by rewrite lookup_insert_ne.
Qed.

(** A port that stays while the gateway MACs of the router stay. *)
Lemma port_kept_op_same_macs env h ms subnet (gws : gset string) old_port port x :
  port_kept_op env h ms subnet gws gws old_port port x
  ↔ (port_host old_port = h ∧ port_host port ≠ port_host old_port
     ∧ x = (int_br, delete_flows (kw_del_hosted_port old_port)))
    ∨ (port_host old_port ≠ h ∧ port_host port = h
       ∧ get_port_ofport env (port_name port) ≠ INVALID_OFPORT
       ∧ x = (int_br, add_flow (kw_add_hosted_port port (subnet_gateway_mac subnet)
                                  (get_port_ofport env (port_name port))))).
Proof.
  unfold port_kept_op. rewrite difference_diag_L. split.
  - intros [(g & Hg & _)|[(_ & g & Hg & _)|H]]; [by apply elem_of_empty in Hg..|done].
  - intros H. by right; right.
Qed.

(** X18.  For a port that keeps its id in its subnet the diff looks at
    its host only.  When the fetched router differs from the registered
    one in a single port that has been replaced under its id, then (with
    bridges that accept the calls) [_dvr_updated] returns and the flow
    operations it issues are: the removal of the hosted-delivery rule of
    the old port if it was bound to this host and the new one is bound
    elsewhere; the installation of the hosted-delivery rule of the new
    port if it is bound to this host, the old one was not, and it is
    attached; and nothing else.  In particular a change of the MAC or IP
    address of the port alone issues no flow operation. *)
Theorem port_replaced env dvr_id old_dvr subnet_id subnet port_id port port' st :
  budget st = None →
  registered_routers st !! dvr_id = Some old_dvr →
  old_dvr !! subnet_id = Some subnet →
  subnet_ports subnet !! port_id = Some port →
  let subnet' := mkSubnet (subnet_cidr subnet) (subnet_gateway_mac subnet)
                          (subnet_seg_id subnet)
                          (<[port_id := port']> (subnet_ports subnet)) in
  let r := _dvr_updated env dvr_id (<[subnet_id := subnet']> old_dvr) st in
  r.1 = Ok tt
  ∧ ∀ x, x ∈ issued st r.2
         ↔ (port_host port = host st ∧ port_host port' ≠ port_host port
            ∧ x = (int_br, delete_flows (kw_del_hosted_port port)))
           ∨ (port_host port ≠ host st ∧ port_host port' = host st
              ∧ get_port_ofport env (port_name port') ≠ INVALID_OFPORT
              ∧ x = (int_br,
                     add_flow (kw_add_hosted_port port' (subnet_gateway_mac subnet)
                                 (get_port_ofport env (port_name port'))))).
Proof.
  intros Hb Hreg Hs Hp. cbn zeta.
  set (s' := mkSubnet _ _ _ _). set (new := <[subnet_id := s']> old_dvr).
  set (h := host st). set (ms := truthy (dvr_mac_address st)).
  rewrite (_dvr_updated_run _ _ _ _ _ Hreg), replay_healthy by done.
  cbn [fst snd]. split; [done|].
  intros x. rewrite (issued_app _ _ (flows_of (trace_dvr_updated env h ms dvr_id old_dvr new)))
    by done.
  rewrite elem_of_flows_of_dvr_updated.
  assert (cidrs_of new = cidrs_of old_dvr) as Hc by by eapply cidrs_of_insert_same.
  assert (gateway_macs_of new = gateway_macs_of old_dvr) as Hg
    by by eapply gateway_macs_of_insert_same.
  rewrite Hc, Hg.
  assert (∀ sid os sn, old_dvr !! sid = Some os →
            subnet_gateway_mac sn = subnet_gateway_mac os →
            x ∈ flows_of (trace_subnet_updated env h ms dvr_id sid os sn
                            (cidrs_of old_dvr) (cidrs_of old_dvr)
                            (gateway_macs_of old_dvr) (gateway_macs_of old_dvr))
            ↔ (∃ pid p, subnet_ports sn !! pid = Some p
                 ∧ match subnet_ports os !! pid with
                   | None => port_added_op env h ms sn
                               (gateway_macs_of old_dvr ∖ {[subnet_gateway_mac sn]}) p x
                   | Some op => port_kept_op env h ms sn (gateway_macs_of old_dvr)
                                             (gateway_macs_of old_dvr) op p x
                   end)
              ∨ (∃ pid op, subnet_ports os !! pid = Some op
                   ∧ subnet_ports sn !! pid = None
                   ∧ port_deleted_op h (gateway_macs_of old_dvr
                                          ∖ {[subnet_gateway_mac sn]}) op x)) as Hupd.
  { intros sid os sn _ _. rewrite elem_of_flows_of_subnet_updated, difference_diag_L.
    split; [|tauto].
    intros [(c & Hc' & _)|[(_ & c & Hc' & _)|H]]; [by apply elem_of_empty in Hc'..|done]. }
  split.
  - intros [(sid & sn & Hsn & Hin)|(sid & os & Hos & Hnone & _)].
    2:{ subst new. destruct (decide (sid = subnet_id)) as [->|Hne].
        - by rewrite lookup_insert_eq in Hnone.
        - rewrite lookup_insert_ne in Hnone by done. congruence. }
    subst new. destruct (decide (sid = subnet_id)) as [->|Hne].
    + rewrite lookup_insert_eq in Hsn. injection Hsn as <-. rewrite Hs in Hin.
      apply (Hupd subnet_id subnet s' Hs eq_refl) in Hin
        as [(pid & p & Hp' & Hop)|(pid & op & Hop & Hnone & _)].
      2:{ cbn in Hnone. destruct (decide (pid = port_id)) as [->|Hnp].
          - by rewrite lookup_insert_eq in Hnone.
          - rewrite lookup_insert_ne in Hnone by done. congruence. }
      cbn [subnet_ports s'] in Hp'.
      destruct (decide (pid = port_id)) as [->|Hnp].
      * rewrite lookup_insert_eq in Hp'. injection Hp' as <-. rewrite Hp in Hop.
        by apply port_kept_op_same_macs in Hop.
      * rewrite lookup_insert_ne in Hp' by done. rewrite Hp' in Hop.
        apply port_kept_op_same_macs in Hop as [(_ & ? & _)|(? & ? & _)]; done.
    + rewrite lookup_insert_ne in Hsn by done. rewrite Hsn in Hin.
      apply (Hupd sid sn sn Hsn eq_refl) in Hin
        as [(pid & p & Hp' & Hop)|(pid & op & Hop & Hnone & _)]; [|congruence].
      rewrite Hp' in Hop.
      apply port_kept_op_same_macs in Hop as [(_ & ? & _)|(? & ? & _)]; done.
  - intros Hx. left. exists subnet_id, s'. subst new. rewrite lookup_insert_eq, Hs.
    split; [done|]. apply (Hupd subnet_id subnet s' Hs eq_refl). left.
    exists port_id, port'. cbn [subnet_ports s']. rewrite lookup_insert_eq, Hp.
    split; [done|]. by apply port_kept_op_same_macs.
Qed.

Lemma port_replaced_witness :
  let st := Scenario.synced in
  let moved := mkPort "fa:16:3e:00:00:05" "10.0.1.5" (Some "H2") "tap-p1" in
  let subnet' := mkSubnet "10.0.1.0/24" "aa:1" 101 (<["P1" := moved]> {[ "P1" := Scenario.P1 ]}) in
  let r := _dvr_updated Scenario.env1000 "R1" (<["S1" := subnet']> Scenario.R1) st in
  r.1 = Ok tt
  ∧ ∀ x, x ∈ issued st r.2
         ↔ (port_host Scenario.P1 = host st ∧ port_host moved ≠ port_host Scenario.P1
            ∧ x = (int_br, delete_flows (kw_del_hosted_port Scenario.P1)))
           ∨ (port_host Scenario.P1 ≠ host st ∧ port_host moved = host st
              ∧ get_port_ofport Scenario.env1000 (port_name moved) ≠ INVALID_OFPORT
              ∧ x = (int_br,
                     add_flow (kw_add_hosted_port moved (subnet_gateway_mac Scenario.S1)
                                 (get_port_ofport Scenario.env1000 (port_name moved))))).
Proof.
  cbn zeta.
  apply (port_replaced Scenario.env1000 "R1" Scenario.R1 "S1" Scenario.S1 "P1" Scenario.P1
           (mkPort "fa:16:3e:00:00:05" "10.0.1.5" (Some "H2") "tap-p1") Scenario.synced).
  - by vm_compute.
  - by vm_compute.
  - by vm_compute.
  - by vm_compute.
Defined.

(** The flow operations of [_dvr_updated] when one subnet of the router
    is replaced by one with the same CIDR and gateway MAC. *)
Lemma elem_of_flows_of_dvr_updated_one_subnet env h ms dvr_id
    (old_dvr : gmap string Subnet) subnet_id subnet subnet' x :
  old_dvr !! subnet_id = Some subnet →
  subnet_cidr subnet' = subnet_cidr subnet →
  subnet_gateway_mac subnet' = subnet_gateway_mac subnet →
  x ∈ flows_of (trace_dvr_updated env h ms dvr_id old_dvr
                                  (<[subnet_id := subnet']> old_dvr))
  ↔ (∃ port_id port,
       subnet_ports subnet' !! port_id = Some port
       ∧ match subnet_ports subnet !! port_id with
         | None => port_added_op env h ms subnet'
                     (gateway_macs_of old_dvr ∖ {[subnet_gateway_mac subnet]}) port x
         | Some old_port => port_kept_op env h ms subnet' (gateway_macs_of old_dvr)
                                         (gateway_macs_of old_dvr) old_port port x
         end)
    ∨ (∃ port_id old_port,
         subnet_ports subnet !! port_id = Some old_port
         ∧ subnet_ports subnet' !! port_id = None
         ∧ port_deleted_op h (gateway_macs_of old_dvr ∖ {[subnet_gateway_mac subnet]})
                           old_port x).
Proof.
  intros Hs Hc Hg. set (new := <[subnet_id := subnet']> old_dvr).
  rewrite elem_of_flows_of_dvr_updated.
  assert (cidrs_of new = cidrs_of old_dvr) as -> by by eapply cidrs_of_insert_same.
  assert (gateway_macs_of new = gateway_macs_of old_dvr) as ->
    by by eapply gateway_macs_of_insert_same.
  assert (∀ sid os sn,
            x ∈ flows_of (trace_subnet_updated env h ms dvr_id sid os sn
                            (cidrs_of old_dvr) (cidrs_of old_dvr)
                            (gateway_macs_of old_dvr) (gateway_macs_of old_dvr))
            ↔ (∃ pid p, subnet_ports sn !! pid = Some p
                 ∧ match subnet_ports os !! pid with
                   | None => port_added_op env h ms sn
                               (gateway_macs_of old_dvr ∖ {[subnet_gateway_mac sn]}) p x
                   | Some op => port_kept_op env h ms sn (gateway_macs_of old_dvr)
                                             (gateway_macs_of old_dvr) op p x
                   end)
              ∨ (∃ pid op, subnet_ports os !! pid = Some op
                   ∧ subnet_ports sn !! pid = None
                   ∧ port_deleted_op h (gateway_macs_of old_dvr
                                          ∖ {[subnet_gateway_mac sn]}) op x)) as Hupd.
  { intros sid os sn. rewrite elem_of_flows_of_subnet_updated, difference_diag_L.
    split; [|tauto].
    intros [(c & Hc' & _)|[(_ & c & Hc' & _)|H]]; [by apply elem_of_empty in Hc'..|done]. }
  split.
  - intros [(sid & sn & Hsn & Hin)|(sid & os & Hos & Hnone & _)].
    2:{ subst new. destruct (decide (sid = subnet_id)) as [->|Hne].
        - by rewrite lookup_insert_eq in Hnone.
        - rewrite lookup_insert_ne in Hnone by done. congruence. }
    subst new. destruct (decide (sid = subnet_id)) as [->|Hne].
    + rewrite lookup_insert_eq in Hsn. injection Hsn as <-. rewrite Hs in Hin.
      apply Hupd in Hin. by rewrite Hg in Hin.
    + rewrite lookup_insert_ne in Hsn by done. rewrite Hsn in Hin.
      apply Hupd in Hin as [(pid & p & Hp' & Hop)|(pid & op & Hop & Hnone & _)];
        [|congruence].
      rewrite Hp' in Hop.
      apply port_kept_op_same_macs in Hop as [(_ & ? & _)|(? & ? & _)]; done.
  - intros Hx. left. exists subnet_id, subnet'. subst new.
    rewrite lookup_insert_eq, Hs. split; [done|]. apply Hupd. by rewrite Hg.
Qed.

(** X19.  A port that enters a subnet.  When the fetched router differs
    from the registered one in a single port that is new in its subnet,
    then (with bridges that accept the calls) [_dvr_updated] returns and
    issues exactly: with the DVR MAC of this host set, the installation
    of the resolve rule of the port for the gateway MAC of every other
    subnet of the router; and, if the port is bound to this host and
    attached, the installation of its hosted-delivery rule. *)
Theorem port_entered env dvr_id old_dvr subnet_id subnet port_id port st :
  budget st = None →
  registered_routers st !! dvr_id = Some old_dvr →
  old_dvr !! subnet_id = Some subnet →
  subnet_ports subnet !! port_id = None →
  let subnet' := mkSubnet (subnet_cidr subnet) (subnet_gateway_mac subnet)
                          (subnet_seg_id subnet)
                          (<[port_id := port]> (subnet_ports subnet)) in
  let r := _dvr_updated env dvr_id (<[subnet_id := subnet']> old_dvr) st in
  r.1 = Ok tt
  ∧ ∀ x, x ∈ issued st r.2
         ↔ (truthy (dvr_mac_address st) = true
            ∧ ∃ gateway_mac,
                gateway_mac ∈ gateway_macs_of old_dvr ∖ {[subnet_gateway_mac subnet]}
                ∧ x = (int_br, add_flow (kw_add_to_port port (subnet_seg_id subnet)
                                                        gateway_mac)))
           ∨ (port_host port = host st
              ∧ get_port_ofport env (port_name port) ≠ INVALID_OFPORT
              ∧ x = (int_br,
                     add_flow (kw_add_hosted_port port (subnet_gateway_mac subnet)
                                 (get_port_ofport env (port_name port))))).
Proof.
  intros Hb Hreg Hs Hp. cbn zeta.
  set (s' := mkSubnet _ _ _ _).
  set (h := host st). set (ms := truthy (dvr_mac_address st)).
  rewrite (_dvr_updated_run _ _ _ _ _ Hreg), replay_healthy by done.
  cbn [fst snd]. split; [done|]. intros x.
  rewrite (issued_app _ _ (flows_of (trace_dvr_updated env h ms dvr_id old_dvr
                                       (<[subnet_id := s']> old_dvr)))) by done.
  rewrite (elem_of_flows_of_dvr_updated_one_subnet env h ms dvr_id old_dvr
             subnet_id subnet s' x Hs eq_refl eq_refl).
  cbn [subnet_ports s']. split.
  - intros [(pid & p & Hp' & Hop)|(pid & op & Hop & Hnone & _)].
    2:{ destruct (decide (pid = port_id)) as [->|Hnp].
        - by rewrite lookup_insert_eq in Hnone.
        - rewrite lookup_insert_ne in Hnone by done. congruence. }
    destruct (decide (pid = port_id)) as [->|Hnp].
    + rewrite lookup_insert_eq in Hp'. injection Hp' as <-. by rewrite Hp in Hop.
    + rewrite lookup_insert_ne in Hp' by done. rewrite Hp' in Hop.
      apply port_kept_op_same_macs in Hop as [(_ & ? & _)|(? & ? & _)]; done.
  - intros Hx. left. exists port_id, port. rewrite lookup_insert_eq, Hp. done.
Qed.

Lemma port_entered_witness :
  let st := Scenario.synced in
  let subnet' := mkSubnet "10.0.2.0/24" "aa:2" 102 (<["P2" := Scenario.P2]> ∅) in
  let r := _dvr_updated Scenario.env1000 "R1" (<["S2" := subnet']> Scenario.R1) st in
  r.1 = Ok tt
  ∧ ∀ x, x ∈ issued st r.2
         ↔ (truthy (dvr_mac_address st) = true
            ∧ ∃ gateway_mac,
                gateway_mac ∈ gateway_macs_of Scenario.R1 ∖ {[subnet_gateway_mac Scenario.S2]}
                ∧ x = (int_br, add_flow (kw_add_to_port Scenario.P2
                                           (subnet_seg_id Scenario.S2) gateway_mac)))
           ∨ (port_host Scenario.P2 = host st
              ∧ get_port_ofport Scenario.env1000 (port_name Scenario.P2) ≠ INVALID_OFPORT
              ∧ x = (int_br,
                     add_flow (kw_add_hosted_port Scenario.P2
                                 (subnet_gateway_mac Scenario.S2)
                                 (get_port_ofport Scenario.env1000
                                    (port_name Scenario.P2))))).
Proof.
  cbn zeta.
  apply (port_entered Scenario.env1000 "R1" Scenario.R1 "S2" Scenario.S2 "P2" Scenario.P2
           Scenario.synced).
  - by vm_compute.
  - by vm_compute.
  - by vm_compute.
  - by vm_compute.
Defined.

(** X20.  A port that leaves a subnet.  When the fetched router differs
    from the registered one in a single port that is gone from its
    subnet, then (with bridges that accept the calls) [_dvr_updated]
    returns and issues exactly: the removal of the resolve rule of the
    port for the gateway MAC of every other subnet of the router, and, if
    the registered port is bound to this host, the removal of its
    hosted-delivery rule.  These are the removals that answer the rules
    installed when the port entered. *)
Theorem port_left env dvr_id old_dvr subnet_id subnet port_id port st :
  budget st = None →
  registered_routers st !! dvr_id = Some old_dvr →
  old_dvr !! subnet_id = Some subnet →
  subnet_ports subnet !! port_id = Some port →
  let subnet' := mkSubnet (subnet_cidr subnet) (subnet_gateway_mac subnet)
                          (subnet_seg_id subnet)
                          (delete port_id (subnet_ports subnet)) in
  let r := _dvr_updated env dvr_id (<[subnet_id := subnet']> old_dvr) st in
  r.1 = Ok tt
  ∧ ∀ x, x ∈ issued st r.2
         ↔ (∃ gateway_mac,
              gateway_mac ∈ gateway_macs_of old_dvr ∖ {[subnet_gateway_mac subnet]}
              ∧ x = (int_br, delete_flows (kw_del_to_port port gateway_mac)))
           ∨ (port_host port = host st
              ∧ x = (int_br, delete_flows (kw_del_hosted_port port))).
Proof.
  intros Hb Hreg Hs Hp. cbn zeta.
  set (s' := mkSubnet _ _ _ _).
  set (h := host st). set (ms := truthy (dvr_mac_address st)).
  rewrite (_dvr_updated_run _ _ _ _ _ Hreg), replay_healthy by done.
  cbn [fst snd]. split; [done|]. intros x.
  rewrite (issued_app _ _ (flows_of (trace_dvr_updated env h ms dvr_id old_dvr
                                       (<[subnet_id := s']> old_dvr)))) by done.
  rewrite (elem_of_flows_of_dvr_updated_one_subnet env h ms dvr_id old_dvr
             subnet_id subnet s' x Hs eq_refl eq_refl).
  cbn [subnet_ports s']. split.
  - intros [(pid & p & Hp' & Hop)|(pid & op & Hop & Hnone & Hdel)].
    + apply lookup_delete_Some in Hp' as [Hne Hp']. rewrite Hp' in Hop.
      apply port_kept_op_same_macs in Hop as [(_ & ? & _)|(? & ? & _)]; done.
    + apply lookup_delete_None in Hnone as [->|?]; [|congruence].
      rewrite Hp in Hop. injection Hop as <-. done.
  - intros Hx. right. exists port_id, port. by rewrite lookup_delete_eq.
Qed.

Lemma port_left_witness :
  let st := Scenario.synced in
  let subnet' := mkSubnet "10.0.1.0/24" "aa:1" 101 (delete "P1" {[ "P1" := Scenario.P1 ]}) in
  let r := _dvr_updated Scenario.env1000 "R1" (<["S1" := subnet']> Scenario.R1) st in
  r.1 = Ok tt
  ∧ ∀ x, x ∈ issued st r.2
         ↔ (∃ gateway_mac,
              gateway_mac ∈ gateway_macs_of Scenario.R1 ∖ {[subnet_gateway_mac Scenario.S1]}
              ∧ x = (int_br, delete_flows (kw_del_to_port Scenario.P1 gateway_mac)))
           ∨ (port_host Scenario.P1 = host st
              ∧ x = (int_br, delete_flows (kw_del_hosted_port Scenario.P1))).
Proof.
  cbn zeta.
  apply (port_left Scenario.env1000 "R1" Scenario.R1 "S1" Scenario.S1 "P1" Scenario.P1
           Scenario.synced).
  - by vm_compute.
  - by vm_compute.
  - by vm_compute.
  - by vm_compute.
Defined.
(** ** The router that a call records *)

Lemma awaits_attachment_true env h p :
  awaits_attachment env h p = true
  ↔ port_host p = h ∧ get_port_ofport env (port_name p) = INVALID_OFPORT.
Proof.
  unfold awaits_attachment.
  rewrite andb_true_iff, !bool_decide_eq_true. done.
Qed.

Lemma port_recorded_refl env h p : port_recorded env h p p.
Proof. by left. Qed.

Lemma subnet_recorded_refl env h s : subnet_recorded env h s s.
Proof.
  split; [done|]. split; [done|]. split; [done|]. intros port_id.
  destruct (subnet_ports s !! port_id); constructor. apply port_recorded_refl.
Qed.

Lemma dvr_recorded_refl env h dvr : dvr_recorded env h dvr dvr.
Proof.
  intros subnet_id. destruct (dvr !! subnet_id); constructor.
  apply subnet_recorded_refl.
Qed.

Lemma port_recorded_clear_host env h p p' :
  awaits_attachment env h p = true →
  port_recorded env h p p' → port_recorded env h p (clear_host p').
Proof.
  intros Ha [->|[_ ->]]; right; (split; [done|]); [done|apply clear_host_idemp].
Qed.

(** One write into a recorded router. *)
Lemma subnet_recorded_clear env h s cur port_id p :
  subnet_ports s !! port_id = Some p →
  awaits_attachment env h p = true →
  subnet_recorded env h s cur →
  subnet_recorded env h s (clear_subnet_port_host port_id cur).
Proof.
  intros Hp Ha (Hc & Hg & Hs & Hports).
  split; [done|]. split; [done|]. split; [done|]. intros k.
  unfold clear_subnet_port_host. cbn [subnet_ports].
  destruct (decide (k = port_id)) as [->|Hne].
  - rewrite lookup_alter_eq. specialize (Hports port_id). rewrite Hp in Hports.
    rewrite Hp. inversion Hports as [? p' Hrec|]; subst. cbn. constructor.
    by apply port_recorded_clear_host.
  - rewrite lookup_alter_ne by done. apply Hports.
Qed.

Lemma dvr_recorded_clear env h new_dvr cur subnet_id port_id s p :
  new_dvr !! subnet_id = Some s →
  subnet_ports s !! port_id = Some p →
  awaits_attachment env h p = true →
  dvr_recorded env h new_dvr cur →
  dvr_recorded env h new_dvr (alter (clear_subnet_port_host port_id) subnet_id cur).
Proof.
  intros Hs Hp Ha Hrec k.
  destruct (decide (k = subnet_id)) as [->|Hne].
  - rewrite lookup_alter_eq. specialize (Hrec subnet_id). rewrite Hs in Hrec.
    rewrite Hs. inversion Hrec as [? s' Hrec'|]; subst. cbn. constructor.
    by eapply subnet_recorded_clear.
  - rewrite lookup_alter_ne by done. apply Hrec.
Qed.

Lemma insert_alter_same {V} (f : V → V) (m : gmap string V) k v :
  <[k := v]> (alter f k m) = <[k := v]> m.
Proof.
  apply map_eq. intros k'. destruct (decide (k' = k)) as [->|Hne].
  - by rewrite !lookup_insert_eq.
  - by rewrite !lookup_insert_ne, lookup_alter_ne by done.
Qed.

(** The writes of a trace into a recorded router. *)
Lemma registry_after_recorded env h dvr_id new_dvr evs
    (X : gmap string (gmap string Subnet)) cur :
  Forall (clears_deferred env h dvr_id new_dvr) evs →
  X !! dvr_id = Some cur →
  dvr_recorded env h new_dvr cur →
  ∃ cur', registry_after evs X = <[dvr_id := cur']> X
          ∧ dvr_recorded env h new_dvr cur'.
Proof.
  intros Hevs. revert X cur. induction Hevs as [|e evs He _ IH]; intros X cur HX Hrec.
  { exists cur. split; [|done]. cbn. by rewrite insert_id. }
  change (registry_after (e :: evs) X) with (registry_after evs (registry_after [e] X)).
  destruct e as [br op|d sid pid].
  { apply (IH X cur HX Hrec). }
  destruct He as (-> & s & p & Hs & Hp & Ha). cbn [registry_after foldl].
  unfold clear_port_host.
  destruct (IH (alter (alter (clear_subnet_port_host pid) sid) dvr_id X)
               (alter (clear_subnet_port_host pid) sid cur)) as (cur' & Hreg & Hrec').
  { by rewrite lookup_alter_eq, HX. }
  { by eapply dvr_recorded_clear. }
  exists cur'. split; [|done]. by rewrite Hreg, insert_alter_same.
Qed.

(** *** The writes of the traces *)

Lemma is_flow_clears_deferred env h dvr_id new_dvr evs :
  Forall is_flow evs → Forall (clears_deferred env h dvr_id new_dvr) evs.
Proof. intros H. eapply Forall_impl; [exact H|]. by intros [br op|d s p]. Qed.

Section Deferred.
Context (env : Env) (h : option string) (ms : bool).
Context (dvr_id : string) (new_dvr : gmap string Subnet).

Lemma trace_add_flows_to_hosted_port_deferred subnet_id port_id s p gateway_mac :
  new_dvr !! subnet_id = Some s →
  subnet_ports s !! port_id = Some p →
  Forall (clears_deferred env h dvr_id new_dvr)
         (trace_add_flows_to_hosted_port env h dvr_id subnet_id port_id p gateway_mac).
Proof.
  intros Hs Hp. unfold trace_add_flows_to_hosted_port.
  case_bool_decide as Hh; [constructor|].
  case_bool_decide as Hof; (constructor; [|constructor]); [|done].
  split; [done|]. exists s, p. split; [done|]. split; [done|].
  apply awaits_attachment_true. split; [|done].
  by destruct (decide (port_host p = h)).
Qed.

Lemma trace_port_added_deferred subnet_id s other_gateway_macs port_id p :
  new_dvr !! subnet_id = Some s →
  subnet_ports s !! port_id = Some p →
  Forall (clears_deferred env h dvr_id new_dvr)
         (trace_port_added env h ms dvr_id subnet_id s other_gateway_macs (port_id, p)).
Proof.
  intros Hs Hp. apply Forall_app. split.
  - apply is_flow_clears_deferred, trace_add_flows_to_port_flows.
  - by apply (trace_add_flows_to_hosted_port_deferred subnet_id port_id s p).
Qed.

Lemma trace_subnet_added_deferred subnet_id s cidrs gateway_macs :
  new_dvr !! subnet_id = Some s →
  Forall (clears_deferred env h dvr_id new_dvr)
         (trace_subnet_added env h ms dvr_id subnet_id s cidrs gateway_macs).
Proof.
  intros Hs. apply Forall_app. split.
  - apply is_flow_clears_deferred, trace_add_flows_to_other_subnets_flows.
  - apply Forall_bind, Forall_forall. intros [port_id p] Hin%elem_of_map_to_list.
    by apply trace_port_added_deferred.
Qed.

Lemma trace_subnet_updated_deferred subnet_id old_subnet s
    old_cidrs cidrs old_gateway_macs gateway_macs :
  new_dvr !! subnet_id = Some s →
  Forall (clears_deferred env h dvr_id new_dvr)
         (trace_subnet_updated env h ms dvr_id subnet_id old_subnet s
            old_cidrs cidrs old_gateway_macs gateway_macs).
Proof.
  intros Hs. unfold trace_subnet_updated.
  apply Forall_app. split.
  { apply is_flow_clears_deferred, trace_del_flows_to_other_subnets_flows. }
  apply Forall_app. split.
  { apply is_flow_clears_deferred, trace_add_flows_to_other_subnets_flows. }
  apply Forall_app. split.
  - apply Forall_bind, Forall_forall. intros [port_id p] Hin%elem_of_map_to_list.
    unfold compose. cbn beta. unfold trace_subnet_updated_port. cbn [fst snd].
    destruct (subnet_ports old_subnet !! port_id) as [old_port|];
      [|by apply trace_port_added_deferred].
    apply Forall_app. split.
    { apply is_flow_clears_deferred, trace_del_flows_to_port_flows. }
    apply Forall_app. split.
    { apply is_flow_clears_deferred, trace_add_flows_to_port_flows. }
    destruct (_ && _).
    { apply is_flow_clears_deferred, trace_del_flows_to_hosted_port_flows. }
    destruct (_ && _); [|constructor].
    by apply (trace_add_flows_to_hosted_port_deferred subnet_id port_id s p).
  - apply is_flow_clears_deferred, Forall_bind, Forall_forall.
    intros port _. apply trace_port_deleted_flows.
Qed.

Lemma trace_dvr_added_deferred :
  Forall (clears_deferred env h dvr_id new_dvr)
         (trace_dvr_added env h ms dvr_id new_dvr).
Proof.
  apply Forall_bind, Forall_forall. intros [subnet_id s] Hin%elem_of_map_to_list.
  by apply trace_subnet_added_deferred.
Qed.

Lemma trace_dvr_updated_deferred old_dvr :
  Forall (clears_deferred env h dvr_id new_dvr)
         (trace_dvr_updated env h ms dvr_id old_dvr new_dvr).
Proof.
  apply Forall_app. split.
  - apply Forall_bind, Forall_forall. intros [subnet_id s] Hin%elem_of_map_to_list.
    unfold compose. cbn beta. cbn [fst snd].
    destruct (old_dvr !! subnet_id).
    + by apply trace_subnet_updated_deferred.
    + by apply trace_subnet_added_deferred.
  - apply is_flow_clears_deferred, Forall_bind, Forall_forall.
    intros subnet _. apply trace_subnet_deleted_flows.
Qed.
End Deferred.

(** *** What the handlers of the diff leave in the registry

    These hold whatever the bridges accept. *)

Lemma replay_recorded env h dvr_id new_dvr evs
    (R : gmap string (gmap string Subnet)) st :
  Forall (clears_deferred env h dvr_id new_dvr) evs →
  ∃ recorded,
    registered_routers (replay evs (set_registered_routers (<[dvr_id := new_dvr]> R) st)).2
    = <[dvr_id := recorded]> R
    ∧ dvr_recorded env h new_dvr recorded.
Proof.
  intros Hevs.
  destruct (replay_prefix evs (set_registered_routers (<[dvr_id := new_dvr]> R) st))
    as (n & Hr & _).
  rewrite Hr. cbn [registered_routers set_registered_routers].
  destruct (registry_after_recorded env h dvr_id new_dvr (take n evs)
              (<[dvr_id := new_dvr]> R) new_dvr) as (cur & Hreg & Hrec).
  - by apply Forall_take.
  - apply lookup_insert_eq.
  - apply dvr_recorded_refl.
  - exists cur. by rewrite Hreg, insert_insert_eq.
Qed.

Lemma _dvr_added_recorded env dvr_id new_dvr st :
  ∃ recorded,
    registered_routers (_dvr_added env dvr_id new_dvr st).2
    = <[dvr_id := recorded]> (registered_routers st)
    ∧ dvr_recorded env (host st) new_dvr recorded.
Proof.
  rewrite _dvr_added_run. apply replay_recorded, trace_dvr_added_deferred.
Qed.

Lemma _dvr_updated_recorded env dvr_id new_dvr old_dvr st :
  registered_routers st !! dvr_id = Some old_dvr →
  ∃ recorded,
    registered_routers (_dvr_updated env dvr_id new_dvr st).2
    = <[dvr_id := recorded]> (registered_routers st)
    ∧ dvr_recorded env (host st) new_dvr recorded.
Proof.
  intros Hold. rewrite (_dvr_updated_run _ _ _ _ _ Hold).
  apply replay_recorded, trace_dvr_updated_deferred.
Qed.

(** A router none of whose ports awaits its attachment is recorded as it
    is. *)
Lemma dvr_recorded_ready env h new_dvr recorded :
  dvr_ready env h new_dvr →
  dvr_recorded env h new_dvr recorded → recorded = new_dvr.
Proof.
  intros Hready Hrec. apply map_eq. intros subnet_id.
  specialize (Hrec subnet_id).
  destruct (new_dvr !! subnet_id) as [s|] eqn:Hs;
    inversion Hrec as [? s' (Hc & Hg & Hseg & Hports)|]; subst; [|done].
  f_equal. destruct s as [c g seg ports], s' as [c' g' seg' ports']. cbn in *.
  subst. f_equal. apply map_eq. intros port_id.
  specialize (Hports port_id).
  destruct (ports !! port_id) as [p|] eqn:Hp;
    inversion Hports as [? p' Hrecp|]; subst; [|done].
  destruct Hrecp as [->|[Ha _]]; [done|]. exfalso.
  apply awaits_attachment_true in Ha as [Hh Hof].
  by apply (Hready subnet_id _ Hs port_id p Hp).
Qed.
(** ** Registration comes first *)

(** C10.  [_dvr_added] and [_dvr_updated] write the new router into
    [registered_routers] before they issue a flow operation: each is the
    registry write followed by the events of its trace.  So whatever the
    bridges accept, and also when a bridge call raises after any number of
    flow operations, the state they leave has the new router recorded under
    its id and the other routers as they were; nothing is rolled back.
    The recorded router has the subnets and ports of the new one with
    their attributes; a port of it differs from the new one only by a
    cleared host, and only if it is bound to this host and awaits its
    attachment.  When no port of the new router awaits its attachment, the
    recorded router is the new one.  [_dvr_added] does so for any id;
    [_dvr_updated] for a registered id, and for an id that is not
    registered it raises a [KeyError] before anything is written. *)
Theorem registered_before_flows env dvr_id new_dvr st :
  let h := host st in
  let ms := truthy (dvr_mac_address st) in
  let written :=
    set_registered_routers (<[dvr_id := new_dvr]> (registered_routers st)) st in
  let added := _dvr_added env dvr_id new_dvr st in
  let updated := _dvr_updated env dvr_id new_dvr st in
  added = replay (trace_dvr_added env h ms dvr_id new_dvr) written
  ∧ (∃ recorded,
       registered_routers added.2 = <[dvr_id := recorded]> (registered_routers st)
       ∧ dvr_recorded env h new_dvr recorded)
  ∧ (dvr_ready env h new_dvr →
     registered_routers added.2 = <[dvr_id := new_dvr]> (registered_routers st))
  ∧ (∀ old_dvr, registered_routers st !! dvr_id = Some old_dvr →
       updated = replay (trace_dvr_updated env h ms dvr_id old_dvr new_dvr) written
       ∧ (∃ recorded,
            registered_routers updated.2
            = <[dvr_id := recorded]> (registered_routers st)
            ∧ dvr_recorded env h new_dvr recorded)
       ∧ (dvr_ready env h new_dvr →
          registered_routers updated.2
          = <[dvr_id := new_dvr]> (registered_routers st)))
  ∧ (registered_routers st !! dvr_id = None → updated = (Raise KeyError, st)).
Proof.
  cbn zeta. split; [apply _dvr_added_run|].
  split; [apply _dvr_added_recorded|].
  split.
  { intros Hready.
    destruct (_dvr_added_recorded env dvr_id new_dvr st) as (recorded & -> & Hrec).
    by rewrite (dvr_recorded_ready _ _ _ _ Hready Hrec). }
  split.
  { intros old_dvr Hold. split; [by apply _dvr_updated_run|].
    split; [by eapply _dvr_updated_recorded|].
    intros Hready.
    destruct (_dvr_updated_recorded env dvr_id new_dvr old_dvr st Hold)
      as (recorded & -> & Hrec).
    by rewrite (dvr_recorded_ready _ _ _ _ Hready Hrec). }
  apply _dvr_updated_unregistered.
Qed.

Lemma registered_before_flows_witness :
  let st := set_budget (Some 1%nat) Scenario.synced in
  let added := _dvr_added (Scenario.env_not_ready 1000) "R2" Scenario.R1 st in
  let updated := _dvr_updated Scenario.env1000 "R1" {[ "S2" := Scenario.S2 ]} st in
  (added.1 = Raise FlowError
   ∧ ∃ recorded,
       registered_routers added.2 = <[ "R2" := recorded ]> (registered_routers st)
       ∧ dvr_recorded (Scenario.env_not_ready 1000) (host st) Scenario.R1 recorded)
  ∧ (updated.1 = Raise FlowError
     ∧ registered_routers updated.2
       = <[ "R1" := {[ "S2" := Scenario.S2 ]} ]> (registered_routers st)).
Proof.
  cbn zeta. split.
  - split; [by vm_compute|].
    exact (proj1 (proj2 (registered_before_flows (Scenario.env_not_ready 1000) "R2"
                           Scenario.R1 (set_budget (Some 1%nat) Scenario.synced)))).
  - split; [by vm_compute|].
    destruct (registered_before_flows Scenario.env1000 "R1" {[ "S2" := Scenario.S2 ]}
                (set_budget (Some 1%nat) Scenario.synced)) as (_ & _ & _ & Hupd & _).
    destruct (Hupd Scenario.R1) as (_ & _ & Hready); [by vm_compute|].
    apply Hready. intros subnet_id s _ port_id port _ _. vm_compute. discriminate.
Defined.

(** ** Readiness deferral *)






(** *** The next diff of a router recorded with deferred ports *)




Section Retry.
(** [env] answered the call that recorded the router, [env'] answers the
    next one; the agent has a host name. *)
Context (env env' : Env) (h : option string) (ms : bool).
Hypothesis host_named : h ≠ None.




End Retry.



(** ** The registry after a sync *)

Lemma _dvr_deleted_registry dvr_id st st' :
  _dvr_deleted dvr_id st = (Ok tt, st') →
  host st' = host st
  ∧ registered_routers st' = delete dvr_id (registered_routers st).
Proof.
  destruct (registered_routers st !! dvr_id) as [old|] eqn:Hold.
  2:{ unfold _dvr_deleted, pop_registered_router.
      rewrite run_bind, run_get_bind, Hold. done. }
  rewrite (_dvr_deleted_run _ _ _ Hold). intros Hrun.
  pose proof (replay_host (trace_dvr_deleted (host st) old)
                (set_registered_routers (delete dvr_id (registered_routers st)) st)) as Hh.
  destruct (replay_prefix (trace_dvr_deleted (host st) old)
              (set_registered_routers (delete dvr_id (registered_routers st)) st))
    as (n & Hr & _).
  rewrite Hrun in Hh, Hr. cbn [snd] in Hh, Hr. split; [done|].
  rewrite Hr. apply registry_after_flows, Forall_take, trace_dvr_deleted_flows.
Qed.

Lemma _dvr_updated_host env dvr_id new_dvr st :
  host (_dvr_updated env dvr_id new_dvr st).2 = host st.
Proof.
  destruct (registered_routers st !! dvr_id) as [old|] eqn:Hold.
  - rewrite (_dvr_updated_run _ _ _ _ _ Hold).
    exact (replay_host _ (set_registered_routers _ st)).
  - by rewrite _dvr_updated_unregistered.
Qed.

(** The loop over the routers to delete, when it returns. *)
Lemma delete_loop_registry (l : list string) st st' :
  forM_ l _dvr_deleted st = (Ok tt, st') →
  host st' = host st
  ∧ ∀ d, registered_routers st' !! d
         = if decide (d ∈ l) then None else registered_routers st !! d.
Proof.
  revert st. induction l as [|a l IH]; intros st.
  { intros [= <-]. split; [done|]. intros d.
    by rewrite decide_False by apply not_elem_of_nil. }
  cbn [forM_]. rewrite run_bind.
  destruct (_dvr_deleted a st) as [[[]|e] s1] eqn:Ea; [|done].
  destruct (_dvr_deleted_registry a st s1 Ea) as [Hh Hreg].
  intros Hrun. destruct (IH s1 Hrun) as [Hh' Hl]. split; [congruence|].
  intros d. rewrite Hl. destruct (decide (d ∈ l)) as [Hin|Hin].
  - rewrite decide_True; [done|by right].
  - rewrite Hreg. destruct (decide (d = a)) as [->|Hne].
    + rewrite decide_True by left. apply lookup_delete_eq.
    + rewrite decide_False by (by intros [?|?]%elem_of_cons).
      by apply lookup_delete_ne.
Qed.

(** A loop whose rounds each record the fetched router of one id, when
    it returns. *)
Lemma record_loop_registry {A} (key : A → string) (body : A → M unit)
    env (T : gmap string (gmap string Subnet)) (l : list A) st st' :
  (∀ a s s', a ∈ l → body a s = (Ok tt, s') →
     host s' = host s
     ∧ ∃ x, registered_routers s' = <[key a := x]> (registered_routers s)
            ∧ dvr_recorded env (host s) (T !!! key a) x) →
  forM_ l body st = (Ok tt, st') →
  host st' = host st
  ∧ ∀ d, (d ∈ key <$> l →
          ∃ x, registered_routers st' !! d = Some x
               ∧ dvr_recorded env (host st) (T !!! d) x)
         ∧ (d ∉ key <$> l → registered_routers st' !! d = registered_routers st !! d).
Proof.
  revert st. induction l as [|a l IH]; intros st Hbody.
  { intros [= <-]. split; [done|]. intros d. split; [|done].
    by intros ?%elem_of_nil. }
  cbn [forM_]. rewrite run_bind.
  destruct (body a st) as [[[]|e] s1] eqn:Ea; [|done].
  destruct (Hbody a st s1) as (Hh & x & Hreg & Hrec); [left|done|].
  intros Hrun. destruct (IH s1) as [Hh' Hl]; [|done|].
  { intros a' s s' Hin. apply Hbody. by right. }
  split; [congruence|]. intros d. destruct (Hl d) as [Hin Hout].
  rewrite Hh in Hin. rewrite fmap_cons. split.
  - intros Hd. destruct (decide (d ∈ key <$> l)) as [Hdl|Hdl]; [by apply Hin|].
    apply elem_of_cons in Hd as [->|Hd]; [|done].
    rewrite (Hout Hdl), Hreg, lookup_insert_eq. by exists x.
  - intros Hd. apply not_elem_of_cons in Hd as [Hne Hd].
    by rewrite (Hout Hd), Hreg, lookup_insert_ne.
Qed.

(** Whenever [reconcile] returns, the registry is the fetched topology up
    to the hosts of the ports that await their attachment. *)
Lemma reconcile_recorded env (T : gmap string (gmap string Subnet)) st st' :
  reconcile env T st = (Ok tt, st') →
  topology_recorded env (host st) T (registered_routers st').
Proof.
  rewrite reconcile_loops.
  set (R := registered_routers st).
  pose proof (elem_of_dvrs_to_delete R T) as Hdel.
  pose proof (elem_of_dvrs_to_update R T) as Hupd.
  rewrite run_bind.
  destruct (forM_ (elements (classify_registered R T).1) _dvr_deleted st)
    as [[[]|e] st1] eqn:E1; [|done].
  destruct (delete_loop_registry _ _ _ E1) as [Hh1 Hreg1].
  rewrite run_bind.
  destruct (forM_ (elements (classify_registered R T).2) _ st1)
    as [[[]|e] st2] eqn:E2; [|done].
  destruct (record_loop_registry id (λ d, _dvr_updated env d (T !!! d)) env T
              (elements (classify_registered R T).2) st1 st2)
    as [Hh2 Hreg2]; [|exact E2|].
  { intros a s s' _ Hrun. pose proof (_dvr_updated_host env a (T !!! a) s) as Hh.
    rewrite Hrun in Hh. split; [done|].
    destruct (registered_routers s !! a) as [old|] eqn:Hold.
    - destruct (_dvr_updated_recorded env a (T !!! a) old s Hold) as (x & Hx & Hrec).
      rewrite Hrun in Hx. by exists x.
    - by rewrite _dvr_updated_unregistered in Hrun. }
  rewrite run_bind.
  destruct (forM_ (map_to_list (T ∖ R)) _ st2) as [[[]|e] st3] eqn:E3; [|done].
  destruct (record_loop_registry fst
              (λ '(dvr_id, new_dvr), _dvr_added env dvr_id new_dvr) env T
              (map_to_list (T ∖ R)) st2 st3) as [Hh3 Hreg3]; [|exact E3|].
  { intros [d new] s s' Hin%elem_of_map_to_list%lookup_difference_Some Hrun.
    destruct Hin as [HT _]. cbn [fst].
    rewrite (lookup_total_correct _ _ _ HT).
    pose proof (_dvr_added_host env d new s) as Hh.
    destruct (_dvr_added_recorded env d new s) as (x & Hx & Hrec).
    rewrite Hrun in Hh, Hx. split; [done|]. by exists x. }
  intros [= <-]. cbn [registered_routers set_last_sync].
  intros d.
  destruct (Hreg3 d) as [Hadd_in Hadd_out]. destruct (Hreg2 d) as [Hupd_in Hupd_out].
  rewrite list_fmap_id in Hupd_in, Hupd_out.
  rewrite Hh2, Hh1 in Hadd_in. rewrite Hh1 in Hupd_in.
  assert (d ∈ (map_to_list (T ∖ R)).*1 ↔ is_Some (T !! d) ∧ R !! d = None) as Hkeys.
  { rewrite elem_of_map_keys. split.
    - intros [v [? ?]%lookup_difference_Some]. eauto.
    - intros [[v ?] ?]. exists v. by apply lookup_difference_Some. }
  destruct (T !! d) as [t|] eqn:HT.
  - destruct (R !! d) as [r|] eqn:HR.
    + rewrite Hadd_out. 2:{ rewrite Hkeys. intros [_ ?]. congruence. }
      destruct Hupd_in as (x & -> & Hrec).
      { apply elem_of_elements, Hupd. eauto. }
      constructor. by rewrite (lookup_total_correct _ _ _ HT) in Hrec.
    + destruct Hadd_in as (x & -> & Hrec); [apply Hkeys; eauto|].
      constructor. by rewrite (lookup_total_correct _ _ _ HT) in Hrec.
  - rewrite Hadd_out. 2:{ rewrite Hkeys. intros [[? ?] _]. congruence. }
    rewrite Hupd_out.
    2:{ intros [_ [? ?]]%elem_of_elements%Hupd. congruence. }
    rewrite Hreg1. destruct (decide _) as [Hin|Hin]; [constructor|].
    destruct (R !! d) as [r|] eqn:HR.
    + exfalso. apply Hin, elem_of_elements, Hdel. eauto.
    + fold R. rewrite HR. constructor.
Qed.

Lemma topology_recorded_ready env h (T R : gmap string (gmap string Subnet)) :
  topology_ready env h T → topology_recorded env h T R → R = T.
Proof.
  intros Hready Hrec. apply map_eq. intros d. specialize (Hrec d).
  destruct (T !! d) as [t|] eqn:HT; inversion Hrec as [? x Hx|]; subst; [|done].
  f_equal. eapply dvr_recorded_ready; [|done]. by eapply Hready.
Qed.

(** X8.  Whenever a sync that fetched the topology returns, the registry
    holds the routers of the fetched topology and no other, each with the
    subnets and ports of the fetched one and their attributes; a recorded
    port differs from the fetched one only by a cleared host, and only if
    it is bound to this host and its attachment was not resolved.  So the
    registry is the fetched topology when no port awaits its attachment.
    [last_sync] is the time at the end of the sync.  This holds from any
    registry and whatever the bridges accept. *)
Theorem sync_dvr_ports_registers env phy_brs st T :
  let r := sync_dvr_ports env phy_brs st in
  get_openflow_ew_dvrs env (host st) = Some T →
  r.1 = Ok tt →
  fetches r.2 ≠ fetches st →
  topology_recorded env (host st) T (registered_routers r.2)
  ∧ (topology_ready env (host st) T → registered_routers r.2 = T)
  ∧ last_sync r.2 = time_at_end env.
Proof.
  cbn zeta. intros Hfetch. rewrite sync_dvr_ports_run.
  assert (∀ st1, host st1 = host st → fetches st1 = fetches st →
            (fetch_and_reconcile env st1).1 = Ok tt →
            fetches (fetch_and_reconcile env st1).2 ≠ fetches st →
            topology_recorded env (host st) T
              (registered_routers (fetch_and_reconcile env st1).2)
            ∧ last_sync (fetch_and_reconcile env st1).2 = time_at_end env) as Hmain.
  { intros st1 Hh Hf. unfold fetch_and_reconcile.
    destruct (throttled env st1); [by intros _ []|].
    rewrite Hh, Hfetch. intros Hok _.
    destruct (reconcile env T (count_fetch st1)) as [[[]|e] st2] eqn:E; [|done].
    cbn [fst snd] in *. split.
    - rewrite <- Hh. exact (reconcile_recorded env T (count_fetch st1) st2 E).
    - by apply (reconcile_ok_last_sync env T (count_fetch st1)). }
  assert (∀ st1, host st1 = host st → fetches st1 = fetches st →
            (fetch_and_reconcile env st1).1 = Ok tt →
            fetches (fetch_and_reconcile env st1).2 ≠ fetches st →
            topology_recorded env (host st) T
              (registered_routers (fetch_and_reconcile env st1).2)
            ∧ (topology_ready env (host st) T →
               registered_routers (fetch_and_reconcile env st1).2 = T)
            ∧ last_sync (fetch_and_reconcile env st1).2 = time_at_end env) as Hmain'.
  { intros st1 Hh Hf Hok Hfe. destruct (Hmain st1 Hh Hf Hok Hfe) as [Hrec Hl].
    split; [done|]. split; [|done]. intros Hready.
    by eapply topology_recorded_ready. }
  destruct (truthy (dvr_mac_address st)); [by apply Hmain'|].
  pose proof (retry_dvr_mac_retried env phy_brs st) as (Hh & _ & _ & _ & _ & _ & Hf & _).
  destruct (retry_dvr_mac env phy_brs st) as [[[]|e] st1]; [|done].
  by apply Hmain'.
Qed.

Lemma sync_dvr_ports_registers_witness :
  let r := sync_dvr_ports (Scenario.env_not_ready 1000) ∅ Scenario.agent in
  topology_recorded (Scenario.env_not_ready 1000) (Some "H1") Scenario.T
                    (registered_routers r.2)
  ∧ last_sync r.2 = 1001.
Proof.
  cbn zeta.
  destruct (sync_dvr_ports_registers (Scenario.env_not_ready 1000) ∅ Scenario.agent
              Scenario.T) as (Hrec & _ & Hl).
  - reflexivity.
  - by vm_compute.
  - vm_compute. discriminate.
  - split; [exact Hrec|exact Hl].
Defined.
(** ** After a bridge failure *)









